(** * Rendering core of the DEM Systems site: ASCII video engine and
      metamorphosis canvas

    A shallow embedding of [src/js/ascii-video-engine.js] and of the phase
    timeline, the seeded generator and the particle set-up of
    [src/js/metamorphosis-canvas.js].

    JavaScript Numbers are IEEE 754 binary64 values; they are modelled by
    Rocq's primitive [float], so that [0.2126 * r] below is the very
    multiplication the browser performs.  Loop counters, array indices and
    typed-array bytes are integers in the source and are modelled by [nat]
    and [Z]. *)

From Stdlib Require Import String Ascii.
From Stdlib Require Import ZArith QArith Qround Floats Uint63 Lia Lqa List Bool ZifyUint63.
From stdpp Require Import base list gmap.

Set Warnings "-inexact-float".
Close Scope Q_scope.
Local Open Scope Z_scope.

(** ** JavaScript numbers *)

Module JS.

Local Open Scope float_scope.

(** A typed-array byte or a string length read as a Number.  Exact for
    [0 <= z < 2^53]. *)
Definition num_of_Z (z : Z) : float := of_uint63 (Uint63.of_Z z).

(** The integer value of an integral Number (truncation towards zero
    otherwise; zeros, NaN and infinities give 0). *)
Definition num_to_Z (x : float) : Z :=
  match Prim2SF x with
  | S754_finite s m e =>
      let a := Z.shiftl (Zpos m) e in if s then Z.opp a else a
  | _ => 0%Z
  end.

(** [is_integral x]: [x] is a finite Number with no fractional part. *)
Definition is_integral (x : float) : bool :=
  match Prim2SF x with
  | S754_zero _ => true
  | S754_finite _ m e => (0 <=? e)%Z || (Z.land (Zpos m) (Z.ones (- e)) =? 0)%Z
  | _ => false
  end.

Definition two52 : float := 4503599627370496.

(** [Math.floor].  Below [2^52] in magnitude, adding and removing [2^52]
    rounds to an integer, which is then corrected downwards; from [2^52] on
    every binary64 value is an integer already.  NaN, infinities and the
    signed zeros are returned unchanged. *)
Definition Math_floor (x : float) : float :=
  if abs x <? two52 then
    if x =? 0 then x
    else
      let t := if 0 <? x then (x + two52) - two52 else (x - two52) + two52 in
      if x <? t then t - 1 else t
  else x.

(** [Math.round]: the nearest integer, ties towards [+infinity]; a zero
    result keeps the sign of a negative argument. *)
Definition Math_round (x : float) : float :=
  let f := Math_floor x in
  let r := if (x - f) <? 0.5 then f else f + 1 in
  if (r =? 0) && (x <? 0) then neg_zero else r.

(** [Math.min] and [Math.max]: NaN is contagious and [-0 < +0]. *)
Definition Math_min (a b : float) : float :=
  if is_nan a then a else if is_nan b then b
  else if b <? a then b else if a <? b then a
  else if get_sign a then a else b.

Definition Math_max (a b : float) : float :=
  if is_nan a then a else if is_nan b then b
  else if a <? b then b else if b <? a then a
  else if get_sign a then b else a.

(** The conversion a [Uint8ClampedArray] applies to a stored Number
    (ECMAScript ToUint8Clamp): NaN gives 0, the value is clamped to
    [0, 255] and rounded to the nearest integer, ties to even. *)
Definition ToUint8Clamp_num (x : float) : float :=
  if is_nan x then 0
  else if x <=? 0 then 0
  else if 255 <=? x then 255
  else
    let f := Math_floor x in
    if (f + 0.5) <? x then f + 1
    else if x <? (f + 0.5) then f
    else if Math_floor (f / 2) * 2 =? f then f else f + 1.

Definition ToUint8Clamp (x : float) : Z := num_to_Z (ToUint8Clamp_num x).

(** A JavaScript string: its UTF-16 code units. *)
Abbreviation jsstring := (list Z).

(** String literal made of ASCII characters. *)
Fixpoint str (s : string) : jsstring :=
  match s with
  | EmptyString => []
  | String c s' => Z.of_nat (nat_of_ascii c) :: str s'
  end.

(** [s[i]] for a Number [i]: the code unit at [i] when [i] is a
    non-negative integer below the length, [undefined] ([None]) otherwise. *)
Definition str_get (s : jsstring) (i : float) : option Z :=
  if is_integral i && (0 <=? num_to_Z i)%Z then s !! Z.to_nat (num_to_Z i)
  else None.

End JS.

Import JS.

(** ** Luminance (ascii-video-engine.js, lines 53-55) *)

Local Open Scope float_scope.

Definition calculateLuminance (r g b : float) : float :=
  Math_round (0.2126 * r + 0.7152 * g + 0.0722 * b).

Local Close Scope float_scope.

(** The luminance of three bytes, as an integer. *)
Definition luminance (r g b : Z) : Z :=
  num_to_Z (calculateLuminance (num_of_Z r) (num_of_Z g) (num_of_Z b)).

(** ** Typed arrays, image data and the heap

    A [Uint8ClampedArray] is a list of bytes.  Reading past the end gives
    [undefined], which arithmetic turns into NaN; writing past the end is
    ignored; a stored Number goes through [ToUint8Clamp].  Arrays live in
    a heap so that a copy and its source are distinct objects. *)

Definition arr_get (d : list Z) (i : nat) : float :=
  match d !! i with
  | Some v => num_of_Z v
  | None => nan
  end.

Definition arr_set (d : list Z) (i : nat) (v : float) : list Z :=
  <[i := ToUint8Clamp v]> d.

Abbreviation heap := (gmap nat (list Z)).

Record ImageData := mkImageData { width : nat; height : nat; data : nat }.

(** The bytes of an image's array. *)
Definition buffer (σ : heap) (img : ImageData) : list Z :=
  default [] (σ !! data img).

(** [new Uint8ClampedArray(src)] followed by in-place work [f] on the copy,
    then [new ImageData(copy, width, height)]: the copy is a fresh array,
    and the constructor throws ([None]) unless both dimensions are positive
    and the array has [4 * width * height] bytes. *)
Definition new_ImageData (σ : heap) (d : list Z) (w h : nat)
  : option (ImageData * heap) :=
  if (0 <? w)%nat && (0 <? h)%nat && (length d =? 4 * w * h)%nat then
    let l := fresh (dom σ) in
    Some (mkImageData w h l, <[l := d]> σ)
  else None.

(** The invariant of every [ImageData] object of the platform. *)
Definition wf_image (σ : heap) (img : ImageData) : Prop :=
  exists d, σ !! data img = Some d /\
    length d = (4 * width img * height img)%nat /\
    (0 < width img)%nat /\ (0 < height img)%nat /\
    Forall (fun v => 0 <= v <= 255) d.

(** The pixel at column [x] and row [y] of an image: its four channels. *)
Definition pixel_index (w x y : nat) : nat := ((y * w + x) * 4)%nat.

(** ** Character ramps (lines 60-98) *)

Local Open Scope float_scope.

(** The ramp index [charForLuminance] computes for a ramp of [len >= 2]
    characters. *)
Definition rampIndex (luminance : float) (len : nat) (invert : bool) : float :=
  let len := num_of_Z (Z.of_nat len) in
  let clamped := Math_max 0 (Math_min 255 luminance) in
  let index := Math_floor ((clamped / 255) * len) in
  let index := Math_min index (len - 1) in
  if invert then len - 1 - index else index.

(** The result is a string, or [undefined] ([None]) when the index is not
    an index of the ramp. *)
Definition charForLuminance (luminance : float) (characters : jsstring)
    (invert : bool) : option jsstring :=
  let len := length characters in
  if (len =? 0)%nat then Some (str " ")
  else if (len =? 1)%nat then Some characters
  else
    option_map (fun c => [c])
      (str_get characters (rampIndex luminance len invert)).

(** [row += v]: [undefined] is appended as the text "undefined". *)
Definition str_append (row : jsstring) (v : option jsstring) : jsstring :=
  row ++ default (str "undefined") v.

Definition mapLuminance (σ : heap) (imageData : ImageData)
    (characters : jsstring) (invert : bool) : list jsstring :=
  let width := width imageData in
  let height := height imageData in
  let data := buffer σ imageData in
  fold_left (fun rows y =>
    let row :=
      fold_left (fun row x =>
        let idx := pixel_index width x y in
        let r := arr_get data idx in
        let g := arr_get data (idx + 1) in
        let b := arr_get data (idx + 2) in
        let luminance := calculateLuminance r g b in
        str_append row (charForLuminance luminance characters invert))
      (seq 0 width) [] in
    rows ++ [row])
  (seq 0 height) [].

(** ** Sub-pixel encoders (lines 109-213) *)

Definition BRAILLE_DOT_MAP : list (list Z) :=
  [ [0x01; 0x08]; [0x02; 0x10]; [0x04; 0x20]; [0x40; 0x80] ]%Z.

Definition getPixelLuminance (data : list Z) (width height : nat) (x y : Z)
  : float :=
  if ((x <? 0) || (x >=? Z.of_nat width) || (y <? 0) || (y >=? Z.of_nat height))%Z
  then 0
  else
    let idx := Z.to_nat ((y * Z.of_nat width + x) * 4) in
    calculateLuminance (arr_get data idx) (arr_get data (idx + 1))
      (arr_get data (idx + 2)).

(** [Math.ceil(n / k)] for a dimension [n] and [k = 2] or [4]. *)
Definition ceil_div (n k : nat) : nat := ((n + k - 1) / k)%nat.

(** The dot pattern of the braille cell at [(charX, charY)]. *)
Definition braillePattern (data : list Z) (width height : nat)
    (threshold : float) (charX charY : nat) : Z :=
  fold_left (fun pattern dy =>
    fold_left (fun pattern dx =>
      let px := Z.of_nat (charX * 2 + dx) in
      let py := Z.of_nat (charY * 4 + dy) in
      let lum := getPixelLuminance data width height px py in
      if threshold <? lum
      then Z.lor pattern (nth dx (nth dy BRAILLE_DOT_MAP []) 0%Z)
      else pattern)
    (seq 0 2) pattern)
  (seq 0 4) 0%Z.

Definition encodeBraille (σ : heap) (imageData : ImageData)
    (threshold : float) : list jsstring :=
  let width := width imageData in
  let height := height imageData in
  let data := buffer σ imageData in
  let charWidth := ceil_div width 2 in
  let charHeight := ceil_div height 4 in
  fold_left (fun rows charY =>
    let row :=
      fold_left (fun row charX =>
        let pattern := braillePattern data width height threshold charX charY in
        row ++ [0x2800 + pattern]%Z)
      (seq 0 charWidth) [] in
    rows ++ [row])
  (seq 0 charHeight) [].

(** " ▘▝▀▖▌▞▛▗▚▐▜▄▙▟█", indexed by the 4-bit pattern. *)
Definition QUADRANT_CHARS : jsstring :=
  [ 0x20; 0x2598; 0x259D; 0x2580; 0x2596; 0x258C; 0x259E; 0x259B;
    0x2597; 0x259A; 0x2590; 0x259C; 0x2584; 0x2599; 0x259F; 0x2588 ]%Z.

(** [{dx, dy, bit}] for the four quadrants. *)
Definition positions : list (nat * nat * Z) :=
  [ (0, 0, 1%Z); (1, 0, 2%Z); (0, 1, 4%Z); (1, 1, 8%Z) ]%nat.

Definition blockPattern (data : list Z) (width height : nat)
    (threshold : float) (charX charY : nat) : Z :=
  fold_left (fun pattern '(dx, dy, bit) =>
    let px := Z.of_nat (charX * 2 + dx) in
    let py := Z.of_nat (charY * 2 + dy) in
    let lum := getPixelLuminance data width height px py in
    if threshold <? lum then Z.lor pattern bit else pattern)
  positions 0%Z.

Definition encodeBlocks (σ : heap) (imageData : ImageData)
    (threshold : float) : list jsstring :=
  let width := width imageData in
  let height := height imageData in
  let data := buffer σ imageData in
  let charWidth := ceil_div width 2 in
  let charHeight := ceil_div height 2 in
  fold_left (fun rows charY =>
    let row :=
      fold_left (fun row charX =>
        let pattern := blockPattern data width height threshold charX charY in
        str_append row
          (option_map (fun c => [c]) (QUADRANT_CHARS !! Z.to_nat pattern)))
      (seq 0 charWidth) [] in
    rows ++ [row])
  (seq 0 charHeight) [].

Local Close Scope float_scope.

(** ** Dithering (lines 245-385) *)

Local Open Scope float_scope.

(** [lum > 128 ? 255 : 0] *)
Definition quantize (lum : float) : float := if 128 <? lum then 255 else 0.

(** [Math.max(0, Math.min(255, v))] *)
Definition clamp255 (v : float) : float := Math_max 0 (Math_min 255 v).

(** The bounds test of both [distribute] closures; it yields the index of
    the neighbour at offset [(dx, dy)] of [(x, y)]. *)
Definition neighbour (width height x y : nat) (dx dy : Z) : option nat :=
  let nx := (Z.of_nat x + dx)%Z in
  let ny := (Z.of_nat y + dy)%Z in
  if ((nx >=? 0) && (nx <? Z.of_nat width) &&
      (ny >=? 0) && (ny <? Z.of_nat height))%Z
  then Some (Z.to_nat ((ny * Z.of_nat width + nx) * 4))
  else None.

(** The closure [distribute] of [floydSteinbergDither], with the variables
    it captures as parameters. *)
Definition fs_distribute (width height x y : nat) (errR errG errB : float)
    (dx dy : Z) (factor : float) (data : list Z) : list Z :=
  match neighbour width height x y dx dy with
  | Some nidx =>
      let data := arr_set data nidx
                    (clamp255 (arr_get data nidx + errR * factor)) in
      let data := arr_set data (nidx + 1)
                    (clamp255 (arr_get data (nidx + 1) + errG * factor)) in
      arr_set data (nidx + 2)
        (clamp255 (arr_get data (nidx + 2) + errB * factor))
  | None => data
  end.

(** Body of the two loops of [floydSteinbergDither] at pixel [(x, y)]. *)
Definition fs_pixel (width height x y : nat) (data : list Z) : list Z :=
  let idx := pixel_index width x y in
  let oldR := arr_get data idx in
  let oldG := arr_get data (idx + 1) in
  let oldB := arr_get data (idx + 2) in
  let lum := calculateLuminance oldR oldG oldB in
  let newVal := quantize lum in
  let data := arr_set data idx newVal in
  let data := arr_set data (idx + 1) newVal in
  let data := arr_set data (idx + 2) newVal in
  let errR := oldR - newVal in
  let errG := oldG - newVal in
  let errB := oldB - newVal in
  let distribute := fs_distribute width height x y errR errG errB in
  let data := distribute 1%Z 0%Z (7 / 16) data in
  let data := distribute (-1)%Z 1%Z (3 / 16) data in
  let data := distribute 0%Z 1%Z (5 / 16) data in
  distribute 1%Z 1%Z (1 / 16) data.

(** [for (y ...) for (x ...) body], on the working copy of the bytes. *)
Definition scan (width height : nat) (body : nat -> nat -> list Z -> list Z)
    (data : list Z) : list Z :=
  fold_left (fun data y =>
    fold_left (fun data x => body x y data) (seq 0 width) data)
  (seq 0 height) data.

Definition floydSteinbergDither (σ : heap) (imageData : ImageData)
  : option (ImageData * heap) :=
  let width := width imageData in
  let height := height imageData in
  let data := buffer σ imageData in
  let data := scan width height (fs_pixel width height) data in
  new_ImageData σ data width height.

(** The closure [distribute] of [atkinsonDither]. *)
Definition atkinson_distribute (width height x y : nat) (errPart : float)
    (dx dy : Z) (data : list Z) : list Z :=
  match neighbour width height x y dx dy with
  | Some nidx =>
      let data := arr_set data nidx
                    (clamp255 (arr_get data nidx + errPart)) in
      let data := arr_set data (nidx + 1)
                    (clamp255 (arr_get data (nidx + 1) + errPart)) in
      arr_set data (nidx + 2)
        (clamp255 (arr_get data (nidx + 2) + errPart))
  | None => data
  end.

Definition atkinson_pixel (width height x y : nat) (data : list Z) : list Z :=
  let idx := pixel_index width x y in
  let oldR := arr_get data idx in
  let oldG := arr_get data (idx + 1) in
  let oldB := arr_get data (idx + 2) in
  let lum := calculateLuminance oldR oldG oldB in
  let newVal := quantize lum in
  let data := arr_set data idx newVal in
  let data := arr_set data (idx + 1) newVal in
  let data := arr_set data (idx + 2) newVal in
  let err := (oldR + oldG + oldB) / 3 - newVal in
  let errPart := err / 8 in
  let distribute := atkinson_distribute width height x y errPart in
  let data := distribute 1%Z 0%Z data in
  let data := distribute 2%Z 0%Z data in
  let data := distribute (-1)%Z 1%Z data in
  let data := distribute 0%Z 1%Z data in
  let data := distribute 1%Z 1%Z data in
  distribute 0%Z 2%Z data.

Definition atkinsonDither (σ : heap) (imageData : ImageData)
  : option (ImageData * heap) :=
  let width := width imageData in
  let height := height imageData in
  let data := buffer σ imageData in
  let data := scan width height (atkinson_pixel width height) data in
  new_ImageData σ data width height.

Definition bayer4 : list (list Z) :=
  [ [0; 8; 2; 10]; [12; 4; 14; 6]; [3; 11; 1; 9]; [15; 7; 13; 5] ]%Z.

Definition bayer_pixel (width x y : nat) (data : list Z) : list Z :=
  let idx := pixel_index width x y in
  let lum := calculateLuminance (arr_get data idx) (arr_get data (idx + 1))
               (arr_get data (idx + 2)) in
  let threshold :=
    (num_of_Z (nth (x mod 4) (nth (y mod 4) bayer4 []) 0%Z) / 16) * 255 in
  let newVal := if threshold <? lum then 255 else 0 in
  let data := arr_set data idx newVal in
  let data := arr_set data (idx + 1) newVal in
  arr_set data (idx + 2) newVal.

Definition bayerDither (σ : heap) (imageData : ImageData)
  : option (ImageData * heap) :=
  let width := width imageData in
  let height := height imageData in
  let data := buffer σ imageData in
  let data := scan width height (fun x y => bayer_pixel width x y) data in
  new_ImageData σ data width height.

(** The default branch returns the argument itself: no copy is made. *)
Definition applyDithering (σ : heap) (imageData : ImageData)
    (algorithm : string) : option (ImageData * heap) :=
  if String.eqb algorithm "floyd-steinberg" then floydSteinbergDither σ imageData
  else if String.eqb algorithm "atkinson" then atkinsonDither σ imageData
  else if String.eqb algorithm "bayer" then bayerDither σ imageData
  else Some (imageData, σ).

Local Close Scope float_scope.

(** ** The engine object (lines 391-790)

    The life cycle of the engine: construction, [play()], [pause()] and
    [destroy()].  Timestamps are exact rationals here, in milliseconds; the
    arithmetic of the animation loop on Numbers is the subject of [Loop]
    further down.  The frame-processing step [_processFrame] draws with the
    functions above; here it is the event the pacing loop decides about, and
    each invocation is recorded in [frames] with the timestamp that
    triggered it. *)

Module Engine.

Local Open Scope Q_scope.

(** The media element and an output surface of the page. *)
Record Video := mkVideo { src : string; paused : bool }.

Record Stats := mkStats {
  fps : Q; frameCount : nat; lastFpsUpdate : Q; processingTime : Q }.

Record t := mk {
  targetFps : Q;
  video : option Video;            (* [null] is [None] *)
  canvas : bool;                   (* extraction canvas and context held *)
  outputCanvas : bool;             (* output canvas and context held *)
  outputPre : bool;
  attached : list string;          (* output nodes under the container *)
  isPlaying : bool;
  rafId : option nat;
  lastFrameTime : Q;
  frameInterval : Q;
  stats : Stats;
  frames : list Q;                 (* invocations of [_processFrame], newest first *)
  console : list string }.

(** A call either returns or throws; both carry the state reached. *)
Inductive completion :=
| Returned (e : t)
| Thrown (err : string) (e : t).

(** The constructor followed by [_init], for the given target rate and
    render mode ([true] for 'canvas'). *)
Definition construct (fps : Q) (source : string) (canvasMode : bool) : t :=
  mk fps (Some (mkVideo source true)) true canvasMode (negb canvasMode)
     [if canvasMode then "ascii-output-canvas" else "ascii-output-pre"]%string
     false None 0 (1000 / fps) (mkStats 0 0 0 0) [] [].

(** [a % b] on Numbers: the remainder of the division truncated towards
    zero. *)
Definition Qtrunc (q : Q) : Z := Z.quot (Qnum q) (Zpos (Qden q)).
Definition rem (a b : Q) : Q := a - b * inject_Z (Qtrunc (a / b)).

Definition _processFrame (timestamp : Q) (e : t) : t :=
  mk (targetFps e) (video e) (canvas e) (outputCanvas e) (outputPre e)
     (attached e) (isPlaying e) (rafId e) (lastFrameTime e) (frameInterval e)
     (mkStats (fps (stats e)) (S (frameCount (stats e)))
        (lastFpsUpdate (stats e)) (processingTime (stats e)))
     (timestamp :: frames e) (console e).

Definition set_lastFrameTime (v : Q) (e : t) : t :=
  mk (targetFps e) (video e) (canvas e) (outputCanvas e) (outputPre e)
     (attached e) (isPlaying e) (rafId e) v (frameInterval e)
     (stats e) (frames e) (console e).

Definition set_rafId (v : option nat) (e : t) : t :=
  mk (targetFps e) (video e) (canvas e) (outputCanvas e) (outputPre e)
     (attached e) (isPlaying e) v (lastFrameTime e) (frameInterval e)
     (stats e) (frames e) (console e).

(** [requestAnimationFrame] hands out a new handle. *)
Definition requestAnimationFrame (e : t) : t :=
  set_rafId (Some (S (default 0%nat (rafId e)))) e.

Definition _animate (timestamp : Q) (e : t) : t :=
  if negb (isPlaying e) then e
  else
    let elapsed := timestamp - lastFrameTime e in
    let e :=
      if Qle_bool (frameInterval e) elapsed then
        let e := set_lastFrameTime
                   (timestamp - rem elapsed (frameInterval e)) e in
        _processFrame timestamp e
      else e in
    requestAnimationFrame e.

(** [play()]: [now] is [performance.now()], [granted] tells whether the
    promise of [video.play()] resolves.  On a [null] video the member
    access throws inside the [try], and the handler logs a warning. *)
Definition play (now : Q) (granted : bool) (e : t) : completion :=
  if isPlaying e then Returned e
  else
    match video e with
    | Some v =>
        if granted then
          let e := mk (targetFps e) (Some (mkVideo (src v) false)) (canvas e)
                     (outputCanvas e) (outputPre e) (attached e) true (rafId e)
                     now (frameInterval e)
                     (mkStats (fps (stats e)) 0 now (processingTime (stats e)))
                     (frames e) (console e) in
          Returned (_animate now e)
        else
          Returned (mk (targetFps e) (video e) (canvas e) (outputCanvas e)
                      (outputPre e) (attached e) (isPlaying e) (rafId e)
                      (lastFrameTime e) (frameInterval e) (stats e) (frames e)
                      ("Video autoplay prevented" :: console e)%string)
    | None =>
        Returned (mk (targetFps e) (video e) (canvas e) (outputCanvas e)
                    (outputPre e) (attached e) (isPlaying e) (rafId e)
                    (lastFrameTime e) (frameInterval e) (stats e) (frames e)
                    ("Video autoplay prevented" :: console e)%string)
    end.

(** [pause()]: the flag is cleared first; [this.video.pause()] throws a
    TypeError when [this.video] is [null]. *)
Definition pause (e : t) : completion :=
  let e := mk (targetFps e) (video e) (canvas e) (outputCanvas e)
              (outputPre e) (attached e) false (rafId e)
              (lastFrameTime e) (frameInterval e) (stats e) (frames e)
              (console e) in
  match video e with
  | None => Thrown "TypeError" e
  | Some v =>
      let e := mk (targetFps e) (Some (mkVideo (src v) true)) (canvas e)
                  (outputCanvas e) (outputPre e) (attached e) (isPlaying e)
                  (rafId e) (lastFrameTime e) (frameInterval e) (stats e)
                  (frames e) (console e) in
      Returned (match rafId e with Some _ => set_rafId None e | None => e end)
  end.

(** [destroy()]: an exception of [pause()] propagates. *)
Definition destroy (e : t) : completion :=
  match pause e with
  | Thrown err e' => Thrown err e'
  | Returned e =>
      Returned (mk (targetFps e) None false false false [] (isPlaying e)
                  (rafId e) (lastFrameTime e) (frameInterval e) (stats e)
                  (frames e) (console e))
  end.

(** The refresh callback firing at each timestamp of [ts] in turn. *)
Definition run (ts : list Q) (e : t) : t :=
  fold_left (fun e timestamp => _animate timestamp e) ts e.

End Engine.

(** ** The phase animator (metamorphosis-canvas.js, lines 346-607)

    The timeline is built by [runAnimation] and played by the tween engine
    of the animejs library, which is not part of the repository. *)

Module Metamorphosis.

Local Open Scope Q_scope.

Inductive Phase :=
| start | chaos | order | converge | wave | filter | split | flow.

Record AnimationState := mkState {
  dotScale : Q; waveExpand : Q; waveFilter : Q; splitProgress : Q;
  flowStretch : Q; dashOffset : Q; dotOpacity : Q }.

(** What a tween animates: a scalar of [state], the particles, or the
    empty object of a pause or of a phase marker. *)
Inductive Target :=
| TDotScale | TWaveExpand | TWaveFilter | TSplitProgress | TFlowStretch
| TDashOffset | TParticles | TNothing.

(** The [onComplete] callbacks of the source. *)
Inductive Callback :=
| NoCallback
| EnterPhase (p : Phase)      (* [() => { currentPhase = p; ... }] *)
| StartFlowLoop.

(** One [mainTimeline.add(target, params)]: [span] is the duration plus the
    largest stagger delay, [final] the end value of the animated scalar. *)
Record Tween := mkTween {
  target : Target; final : Q; span : Q; onUpdate : bool;
  onComplete : Callback }.

(** Modelled from the spec: the tween engine (library animejs, outside the
    repository).  A timeline plays the tweens added to it one after the
    other, each starting when the previous one ends; advancing its clock
    past the end of a tween sets the animated property to its end value and
    then calls the tween's [onComplete], once, in timeline order; [pause]
    stops the clock.  An animation created with [loop: true] restarts when
    it reaches its end and never completes. *)
Record Timeline := mkTimeline {
  children : list (Q * Tween);     (* end time of each tween *)
  duration : Q;
  clock : Q;
  tl_paused : bool }.

Record Animation := mkAnimation {
  a_target : Target; a_from : Q; a_to : Q; a_duration : Q; a_loop : bool;
  a_clock : Q; a_paused : bool }.

Definition createTimeline : Timeline := mkTimeline [] 0 0 false.

Definition add (tw : Tween) (tl : Timeline) : Timeline :=
  mkTimeline (children tl ++ [(duration tl + span tw, tw)])
             (duration tl + span tw) (clock tl) (tl_paused tl).

(** The module-level variables of the source. *)
Record t := mk {
  canvas : option Q;               (* the canvas, with its width *)
  currentPhase : Phase;
  isRunning : bool;
  state : AnimationState;
  mainTimeline : option Timeline;
  flowLoop : option Animation;
  cleared : bool;                  (* the last canvas operation was a full clear *)
  phases : list Phase }.           (* every value assigned to [currentPhase], oldest first *)

Definition initialState : AnimationState := mkState 0 0 0 0 0 0 1.

Definition set_phase (p : Phase) (m : t) : t :=
  mk (canvas m) p (isRunning m) (state m) (mainTimeline m) (flowLoop m)
     (cleared m) (phases m ++ [p]).

Definition set_state (s : AnimationState) (m : t) : t :=
  mk (canvas m) (currentPhase m) (isRunning m) s (mainTimeline m) (flowLoop m)
     (cleared m) (phases m).

Definition set_scalar (tg : Target) (v : Q) (s : AnimationState)
  : AnimationState :=
  match tg with
  | TDotScale => mkState v (waveExpand s) (waveFilter s) (splitProgress s)
                   (flowStretch s) (dashOffset s) (dotOpacity s)
  | TWaveExpand => mkState (dotScale s) v (waveFilter s) (splitProgress s)
                     (flowStretch s) (dashOffset s) (dotOpacity s)
  | TWaveFilter => mkState (dotScale s) (waveExpand s) v (splitProgress s)
                     (flowStretch s) (dashOffset s) (dotOpacity s)
  | TSplitProgress => mkState (dotScale s) (waveExpand s) (waveFilter s) v
                        (flowStretch s) (dashOffset s) (dotOpacity s)
  | TFlowStretch => mkState (dotScale s) (waveExpand s) (waveFilter s)
                      (splitProgress s) v (dashOffset s) (dotOpacity s)
  | TDashOffset => mkState (dotScale s) (waveExpand s) (waveFilter s)
                     (splitProgress s) (flowStretch s) v (dotOpacity s)
  | TParticles | TNothing => s
  end.

(** [render()] draws the current phase: the canvas is no longer blank. *)
Definition render (m : t) : t :=
  match canvas m with
  | Some _ => mk (canvas m) (currentPhase m) (isRunning m) (state m)
                (mainTimeline m) (flowLoop m) false (phases m)
  | None => m
  end.

Definition canvasWidth (m : t) : Q := default 0 (canvas m).

Definition startFlowLoop (m : t) : t :=
  if negb (isRunning m) then m
  else
    let m := set_state (set_scalar TDashOffset 0 (state m)) m in
    mk (canvas m) (currentPhase m) (isRunning m) (state m) (mainTimeline m)
       (Some (mkAnimation TDashOffset 0 (- (canvasWidth m + 50)) 2000 true 0 false))
       (cleared m) (phases m).

(** The body of each [onComplete] closure. *)
Definition call (cb : Callback) (m : t) : t :=
  match cb with
  | NoCallback => m
  | EnterPhase wave =>
      let m := set_phase wave m in
      set_state (set_scalar TWaveFilter 0 (set_scalar TWaveExpand 0 (state m))) m
  | EnterPhase split =>
      let m := set_phase split m in
      set_state (set_scalar TSplitProgress 0 (state m)) m
  | EnterPhase flow =>
      let m := set_phase flow m in
      set_state (set_scalar TFlowStretch 0 (state m)) m
  | EnterPhase p => set_phase p m
  | StartFlowLoop => startFlowLoop m
  end.

Definition tween (tg : Target) (final span : Q) : Tween :=
  mkTween tg final span true NoCallback.
Definition wait (span : Q) : Tween := mkTween TNothing 0 span false NoCallback.
Definition marker (p : Phase) : Tween :=
  mkTween TNothing 0 1 false (EnterPhase p).

(** [runAnimation()].  [staggerCenter] and [staggerEdges] are the largest
    delays computed by the library's [stagger(2, {grid, from})]. *)
Definition runAnimation (staggerCenter staggerEdges : Q) (m : t) : t :=
  let m := set_phase start m in
  let m := set_state initialState m in
  let tl := createTimeline in
  (* Phase 1: START *)
  let tl := add (tween TDotScale 1 300) tl in
  let tl := add (wait 400) tl in
  (* Phase 2: CHAOS *)
  let tl := add (marker chaos) tl in
  let tl := add (tween TParticles 0 800) tl in
  let tl := add (wait 300) tl in
  (* Phase 3: ORDER *)
  let tl := add (marker order) tl in
  let tl := add (tween TParticles 0 (1500 + staggerCenter)) tl in
  let tl := add (wait 600) tl in
  (* Phase 4: CONVERGE *)
  let tl := add (marker converge) tl in
  let tl := add (tween TParticles 0 (1200 + staggerEdges)) tl in
  let tl := add (wait 400) tl in
  (* Phase 5: WAVE *)
  let tl := add (marker wave) tl in
  let tl := add (tween TWaveExpand 1 800) tl in
  let tl := add (wait 300) tl in
  (* Phase 6: FILTER *)
  let tl := add (marker filter) tl in
  let tl := add (tween TWaveFilter 1 1200) tl in
  let tl := add (wait 400) tl in
  (* Phase 7: SPLIT *)
  let tl := add (marker split) tl in
  let tl := add (tween TSplitProgress (1 # 2) 600) tl in
  let tl := add (tween TSplitProgress 1 600) tl in
  let tl := add (wait 300) tl in
  (* Phase 8: FLOW *)
  let tl := add (marker flow) tl in
  let tl := add (tween TFlowStretch 1 800) tl in
  let tl := add (mkTween TDashOffset (- (canvasWidth m + 50)) 2000 true
                   StartFlowLoop) tl in
  mk (canvas m) (currentPhase m) (isRunning m) (state m) (Some tl)
     (flowLoop m) (cleared m) (phases m).

(** [window.startMetamorphosis()], with the canvas found in the page. *)
Definition startMetamorphosis (staggerCenter staggerEdges : Q) (m : t) : t :=
  if isRunning m then m
  else
    match canvas m with
    | None => m
    | Some _ =>
        let m := mk (canvas m) (currentPhase m) true (state m)
                    (mainTimeline m) (flowLoop m) (cleared m) (phases m) in
        runAnimation staggerCenter staggerEdges m
    end.

(** [window.stopMetamorphosis()]. *)
Definition stopMetamorphosis (m : t) : t :=
  if negb (isRunning m) then m
  else
    mk (canvas m) (currentPhase m) false (state m) None None
       (match canvas m with Some _ => true | None => cleared m end)
       (phases m).

(** The tween engine completing one tween. *)
Definition complete (tw : Tween) (m : t) : t :=
  let m := set_state (set_scalar (target tw) (final tw) (state m)) m in
  let m := if onUpdate tw then render m else m in
  call (onComplete tw) m.

(** The tween engine advancing every running clock by [dt] milliseconds:
    the tweens of the timeline ending in [(clock, clock + dt]] complete in
    order, and the flow loop, if any, turns. *)
Definition due (from to : Q) (tl : Timeline) : list Tween :=
  map snd (List.filter (fun c => negb (Qle_bool (fst c) from) && Qle_bool (fst c) to)
             (children tl)).

Definition advance (dt : Q) (tl : Timeline) : Timeline :=
  mkTimeline (children tl) (duration tl) (clock tl + dt) (tl_paused tl).

Definition turn (dt : Q) (a : Animation) : Animation :=
  let c := a_clock a + dt in
  mkAnimation (a_target a) (a_from a) (a_to a) (a_duration a) (a_loop a)
    (if a_loop a then c - a_duration a * inject_Z (Qfloor (c / a_duration a)) else c)
    (a_paused a).

Definition tick (dt : Q) (m : t) : t :=
  let m :=
    match flowLoop m with
    | Some a =>
        if a_paused a then m
        else render (mk (canvas m) (currentPhase m) (isRunning m) (state m)
                       (mainTimeline m) (Some (turn dt a)) (cleared m) (phases m))
    | None => m
    end in
  match mainTimeline m with
  | Some tl =>
      if tl_paused tl then m
      else
        let m := mk (canvas m) (currentPhase m) (isRunning m) (state m)
                    (Some (advance dt tl)) (flowLoop m) (cleared m) (phases m) in
        fold_left (fun m tw => complete tw m) (due (clock tl) (clock tl + dt) tl) m
  | None => m
  end.

(** Stepping the animator through a schedule of clock increments. *)
Definition steps (dts : list Q) (m : t) : t :=
  fold_left (fun m dt => tick dt m) dts m.

(** The page before the first capture: a canvas [w] pixels wide. *)
Definition loaded (w : Q) : t :=
  mk (Some w) start false initialState None None true [].

End Metamorphosis.

(** ** Exhaustive checks

    Statements over all bytes are decided by evaluation: the checks below
    run the functions above on machine integers. *)

Fixpoint all_from (n : nat) (i : int) (P : int -> bool) : bool :=
  match n with
  | O => true
  | S n' => P i && all_from n' (i + 1)%uint63 P
  end.

(** The weighted sum of the three channels, times 10000. *)
Definition weighted (r g b : Z) : Z := 2126 * r + 7152 * g + 722 * b.

(** [calculateLuminance] returns the integer nearest to the exact weighted
    sum [s / 10000]: the quotient rounded half up, or the integer below
    when the sum is exactly half-way. *)
Definition lum_check (r g b : int) : bool :=
  let v := calculateLuminance (of_uint63 r) (of_uint63 g) (of_uint63 b) in
  let s := (2126 * r + 7152 * g + 722 * b)%uint63 in
  let e := ((s + 5000) / 10000)%uint63 in
  PrimFloat.Leibniz.eqb v (of_uint63 e) ||
  ((s mod 10000 =? 5000)%uint63 && PrimFloat.Leibniz.eqb v (of_uint63 (e - 1)%uint63)).

Definition byte_roundtrip_check (k : int) : bool :=
  (num_to_Z (of_uint63 k) =? Uint63.to_Z k)%Z && is_integral (of_uint63 k).

(** ** Reading the output of the encoders *)

(** The character of cell [(x, y)] of a grid of rows. *)
Definition cell (rows : list jsstring) (x y : nat) : option Z :=
  match rows !! y with
  | Some row => row !! x
  | None => None
  end.

Definition bit (b : bool) : Z := if b then 1 else 0.

(** The glyph the quadrant table holds for the four sub-pixel bits, with
    the weights top-left 1, top-right 2, bottom-left 4, bottom-right 8. *)
Definition quadrantGlyph (tl tr bl br : bool) : option Z :=
  QUADRANT_CHARS !! Z.to_nat (1 * bit tl + 2 * bit tr + 4 * bit bl + 8 * bit br).

(** The braille character of eight dots, [dot dx dy] being the dot in
    column [dx] and row [dy]. *)
Definition brailleGlyph (dot : nat -> nat -> bool) : Z :=
  0x2800 + (0x01 * bit (dot 0 0)%nat + 0x08 * bit (dot 1 0)%nat
            + 0x02 * bit (dot 0 1)%nat + 0x10 * bit (dot 1 1)%nat
            + 0x04 * bit (dot 0 2)%nat + 0x20 * bit (dot 1 2)%nat
            + 0x40 * bit (dot 0 3)%nat + 0x80 * bit (dot 1 3)%nat).

(** The luminance sampled for sub-pixel [(dx, dy)] of the cell
    [(charX, charY)] of blocks [bw] wide and [bh] high. *)
Definition subpixel (σ : heap) (img : ImageData) (bw bh charX charY dx dy : nat)
  : float :=
  getPixelLuminance (buffer σ img) (width img) (height img)
    (Z.of_nat (charX * bw + dx)) (Z.of_nat (charY * bh + dy)).

(** Whether that sub-pixel is lit: [lum > threshold] in the source. *)
Definition lit (σ : heap) (img : ImageData) (threshold : float)
    (bw bh charX charY dx dy : nat) : bool :=
  (threshold <? subpixel σ img bw bh charX charY dx dy)%float.

(** ** Sample inputs *)

(** A 4x4 all-white, opaque image, stored at address 1. *)
Definition white4x4 : list Z := concat (repeat [255; 255; 255; 255] 16).
Definition sampleHeap : heap := {[ 1%nat := white4x4 ]}.
Definition sampleImage : ImageData := mkImageData 4 4 1.

(** ** Writes of the dithering loops *)

(** [later lo d d']: [d'] has the length of [d] and differs from it only in
    colour bytes at or after index [lo]. *)
Definition later (lo : nat) (d d' : list Z) : Prop :=
  length d' = length d /\
  forall i, (i < lo)%nat \/ (i mod 4 = 3)%nat -> d' !! i = d !! i.

(** A black or white colour byte. *)
Definition monochrome (v : option Z) : Prop := v = Some 0 \/ v = Some 255.

(** A loop body that, at pixel [(x, y)], leaves the earlier pixels and every
    alpha byte alone and makes the three colour bytes of the pixel black or
    white. *)
Definition quantizing (w h : nat) (body : nat -> nat -> list Z -> list Z) : Prop :=
  forall x y d, (x < w)%nat -> (y < h)%nat -> length d = (4 * w * h)%nat ->
    later (pixel_index w x y) d (body x y d) /\
    forall c, (c < 3)%nat -> monochrome (body x y d !! (pixel_index w x y + c)%nat).

(** ** Floyd-Steinberg in exact arithmetic

    The algorithm as the specification words it, on integers: the pixels
    are visited in row-major order; a pixel becomes 255 when its luminance
    exceeds 128 and 0 otherwise; the error of a channel is its old value
    minus the new one; [k/16] of it is added to a neighbour's channel,
    which is clamped to [0, 255] and stored as a byte (the nearest integer,
    ties to even). *)



Definition byte_at (d : list Z) (i : nat) : Z := default 0 (d !! i).






(** A 2x1 mid-grey image, stored at address 1. *)
Definition greyHeap : heap := {[ 1%nat := [100; 100; 100; 255; 100; 100; 100; 255] ]}.
Definition greyImage : ImageData := mkImageData 2 1 1.




(** The contents of a typed array of bytes. *)
Definition bytes (d : list Z) : Prop := Forall (fun v => 0 <= v <= 255) d.

(** ** Sample runs of the engine *)

(** A count as a rational. *)
Definition count (n : nat) : Q := inject_Z (Z.of_nat n).

(** The engine after [play()] at time 0 with a target of 4 frames per
    second, and a run of refresh callbacks. *)
Definition sampleEngine : Engine.t :=
  match Engine.play 0 true (Engine.construct 4 "clip.mp4" true) with
  | Engine.Returned e => e
  | Engine.Thrown _ e => e
  end.
Definition sampleRun : list Q := [499; 500; 750; 1000; 1250]%Q.

(** ** Reading a timeline *)

Definition all_phases : list Metamorphosis.Phase :=
  [Metamorphosis.start; Metamorphosis.chaos; Metamorphosis.order;
   Metamorphosis.converge; Metamorphosis.wave; Metamorphosis.filter;
   Metamorphosis.split; Metamorphosis.flow].

(** The phases a list of tweens enters when its tweens complete. *)
Fixpoint phases_of (l : list Metamorphosis.Tween) : list Metamorphosis.Phase :=
  match l with
  | [] => []
  | tw :: l' =>
      match Metamorphosis.onComplete tw with
      | Metamorphosis.EnterPhase p => p :: phases_of l'
      | _ => phases_of l'
      end
  end.

(** Whether one of the tweens starts the flow loop on completion. *)
Fixpoint starts_loop (l : list Metamorphosis.Tween) : bool :=
  match l with
  | [] => false
  | tw :: l' =>
      match Metamorphosis.onComplete tw with
      | Metamorphosis.StartFlowLoop => true
      | _ => starts_loop l'
      end
  end.

(** End times in timeline order never decrease. *)
Fixpoint ascending (lo : Q) (l : list (Q * Metamorphosis.Tween)) : Prop :=
  match l with
  | [] => True
  | (e, _) :: l' => (lo <= e)%Q /\ ascending e l'
  end.

(** The length of the timeline of a running animator, in milliseconds. *)
Definition timelineDuration (m : Metamorphosis.t) : Q :=
  match Metamorphosis.mainTimeline m with
  | Some tl => Metamorphosis.duration tl
  | None => 0%Q
  end.

(** Total time of a schedule of clock increments. *)
Definition total (dts : list Q) : Q := fold_right Qplus 0%Q dts.

(** The flow loop is turning: an unpaused, looping dash-offset animation. *)
Definition looping (m : Metamorphosis.t) : Prop :=
  exists a, Metamorphosis.flowLoop m = Some a /\
            Metamorphosis.a_target a = Metamorphosis.TDashOffset /\
            Metamorphosis.a_loop a = true /\ Metamorphosis.a_paused a = false.

(** The tweens of a timeline that have ended by clock [c], and those that
    end in [(c, c']]. *)
Definition fired (c : Q) (ch : list (Q * Metamorphosis.Tween))
  : list (Q * Metamorphosis.Tween) :=
  List.filter (fun x => Qle_bool (fst x) c) ch.

Definition between (c c' : Q) (ch : list (Q * Metamorphosis.Tween))
  : list (Q * Metamorphosis.Tween) :=
  List.filter (fun x => negb (Qle_bool (fst x) c) && Qle_bool (fst x) c') ch.

(** The animator while its timeline [ch], of length [D], plays at clock
    [c]: the phases entered so far are those of the tweens that have ended,
    and the flow loop turns exactly when the last tween has. *)
Definition animating (ch : list (Q * Metamorphosis.Tween)) (D c : Q)
    (m : Metamorphosis.t) : Prop :=
  Metamorphosis.mainTimeline m = Some (Metamorphosis.mkTimeline ch D c false) /\
  Metamorphosis.isRunning m = true /\
  Metamorphosis.canvas m <> None /\
  Metamorphosis.phases m
    = Metamorphosis.start :: phases_of (map snd (fired c ch)) /\
  Metamorphosis.currentPhase m
    = List.last (Metamorphosis.phases m) Metamorphosis.start /\
  (starts_loop (map snd (fired c ch)) = true -> looping m) /\
  (starts_loop (map snd (fired c ch)) = false -> Metamorphosis.flowLoop m = None).

(** ** Binary64 rounding, as a function on exact fractions

    Every finite binary64 number is an integer multiple of [2^-1074]; the
    exact result of one operation on two of them is a fraction [a / b] of
    integers once values are counted in units of [2^-bias]. *)
Module B64.

Definition bias : Z := 2200.

(** The value of a number in units of [2^-bias] (0 for NaN and infinities). *)
Definition value (x : spec_float) : Z :=
  match x with
  | S754_finite s m e => let v := Zpos m * 2 ^ (e + bias) in if s then - v else v
  | _ => 0
  end.

(** [+0] and the positive finite numbers. *)
Definition nonneg (x : spec_float) : bool :=
  match x with
  | S754_zero false | S754_finite false _ _ => true
  | _ => false
  end.

(** The integer nearest to [a / c], ties to even. *)
Definition RNE (a c : Z) : Z :=
  let q := a / c in
  match 2 * (a mod c) ?= c with
  | Lt => q
  | Eq => if Z.even q then q else q + 1
  | Gt => q + 1
  end.

(** The exponent of the least subnormal, and of the spacing of the numbers
    around [a / b]: 53 significant bits, never below the subnormal grid. *)
Definition gmin : Z := -1074 + bias.

Definition gexp (a b : Z) : Z := Z.max (Z.log2 (a / b) - 52) gmin.

(** The least value too large for binary64: [2^1024]. *)
Definition top : Z := 2 ^ (1024 + bias).

(** Round to nearest, ties to even: the binary64 number nearest to [a / b]
    (for a result below [top]). *)
Definition rnd (a b : Z) : Z :=
  let g := gexp a b in RNE a (b * 2 ^ g) * 2 ^ g.

(** A truncated mantissa with its location, as the operations of
    [SpecFloat] hand it to the rounding step: [m] is the integer part of
    [a / c] and [l] says where the fractional part lies. *)
Definition loc_of (r c : Z) : location :=
  if r =? 0 then loc_Exact else loc_Inexact (2 * r ?= c).

Definition truncates (a c m : Z) (l : location) : Prop :=
  m = a / c /\ l = loc_of (a mod c) c.

(** [z] is the canonical binary64 number of sign [s] and magnitude [v]. *)
Definition represents (s : bool) (v : Z) (z : spec_float) : Prop :=
  valid_binary z = true /\
  (v = 0 /\ z = S754_zero s \/
   exists m e, z = S754_finite s m e /\ Z.pos m * 2 ^ (e + bias) = v).

End B64.
(** [x] is [+0] or a positive finite Number, of value [v] (in units of
    [2^-bias]). *)
Definition has_value (x : float) (v : Z) : Prop :=
  B64.nonneg (Prim2SF x) = true /\ B64.value (Prim2SF x) = v.

(** The value of an integer. *)
Definition units (n : Z) : Z := n * 2 ^ B64.bias.

(** The value [Math.max(0, Math.min(255, l))] takes, read off the
    representation of [l]. *)
Definition clamp_value (x : spec_float) : Z :=
  match x with
  | S754_finite false m e => Z.min (units 255) (Z.pos m * 2 ^ (e + B64.bias))
  | S754_infinity false => units 255
  | _ => 0
  end.

(** The ramp index as a function of the clamped value [c] and the ramp
    length [n], each binary64 operation of the source rounding once. *)
Definition index_of (c n : Z) : Z :=
  let q := B64.rnd (c * 2 ^ B64.bias) (units 255) in
  let p := B64.rnd (q * units n) (2 ^ B64.bias) in
  Z.min (p / 2 ^ B64.bias) (n - 1).

(** ** Character sets and the unified mapping (lines 12-45 and 222-236) *)

Record CharSet := mkCharSet {
  cs_name : string;
  cs_mode : option string;
  cs_characters : option jsstring }.

(** The ramp of ['standard'] holds a double quote (code unit 34). *)
Definition CHAR_SETS : list (string * CharSet) :=
  [ ("simple"%string,
     mkCharSet "simple" (Some "luminance"%string) (Some (str " .:-=+*#%@")));
    ("standard"%string,
     mkCharSet "standard" (Some "luminance"%string)
       (Some (str " .'`^" ++ [34]
              ++ str ",:;Il!i><~+_-?][}{1)(|\/tfjrxnuvczXYUJCLQ0OZmwqpdbkhao*#MW&8%B@$")));
    ("blocks"%string,
     mkCharSet "blocks" (Some "luminance"%string)
       (Some [0x20; 0x2591; 0x2592; 0x2593; 0x2588]));
    ("quadrants"%string,
     mkCharSet "quadrants" (Some "block"%string)
       (Some [ 0x20; 0x2598; 0x259D; 0x2580; 0x2596; 0x258C; 0x259E; 0x259B;
               0x2597; 0x259A; 0x2590; 0x259C; 0x2584; 0x2599; 0x259F; 0x2588 ]));
    ("braille"%string, mkCharSet "braille" (Some "braille"%string) None);
    ("dense"%string,
     mkCharSet "dense" (Some "luminance"%string)
       (Some (str " `.-':_,^=;><+!rc*/z?sLTv)J7(|Fi{C}fI31tlu[neoZ5Yxjya]2ESwqkP6h9d4VpOGbUAKXHm8RD#$Bg0MNWQ%&@")))
  ].

(** The members every object literal inherits from [Object.prototype]:
    functions, and the prototype itself, none of which has a [mode] or a
    [characters] property. *)
Definition Object_prototype : list string :=
  [ "constructor"; "hasOwnProperty"; "isPrototypeOf"; "propertyIsEnumerable";
    "toLocaleString"; "toString"; "valueOf"; "__proto__";
    "__defineGetter__"; "__defineSetter__"; "__lookupGetter__";
    "__lookupSetter__" ]%string.

Fixpoint own (name : string) (table : list (string * CharSet)) : option CharSet :=
  match table with
  | [] => None
  | (k, v) :: table' => if String.eqb name k then Some v else own name table'
  end.

(** [CHAR_SETS[charsetName]]; [None] is [undefined]. *)
Definition CHAR_SETS_get (charsetName : string) : option CharSet :=
  match own charsetName CHAR_SETS with
  | Some cs => Some cs
  | None =>
      if existsb (String.eqb charsetName) Object_prototype
      then Some (mkCharSet charsetName None None)
      else None
  end.

Record Options := mkOptions {
  opt_invert : option bool;
  opt_threshold : option float }.

(** [mapToCharacters]; [None] is the TypeError of [characters.length] on an
    [undefined] ramp, which the first pixel raises. *)
Definition mapToCharacters (σ : heap) (imageData : ImageData)
    (charsetName : string) (options : Options) : option (list jsstring) :=
  let simple :=
    mkCharSet "simple" (Some "luminance"%string) (Some (str " .:-=+*#%@")) in
  let charset := default simple (CHAR_SETS_get charsetName) in
  let invert := default false (opt_invert options) in
  let threshold := default 128%float (opt_threshold options) in
  let fallback :=
    let characters :=
      match cs_characters charset with
      | Some (c :: cs) => c :: cs
      | _ => str " .:-=+*#%@"
      end in
    Some (mapLuminance σ imageData characters invert) in
  match cs_mode charset with
  | Some mode =>
      if String.eqb mode "luminance" then
        match cs_characters charset with
        | Some characters => Some (mapLuminance σ imageData characters invert)
        | None =>
            if (0 <? width imageData)%nat && (0 <? height imageData)%nat
            then None
            else Some (repeat [] (height imageData))
        end
      else if String.eqb mode "block" then Some (encodeBlocks σ imageData threshold)
      else if String.eqb mode "braille" then Some (encodeBraille σ imageData threshold)
      else fallback
  | None => fallback
  end.

(** The cell size a character-set name stands for. *)
Definition cellWidth (name : string) : nat :=
  if String.eqb name "braille" || String.eqb name "quadrants" then 2 else 1.
Definition cellHeight (name : string) : nat :=
  if String.eqb name "braille" then 4
  else if String.eqb name "quadrants" then 2 else 1.

(** ** Rendering (lines 574-681) *)

(** [data[idx]] for an integer Number [idx]. *)
Definition data_at (data : list Z) (idx : Z) : option Z :=
  if idx <? 0 then None else data !! Z.to_nat idx.

(** The index both renderers sample the colour of the character at column
    [x] of line [y] from. *)
Definition sampleIndex (characterSet : string) (imgWidth imgHeight : nat)
    (x y : nat) : Z :=
  let w := Z.of_nat imgWidth in
  let h := Z.of_nat imgHeight in
  let '(px, py) :=
    if String.eqb characterSet "braille" then
      (Z.min (Z.of_nat x * 2) (w - 1), Z.min (Z.of_nat y * 4) (h - 1))
    else if String.eqb characterSet "quadrants" then
      (Z.min (Z.of_nat x * 2) (w - 1), Z.min (Z.of_nat y * 2) (h - 1))
    else (Z.of_nat x, Z.of_nat y) in
  (py * w + px) * 4.

(** [char === '<' ? '&lt;' : char === '>' ? '&gt;' : char === '&' ? '&amp;' : char] *)
Definition escapeHtml (char : Z) : jsstring :=
  if char =? 60 then str "&lt;"
  else if char =? 62 then str "&gt;"
  else if char =? 38 then str "&amp;"
  else [char].

(** A byte of the pixel array in a template literal; [undefined] beyond
    the array. *)
Definition show_channel (v : option Z) : jsstring :=
  match v with
  | None => str "undefined"
  | Some n =>
      if n <? 10 then [48 + n]
      else if n <? 100 then [48 + n / 10; 48 + n mod 10]
      else [48 + n / 100; 48 + n / 10 mod 10; 48 + n mod 10]
  end.

(** [_renderToDom]: the markup assigned to [outputPre.innerHTML], or [None]
    when there is no [pre] element and nothing is written. *)
Definition _renderToDom (outputPre colored : bool) (characterSet : string)
    (lines : list jsstring) (data : list Z) (imgWidth imgHeight : nat)
  : option jsstring :=
  if negb outputPre then None
  else
    Some (fold_left (fun html y =>
      let line := default [] (lines !! y) in
      let html :=
        fold_left (fun html x =>
          let char := default 0 (line !! x) in
          if colored then
            let idx := sampleIndex characterSet imgWidth imgHeight x y in
            let r := data_at data idx in
            let g := data_at data (idx + 1) in
            let b := data_at data (idx + 2) in
            let escaped := escapeHtml char in
            html ++ str "<span style=" ++ [34] ++ str "color:rgb("
                 ++ show_channel r ++ str "," ++ show_channel g ++ str ","
                 ++ show_channel b ++ str ")" ++ [34] ++ str ">"
                 ++ escaped ++ str "</span>"
          else
            let escaped := escapeHtml char in
            html ++ escaped)
        (seq 0 (length line)) html in
      html ++ [10])
    (seq 0 (length lines)) []).

(** The text of a piece of markup without tags: each of the three
    entities the renderer writes is replaced by the character it stands
    for. *)
Fixpoint textContent (html : jsstring) : jsstring :=
  match html with
  | 38 :: 108 :: 116 :: 59 :: rest => 60 :: textContent rest
  | 38 :: 103 :: 116 :: 59 :: rest => 62 :: textContent rest
  | 38 :: 97 :: 109 :: 112 :: 59 :: rest => 38 :: textContent rest
  | c :: rest => c :: textContent rest
  | [] => []
  end.

(** ** Black-and-white images *)

(** Every pixel of the [w] by [h] array [d] is pure black or pure white:
    its three colour bytes are equal, and 0 or 255. *)
Definition bilevel (w h : nat) (d : list Z) : Prop :=
  forall x y, (x < w)%nat -> (y < h)%nat ->
    exists v, (v = 0 \/ v = 255) /\
      forall c, (c < 3)%nat -> d !! (pixel_index w x y + c)%nat = Some v.

(** A loop body that, at pixel [(x, y)], leaves the earlier pixels and every
    alpha byte alone and gives the three colour bytes of the pixel one
    value, 0 or 255. *)
Definition levelling (w h : nat) (body : nat -> nat -> list Z -> list Z) : Prop :=
  forall x y d, (x < w)%nat -> (y < h)%nat -> length d = (4 * w * h)%nat ->
    later (pixel_index w x y) d (body x y d) /\
    exists v, (v = 0 \/ v = 255) /\
      forall c, (c < 3)%nat -> body x y d !! (pixel_index w x y + c)%nat = Some v.

(** ** From a frame to its lines (lines 540-550) *)

(** The ramp [mapToCharacters] hands to [mapLuminance] for a character-set
    name other than ['quadrants'] and ['braille']. *)
Definition rampOf (charsetName : string) : jsstring :=
  match CHAR_SETS_get charsetName with
  | Some cs =>
      match cs_characters cs with
      | Some (c :: cs) => c :: cs
      | _ => str " .:-=+*#%@"
      end
  | None => str " .:-=+*#%@"
  end.

(** The steps of [_processFrame] between reading the frame and rendering:
    the optional dithering and the character mapping.  [dithering] is
    [this.dithering] ([None] for [null]); the result holds the lines and
    the image the renderers sample their colours from. *)
Definition frameLines (σ : heap) (imageData : ImageData)
    (dithering : option string) (characterSet : string) (invert : bool)
    (threshold : float) : option (list jsstring * ImageData * heap) :=
  let dithered :=
    match dithering with
    | Some algorithm =>
        if negb (String.eqb algorithm EmptyString) && negb (String.eqb algorithm "none")
        then applyDithering σ imageData algorithm
        else Some (imageData, σ)
    | None => Some (imageData, σ)
    end in
  match dithered with
  | Some (imageData, σ) =>
      match mapToCharacters σ imageData characterSet
              (mkOptions (Some invert) (Some threshold)) with
      | Some lines => Some (lines, imageData, σ)
      | None => None
      end
  | None => None
  end.

(** ** Ordered dithering, pixel by pixel *)

(** The level a pixel at [(x, y)] with colour bytes [r], [g], [b] gets
    under the 4x4 Bayer matrix: white when its luminance exceeds
    [255 * m / 16], [m] being the matrix entry of the position. *)
Definition bayerLevel (x y : nat) (r g b : Z) : Z :=
  if 255 * nth (x mod 4) (nth (y mod 4) bayer4 []) 0 <? 16 * luminance r g b
  then 255 else 0.

(** ** Replaying the animation (metamorphosis-canvas.js, lines 612-615) *)

(** [window.replayMetamorphosis()]: the animation is stopped at once and
    started again when the 100 ms timer fires; [idle] holds the clock
    increments of the tween engine in between. *)
Definition replayMetamorphosis (staggerCenter staggerEdges : Q) (idle : list Q)
    (m : Metamorphosis.t) : Metamorphosis.t :=
  Metamorphosis.startMetamorphosis staggerCenter staggerEdges
    (Metamorphosis.steps idle (Metamorphosis.stopMetamorphosis m)).

(** The animator [m] with the phases [pre] entered before those of its own
    log. *)
Definition relog (pre : list Metamorphosis.Phase) (m : Metamorphosis.t)
  : Metamorphosis.t :=
  Metamorphosis.mk (Metamorphosis.canvas m) (Metamorphosis.currentPhase m)
    (Metamorphosis.isRunning m) (Metamorphosis.state m)
    (Metamorphosis.mainTimeline m) (Metamorphosis.flowLoop m)
    (Metamorphosis.cleared m) (pre ++ Metamorphosis.phases m).

(** ** Initialisation (metamorphosis-canvas.js, lines 538-557) *)

(** The module before [initMetamorphosis]: no canvas yet. *)
Definition unloaded : Metamorphosis.t :=
  Metamorphosis.mk None Metamorphosis.start false Metamorphosis.initialState
    None None true [].

(** [initMetamorphosis()].  [element] is what [document.getElementById]
    returns, a canvas with its width or [None] for [null]; [reducedMotion]
    is the result of the media query.  The variable [canvas] is assigned
    before either test.  The result holds the module state, whether
    [setupCanvas], [initParticles] and [initHarmonics] have run, and the
    line written to the console. *)
Definition initMetamorphosis (element : option Q) (reducedMotion : bool)
    (m : Metamorphosis.t) : Metamorphosis.t * bool * string :=
  let m :=
    Metamorphosis.mk element (Metamorphosis.currentPhase m)
      (Metamorphosis.isRunning m) (Metamorphosis.state m)
      (Metamorphosis.mainTimeline m) (Metamorphosis.flowLoop m)
      (Metamorphosis.cleared m) (Metamorphosis.phases m) in
  match element with
  | None => (m, false, "[Metamorphosis] Canvas element not found:"%string)
  | Some _ =>
      if reducedMotion
      then (m, false,
            "[Metamorphosis] Disabled due to reduced motion preference"%string)
      else (m, true, "[Metamorphosis] Initialized"%string)
  end.

(** ** The seeded generator and the particles
       (metamorphosis-canvas.js, lines 58-97) *)

(** ECMAScript [ToUint32] and [ToInt32] of a Number: the integer part,
    modulo [2^32], read unsigned or signed. *)
Definition ToUint32 (x : float) : Z := num_to_Z x mod 2 ^ 32.
Definition ToInt32 (x : float) : Z :=
  let u := ToUint32 x in if u <? 2 ^ 31 then u else u - 2 ^ 32.

(** The same conversions on a Number that is an integer. *)
Definition uint32 (z : Z) : Z := z mod 2 ^ 32.
Definition int32 (z : Z) : Z :=
  let u := uint32 z in if u <? 2 ^ 31 then u else u - 2 ^ 32.

(** [Math.imul]. *)
Definition imul (a b : Z) : Z := int32 (a * b).

(** One call of the closure [mulberry32(seed)] returns: the number drawn
    and the value left in the captured [seed]. *)
Definition mulberry32 (seed : float) : float * float :=
  (* let t = seed += 0x6D2B79F5; *)
  let seed := (seed + 1831565813)%float in
  (* t = Math.imul(t ^ t >>> 15, t | 1); *)
  let t := imul (int32 (Z.lxor (ToInt32 seed) (Z.shiftr (ToUint32 seed) 15)))
                (int32 (Z.lor (ToInt32 seed) 1)) in
  (* t ^= t + Math.imul(t ^ t >>> 7, t | 61); *)
  let t := int32 (Z.lxor t
             (int32 (t + imul (int32 (Z.lxor t (Z.shiftr (uint32 t) 7)))
                              (int32 (Z.lor t 61))))) in
  (* return ((t ^ t >>> 14) >>> 0) / 4294967296; *)
  ((num_of_Z (uint32 (Z.lxor t (Z.shiftr (uint32 t) 14))) / 4294967296)%float,
   seed).

Record Particle := mkParticle {
  p_x : float; p_y : float;
  chaosX : float; chaosY : float;
  gridX : float; gridY : float;
  gridRow : nat; gridCol : nat }.

(** [CONFIG.cols], [CONFIG.rows] and [CONFIG.gridSpacing]. *)
Definition CONFIG_cols : nat := 30.
Definition CONFIG_rows : nat := 15.
Definition CONFIG_gridSpacing : float := 20.

(** Body of the two loops of [initParticles]: one [particles.push], which
    draws twice from the generator. *)
Definition pushParticle (w h centerX centerY offX offY : float) (r c : nat)
    (st : float * list Particle) : float * list Particle :=
  let '(seed, particles) := st in
  let '(u, seed) := mulberry32 seed in
  let '(v, seed) := mulberry32 seed in
  (seed,
   particles ++
     [mkParticle centerX centerY (u * w)%float (v * h)%float
        (offX + num_of_Z (Z.of_nat c) * CONFIG_gridSpacing)%float
        (offY + num_of_Z (Z.of_nat r) * CONFIG_gridSpacing)%float r c]).

(** [initParticles()] on a canvas of width [w] and height [h]: the centre
    it stores and the particles it creates. *)
Definition initParticles (w h : float) : float * float * list Particle :=
  let seed : float := 12345%float in
  let centerX := (w / 2)%float in
  let centerY := (h / 2)%float in
  let gridW := ((num_of_Z (Z.of_nat CONFIG_cols) - 1) * CONFIG_gridSpacing)%float in
  let gridH := ((num_of_Z (Z.of_nat CONFIG_rows) - 1) * CONFIG_gridSpacing)%float in
  let offX := ((w - gridW) / 2)%float in
  let offY := ((h - gridH) / 2)%float in
  let st :=
    fold_left (fun st r =>
      fold_left (fun st c => pushParticle w h centerX centerY offX offY r c st)
        (seq 0 CONFIG_cols) st)
    (seq 0 CONFIG_rows) (seed, []) in
  (centerX, centerY, snd st).

(** ** The size of the character grid (ascii-video-engine.js, lines 491-518) *)

(** [x || d] on a Number [x]: zero and NaN are falsy. *)
Definition or_default (x d : float) : float :=
  if (x =? 0)%float || is_nan x then d else x.

(** [_calculateDimensions()], for [this.width], [this.characterSet] and the
    [videoWidth] and [videoHeight] of the media element: the width and the
    height of the frame to extract. *)
Definition _calculateDimensions (width : float) (characterSet : string)
    (videoWidth videoHeight : float) : float * float :=
  let videoWidth := or_default videoWidth 1920 in
  let videoHeight := or_default videoHeight 1080 in
  let videoAspect := (videoWidth / videoHeight)%float in
  let charAspect := 0.5%float in
  if String.eqb characterSet "braille" then
    let asciiWidth := (Math_floor (width / 2) * 2)%float in
    let asciiHeight :=
      (Math_floor ((asciiWidth / videoAspect) * charAspect / 4) * 4)%float in
    (asciiWidth, asciiHeight)
  else if String.eqb characterSet "quadrants" then
    let asciiWidth := (Math_floor (width / 2) * 2)%float in
    let asciiHeight :=
      (Math_floor ((asciiWidth / videoAspect) * charAspect / 2) * 2)%float in
    (asciiWidth, asciiHeight)
  else
    let asciiWidth := width in
    (asciiWidth, Math_round (asciiWidth / videoAspect * charAspect)).

(** ** The animation loop on Numbers (ascii-video-engine.js, lines 395,
       413-414 and 686-715)

    The pacing arithmetic of the engine as the browser performs it: every
    timestamp is a binary64 Number and each subtraction rounds once. *)

(** [x % y] on Numbers (ECMAScript Number::remainder): the result has the
    sign of the dividend and is exact, the quotient being truncated towards
    zero.  NaN for a NaN operand, an infinite dividend or a zero divisor;
    the dividend itself for an infinite divisor or a zero dividend. *)
Definition SFrem (x y : spec_float) : spec_float :=
  match x, y with
  | S754_nan, _ | _, S754_nan => S754_nan
  | S754_infinity _, _ => S754_nan
  | _, S754_zero _ => S754_nan
  | _, S754_infinity _ => x
  | S754_zero _, _ => x
  | S754_finite sx mx ex, S754_finite _ my ey =>
      let e := Z.min ex ey in
      let r := Z.rem (Z.pos mx * 2 ^ (ex - e)) (Z.pos my * 2 ^ (ey - e)) in
      binary_normalize prec emax (if sx then - r else r) e sx
  end.

Definition Number_remainder (x y : float) : float :=
  SF2Prim (SFrem (Prim2SF x) (Prim2SF y)).

(** The exact value of a finite Number as a rational: milliseconds, when
    the Number is a timestamp. *)
Definition of_units (v : Z) : Q := (inject_Z v / inject_Z (2 ^ B64.bias))%Q.
Definition ms (x : float) : Q := of_units (B64.value (Prim2SF x)).

(** [x] is [+0] or a positive finite Number below [2^K]. *)
Definition below (K : Z) (x : float) : Prop :=
  exists v, has_value x v /\ v < 2 ^ (K + B64.bias).

(** The rounding slack of the loop on timestamps below [2^K]: [2^(K-52)],
    which bounds the error of the two rounded subtractions of a callback. *)
Definition slack (K : Z) : Q := (inject_Z (2 ^ K) / inject_Z (2 ^ 52))%Q.

Module Loop.

Local Open Scope float_scope.

(** The fields of the engine that the loop reads and writes.
    [_processFrame] writes none of them: it draws the frame and updates the
    statistics.  Here it is the event the loop decides about, and each
    invocation is recorded in [frames] with the timestamp that triggered
    it.  When [_processFrame] throws, the callback ends there and requests
    no other: the loop has then run on a prefix of the callbacks. *)
Record t := mk {
  targetFps : float;
  isPlaying : bool;
  rafId : option nat;
  lastFrameTime : float;
  frameInterval : float;
  frames : list float }.           (* invocations of [_processFrame], newest first *)

(** The constructor, for a Number [options.targetFps] ([None] when the
    option is absent). *)
Definition construct (targetFps : option float) : t :=
  let targetFps :=
    match targetFps with
    | Some x => or_default x 24
    | None => 24
    end in
  mk targetFps false None 0 (1000 / targetFps) [].

Definition _processFrame (timestamp : float) (e : t) : t :=
  mk (targetFps e) (isPlaying e) (rafId e) (lastFrameTime e) (frameInterval e)
     (timestamp :: frames e).

Definition set_lastFrameTime (v : float) (e : t) : t :=
  mk (targetFps e) (isPlaying e) (rafId e) v (frameInterval e) (frames e).

(** [requestAnimationFrame] hands out a new handle. *)
Definition requestAnimationFrame (e : t) : t :=
  mk (targetFps e) (isPlaying e) (Some (S (default 0%nat (rafId e))))
     (lastFrameTime e) (frameInterval e) (frames e).

Definition _animate (timestamp : float) (e : t) : t :=
  if negb (isPlaying e) then e
  else
    let elapsed := timestamp - lastFrameTime e in
    let e :=
      if frameInterval e <=? elapsed then
        let e := set_lastFrameTime
                   (timestamp - Number_remainder elapsed (frameInterval e)) e in
        _processFrame timestamp e
      else e in
    requestAnimationFrame e.

(** [play()] is asynchronous.  Called on an engine that is not playing it
    suspends at [await this.video.play()]; [resume] is what it does once the
    promise has resolved, for the readings [now1] and [now3] of
    [performance.now()] that go to [lastFrameTime] and to [_animate] (the
    reading between them goes to the statistics).  The playing flag is not
    tested again after the [await]. *)
Definition resume (now1 now3 : float) (e : t) : t :=
  _animate now3
    (mk (targetFps e) true (rafId e) now1 (frameInterval e) (frames e)).

(** The refresh callback firing at each timestamp of [ts] in turn. *)
Definition run (ts : list float) (e : t) : t :=
  fold_left (fun e timestamp => _animate timestamp e) ts e.

(** The invocations of [_processFrame] whose timestamp lies in
    [[a, a + 1000)]. *)
Definition framesWithin (a : Q) (e : t) : nat :=
  length (List.filter
            (fun ts => Qle_bool a (ms ts) && negb (Qle_bool (a + 1000) (ms ts)))
            (frames e)).

(** The invocations of [_processFrame] up to time [T]. *)
Definition framesUpTo (T : Q) (e : t) : nat :=
  length (List.filter (fun ts => Qle_bool (ms ts) T) (frames e)).

End Loop.

(** [paced L0 I J L log]: the frames of [log] (newest first) were processed
    on a loop that started at [L0] and now has [lastFrameTime = L]: each
    frame lies less than [J] after the [lastFrameTime] it left, and
    successive values of [lastFrameTime] are at least [I] apart. *)
Fixpoint paced (L0 I J L : Q) (log : list float) : Prop :=
  match log with
  | [] => (L0 <= L)%Q
  | ts :: log' =>
      (L <= ms ts)%Q /\ (ms ts < L + J)%Q /\
      exists L', (L' + I <= L)%Q /\ paced L0 I J L' log'
  end.

(** The loop after [play()] has resumed at time 0 with a target of 4
    frames per second, and a run of refresh callbacks. *)
Definition sampleLoop : Loop.t :=
  Loop.resume 0 0 (Loop.construct (Some 4%float)).
Definition sampleTimestamps : list float := [499; 500; 750; 1000; 1250]%float.

(** A run in which rounding lets one more frame through: [play()] resumes
    at 0.1 ms and the first callback comes just before two intervals have
    passed. *)
Definition lateLoop : Loop.t :=
  Loop.resume 0.1 0.1 (Loop.construct (Some 4%float)).
Definition lateTimestamps : list float :=
  [500.09999999999997; 500.1; 750.1; 1000.1; 1250.1000000000001; 1500.1]%float.

(* ================================================================== *)
(** * Properties *)
(* ================================================================== *)

(** ** The Number layer on sample values *)

Example Math_round_examples :
  (Math_round 2.5 = 3 /\ Math_round (-2.5) = (-2) /\ Math_round 2.4 = 2 /\
   Math_round 0.49999999999999994 = 0 /\ Math_round (-0.5) = neg_zero /\
   Math_round 254.5 = 255 /\ Math_round nan = nan /\
   Math_floor (-0.5) = (-1) /\ Math_floor 41.99 = 41 /\
   Math_floor 9007199254740993 = 9007199254740992)%float.
Proof. repeat split; reflexivity. Qed.

Example ToUint8Clamp_examples :
  (ToUint8Clamp 143.75 = 144 /\ ToUint8Clamp 0.5 = 0 /\ ToUint8Clamp 1.5 = 2 /\
   ToUint8Clamp 2.5 = 2 /\ ToUint8Clamp 254.5 = 254 /\ ToUint8Clamp 300 = 255 /\
   ToUint8Clamp (-3) = 0 /\ ToUint8Clamp nan = 0)%Z.
Proof. repeat split; reflexivity. Qed.

(** ** Exhaustive checks are sound *)

Lemma all_from_spec (P : int -> bool) (n : nat) (i : int) :
  all_from n i P = true ->
  (Uint63.to_Z i + Z.of_nat n <= 1000000)%Z ->
  forall k : Z, (Uint63.to_Z i <= k < Uint63.to_Z i + Z.of_nat n)%Z ->
    P (Uint63.of_Z k) = true.
Proof.
  revert i. induction n as [|n IH]; intros i Hall Hbound k Hk; [lia|].
  simpl in Hall. apply andb_true_iff in Hall as [Hi Hrest].
  destruct (Z.eq_dec k (Uint63.to_Z i)) as [->|Hne].
  - now rewrite Uint63.of_to_Z.
  - apply (IH (i + 1)%uint63 Hrest); lia.
Qed.

Lemma all_bytes (P : int -> bool) :
  all_from 256 0%uint63 P = true ->
  forall k : Z, (0 <= k <= 255)%Z -> P (Uint63.of_Z k) = true.
Proof.
  intros H k Hk. apply (all_from_spec P 256 0%uint63 H); cbn; lia.
Qed.

Lemma byte_roundtrip_table : all_from 256 0%uint63 byte_roundtrip_check = true.
Proof. vm_compute. reflexivity. Qed.

Lemma to_Z_of_byte (k : Z) : (0 <= k <= 255)%Z -> Uint63.to_Z (Uint63.of_Z k) = k.
Proof. intros H. rewrite Uint63.of_Z_spec. apply Z.mod_small. cbn. lia. Qed.

Lemma num_to_Z_of_byte (k : Z) :
  (0 <= k <= 255)%Z -> num_to_Z (num_of_Z k) = k.
Proof.
  intros H. pose proof (all_bytes _ byte_roundtrip_table k H) as Hc.
  unfold byte_roundtrip_check in Hc. apply andb_true_iff in Hc as [Hc _].
  apply Z.eqb_eq in Hc. unfold num_of_Z. rewrite Hc. now apply to_Z_of_byte.
Qed.

Lemma lum_table :
  all_from 256 0%uint63 (fun r =>
    all_from 256 0%uint63 (fun g =>
      all_from 256 0%uint63 (fun b => lum_check r g b))) = true.
Proof. vm_cast_no_check (@eq_refl bool true). Qed.

(** ** Luminance *)

Lemma luminance_cases (r g b : Z) :
  0 <= r <= 255 -> 0 <= g <= 255 -> 0 <= b <= 255 ->
  calculateLuminance (num_of_Z r) (num_of_Z g) (num_of_Z b)
    = num_of_Z (luminance r g b) /\
  (luminance r g b = (weighted r g b + 5000) / 10000 \/
   (weighted r g b mod 10000 = 5000 /\
    luminance r g b = (weighted r g b + 5000) / 10000 - 1)).
Proof.
  intros Hr Hg Hb.
  pose proof (all_bytes _ lum_table r Hr) as H1. cbv beta in H1.
  pose proof (all_bytes _ H1 g Hg) as H2. cbv beta in H2.
  pose proof (all_bytes _ H2 b Hb) as H3. cbv beta in H3.
  clear H1 H2. unfold lum_check in H3.
  pose proof (to_Z_of_byte r Hr) as Er.
  pose proof (to_Z_of_byte g Hg) as Eg.
  pose proof (to_Z_of_byte b Hb) as Eb.
  set (ri := Uint63.of_Z r) in *. set (gi := Uint63.of_Z g) in *.
  set (bi := Uint63.of_Z b) in *.
  set (s := (2126 * ri + 7152 * gi + 722 * bi)%uint63) in *.
  assert (Es : Uint63.to_Z s = weighted r g b) by (unfold s, weighted; lia).
  assert (Hs : 0 <= weighted r g b <= 2550000) by (unfold weighted; lia).
  set (e := ((s + 5000) / 10000)%uint63) in *.
  assert (Ee : Uint63.to_Z e = (weighted r g b + 5000) / 10000).
  { unfold e. rewrite Uint63.div_spec, Uint63.add_spec, Es.
    rewrite Z.mod_small by (cbn; lia). reflexivity. }
  assert (He : 0 <= (weighted r g b + 5000) / 10000 <= 255).
  { split; [apply Z.div_pos; lia|].
    apply Z.lt_succ_r, Z.div_lt_upper_bound; lia. }
  unfold luminance. fold (num_of_Z r) (num_of_Z g) (num_of_Z b) in H3.
  change (of_uint63 ri) with (num_of_Z r) in H3.
  change (of_uint63 gi) with (num_of_Z g) in H3.
  change (of_uint63 bi) with (num_of_Z b) in H3.
  apply orb_true_iff in H3 as [H3|H3].
  - apply FloatAxioms.Leibniz.eqb_spec in H3.
    assert (Hv : of_uint63 e = num_of_Z ((weighted r g b + 5000) / 10000)).
    { unfold num_of_Z. now rewrite <- Ee, Uint63.of_to_Z. }
    rewrite H3, Hv, num_to_Z_of_byte by lia. auto.
  - apply andb_true_iff in H3 as [Ht H3].
    apply FloatAxioms.Leibniz.eqb_spec in H3.
    apply Uint63.eqb_spec in Ht.
    assert (Hm : weighted r g b mod 10000 = 5000).
    { apply (f_equal Uint63.to_Z) in Ht. rewrite Uint63.mod_spec, Es in Ht.
      exact Ht. }
    assert (He1 : 1 <= (weighted r g b + 5000) / 10000).
    { apply Z.div_le_lower_bound; [lia|].
      pose proof (Z.div_mod (weighted r g b) 10000 ltac:(lia)).
      pose proof (Z.div_pos (weighted r g b) 10000 ltac:(lia) ltac:(lia)). lia. }
    assert (Hv : of_uint63 (e - 1)%uint63
                 = num_of_Z ((weighted r g b + 5000) / 10000 - 1)).
    { unfold num_of_Z. rewrite <- Ee. f_equal.
      apply Uint63.to_Z_inj. rewrite Uint63.of_Z_spec, Uint63.sub_spec.
      change (Uint63.to_Z 1%uint63) with 1. reflexivity. }
    rewrite H3, Hv, num_to_Z_of_byte by lia. auto.
Qed.

Lemma luminance_near (r g b : Z) :
  0 <= r <= 255 -> 0 <= g <= 255 -> 0 <= b <= 255 ->
  Z.abs (10000 * luminance r g b - weighted r g b) <= 5000.
Proof.
  intros Hr Hg Hb.
  destruct (luminance_cases r g b Hr Hg Hb) as [_ H].
  pose proof (Z.div_mod (weighted r g b + 5000) 10000 ltac:(lia)) as Hd.
  pose proof (Z.mod_pos_bound (weighted r g b + 5000) 10000 ltac:(lia)) as Hm.
  destruct H as [->|[Ht ->]]; [lia|].
  assert ((weighted r g b + 5000) mod 10000 = 0).
  { rewrite <- Zplus_mod_idemp_l, Ht. reflexivity. }
  lia.
Qed.

(** Two exact sums in strict order have luminances in order. *)
Lemma luminance_mono (r g b r' g' b' : Z) :
  0 <= r <= 255 -> 0 <= g <= 255 -> 0 <= b <= 255 ->
  0 <= r' <= 255 -> 0 <= g' <= 255 -> 0 <= b' <= 255 ->
  weighted r g b <= weighted r' g' b' ->
  (weighted r g b = weighted r' g' b' -> r = r' /\ g = g' /\ b = b') ->
  luminance r g b <= luminance r' g' b'.
Proof.
  intros Hr Hg Hb Hr' Hg' Hb' Hle Heq.
  destruct (Z.eq_dec (weighted r g b) (weighted r' g' b')) as [E|NE].
  { destruct (Heq E) as (-> & -> & ->). lia. }
  destruct (luminance_cases r g b Hr Hg Hb) as [_ H].
  destruct (luminance_cases r' g' b' Hr' Hg' Hb') as [_ H'].
  pose proof (Z.div_mod (weighted r g b + 5000) 10000 ltac:(lia)) as Hd.
  pose proof (Z.mod_pos_bound (weighted r g b + 5000) 10000 ltac:(lia)) as Hm.
  pose proof (Z.div_mod (weighted r' g' b' + 5000) 10000 ltac:(lia)) as Hd'.
  pose proof (Z.mod_pos_bound (weighted r' g' b' + 5000) 10000 ltac:(lia)) as Hm'.
  destruct H as [->|[Ht ->]]; destruct H' as [->|[Ht' ->]]; lia.
Qed.

(** C1.  On bytes, [calculateLuminance(r, g, b)] is
    [Math.round(0.2126*r + 0.7152*g + 0.0722*b)]; its value is the integer
    [luminance r g b], which lies in [0, 255], is an integer nearest to the
    exact weighted sum, does not decrease when one channel grows and the
    other two are fixed, and is 0 on black and 255 on white. *)
Theorem calculateLuminance_bytes (r g b : Z) :
  0 <= r <= 255 -> 0 <= g <= 255 -> 0 <= b <= 255 ->
  calculateLuminance (num_of_Z r) (num_of_Z g) (num_of_Z b)
    = Math_round (0.2126 * num_of_Z r + 0.7152 * num_of_Z g
                  + 0.0722 * num_of_Z b)%float /\
  calculateLuminance (num_of_Z r) (num_of_Z g) (num_of_Z b)
    = num_of_Z (luminance r g b) /\
  0 <= luminance r g b <= 255 /\
  Z.abs (10000 * luminance r g b - (2126 * r + 7152 * g + 722 * b)) <= 5000 /\
  (forall r', r <= r' <= 255 -> luminance r g b <= luminance r' g b) /\
  (forall g', g <= g' <= 255 -> luminance r g b <= luminance r g' b) /\
  (forall b', b <= b' <= 255 -> luminance r g b <= luminance r g b') /\
  calculateLuminance 0 0 0 = 0%float /\
  calculateLuminance 255 255 255 = 255%float.
Proof.
  intros Hr Hg Hb.
  pose proof (luminance_near r g b Hr Hg Hb) as Hn. unfold weighted in Hn.
  split; [reflexivity|]. split; [apply luminance_cases; assumption|].
  split; [lia|]. split; [exact Hn|].
  repeat split.
  - intros r' Hr'. apply luminance_mono; unfold weighted; try lia.
  - intros g' Hg'. apply luminance_mono; unfold weighted; try lia.
  - intros b' Hb'. apply luminance_mono; unfold weighted; try lia.
Qed.

Lemma calculateLuminance_bytes_witness :
  luminance 10 20 30 = 19 /\ luminance 10 20 30 <= luminance 10 200 30.
Proof.
  destruct (calculateLuminance_bytes 10 20 30) as (_ & _ & _ & _ & _ & Hg & _);
    [lia | lia | lia |].
  split; [reflexivity | apply Hg; lia].
Defined.

(** ** Degenerate ramps *)

(** C10.  With an empty ramp [charForLuminance] returns a single space and
    with a one-character ramp that character, whatever the luminance and
    the [invert] flag; the ramp is not indexed in either case, so the result
    is never [undefined]. *)
Theorem charForLuminance_degenerate (luminance : float) (invert : bool) (c : Z) :
  charForLuminance luminance [] invert = Some [32] /\
  charForLuminance luminance [c] invert = Some [c].
Proof. split; reflexivity. Qed.

(** ** Sampling outside the buffer *)

(** C6.  [getPixelLuminance] is a total function of the buffer and of any
    integer coordinates; outside the bounds it returns 0, whatever the
    buffer holds, and inside it reads the three colour bytes of the pixel
    at column [x] of row [y]. *)
Theorem getPixelLuminance_bounds (data : list Z) (width height : nat) (x y : Z) :
  (x < 0 \/ x >= Z.of_nat width \/ y < 0 \/ y >= Z.of_nat height ->
   getPixelLuminance data width height x y = 0%float) /\
  (0 <= x < Z.of_nat width -> 0 <= y < Z.of_nat height ->
   getPixelLuminance data width height x y =
     let idx := pixel_index width (Z.to_nat x) (Z.to_nat y) in
     calculateLuminance (arr_get data idx) (arr_get data (idx + 1))
       (arr_get data (idx + 2))).
Proof.
  unfold getPixelLuminance. split.
  - intros H.
    destruct (x <? 0) eqn:E1; [reflexivity|].
    destruct (x >=? Z.of_nat width) eqn:E2; [reflexivity|].
    destruct (y <? 0) eqn:E3; [reflexivity|].
    destruct (y >=? Z.of_nat height) eqn:E4; [reflexivity|].
    lia.
  - intros Hx Hy.
    destruct (x <? 0) eqn:E1; [lia|].
    destruct (x >=? Z.of_nat width) eqn:E2; [lia|].
    destruct (y <? 0) eqn:E3; [lia|].
    destruct (y >=? Z.of_nat height) eqn:E4; [lia|].
    cbn [orb]. unfold pixel_index.
    replace (Z.to_nat ((y * Z.of_nat width + x) * 4))
      with ((Z.to_nat y * width + Z.to_nat x) * 4)%nat by lia.
    reflexivity.
Qed.

Lemma getPixelLuminance_bounds_witness :
  getPixelLuminance [255; 255; 255; 255; 255; 255; 255; 255] 2 1 (-1) 0 = 0%float /\
  getPixelLuminance [255; 255; 255; 255; 255; 255; 255; 255] 2 1 2 0 = 0%float /\
  getPixelLuminance [255; 255; 255; 255; 255; 255; 255; 255] 2 1 1 0 = 255%float.
Proof.
  pose proof (getPixelLuminance_bounds
                [255; 255; 255; 255; 255; 255; 255; 255] 2 1 (-1) 0) as [H1 _].
  pose proof (getPixelLuminance_bounds
                [255; 255; 255; 255; 255; 255; 255; 255] 2 1 2 0) as [H2 _].
  pose proof (getPixelLuminance_bounds
                [255; 255; 255; 255; 255; 255; 255; 255] 2 1 1 0) as [_ H3].
  split; [apply H1; lia|]. split; [apply H2; lia|].
  rewrite H3 by lia. reflexivity.
Defined.

(** ** Order of Numbers *)

Lemma SFcompare_antisym (a b : spec_float) :
  SFcompare b a = option_map CompOpp (SFcompare a b).
Proof.
  destruct a as [sa|sa| |sa ma ea], b as [sb|sb| |sb mb eb]; cbn;
    try reflexivity;
    try (destruct sa; reflexivity); try (destruct sb; reflexivity);
    try (destruct sa, sb; reflexivity).
  destruct sa, sb; try reflexivity; f_equal;
    rewrite (Z.compare_antisym ea eb); destruct (ea ?= eb); cbn;
    try reflexivity.
  - rewrite (Pos.compare_cont_antisym ma mb Eq). reflexivity.
  - rewrite (Pos.compare_cont_antisym ma mb Eq). reflexivity.
Qed.

(** A Number at or below another does not exceed it. *)
Lemma leb_not_ltb (x y : float) : (x <=? y)%float = true -> (y <? x)%float = false.
Proof.
  rewrite FloatAxioms.leb_spec, FloatAxioms.ltb_spec. unfold SFleb, SFltb.
  rewrite (SFcompare_antisym (Prim2SF x) (Prim2SF y)).
  destruct (SFcompare (Prim2SF x) (Prim2SF y)) as [[]|]; cbn; congruence.
Qed.

(** ** Loops that build rows *)

Lemma fold_left_snoc {A B : Type} (f : A -> B) (l : list A) (acc : list B) :
  fold_left (fun rows y => rows ++ [f y]) l acc = acc ++ (f <$> l).
Proof.
  revert acc. induction l as [|a l IH]; intros acc; cbn.
  - now rewrite app_nil_r.
  - rewrite IH, <- app_assoc. reflexivity.
Qed.

Lemma fold_left_ext {A B : Type} (f g : B -> A -> B) (l : list A) (acc : B) :
  (forall b a, In a l -> f b a = g b a) ->
  fold_left f l acc = fold_left g l acc.
Proof.
  revert acc. induction l as [|a l IH]; intros acc H; cbn; [reflexivity|].
  rewrite H by (now left). apply IH. intros b a' Ha. apply H. now right.
Qed.

Lemma cell_grid (f : nat -> nat -> Z) (cw ch x y : nat) :
  (x < cw)%nat -> (y < ch)%nat ->
  cell ((fun cy => (fun cx => f cx cy) <$> seq 0 cw) <$> seq 0 ch) x y
    = Some (f x y).
Proof.
  intros Hx Hy. unfold cell.
  rewrite list_lookup_fmap, lookup_seq_lt by assumption. cbn.
  rewrite list_lookup_fmap, lookup_seq_lt by assumption. reflexivity.
Qed.

(** ** Quadrant and braille cells *)

Lemma blockPattern_bits (data : list Z) (w h : nat) (t : float) (cx cy : nat) :
  let on dx dy := (t <? getPixelLuminance data w h (Z.of_nat (cx * 2 + dx))
                          (Z.of_nat (cy * 2 + dy)))%float in
  QUADRANT_CHARS !! Z.to_nat (blockPattern data w h t cx cy)
    = quadrantGlyph (on 0%nat 0%nat) (on 1%nat 0%nat) (on 0%nat 1%nat) (on 1%nat 1%nat) /\
  is_Some (QUADRANT_CHARS !! Z.to_nat (blockPattern data w h t cx cy)).
Proof.
  intros on. unfold blockPattern, positions, quadrantGlyph. cbn [fold_left].
  fold (on 0%nat 0%nat) (on 1%nat 0%nat) (on 0%nat 1%nat) (on 1%nat 1%nat).
  destruct (on 0%nat 0%nat), (on 1%nat 0%nat), (on 0%nat 1%nat), (on 1%nat 1%nat);
    cbn; split; eauto.
Qed.

Lemma braillePattern_bits (data : list Z) (w h : nat) (t : float) (cx cy : nat) :
  let on dx dy := (t <? getPixelLuminance data w h (Z.of_nat (cx * 2 + dx))
                          (Z.of_nat (cy * 4 + dy)))%float in
  0x2800 + braillePattern data w h t cx cy = brailleGlyph on.
Proof.
  intros on. unfold braillePattern, BRAILLE_DOT_MAP, brailleGlyph.
  cbn [fold_left seq nth].
  fold (on 0%nat 0%nat) (on 1%nat 0%nat) (on 0%nat 1%nat) (on 1%nat 1%nat)
       (on 0%nat 2%nat) (on 1%nat 2%nat) (on 0%nat 3%nat) (on 1%nat 3%nat).
  destruct (on 0%nat 0%nat), (on 1%nat 0%nat), (on 0%nat 1%nat), (on 1%nat 1%nat),
           (on 0%nat 2%nat), (on 1%nat 2%nat), (on 0%nat 3%nat), (on 1%nat 3%nat); reflexivity.
Qed.

Lemma encodeBraille_grid (σ : heap) (img : ImageData) (t : float) :
  encodeBraille σ img t =
    (fun cy => (fun cx => 0x2800 + braillePattern (buffer σ img) (width img)
                            (height img) t cx cy)
               <$> seq 0 (ceil_div (width img) 2))
    <$> seq 0 (ceil_div (height img) 4).
Proof.
  unfold encodeBraille.
  rewrite (fold_left_ext _ (fun rows cy => rows ++
     [(fun cx => 0x2800 + braillePattern (buffer σ img) (width img)
                   (height img) t cx cy) <$> seq 0 (ceil_div (width img) 2)])).
  - now rewrite fold_left_snoc.
  - intros rows cy _. f_equal. f_equal.
    now rewrite (fold_left_snoc
      (fun cx => 0x2800 + braillePattern (buffer σ img) (width img)
                   (height img) t cx cy)).
Qed.

Lemma encodeBlocks_grid (σ : heap) (img : ImageData) (t : float) :
  encodeBlocks σ img t =
    (fun cy => (fun cx => default 0 (QUADRANT_CHARS !! Z.to_nat
                  (blockPattern (buffer σ img) (width img) (height img) t cx cy)))
               <$> seq 0 (ceil_div (width img) 2))
    <$> seq 0 (ceil_div (height img) 2).
Proof.
  unfold encodeBlocks.
  rewrite (fold_left_ext _ (fun rows cy => rows ++
     [(fun cx => default 0 (QUADRANT_CHARS !! Z.to_nat
                  (blockPattern (buffer σ img) (width img) (height img) t cx cy)))
      <$> seq 0 (ceil_div (width img) 2)])).
  - now rewrite fold_left_snoc.
  - intros rows cy _. f_equal. f_equal.
    rewrite (fold_left_ext _ (fun row cx => row ++
      [default 0 (QUADRANT_CHARS !! Z.to_nat
         (blockPattern (buffer σ img) (width img) (height img) t cx cy))])).
    + now rewrite (fold_left_snoc (fun cx => default 0 (QUADRANT_CHARS !! Z.to_nat
         (blockPattern (buffer σ img) (width img) (height img) t cx cy)))).
    + intros row cx _.
      destruct (blockPattern_bits (buffer σ img) (width img) (height img) t cx cy)
        as [_ [c Hc]].
      rewrite Hc. reflexivity.
Qed.

(** C5.  In the output of [encodeBlocks] the cell [(charX, charY)] is the
    entry of the 16-glyph table at [1*TL + 2*TR + 4*BL + 8*BR], where each
    bit tells whether that sub-pixel's luminance exceeds the threshold; in
    the output of [encodeBraille] it is the code point [0x2800] plus the
    fixed weights of the dots that exceed it.  A block with every sub-pixel
    at or below the threshold gives the space (U+2800 for braille), a block
    with every sub-pixel above it gives U+2588 (U+28FF), and two cells with
    the same on/off pattern hold the same character. *)
Theorem encoders_glyphs (σ : heap) (img : ImageData) (t : float)
    (charX charY : nat) :
  ((charX < ceil_div (width img) 2)%nat ->
   (charY < ceil_div (height img) 2)%nat ->
   cell (encodeBlocks σ img t) charX charY
     = quadrantGlyph (lit σ img t 2 2 charX charY 0 0)
         (lit σ img t 2 2 charX charY 1 0) (lit σ img t 2 2 charX charY 0 1)
         (lit σ img t 2 2 charX charY 1 1) /\
   ((forall dx dy, (dx < 2)%nat -> (dy < 2)%nat ->
       (subpixel σ img 2 2 charX charY dx dy <=? t)%float = true) ->
    cell (encodeBlocks σ img t) charX charY = Some 0x20) /\
   ((forall dx dy, (dx < 2)%nat -> (dy < 2)%nat ->
       (t <? subpixel σ img 2 2 charX charY dx dy)%float = true) ->
    cell (encodeBlocks σ img t) charX charY = Some 0x2588) /\
   (forall σ' img' t' x' y',
      (x' < ceil_div (width img') 2)%nat ->
      (y' < ceil_div (height img') 2)%nat ->
      (forall dx dy, (dx < 2)%nat -> (dy < 2)%nat ->
         lit σ' img' t' 2 2 x' y' dx dy = lit σ img t 2 2 charX charY dx dy) ->
      cell (encodeBlocks σ' img' t') x' y'
        = cell (encodeBlocks σ img t) charX charY)) /\
  ((charX < ceil_div (width img) 2)%nat ->
   (charY < ceil_div (height img) 4)%nat ->
   cell (encodeBraille σ img t) charX charY
     = Some (brailleGlyph (lit σ img t 2 4 charX charY)) /\
   ((forall dx dy, (dx < 2)%nat -> (dy < 4)%nat ->
       (subpixel σ img 2 4 charX charY dx dy <=? t)%float = true) ->
    cell (encodeBraille σ img t) charX charY = Some 0x2800) /\
   ((forall dx dy, (dx < 2)%nat -> (dy < 4)%nat ->
       (t <? subpixel σ img 2 4 charX charY dx dy)%float = true) ->
    cell (encodeBraille σ img t) charX charY = Some 0x28FF) /\
   (forall σ' img' t' x' y',
      (x' < ceil_div (width img') 2)%nat ->
      (y' < ceil_div (height img') 4)%nat ->
      (forall dx dy, (dx < 2)%nat -> (dy < 4)%nat ->
         lit σ' img' t' 2 4 x' y' dx dy = lit σ img t 2 4 charX charY dx dy) ->
      cell (encodeBraille σ' img' t') x' y'
        = cell (encodeBraille σ img t) charX charY)).
Proof.
  assert (Hblocks : forall σ img t x y,
    (x < ceil_div (width img) 2)%nat -> (y < ceil_div (height img) 2)%nat ->
    cell (encodeBlocks σ img t) x y
      = quadrantGlyph (lit σ img t 2 2 x y 0 0) (lit σ img t 2 2 x y 1 0)
          (lit σ img t 2 2 x y 0 1) (lit σ img t 2 2 x y 1 1)).
  { intros σ0 img0 t0 x y Hx Hy.
    rewrite encodeBlocks_grid,
      (cell_grid (fun cx cy => default 0 (QUADRANT_CHARS !! Z.to_nat
         (blockPattern (buffer σ0 img0) (width img0) (height img0) t0 cx cy))))
      by assumption.
    destruct (blockPattern_bits (buffer σ0 img0) (width img0) (height img0) t0 x y)
      as [Hb [c Hc]].
    rewrite Hc. cbn. rewrite <- Hc. exact Hb. }
  assert (Hbraille : forall σ img t x y,
    (x < ceil_div (width img) 2)%nat -> (y < ceil_div (height img) 4)%nat ->
    cell (encodeBraille σ img t) x y
      = Some (brailleGlyph (lit σ img t 2 4 x y))).
  { intros σ0 img0 t0 x y Hx Hy.
    rewrite encodeBraille_grid,
      (cell_grid (fun cx cy => 0x2800 + braillePattern (buffer σ0 img0)
         (width img0) (height img0) t0 cx cy)) by assumption.
    f_equal. apply braillePattern_bits. }
  split; intros Hx Hy.
  - rewrite (Hblocks σ img t charX charY Hx Hy).
    split; [reflexivity|]. split; [|split].
    + intros Hoff.
      assert (Hl : forall dx dy, (dx < 2)%nat -> (dy < 2)%nat ->
                lit σ img t 2 2 charX charY dx dy = false)
        by (intros; apply leb_not_ltb; auto).
      rewrite !Hl by lia. reflexivity.
    + intros Hon. unfold lit. rewrite !Hon by lia. reflexivity.
    + intros σ' img' t' x' y' Hx' Hy' Hsame.
      rewrite (Hblocks σ' img' t' x' y' Hx' Hy'), !Hsame by lia. reflexivity.
  - rewrite (Hbraille σ img t charX charY Hx Hy).
    split; [reflexivity|]. split; [|split].
    + intros Hoff.
      assert (Hl : forall dx dy, (dx < 2)%nat -> (dy < 4)%nat ->
                lit σ img t 2 4 charX charY dx dy = false)
        by (intros; apply leb_not_ltb; auto).
      unfold brailleGlyph. rewrite !Hl by lia. reflexivity.
    + intros Hon. unfold brailleGlyph, lit. rewrite !Hon by lia. reflexivity.
    + intros σ' img' t' x' y' Hx' Hy' Hsame.
      rewrite (Hbraille σ' img' t' x' y' Hx' Hy'). unfold brailleGlyph.
      rewrite !Hsame by lia. reflexivity.
Qed.

Lemma encoders_glyphs_witness :
  cell (encodeBlocks sampleHeap sampleImage 128) 0 0 = Some 0x2588 /\
  cell (encodeBraille sampleHeap sampleImage 128) 1 0 = Some 0x28FF.
Proof.
  split.
  - destruct (encoders_glyphs sampleHeap sampleImage 128 0 0) as [Hq _].
    destruct Hq as (_ & _ & Hfull & _); [cbn; lia | cbn; lia |].
    apply Hfull. intros dx dy Hdx Hdy.
    destruct dx as [|[|dx]]; [| |lia]; (destruct dy as [|[|dy]]; [| |lia]);
      vm_compute; reflexivity.
  - destruct (encoders_glyphs sampleHeap sampleImage 128 1 0) as [_ Hb].
    destruct Hb as (_ & _ & Hfull & _); [cbn; lia | cbn; lia |].
    apply Hfull. intros dx dy Hdx Hdy.
    destruct dx as [|[|dx]]; [| |lia];
      (destruct dy as [|[|[|[|dy]]]]; [| | | |lia]); vm_compute; reflexivity.
Defined.

(** ** Dithering: what the loops write *)

Lemma later_refl (lo : nat) (d : list Z) : later lo d d.
Proof. split; auto. Qed.

Lemma later_trans (lo lo' : nat) (d1 d2 d3 : list Z) :
  (lo <= lo')%nat -> later lo d1 d2 -> later lo' d2 d3 -> later lo d1 d3.
Proof.
  intros Hle [L1 H1] [L2 H2]. split; [congruence|].
  intros i Hi. rewrite H2, H1; auto. destruct Hi; [left; lia | now right].
Qed.

Lemma later_set (lo i : nat) (v : float) (d : list Z) :
  (lo <= i)%nat -> (i mod 4 <> 3)%nat -> later lo d (arr_set d i v).
Proof.
  intros Hle Hmod. unfold arr_set. split; [apply length_insert|].
  intros j Hj. apply list_lookup_insert_ne. destruct Hj; [lia | congruence].
Qed.

Lemma later_set3 (lo i : nat) (v1 v2 v3 : float) (d : list Z) (d1 d2 : list Z) :
  (lo <= i)%nat -> (i mod 4 = 0)%nat ->
  d1 = arr_set d i v1 -> d2 = arr_set d1 (i + 1) v2 ->
  later lo d (arr_set d2 (i + 2) v3).
Proof.
  intros Hle Hmod -> ->.
  assert (((i + 1) mod 4 = 1)%nat /\ ((i + 2) mod 4 = 2)%nat) as [M1 M2].
  { rewrite <- !(Nat.Div0.add_mod_idemp_l i), Hmod. split; reflexivity. }
  eapply later_trans; [reflexivity | | apply later_set; lia].
  eapply later_trans; [reflexivity | | apply later_set; lia].
  apply later_set; lia.
Qed.

Lemma pixel_index_mod (w x y : nat) : (pixel_index w x y mod 4 = 0)%nat.
Proof. unfold pixel_index. apply Nat.Div0.mod_mul. Qed.

(** A neighbour reached by a forward offset lies after the current pixel,
    inside the array. *)
Lemma neighbour_forward (w h x y : nat) (dx dy : Z) (n : nat) :
  neighbour w h x y dx dy = Some n ->
  (x < w)%nat -> (0 < dy \/ (dy = 0 /\ 0 < dx)) ->
  (pixel_index w x y + 4 <= n)%nat /\ (n mod 4 = 0)%nat /\
  (n + 3 < 4 * w * h)%nat.
Proof.
  unfold neighbour, pixel_index. intros Hn Hx Hfw.
  destruct (_ && _) eqn:E in Hn; [|discriminate]. injection Hn as <-.
  apply andb_true_iff in E as [E E4]. apply andb_true_iff in E as [E E3].
  apply andb_true_iff in E as [E1 E2].
  set (nx := Z.of_nat x + dx) in *. set (ny := Z.of_nat y + dy) in *.
  assert (Hnx : 0 <= nx < Z.of_nat w) by lia.
  assert (Hny : 0 <= ny < Z.of_nat h) by lia.
  replace (Z.to_nat ((ny * Z.of_nat w + nx) * 4))
    with ((Z.to_nat ny * w + Z.to_nat nx) * 4)%nat by nia.
  split; [|split].
  - destruct Hfw as [Hdy|[Hdy Hdx]].
    + assert (Z.to_nat ny = y + Z.to_nat dy)%nat by lia. nia.
    + assert (Z.to_nat ny = y) by lia. nia.
  - apply Nat.Div0.mod_mul.
  - assert (Z.to_nat ny + 1 <= h)%nat by lia. nia.
Qed.

Lemma fs_distribute_later (w h x y : nat) (eR eG eB : float) (dx dy : Z)
    (factor : float) (d : list Z) :
  (x < w)%nat -> (0 < dy \/ (dy = 0 /\ 0 < dx)) ->
  later (pixel_index w x y + 4) d (fs_distribute w h x y eR eG eB dx dy factor d).
Proof.
  intros Hx Hfw. unfold fs_distribute.
  destruct (neighbour w h x y dx dy) as [n|] eqn:E; [|apply later_refl].
  destruct (neighbour_forward _ _ _ _ _ _ _ E Hx Hfw) as (H1 & H2 & _).
  cbv zeta. eapply later_set3; eauto.
Qed.

Lemma atkinson_distribute_later (w h x y : nat) (e : float) (dx dy : Z)
    (d : list Z) :
  (x < w)%nat -> (0 < dy \/ (dy = 0 /\ 0 < dx)) ->
  later (pixel_index w x y + 4) d (atkinson_distribute w h x y e dx dy d).
Proof.
  intros Hx Hfw. unfold atkinson_distribute.
  destruct (neighbour w h x y dx dy) as [n|] eqn:E; [|apply later_refl].
  destruct (neighbour_forward _ _ _ _ _ _ _ E Hx Hfw) as (H1 & H2 & _).
  cbv zeta. eapply later_set3; eauto.
Qed.

Lemma ToUint8Clamp_quantize (lum : float) :
  ToUint8Clamp (quantize lum) = 0 \/ ToUint8Clamp (quantize lum) = 255.
Proof. unfold quantize. destruct (_ <? _)%float; [right | left]; reflexivity. Qed.

(** The three stores [data[idx] = data[idx+1] = data[idx+2] = newVal]. *)
Lemma store_pixel (idx : nat) (v : float) (d : list Z) :
  (idx mod 4 = 0)%nat -> (idx + 3 < length d)%nat ->
  let d' := arr_set (arr_set (arr_set d idx v) (idx + 1) v) (idx + 2) v in
  later idx d d' /\
  forall c, (c < 3)%nat -> d' !! (idx + c)%nat = Some (ToUint8Clamp v).
Proof.
  intros Hmod Hlen d'. split.
  - eapply later_set3; eauto.
  - intros c Hc. unfold d', arr_set.
    destruct c as [|[|[|c]]]; [| | |lia].
    + rewrite Nat.add_0_r, !list_lookup_insert_ne, list_lookup_insert_eq by lia.
      reflexivity.
    + rewrite list_lookup_insert_ne, list_lookup_insert_eq
        by (rewrite ?length_insert; lia).
      reflexivity.
    + rewrite list_lookup_insert_eq by (rewrite ?length_insert; lia).
      reflexivity.
Qed.

Lemma later_keeps (lo : nat) (d d' : list Z) (i : nat) :
  later lo d d' -> (i < lo)%nat -> d' !! i = d !! i.
Proof. intros [_ H] Hi. apply H. now left. Qed.

Lemma pixel_index_bound (w h x y : nat) :
  (x < w)%nat -> (y < h)%nat -> (pixel_index w x y + 4 <= 4 * w * h)%nat.
Proof. unfold pixel_index. intros Hx Hy. assert (y + 1 <= h)%nat by lia. nia. Qed.

(** The colour bytes [fs_pixel] leaves at its own pixel. *)
Lemma fs_pixel_writes (w h x y : nat) (d : list Z) :
  (x < w)%nat -> (y < h)%nat -> length d = (4 * w * h)%nat ->
  let idx := pixel_index w x y in
  later idx d (fs_pixel w h x y d) /\
  forall c, (c < 3)%nat ->
    fs_pixel w h x y d !! (idx + c)%nat
      = Some (ToUint8Clamp (quantize (calculateLuminance (arr_get d idx)
                (arr_get d (idx + 1)) (arr_get d (idx + 2))))).
Proof.
  intros Hx Hy Hlen.
  pose proof (pixel_index_mod w x y) as Hmod.
  pose proof (pixel_index_bound w h x y Hx Hy) as Hb.
  unfold fs_pixel. cbv zeta.
  set (idx := pixel_index w x y) in *.
  set (newVal := quantize _).
  set (eR := (_ - newVal)%float). set (eG := (_ - newVal)%float).
  set (eB := (_ - newVal)%float).
  destruct (store_pixel idx newVal d Hmod ltac:(lia)) as [L0 S0].
  set (d0 := arr_set (arr_set (arr_set d idx newVal) (idx + 1) newVal)
               (idx + 2) newVal) in *.
  set (d1 := fs_distribute w h x y eR eG eB 1 0 _ d0).
  set (d2 := fs_distribute w h x y eR eG eB (-1) 1 _ d1).
  set (d3 := fs_distribute w h x y eR eG eB 0 1 _ d2).
  set (d4 := fs_distribute w h x y eR eG eB 1 1 _ d3).
  assert (L1 : later (idx + 4) d0 d1) by (apply fs_distribute_later; lia).
  assert (L2 : later (idx + 4) d1 d2) by (apply fs_distribute_later; lia).
  assert (L3 : later (idx + 4) d2 d3) by (apply fs_distribute_later; lia).
  assert (L4 : later (idx + 4) d3 d4) by (apply fs_distribute_later; lia).
  assert (L : later (idx + 4) d0 d4).
  { eapply later_trans; [reflexivity| |exact L4].
    eapply later_trans; [reflexivity| |exact L3].
    eapply later_trans; [reflexivity|exact L1|exact L2]. }
  split.
  - eapply later_trans; [| exact L0 | exact L]. lia.
  - intros c Hc. rewrite (later_keeps _ _ _ _ L) by lia. now rewrite S0 by lia.
Qed.

Lemma fs_pixel_quantizing (w h : nat) : quantizing w h (fs_pixel w h).
Proof.
  intros x y d Hx Hy Hlen.
  destruct (fs_pixel_writes w h x y d Hx Hy Hlen) as [L V]. split; [exact L|].
  intros c Hc. rewrite V by assumption.
  destruct (ToUint8Clamp_quantize (calculateLuminance
              (arr_get d (pixel_index w x y)) (arr_get d (pixel_index w x y + 1))
              (arr_get d (pixel_index w x y + 2)))) as [E|E];
    rewrite E; [now left | now right].
Qed.

Lemma atkinson_pixel_quantizing (w h : nat) : quantizing w h (atkinson_pixel w h).
Proof.
  intros x y d Hx Hy Hlen.
  pose proof (pixel_index_mod w x y) as Hmod.
  pose proof (pixel_index_bound w h x y Hx Hy) as Hb.
  unfold atkinson_pixel. cbv zeta.
  set (idx := pixel_index w x y) in *.
  set (newVal := quantize _).
  set (e := (_ / 8)%float).
  destruct (store_pixel idx newVal d Hmod ltac:(lia)) as [L0 S0].
  set (d0 := arr_set (arr_set (arr_set d idx newVal) (idx + 1) newVal)
               (idx + 2) newVal) in *.
  set (d1 := atkinson_distribute w h x y e 1 0 d0).
  set (d2 := atkinson_distribute w h x y e 2 0 d1).
  set (d3 := atkinson_distribute w h x y e (-1) 1 d2).
  set (d4 := atkinson_distribute w h x y e 0 1 d3).
  set (d5 := atkinson_distribute w h x y e 1 1 d4).
  set (d6 := atkinson_distribute w h x y e 0 2 d5).
  assert (L1 : later (idx + 4) d0 d1) by (apply atkinson_distribute_later; lia).
  assert (L2 : later (idx + 4) d1 d2) by (apply atkinson_distribute_later; lia).
  assert (L3 : later (idx + 4) d2 d3) by (apply atkinson_distribute_later; lia).
  assert (L4 : later (idx + 4) d3 d4) by (apply atkinson_distribute_later; lia).
  assert (L5 : later (idx + 4) d4 d5) by (apply atkinson_distribute_later; lia).
  assert (L6 : later (idx + 4) d5 d6) by (apply atkinson_distribute_later; lia).
  assert (L : later (idx + 4) d0 d6).
  { eapply later_trans; [reflexivity| |exact L6].
    eapply later_trans; [reflexivity| |exact L5].
    eapply later_trans; [reflexivity| |exact L4].
    eapply later_trans; [reflexivity| |exact L3].
    eapply later_trans; [reflexivity|exact L1|exact L2]. }
  split.
  - eapply later_trans; [| exact L0 | exact L]. lia.
  - intros c Hc. rewrite (later_keeps _ _ _ _ L) by lia. rewrite S0 by lia.
    destruct (ToUint8Clamp_quantize (calculateLuminance (arr_get d idx)
                (arr_get d (idx + 1)) (arr_get d (idx + 2)))) as [E|E];
      fold newVal in E; rewrite E; [now left | now right].
Qed.

Lemma bayer_pixel_quantizing (w h : nat) :
  quantizing w h (fun x y => bayer_pixel w x y).
Proof.
  intros x y d Hx Hy Hlen.
  pose proof (pixel_index_mod w x y) as Hmod.
  pose proof (pixel_index_bound w h x y Hx Hy) as Hb.
  unfold bayer_pixel. cbv zeta.
  set (idx := pixel_index w x y) in *.
  set (newVal := if (_ <? _)%float then _ else _).
  destruct (store_pixel idx newVal d Hmod ltac:(lia)) as [L0 S0].
  split; [exact L0|].
  intros c Hc. rewrite S0 by lia. unfold newVal.
  destruct (_ <? _)%float; [now right | now left].
Qed.

(** ** The two loops as one pass over the pixels in row-major order *)

Lemma fold_left_fmap {A B C : Type} (f : A -> C -> A) (g : B -> C)
    (l : list B) (a : A) :
  fold_left f (g <$> l) a = fold_left (fun a i => f a (g i)) l a.
Proof. revert a. induction l as [|b l IH]; intros a; cbn; auto. Qed.

Lemma fold_left_seq_shift {A : Type} (f : A -> nat -> A) (s n : nat) (a : A) :
  fold_left f (seq s n) a = fold_left (fun a i => f a (s + i)%nat) (seq 0 n) a.
Proof.
  rewrite <- (fold_left_fmap f (fun i => (s + i)%nat)).
  f_equal. rewrite fmap_add_seq. f_equal. lia.
Qed.

Lemma scan_flat (w h : nat) (body : nat -> nat -> list Z -> list Z) (d : list Z) :
  (0 < w)%nat ->
  scan w h body d
    = fold_left (fun d (p : nat) => body (p mod w)%nat (p / w)%nat d) (seq 0 (h * w)) d.
Proof.
  intros Hw. unfold scan. induction h as [|h IH].
  - reflexivity.
  - rewrite seq_S, fold_left_app, IH. cbn [fold_left].
    replace (S h * w)%nat with (h * w + w)%nat by lia.
    rewrite seq_app, fold_left_app. cbn [Nat.add].
    rewrite (fold_left_seq_shift _ (h * w) w). symmetry.
    apply fold_left_ext. intros b x Hin. apply in_seq in Hin.
    rewrite Nat.add_comm, Nat.Div0.mod_add, Nat.div_add by lia.
    rewrite Nat.mod_small, Nat.div_small by lia. reflexivity.
Qed.

Lemma pixel_index_flat (w p : nat) :
  (0 < w)%nat -> pixel_index w (p mod w)%nat (p / w)%nat = (4 * p)%nat.
Proof.
  intros Hw. unfold pixel_index.
  pose proof (Nat.div_mod_eq p w). lia.
Qed.

(** After the first [n] pixels: lengths and alpha bytes are those of the
    input, and the pixels done are black or white. *)
Lemma pass_monochrome (w h : nat) (body : nat -> nat -> list Z -> list Z)
    (d : list Z) (n : nat) :
  quantizing w h body -> (0 < w)%nat -> length d = (4 * w * h)%nat ->
  (n <= h * w)%nat ->
  let d' := fold_left (fun d (p : nat) => body (p mod w)%nat (p / w)%nat d) (seq 0 n) d in
  length d' = length d /\
  (forall i, (i mod 4 = 3)%nat -> d' !! i = d !! i) /\
  (forall p c, (p < n)%nat -> (c < 3)%nat -> monochrome (d' !! (4 * p + c)%nat)).
Proof.
  intros Hq Hw Hlen. induction n as [|n IH]; intros Hn; cbn zeta.
  - cbn. repeat split; auto. intros; lia.
  - rewrite seq_S, fold_left_app. cbn [fold_left Nat.add].
    destruct (IH ltac:(lia)) as (L & A & M). cbn zeta in L, A, M.
    set (dn := fold_left _ (seq 0 n) d) in *.
    assert (Hx : (n mod w < w)%nat) by (apply Nat.mod_upper_bound; lia).
    assert (Hy : (n / w < h)%nat) by (apply Nat.Div0.div_lt_upper_bound; lia).
    destruct (Hq (n mod w)%nat (n / w)%nat dn Hx Hy ltac:(lia)) as [[L' K] Q].
    rewrite pixel_index_flat in K, Q by assumption.
    repeat split.
    + congruence.
    + intros i Hi. rewrite K by (now right). now apply A.
    + intros p c Hp Hc. destruct (Nat.eq_dec p n) as [->|Hne].
      * now apply Q.
      * rewrite K by (left; lia). apply M; lia.
Qed.

Lemma scan_monochrome (w h : nat) (body : nat -> nat -> list Z -> list Z)
    (d : list Z) :
  quantizing w h body -> (0 < w)%nat -> length d = (4 * w * h)%nat ->
  length (scan w h body d) = length d /\
  (forall i, (i mod 4 = 3)%nat -> scan w h body d !! i = d !! i) /\
  (forall x y c, (x < w)%nat -> (y < h)%nat -> (c < 3)%nat ->
     monochrome (scan w h body d !! (pixel_index w x y + c)%nat)).
Proof.
  intros Hq Hw Hlen. rewrite scan_flat by assumption.
  destruct (pass_monochrome w h body d (h * w) Hq Hw Hlen ltac:(lia))
    as (L & A & M).
  repeat split; [exact L | exact A |].
  intros x y c Hx Hy Hc. unfold pixel_index.
  replace ((y * w + x) * 4 + c)%nat with (4 * (y * w + x) + c)%nat by lia.
  apply M; [|assumption]. assert (y + 1 <= h)%nat by lia. nia.
Qed.

(** ** The three dithering functions *)

Lemma new_ImageData_spec (σ : heap) (d : list Z) (w h : nat) :
  (0 < w)%nat -> (0 < h)%nat -> length d = (4 * w * h)%nat ->
  exists img' σ',
    new_ImageData σ d w h = Some (img', σ') /\
    width img' = w /\ height img' = h /\
    σ !! data img' = None /\
    σ' !! data img' = Some d /\
    (forall l a, σ !! l = Some a -> σ' !! l = Some a).
Proof.
  intros Hw Hh Hlen. unfold new_ImageData.
  assert (E : (0 <? w)%nat && (0 <? h)%nat && (length d =? 4 * w * h)%nat = true).
  { rewrite !andb_true_iff, !Nat.ltb_lt, Nat.eqb_eq. auto. }
  rewrite E. eexists _, _. split; [reflexivity|]. cbn.
  assert (Hfresh : σ !! fresh (dom σ) = None).
  { apply not_elem_of_dom. apply is_fresh. }
  repeat split; auto.
  - apply lookup_insert_eq.
  - intros l a Hl. rewrite lookup_insert_ne; [assumption|]. congruence.
Qed.

Lemma dither_spec (σ : heap) (img : ImageData)
    (body : nat -> nat -> list Z -> list Z) :
  wf_image σ img -> quantizing (width img) (height img) body ->
  exists img' σ',
    new_ImageData σ (scan (width img) (height img) body (buffer σ img))
      (width img) (height img) = Some (img', σ') /\
    width img' = width img /\ height img' = height img /\
    σ !! data img' = None /\
    (forall l a, σ !! l = Some a -> σ' !! l = Some a) /\
    buffer σ' img = buffer σ img /\
    length (buffer σ' img') = (4 * width img * height img)%nat /\
    forall x y, (x < width img)%nat -> (y < height img)%nat ->
      let i := pixel_index (width img) x y in
      monochrome (buffer σ' img' !! i) /\
      monochrome (buffer σ' img' !! (i + 1)%nat) /\
      monochrome (buffer σ' img' !! (i + 2)%nat) /\
      buffer σ' img' !! (i + 3)%nat = buffer σ img !! (i + 3)%nat.
Proof.
  intros (d & Hd & Hlen & Hw & Hh & _) Hq.
  assert (Hbuf : buffer σ img = d) by (unfold buffer; now rewrite Hd).
  rewrite Hbuf.
  destruct (scan_monochrome _ _ body d Hq Hw Hlen) as (L & A & M).
  destruct (new_ImageData_spec σ (scan (width img) (height img) body d)
              (width img) (height img) Hw Hh ltac:(congruence))
    as (img' & σ' & E & W & H & F & S & K).
  exists img', σ'. split; [exact E|].
  assert (Hbuf' : buffer σ' img' = scan (width img) (height img) body d)
    by (unfold buffer; now rewrite S).
  repeat split; auto.
  - unfold buffer. now rewrite (K _ _ Hd).
  - rewrite Hbuf'. congruence.
  - rewrite Hbuf'. rewrite <- (Nat.add_0_r (pixel_index _ _ _)). apply M; lia.
  - rewrite Hbuf'. apply M; lia.
  - rewrite Hbuf'. apply M; lia.
  - rewrite Hbuf'. apply A.
    rewrite <- Nat.Div0.add_mod_idemp_l, pixel_index_mod. reflexivity.
Qed.

(** C2.  On a well-formed image each of the three dithering functions
    returns an image of the same width and height over a newly allocated
    array; every array that existed before the call, the input's among
    them, keeps its contents; in the result the R, G and B bytes of every
    pixel are 0 or 255 and the alpha byte is the input's. *)
Theorem dithering_monochrome (σ : heap) (img : ImageData)
    (dither : heap -> ImageData -> option (ImageData * heap)) :
  wf_image σ img ->
  In dither [floydSteinbergDither; atkinsonDither; bayerDither] ->
  exists img' σ',
    dither σ img = Some (img', σ') /\
    width img' = width img /\ height img' = height img /\
    σ !! data img' = None /\
    (forall l a, σ !! l = Some a -> σ' !! l = Some a) /\
    buffer σ' img = buffer σ img /\
    length (buffer σ' img') = (4 * width img * height img)%nat /\
    forall x y, (x < width img)%nat -> (y < height img)%nat ->
      let i := pixel_index (width img) x y in
      monochrome (buffer σ' img' !! i) /\
      monochrome (buffer σ' img' !! (i + 1)%nat) /\
      monochrome (buffer σ' img' !! (i + 2)%nat) /\
      buffer σ' img' !! (i + 3)%nat = buffer σ img !! (i + 3)%nat.
Proof.
  intros Hwf [<-|[<-|[<-|[]]]].
  - apply (dither_spec σ img _ Hwf), fs_pixel_quantizing.
  - apply (dither_spec σ img _ Hwf), atkinson_pixel_quantizing.
  - apply (dither_spec σ img _ Hwf), bayer_pixel_quantizing.
Qed.

Lemma sampleImage_wf : wf_image sampleHeap sampleImage.
Proof.
  exists white4x4. split; [reflexivity|]. split; [reflexivity|].
  split; [cbn; lia|]. split; [cbn; lia|].
  unfold white4x4. cbn. repeat (apply Forall_cons; split; [lia|]).
  apply Forall_nil. trivial.
Qed.

Lemma dithering_monochrome_witness :
  exists img' σ',
    atkinsonDither sampleHeap sampleImage = Some (img', σ') /\
    width img' = 4%nat /\ buffer σ' sampleImage = white4x4 /\
    monochrome (buffer σ' img' !! 0%nat).
Proof.
  destruct (dithering_monochrome sampleHeap sampleImage atkinsonDither
              sampleImage_wf ltac:(cbn; auto))
    as (img' & σ' & E & W & _ & _ & _ & B & _ & M).
  exists img', σ'. split; [exact E|]. split; [exact W|]. split; [exact B|].
  apply (M 0%nat 0%nat); cbn; lia.
Defined.

(** ** Floyd-Steinberg: the binary64 steps are the exact ones *)










(** ** Floyd-Steinberg: the loop body *)

Lemma bytes_lookup (d : list Z) (i : nat) :
  bytes d -> (i < length d)%nat ->
  exists v, d !! i = Some v /\ 0 <= v <= 255 /\
            arr_get d i = num_of_Z v /\ byte_at d i = v.
Proof.
  intros Hb Hi. destruct (lookup_lt_is_Some_2 d i Hi) as [v Hv].
  exists v. unfold arr_get, byte_at. rewrite Hv. repeat split; auto;
    apply (Forall_lookup_1 _ _ _ _ Hb Hv).
Qed.

Lemma bytes_insert (d : list Z) (i : nat) (v : Z) :
  bytes d -> 0 <= v <= 255 -> bytes (<[i := v]> d).
Proof. intros Hb Hv. now apply Forall_insert. Qed.




(** ** Floyd-Steinberg: the whole pass *)





(** ** Destroying the engine *)

Section Destroy.

Import Engine.

(** C9, on the code.  [destroy()] on an engine that holds its media
    element returns and releases the element, the canvases and the output
    nodes.  On the destroyed engine [play()] returns and changes nothing
    but the console, where it logs a warning; [pause()], and with it a
    second [destroy()], throws a TypeError on the [null] media element. *)
Theorem pause_after_destroy_throws (e : t) (v : Video) (now : Q) (granted : bool) :
  video e = Some v ->
  exists e',
    destroy e = Returned e' /\
    video e' = None /\ canvas e' = false /\ outputCanvas e' = false /\
    outputPre e' = false /\ attached e' = [] /\ isPlaying e' = false /\
    rafId e' = None /\
    (exists e'', play now granted e' = Returned e'' /\
       video e'' = None /\ isPlaying e'' = false /\ rafId e'' = None /\
       lastFrameTime e'' = lastFrameTime e' /\ stats e'' = stats e' /\
       frames e'' = frames e' /\
       console e'' = ("Video autoplay prevented" :: console e')%string) /\
    pause e' = Thrown "TypeError" e' /\
    destroy e' = Thrown "TypeError" e'.
Proof.
  intros Hv. unfold destroy, pause. rewrite Hv. cbn.
  destruct (rafId e) as [n|] eqn:Er; cbn;
    (eexists; split; [reflexivity|]; cbn; repeat split;
     eexists; split; [reflexivity|]; repeat split).
Qed.

Lemma pause_after_destroy_throws_witness :
  exists e',
    destroy sampleEngine = Returned e' /\
    pause e' = Thrown "TypeError" e'.
Proof.
  destruct (pause_after_destroy_throws sampleEngine (mkVideo "clip.mp4" false)
              0%Q true eq_refl)
    as (e' & D & _ & _ & _ & _ & _ & _ & _ & _ & P & _).
  exists e'. split; assumption.
Defined.

End Destroy.

(** ** The phase timeline *)

Section Phases.

Import Metamorphosis.
Local Open Scope Q_scope.

Lemma phases_of_app (l1 l2 : list Tween) :
  phases_of (l1 ++ l2) = phases_of l1 ++ phases_of l2.
Proof.
  induction l1 as [|tw l1 IH]; [reflexivity|]. cbn.
  destruct (onComplete tw); cbn; now rewrite IH.
Qed.

Lemma starts_loop_app (l1 l2 : list Tween) :
  starts_loop (l1 ++ l2) = starts_loop l1 || starts_loop l2.
Proof.
  induction l1 as [|tw l1 IH]; [reflexivity|]. cbn.
  destruct (onComplete tw); cbn; auto.
Qed.

Lemma startFlowLoop_effect (m : t) :
  isRunning m = true ->
  isRunning (startFlowLoop m) = true /\
  canvas (startFlowLoop m) = canvas m /\
  mainTimeline (startFlowLoop m) = mainTimeline m /\
  phases (startFlowLoop m) = phases m /\
  currentPhase (startFlowLoop m) = currentPhase m /\
  looping (startFlowLoop m).
Proof.
  intros Hr. unfold startFlowLoop, looping. rewrite Hr. cbn.
  repeat split; auto. eexists. repeat split.
Qed.

Lemma update_effect (tg : Target) (fin : Q) (upd : bool) (m : t) :
  let m' := if upd then render (set_state (set_scalar tg fin (state m)) m)
            else set_state (set_scalar tg fin (state m)) m in
  isRunning m' = isRunning m /\ canvas m' = canvas m /\
  mainTimeline m' = mainTimeline m /\ phases m' = phases m /\
  currentPhase m' = currentPhase m /\ flowLoop m' = flowLoop m.
Proof.
  destruct upd; unfold render; cbn; [|repeat split].
  destruct (canvas m) eqn:Ec; cbn; repeat split; auto.
Qed.

(** What completing one tween does to the animator. *)
Lemma complete_effect (tw : Tween) (m : t) :
  isRunning m = true ->
  isRunning (complete tw m) = true /\
  canvas (complete tw m) = canvas m /\
  mainTimeline (complete tw m) = mainTimeline m /\
  phases (complete tw m) = phases m ++ phases_of [tw] /\
  currentPhase (complete tw m) = List.last (phases_of [tw]) (currentPhase m) /\
  (starts_loop [tw] = true -> looping (complete tw m)) /\
  (starts_loop [tw] = false -> flowLoop (complete tw m) = flowLoop m).
Proof.
  intros Hr. unfold complete.
  destruct tw as [tg fin sp upd cb]. cbn [target final span onUpdate onComplete].
  destruct (update_effect tg fin upd m) as (R & C & T & P & K & F).
  cbn zeta in *.
  set (m1 := if upd then _ else _) in *.
  destruct cb as [|p|]; cbn [phases_of starts_loop onComplete call].
  - rewrite app_nil_r. cbn. repeat split; try congruence.
  - assert (isRunning (set_phase p m1) = true /\
            canvas (set_phase p m1) = canvas m /\
            mainTimeline (set_phase p m1) = mainTimeline m /\
            phases (set_phase p m1) = phases m ++ [p] /\
            currentPhase (set_phase p m1) = p /\
            flowLoop (set_phase p m1) = flowLoop m) as (R1 & C1 & T1 & P1 & K1 & F1)
      by (cbn; repeat split; congruence).
    destruct p; cbn in *; repeat split; try congruence.
  - destruct (startFlowLoop_effect m1 ltac:(congruence)) as (R1 & C1 & T1 & P1 & K1 & L1).
    rewrite app_nil_r. cbn. repeat split; try congruence.
Qed.

Lemma last_app_default {A : Type} (l1 l2 : list A) (d : A) :
  List.last (l1 ++ l2) d = List.last l2 (List.last l1 d).
Proof.
  revert l1. induction l2 as [|x l2 IH] using rev_ind; intros l1.
  - now rewrite app_nil_r.
  - rewrite app_assoc, !last_last. reflexivity.
Qed.

(** What completing a list of tweens, in order, does to the animator. *)
Lemma complete_all_effect (l : list Tween) (m : t) :
  isRunning m = true ->
  let m' := fold_left (fun m tw => complete tw m) l m in
  isRunning m' = true /\
  canvas m' = canvas m /\
  mainTimeline m' = mainTimeline m /\
  phases m' = phases m ++ phases_of l /\
  currentPhase m' = List.last (phases_of l) (currentPhase m) /\
  (starts_loop l = true -> looping m') /\
  (starts_loop l = false -> flowLoop m' = flowLoop m).
Proof.
  revert m. induction l as [|tw l IH]; intros m Hr; cbn zeta.
  - cbn. rewrite app_nil_r. repeat split; auto; discriminate.
  - cbn [fold_left].
    destruct (complete_effect tw m Hr) as (R & C & T & P & K & S1 & S0).
    destruct (IH _ R) as (R' & C' & T' & P' & K' & S1' & S0'). cbn zeta in *.
    change (tw :: l) with ([tw] ++ l).
    rewrite phases_of_app, starts_loop_app, last_app_default.
    repeat split; try congruence.
    + rewrite P', P. now rewrite app_assoc.
    + intros Hs. destruct (starts_loop l) eqn:El; [now apply S1'|].
      rewrite orb_false_r in Hs. specialize (S1 Hs). specialize (S0' eq_refl).
      unfold looping in *. now rewrite S0'.
    + intros Hs. apply orb_false_iff in Hs as [H1 H2].
      rewrite (S0' H2). now apply S0.
Qed.

(** ** Tweens in the order of their end times *)

Lemma ascending_weaken (lo lo' : Q) (l : list (Q * Tween)) :
  lo' <= lo -> ascending lo l -> ascending lo' l.
Proof. destruct l as [|[e tw] l]; cbn; [auto|]. intros H [H1 H2]. split; [lra|auto]. Qed.

Lemma fired_none (c lo : Q) (l : list (Q * Tween)) :
  c < lo -> ascending lo l -> fired c l = [] /\ forall c', between c c' l = fired c' l.
Proof.
  revert lo. induction l as [|[e tw] l IH]; intros lo Hc Ha; [split; reflexivity|].
  destruct Ha as [H1 H2].
  destruct (IH e ltac:(lra) H2) as [F B].
  assert (E : Qle_bool e c = false).
  { destruct (Qle_bool e c) eqn:E; [|reflexivity].
    apply Qle_bool_iff in E. lra. }
  unfold fired, between in *. cbn [List.filter fst]. rewrite E. cbn [negb andb].
  split; [exact F|]. intros c'. rewrite B. reflexivity.
Qed.

Lemma fired_split (c c' lo : Q) (l : list (Q * Tween)) :
  c <= c' -> ascending lo l -> fired c' l = fired c l ++ between c c' l.
Proof.
  intros Hc. revert lo. induction l as [|[e tw] l IH]; intros lo Ha; [reflexivity|].
  destruct Ha as [H1 H2].
  unfold fired, between in *. cbn [List.filter fst].
  destruct (Qle_bool e c) eqn:E.
  - assert (E' : Qle_bool e c' = true).
    { apply Qle_bool_iff. apply Qle_bool_iff in E. lra. }
    rewrite E'. cbn [negb andb]. rewrite <- app_comm_cons. f_equal. now apply (IH e).
  - cbn [negb andb].
    assert (Hlt : c < e).
    { apply Qnot_le_lt. intros C. apply Qle_bool_iff in C. congruence. }
    destruct (fired_none c e l Hlt H2) as [F B]. unfold fired, between in F, B.
    rewrite F, B. cbn [app]. reflexivity.
Qed.

Lemma fired_all (c : Q) (l : list (Q * Tween)) :
  Forall (fun x => fst x <= c) l -> fired c l = l.
Proof.
  induction 1 as [|[e tw] l H _ IH]; [reflexivity|].
  unfold fired in *. cbn [List.filter fst]. cbn in H.
  apply Qle_bool_iff in H. rewrite H. now f_equal.
Qed.

Lemma fired_prefix (c lo : Q) (l : list (Q * Tween)) :
  ascending lo l -> exists k, fired c l = firstn k l.
Proof.
  revert lo. induction l as [|[e tw] l IH]; intros lo Ha; [now exists 0%nat|].
  destruct Ha as [H1 H2]. unfold fired. cbn [List.filter fst].
  destruct (Qle_bool e c) eqn:E.
  - destruct (IH e H2) as [k Hk]. exists (S k). cbn. f_equal. exact Hk.
  - assert (Hlt : c < e).
    { apply Qnot_le_lt. intros C. apply Qle_bool_iff in C. congruence. }
    destruct (fired_none c e l Hlt H2) as [F _]. exists 0%nat. exact F.
Qed.

Lemma phases_of_prefix (k : nat) (l : list Tween) :
  exists j, phases_of (firstn k l) = firstn j (phases_of l).
Proof.
  revert k. induction l as [|tw l IH]; intros k.
  - exists 0%nat. now rewrite firstn_nil.
  - destruct k as [|k]; [now exists 0%nat|]. cbn.
    destruct (IH k) as [j Hj].
    destruct (onComplete tw); [exists j | exists (S j) | exists j]; cbn; congruence.
Qed.

(** ** Ticks of the tween engine *)

Lemma tick_animating (ch : list (Q * Tween)) (D c dt lo : Q) (m : t) :
  ascending lo ch -> 0 <= dt -> animating ch D c m ->
  animating ch D (c + dt) (tick dt m).
Proof.
  intros Ha Hdt (T & R & Cv & P & K & S1 & S0).
  unfold tick.
  set (m1 := match flowLoop m with
             | Some a => if a_paused a then m
                         else render (mk (canvas m) (currentPhase m) (isRunning m)
                                (state m) (mainTimeline m) (Some (turn dt a))
                                (cleared m) (phases m))
             | None => m end).
  assert (H1 : mainTimeline m1 = mainTimeline m /\ isRunning m1 = isRunning m /\
               canvas m1 = canvas m /\
               phases m1 = phases m /\ currentPhase m1 = currentPhase m /\
               (looping m -> looping m1) /\
               (flowLoop m = None -> flowLoop m1 = None)).
  { unfold m1. destruct (flowLoop m) as [a|] eqn:Ef; [|repeat split; auto].
    destruct (a_paused a) eqn:Ep.
    - repeat split; auto. intros; congruence.
    - assert (Hl : looping m -> forall m', flowLoop m' = Some (turn dt a) -> looping m').
      { intros (a' & E1 & E2 & E3 & E4) m' Hm'. rewrite Ef in E1.
        injection E1 as <-. exists (turn dt a). cbn. auto. }
      unfold render. cbn. destruct (canvas m) eqn:Ec; cbn; repeat split; auto;
        try discriminate; intros Hlm; apply (Hl Hlm); reflexivity. }
  destruct H1 as (T1 & R1 & C1 & P1 & K1 & L1 & N1). clearbody m1.
  rewrite T1, T. cbn [tl_paused].
  set (m2 := mk (canvas m1) (currentPhase m1) (isRunning m1) (state m1)
               (Some (advance dt (mkTimeline ch D c false))) (flowLoop m1)
               (cleared m1) (phases m1)).
  unfold due. cbn [children clock].
  change (List.filter _ ch) with (between c (c + dt) ch).
  destruct (complete_all_effect (map snd (between c (c + dt) ch)) m2
              ltac:(cbn; congruence))
    as (R' & C' & T' & P' & K' & S1' & S0'). cbn zeta in *.
  set (m3 := fold_left _ _ m2) in *.
  pose proof (fired_split c (c + dt) lo ch ltac:(lra) Ha) as Hsplit.
  unfold animating.
  rewrite Hsplit, map_app, phases_of_app, starts_loop_app.
  assert (P3 : phases m3 = start :: phases_of (map snd (fired c ch))
                           ++ phases_of (map snd (between c (c + dt) ch))).
  { rewrite P'. cbn [phases m2]. rewrite P1, P. reflexivity. }
  repeat split.
  - rewrite T'. reflexivity.
  - exact R'.
  - rewrite C'. cbn [canvas m2]. now rewrite C1.
  - exact P3.
  - rewrite K', P3. cbn [currentPhase m2]. rewrite K1, K, P.
    change (start :: ?a ++ ?b) with ((start :: a) ++ b).
    now rewrite last_app_default.
  - intros Hs. destruct (starts_loop (map snd (between c (c + dt) ch))) eqn:Eb.
    + now apply S1'.
    + rewrite orb_false_r in Hs. specialize (S0' eq_refl).
      specialize (L1 (S1 Hs)). unfold looping in *. now rewrite S0'.
  - intros Hs. apply orb_false_iff in Hs as [Hs1 Hs2].
    rewrite (S0' Hs2). cbn. now apply N1, S0.
Qed.

Lemma steps_animating (ch : list (Q * Tween)) (D c lo : Q) (dts : list Q) (m : t) :
  ascending lo ch -> Forall (Qle 0) dts -> animating ch D c m ->
  exists c', c' == c + total dts /\ animating ch D c' (steps dts m).
Proof.
  intros Ha Hdts. revert c m. unfold steps.
  induction Hdts as [|dt dts Hdt _ IH]; intros c m Hm.
  - exists c. split; [cbn; lra | exact Hm].
  - cbn [fold_left].
    destruct (IH (c + dt) (tick dt m) (tick_animating ch D c dt lo m Ha Hdt Hm))
      as (c' & Hc' & Hm').
    exists c'. split; [|exact Hm']. cbn [total fold_right]. fold (total dts). lra.
Qed.

(** ** The timeline of [runAnimation] *)

Lemma runAnimation_timeline (w sc se : Q) :
  0 <= sc -> 0 <= se ->
  exists ch D,
    mainTimeline (startMetamorphosis sc se (loaded w))
      = Some (mkTimeline ch D 0 false) /\
    D == 12507 + sc + se /\
    ascending 300 ch /\ Forall (fun x => fst x <= D) ch /\
    phases_of (map snd ch) = [chaos; order; converge; wave; filter; split; flow] /\
    starts_loop (map snd ch) = true /\
    animating ch D 0 (startMetamorphosis sc se (loaded w)).
Proof.
  intros Hsc Hse. unfold animating.
  cbv [startMetamorphosis loaded runAnimation isRunning canvas mainTimeline
       phases currentPhase flowLoop
       set_phase set_state canvasWidth default add createTimeline children duration
       clock tl_paused span tween wait marker app].
  eexists _, _. split; [reflexivity|]. split; [lra|].
  match goal with
  | |- ascending 300 ?l /\ _ => assert (Hasc : ascending 300 l)
  end.
  { cbv [ascending]. repeat split; lra. }
  split; [exact Hasc|]. split.
  { repeat (apply Forall_cons; split; [cbn [fst]; lra|]). apply Forall_nil. trivial. }
  split; [reflexivity|]. split; [reflexivity|].
  destruct (fired_none 0 300 _ ltac:(lra) Hasc) as [F _].
  rewrite F. cbn [map phases_of starts_loop List.last].
  repeat split; auto; discriminate.
Qed.

(** After [stopMetamorphosis] nothing moves any more. *)
Lemma stopped_steps (m : t) (dts : list Q) :
  mainTimeline m = None -> flowLoop m = None -> steps dts m = m.
Proof.
  intros HT HF. unfold steps. induction dts as [|dt dts IH]; [reflexivity|].
  cbn [fold_left]. unfold tick at 2. rewrite HF, HT. exact IH.
Qed.

(** C8.  Started on a page with a canvas and stepped through any schedule
    of clock increments, the animator enters the phases in the fixed order
    and never goes back: the values assigned to the current phase are
    always the first [k >= 1] of start, chaos, order, converge, wave,
    filter, split, flow.  Once the schedule covers the timeline, all eight
    have been entered, each once, the current phase is flow, and the
    looping dash-offset animation is turning; it stays so through every
    longer schedule, until [stopMetamorphosis] halts the timeline and the
    loop and clears the canvas, after which nothing moves. *)
Theorem phase_sequence (w sc se : Q) (dts : list Q) :
  0 <= sc -> 0 <= se -> Forall (Qle 0) dts ->
  let m0 := startMetamorphosis sc se (loaded w) in
  let m := steps dts m0 in
  (exists k, (1 <= k)%nat /\ phases m = firstn k all_phases) /\
  currentPhase m = List.last (phases m) start /\
  timelineDuration m0 == 12507 + sc + se /\
  (timelineDuration m0 <= total dts ->
     phases m = all_phases /\ currentPhase m = flow /\
     isRunning m = true /\ looping m) /\
  (isRunning (stopMetamorphosis m) = false /\
   mainTimeline (stopMetamorphosis m) = None /\
   flowLoop (stopMetamorphosis m) = None /\
   cleared (stopMetamorphosis m) = true /\
   phases (stopMetamorphosis m) = phases m /\
   forall dts', steps dts' (stopMetamorphosis m) = stopMetamorphosis m).
Proof.
  intros Hsc Hse Hdts m0 m.
  destruct (runAnimation_timeline w sc se Hsc Hse)
    as (ch & D & HT & HD & Hasc & Hall & Hph & Hloop & Hinv).
  fold m0 in HT, Hinv.
  destruct (steps_animating ch D 0 300 dts m0 Hasc Hdts Hinv)
    as (c & Hc & (T & R & Cv & P & K & S1 & S0)).
  fold m in T, R, Cv, P, K, S1, S0.
  assert (HD' : timelineDuration m0 = D) by (unfold timelineDuration; now rewrite HT).
  split; [|split; [exact K|split; [now rewrite HD'|split]]].
  - destruct (fired_prefix c 300 ch Hasc) as [k Hk].
    destruct (phases_of_prefix k (map snd ch)) as [j Hj].
    exists (S j). split; [lia|]. rewrite P, Hk, <- firstn_map, Hj, Hph. reflexivity.
  - intros Hlong. rewrite HD' in Hlong.
    assert (Hf : fired c ch = ch).
    { apply fired_all. eapply Forall_impl; [exact Hall|]. cbn. intros x Hx. lra. }
    rewrite Hf in P, S1. rewrite Hph in P.
    repeat split; auto. rewrite K, P. reflexivity.
  - unfold stopMetamorphosis. rewrite R. cbn.
    destruct (canvas m) eqn:Ec; [|congruence].
    repeat split. intros dts'. now apply stopped_steps.
Qed.

Lemma phase_sequence_witness :
  phases (steps [20000; 500] (startMetamorphosis 32 30 (loaded 800))) = all_phases /\
  looping (steps [20000; 500] (startMetamorphosis 32 30 (loaded 800))).
Proof.
  destruct (phase_sequence 800 32 30 [20000; 500]) as (_ & _ & _ & H & _).
  - lra.
  - lra.
  - repeat (apply Forall_cons; split; [lra|]). apply Forall_nil. trivial.
  - destruct H as (P & _ & _ & L).
    + vm_compute. discriminate.
    + split; assumption.
Defined.

End Phases.

(** ** Binary64 rounding *)

Lemma RNE_bounds a c : 0 < c -> a / c <= B64.RNE a c <= a / c + 1.
Proof.
  intros Hc. unfold B64.RNE.
  destruct (2 * (a mod c) ?= c); [destruct (Z.even (a / c))|..]; lia.
Qed.

Lemma RNE_exact n c : 0 < c -> B64.RNE (n * c) c = n.
Proof.
  intros Hc. unfold B64.RNE.
  rewrite Z.mod_mul, Z.div_mul by lia.
  destruct (2 * 0 ?= c) eqn:E; try reflexivity.
  - apply Z.compare_eq in E. lia.
  - apply Z.compare_gt_iff in E. lia.
Qed.

Lemma div_frac_mono a1 c1 a2 c2 :
  0 < c1 -> 0 < c2 -> a1 * c2 <= a2 * c1 -> a1 / c1 <= a2 / c2.
Proof.
  intros H1 H2 H.
  apply Z.div_le_lower_bound; [lia|].
  pose proof (Z.mul_div_le a1 c1 H1).
  nia.
Qed.

Lemma RNE_mono a1 c1 a2 c2 :
  0 < c1 -> 0 < c2 -> a1 * c2 <= a2 * c1 -> B64.RNE a1 c1 <= B64.RNE a2 c2.
Proof.
  intros H1 H2 H.
  pose proof (div_frac_mono _ _ _ _ H1 H2 H) as Hq.
  pose proof (RNE_bounds a1 c1 H1) as B1.
  pose proof (RNE_bounds a2 c2 H2) as B2.
  destruct (Z.eq_dec (a1 / c1) (a2 / c2)) as [E|NE]; [|lia].
  unfold B64.RNE in *. rewrite <- E in *.
  pose proof (Z.div_mod a1 c1 ltac:(lia)) as D1.
  pose proof (Z.div_mod a2 c2 ltac:(lia)) as D2.
  rewrite <- E in D2.
  pose proof (Z.mod_pos_bound a1 c1 H1).
  pose proof (Z.mod_pos_bound a2 c2 H2).
  set (q := a1 / c1) in *. set (r1 := a1 mod c1) in *. set (r2 := a2 mod c2) in *.
  assert (Hr : r1 * c2 <= r2 * c1) by nia.
  assert (Hle : c1 <= 2 * r1 -> c2 <= 2 * r2) by (intros; nia).
  assert (Hlt : c1 < 2 * r1 -> c2 < 2 * r2) by (intros; nia).
  clear Hr D1 D2.
  destruct (Z.compare_spec (2 * r1) c1), (Z.compare_spec (2 * r2) c2);
    destruct (Z.even q); lia.
Qed.

Lemma RNE_le_int a c n : 0 < c -> a <= n * c -> B64.RNE a c <= n.
Proof.
  intros Hc H. rewrite <- (RNE_exact n 1) by lia.
  apply RNE_mono; lia.
Qed.

Lemma RNE_ge_int a c n : 0 < c -> n * c <= a -> n <= B64.RNE a c.
Proof.
  intros Hc H. rewrite <- (RNE_exact n 1) at 1 by lia.
  apply RNE_mono; lia.
Qed.

Lemma RNE_add_even a c n :
  0 < c -> Z.even n = true -> B64.RNE (a + n * c) c = n + B64.RNE a c.
Proof.
  intros Hc Hn. unfold B64.RNE.
  rewrite Z.mod_add, Z.div_add by lia.
  destruct (2 * (a mod c) ?= c); try lia.
  rewrite Z.even_add, Hn.
  destruct (Z.even (a / c)); cbn; lia.
Qed.

Lemma gmin_val : B64.gmin = 1126.
Proof. reflexivity. Qed.

Lemma below_top n : 0 <= n -> 2 ^ n < B64.top -> n < 3224.
Proof. intros Hn H. apply (Z.pow_lt_mono_r_iff 2); [lia|lia|exact H]. Qed.

Lemma gexp_ge a b : B64.gmin <= B64.gexp a b.
Proof. unfold B64.gexp. lia. Qed.

Lemma gexp_mono a1 b1 a2 b2 :
  0 < b1 -> 0 < b2 -> a1 * b2 <= a2 * b1 -> B64.gexp a1 b1 <= B64.gexp a2 b2.
Proof.
  intros H1 H2 H. unfold B64.gexp.
  pose proof (Z.log2_le_mono _ _ (div_frac_mono _ _ _ _ H1 H2 H)). lia.
Qed.

(** Below the next power of two: [a / b < 2^(gexp a b + 53)]. *)
Lemma gexp_upper a b : 0 < b -> a < 2 ^ (B64.gexp a b + 53) * b.
Proof.
  intros Hb.
  assert (Hq : a / b < 2 ^ (B64.gexp a b + 53)).
  { pose proof (gexp_ge a b). rewrite gmin_val in *.
    destruct (Z.le_gt_cases (a / b) 0) as [Hn|Hp].
    - pose proof (Z.pow_pos_nonneg 2 (B64.gexp a b + 53)). lia.
    - apply Z.log2_lt_pow2; [lia|]. unfold B64.gexp. lia. }
  pose proof (Z.div_mod a b ltac:(lia)).
  pose proof (Z.mod_pos_bound a b Hb). nia.
Qed.

(** Above the subnormal range the fraction has 53 significant bits. *)
Lemma gexp_lower a b :
  0 < b -> B64.gmin < B64.gexp a b -> 2 ^ (B64.gexp a b + 52) * b <= a.
Proof.
  intros Hb Hg. rewrite gmin_val in *.
  assert (Hp : 0 < a / b).
  { destruct (Z.le_gt_cases (a / b) 0) as [Hn|Hp]; [|lia].
    unfold B64.gexp in Hg. rewrite gmin_val in *.
    assert (Z.log2 (a / b) = 0) by (apply Z.log2_nonpos; lia). lia. }
  assert (Hq : 2 ^ (B64.gexp a b + 52) <= a / b).
  { replace (B64.gexp a b + 52) with (Z.log2 (a / b)).
    - apply Z.log2_spec; lia.
    - unfold B64.gexp in *. rewrite gmin_val in *. lia. }
  pose proof (Z.mul_div_le a b Hb). nia.
Qed.

Lemma rnd_mono a1 b1 a2 b2 :
  0 < b1 -> 0 < b2 -> a1 * b2 <= a2 * b1 -> B64.rnd a1 b1 <= B64.rnd a2 b2.
Proof.
  intros H1 H2 H.
  pose proof (gexp_mono _ _ _ _ H1 H2 H) as Hg.
  pose proof (gexp_ge a1 b1) as G1. rewrite gmin_val in G1.
  unfold B64.rnd.
  set (g1 := B64.gexp a1 b1) in *. set (g2 := B64.gexp a2 b2) in *.
  assert (P1 : 0 < 2 ^ g1) by (apply Z.pow_pos_nonneg; lia).
  assert (P2 : 0 < 2 ^ g2) by (apply Z.pow_pos_nonneg; lia).
  destruct (Z.eq_dec g1 g2) as [E|NE].
  - rewrite <- E. apply Z.mul_le_mono_nonneg_r; [lia|].
    apply RNE_mono; nia.
  - (* the power of two between the two binades *)
    assert (L : 2 ^ (g2 + 52) * b2 <= a2) by (apply gexp_lower; rewrite ?gmin_val; unfold g2 in *; lia).
    assert (U : a1 < 2 ^ (g1 + 53) * b1) by (apply gexp_upper; lia).
    assert (Hp : 2 ^ (g1 + 53) <= 2 ^ (g2 + 52)) by (apply Z.pow_le_mono_r; lia).
    assert (S1 : 2 ^ (g2 + 52) = 2 ^ (g2 + 52 - g1) * 2 ^ g1)
      by (rewrite <- Z.pow_add_r by lia; f_equal; lia).
    assert (S2 : 2 ^ (g2 + 52) = 2 ^ 52 * 2 ^ g2)
      by (rewrite <- Z.pow_add_r by lia; f_equal; lia).
    transitivity (2 ^ (g2 + 52)).
    + rewrite S1. apply Z.mul_le_mono_nonneg_r; [lia|].
      apply RNE_le_int; [nia|].
      rewrite (Z.mul_comm b1), Z.mul_assoc, <- S1. nia.
    + rewrite S2. apply Z.mul_le_mono_nonneg_r; [lia|].
      apply RNE_ge_int; [nia|].
      rewrite (Z.mul_comm b2), Z.mul_assoc, <- S2. lia.
Qed.

(** A fraction that is a binary64 number is left unchanged. *)
Lemma rnd_exact M g b :
  0 < b -> 0 <= M < 2 ^ 53 -> B64.gmin <= g -> B64.rnd (M * 2 ^ g * b) b = M * 2 ^ g.
Proof.
  intros Hb HM Hg. rewrite gmin_val in Hg.
  unfold B64.rnd.
  assert (Hle : B64.gexp (M * 2 ^ g * b) b <= g).
  { unfold B64.gexp. rewrite Z.div_mul, gmin_val by lia.
    destruct (Z.eq_dec M 0) as [->|NZ];
      [rewrite Z.mul_0_l; change (Z.log2 0) with 0; lia|].
    rewrite Z.log2_mul_pow2 by lia.
    assert (Z.log2 M < 53) by (apply Z.log2_lt_pow2; lia). lia. }
  pose proof (gexp_ge (M * 2 ^ g * b) b) as Hge. rewrite gmin_val in Hge.
  set (g' := B64.gexp (M * 2 ^ g * b) b) in *.
  assert (S : 2 ^ g = 2 ^ (g - g') * 2 ^ g')
    by (rewrite <- Z.pow_add_r by lia; f_equal; lia).
  assert (P : 0 < 2 ^ g') by (apply Z.pow_pos_nonneg; lia).
  replace (M * 2 ^ g * b) with (M * 2 ^ (g - g') * (b * 2 ^ g')) by (rewrite S; ring).
  rewrite RNE_exact by nia. rewrite S. ring.
Qed.

Lemma rnd_0 b : 0 < b -> B64.rnd 0 b = 0.
Proof.
  intros Hb. pose proof (rnd_exact 0 B64.gmin b Hb) as H.
  cbn in H. apply H; lia.
Qed.

Lemma digits2_pos_size m : digits2_pos m = Pos.size m.
Proof. induction m; cbn; congruence. Qed.

Lemma digits2_pos_log2 m : Zpos (digits2_pos m) = Z.log2 (Zpos m) + 1.
Proof.
  rewrite digits2_pos_size. destruct m; cbn [Z.log2 Pos.size]; lia.
Qed.

Lemma Zdigits2_log2 m : 0 < m -> Zdigits2 m = Z.log2 m + 1.
Proof. destruct m; try lia. intros _. apply digits2_pos_log2. Qed.

Lemma loc_of_shr_record_of_loc m l :
  loc_of_shr_record (shr_record_of_loc m l) = l.
Proof. now destruct l as [|[]]. Qed.

Lemma shr_m_of_loc m l : shr_m (shr_record_of_loc m l) = m.
Proof. now destruct l as [|[]]. Qed.

Lemma truncates_nonneg a c m l : 0 <= a -> 0 < c -> B64.truncates a c m l -> 0 <= m.
Proof. intros Ha Hc [-> _]. apply Z.div_pos; lia. Qed.

(** One step of the right shift keeps the mantissa and its location in
    step with the fraction. *)
Lemma shr_1_truncates a c mrs :
  0 <= a -> 0 < c ->
  B64.truncates a c (shr_m mrs) (loc_of_shr_record mrs) ->
  B64.truncates a (c * 2) (shr_m (shr_1 mrs)) (loc_of_shr_record (shr_1 mrs)).
Proof.
  intros Ha Hc [Hm Hl]. unfold B64.truncates.
  rewrite <- Z.div_div, Z.rem_mul_r by lia. rewrite <- Hm.
  pose proof (Z.mod_pos_bound a c Hc) as Hr.
  assert (Hm0 : 0 <= shr_m mrs) by (rewrite Hm; apply Z.div_pos; lia).
  set (r := a mod c) in *. clearbody r. clear Hm.
  unfold B64.loc_of in *.
  destruct mrs as [m rb sb]. cbn [shr_m] in *.
  assert (Hbit : forall p, Z.pos p~1 / 2 = Z.pos p /\ Z.pos p~1 mod 2 = 1 /\
                           Z.pos p~0 / 2 = Z.pos p /\ Z.pos p~0 mod 2 = 0).
  { intros p. rewrite Pos2Z.inj_xI, Pos2Z.inj_xO.
    repeat split.
    - symmetry. apply (Z.div_unique _ 2 _ 1); lia.
    - symmetry. apply (Z.mod_unique _ 2 (Z.pos p) 1); lia.
    - symmetry. apply (Z.div_unique _ 2 _ 0); lia.
    - symmetry. apply (Z.mod_unique _ 2 (Z.pos p) 0); lia. }
  destruct m as [|[p|p|]|]; try lia;
    try (destruct (Hbit p) as (B1 & B2 & B3 & B4); rewrite ?B1, ?B2, ?B3, ?B4; clear B1 B2 B3 B4);
    change (0 / 2) with 0; change (0 mod 2) with 0;
    change (1 / 2) with 0; change (1 mod 2) with 1;
    cbn [shr_1 shr_m loc_of_shr_record orb];
    (split; [reflexivity|]);
    destruct rb, sb; cbn [orb loc_of_shr_record] in *;
    destruct (Z.eqb_spec r 0); try discriminate;
    destruct (Z.compare_spec (2 * r) c); try discriminate;
    match goal with
    | |- context [?x =? 0] => destruct (Z.eqb_spec x 0); try lia
    end;
    try reflexivity;
    match goal with
    | |- context [?x ?= ?y] => destruct (Z.compare_spec x y); try lia
    end; reflexivity.
Qed.

Lemma iter_shr_1_truncates a p : forall c mrs,
  0 <= a -> 0 < c ->
  B64.truncates a c (shr_m mrs) (loc_of_shr_record mrs) ->
  B64.truncates a (c * 2 ^ Z.pos p)
    (shr_m (SpecFloat.iter_pos shr_1 p mrs)) (loc_of_shr_record (SpecFloat.iter_pos shr_1 p mrs)).
Proof.
  induction p as [p IH|p IH|]; intros c mrs Ha Hc H; cbn [SpecFloat.iter_pos].
  - replace (c * 2 ^ Z.pos p~1) with (c * 2 * 2 ^ Z.pos p * 2 ^ Z.pos p).
    + apply IH; [lia| |apply IH; [lia|lia|]].
      * pose proof (Z.pow_pos_nonneg 2 (Z.pos p)). nia.
      * now apply shr_1_truncates.
    + replace (Z.pos p~1) with (1 + Z.pos p + Z.pos p) by lia.
      rewrite !Z.pow_add_r by lia. change (2 ^ 1) with 2. ring.
  - replace (c * 2 ^ Z.pos p~0) with (c * 2 ^ Z.pos p * 2 ^ Z.pos p).
    + apply IH; [lia| |apply IH; [lia|lia|assumption]].
      pose proof (Z.pow_pos_nonneg 2 (Z.pos p)). nia.
    + replace (Z.pos p~0) with (Z.pos p + Z.pos p) by lia.
      rewrite !Z.pow_add_r by lia. ring.
  - change (2 ^ 1) with 2. now apply shr_1_truncates.
Qed.

Lemma shr_fexp_truncates a c m e l :
  0 <= a -> 0 < c -> B64.truncates a c m l ->
  e <= fexp prec emax (Zdigits2 m + e) ->
  exists mrs,
    shr_fexp prec emax m e l = (mrs, fexp prec emax (Zdigits2 m + e)) /\
    B64.truncates a (c * 2 ^ (fexp prec emax (Zdigits2 m + e) - e))
      (shr_m mrs) (loc_of_shr_record mrs).
Proof.
  intros Ha Hc H He. unfold shr_fexp, shr.
  set (g := fexp prec emax (Zdigits2 m + e)) in *.
  destruct (g - e) as [|p|p] eqn:E; try lia.
  - exists (shr_record_of_loc m l). split; [f_equal; lia|].
    rewrite shr_m_of_loc, loc_of_shr_record_of_loc.
    change (2 ^ 0) with 1. now rewrite Z.mul_1_r.
  - eexists. split; [f_equal; lia|].
    apply iter_shr_1_truncates; try assumption.
    now rewrite shr_m_of_loc, loc_of_shr_record_of_loc.
Qed.

Lemma round_nearest_even_RNE a c m l :
  0 < c -> B64.truncates a c m l -> round_nearest_even m l = B64.RNE a c.
Proof.
  intros Hc [-> ->]. unfold B64.RNE, B64.loc_of, round_nearest_even.
  pose proof (Z.mod_pos_bound a c Hc).
  destruct (Z.eqb_spec (a mod c) 0) as [E|NE].
  - rewrite E. destruct (Z.compare_spec (2 * 0) c); lia.
  - destruct (2 * (a mod c) ?= c); reflexivity.
Qed.

Lemma fexp_val e : fexp prec emax e = Z.max (e - 53) (-1074).
Proof. reflexivity. Qed.

Lemma bias_val : B64.bias = 2200.
Proof. reflexivity. Qed.

(** The exponent [SpecFloat] computes from a truncated mantissa is the
    one of the fraction. *)
Lemma fexp_truncated a b mz ez :
  0 <= a -> 0 < b -> 0 <= ez + B64.bias ->
  mz = a / (b * 2 ^ (ez + B64.bias)) ->
  ez <= fexp prec emax (Zdigits2 mz + ez) ->
  fexp prec emax (Zdigits2 mz + ez) + B64.bias = B64.gexp a b.
Proof.
  intros Ha Hb He Hm Hle. rewrite fexp_val in *. unfold B64.gexp.
  rewrite gmin_val, bias_val in *.
  set (eps := ez + 2200) in *.
  assert (P : 0 < 2 ^ eps) by (apply Z.pow_pos_nonneg; lia).
  assert (Hq : 0 <= a / b) by (apply Z.div_pos; lia).
  rewrite <- Z.div_div in Hm by lia.
  destruct (Z.eq_dec mz 0) as [E0|N0].
  - rewrite E0 in *. cbn [Zdigits2] in *.
    assert (a / b < 2 ^ eps).
    { symmetry in Hm. apply Z.div_small_iff in Hm; lia. }
    assert (2 ^ eps <= 2 ^ 1126) by (apply Z.pow_le_mono_r; lia).
    destruct (Z.eq_dec (a / b) 0) as [->|Hn]; [change (Z.log2 0) with 0; lia|].
    assert (Z.log2 (a / b) < 1126) by (apply Z.log2_lt_pow2; lia).
    lia.
  - assert (Hp : 0 < mz) by (pose proof (Z.div_pos (a / b) (2 ^ eps)); lia).
    assert (Hqp : 0 < a / b).
    { destruct (Z.eq_dec (a / b) 0) as [E|]; [|lia].
      rewrite E, Z.div_0_l in Hm; lia. }
    rewrite Zdigits2_log2 in * by assumption.
    assert (HL : Z.log2 mz = Z.log2 (a / b) - eps).
    { rewrite Hm, <- Z.shiftr_div_pow2, Z.log2_shiftr by lia.
      destruct (Z.lt_ge_cases (Z.log2 (a / b)) eps) as [Hlt|]; [|lia].
      apply Z.log2_lt_pow2 in Hlt; [|lia].
      rewrite Z.div_small in Hm; lia. }
    lia.
Qed.

Lemma valid_finite s m e :
  Z.pos m < 2 ^ 53 -> -1074 <= e <= 971 -> (-1074 < e -> 2 ^ 52 <= Z.pos m) ->
  valid_binary (S754_finite s m e) = true.
Proof.
  intros Hm He Hn. cbn [valid_binary]. unfold bounded, canonical_mantissa.
  rewrite fexp_val, digits2_pos_log2.
  assert (Z.log2 (Z.pos m) < 53) by (apply Z.log2_lt_pow2; lia).
  apply andb_true_intro. split; [apply Z.eqb_eq|apply Z.leb_le; unfold emax, prec; lia].
  destruct (Z.eq_dec e (-1074)) as [->|]; [lia|].
  assert (52 <= Z.log2 (Z.pos m)) by (apply Z.log2_le_pow2; lia).
  lia.
Qed.

Lemma valid_finite_inv s m e :
  valid_binary (S754_finite s m e) = true ->
  Z.pos m < 2 ^ 53 /\ -1074 <= e <= 971 /\ (-1074 < e -> 2 ^ 52 <= Z.pos m).
Proof.
  cbn [valid_binary]. unfold bounded, canonical_mantissa.
  rewrite fexp_val, digits2_pos_log2. intros H.
  apply andb_prop in H as [H1 H2].
  apply Z.eqb_eq in H1. apply Z.leb_le in H2. unfold emax, prec in H2.
  repeat split; try lia.
  - apply Z.log2_lt_pow2; lia.
  - intros. apply Z.log2_le_pow2; lia.
Qed.

(** The rounding step of [SpecFloat], on a truncated fraction that does
    not overflow. *)
Lemma binary_round_aux_spec s a b mz ez lz :
  0 <= a -> 0 < b -> 0 <= ez + B64.bias ->
  B64.truncates a (b * 2 ^ (ez + B64.bias)) mz lz ->
  ez <= fexp prec emax (Zdigits2 mz + ez) ->
  B64.rnd a b < B64.top ->
  B64.represents s (B64.rnd a b) (binary_round_aux prec emax s mz ez lz).
Proof.
  intros Ha Hb He Ht Hle Hov.
  pose proof (fexp_truncated a b mz ez Ha Hb He (proj1 Ht) Hle) as Hg.
  assert (Pe : 0 < 2 ^ (ez + B64.bias)) by (apply Z.pow_pos_nonneg; lia).
  destruct (shr_fexp_truncates a (b * 2 ^ (ez + B64.bias)) mz ez lz)
    as (mrs & Hs & Ht'); try assumption; [nia|].
  unfold binary_round_aux. rewrite Hs. clear Hs.
  set (ge := fexp prec emax (Zdigits2 mz + ez)) in *.
  pose proof (gexp_ge a b) as HG. rewrite gmin_val in HG.
  unfold B64.rnd in *.
  set (G := B64.gexp a b) in *.
  rewrite bias_val in *.
  assert (PG : 0 < 2 ^ G) by (apply Z.pow_pos_nonneg; lia).
  replace (b * 2 ^ (ez + 2200) * 2 ^ (ge - ez)) with (b * 2 ^ G) in Ht'
    by (rewrite <- Z.mul_assoc, <- Z.pow_add_r by lia; do 2 f_equal; lia).
  rewrite (round_nearest_even_RNE a (b * 2 ^ G)) by (assumption || nia).
  (* the rounded mantissa has at most 53 bits, or is 2^53 *)
  assert (HM : 0 <= B64.RNE a (b * 2 ^ G) <= 2 ^ 53).
  { split.
    - apply RNE_ge_int; [nia|lia].
    - apply RNE_le_int; [nia|].
      pose proof (gexp_upper a b Hb) as U. fold G in U.
      rewrite Z.pow_add_r in U by lia. nia. }
  assert (HN : 1126 < G -> 2 ^ 52 <= B64.RNE a (b * 2 ^ G)).
  { intros HG'. apply RNE_ge_int; [nia|].
    pose proof (gexp_lower a b Hb) as L. fold G in L. rewrite gmin_val in L.
    rewrite Z.pow_add_r in L by lia. nia. }
  set (M := B64.RNE a (b * 2 ^ G)) in *.
  clearbody M G ge. clear Ht Ht'.
  assert (Hfin : 0 < M -> G + 52 < 3224 /\ (M = 2 ^ 53 -> G + 53 < 3224)).
  { intros HM0. destruct (Z.eq_dec G 1126) as [->|]; [lia|]. split; [|intros E53].
    - assert (H : 2 ^ (52 + G) < B64.top)
        by (rewrite Z.pow_add_r by lia; specialize (HN ltac:(lia)); nia).
      apply below_top in H; lia.
    - assert (H : 2 ^ (53 + G) < B64.top)
        by (rewrite Z.pow_add_r by lia; rewrite E53 in Hov; lia).
      apply below_top in H; lia. }
  clear Hov.
  assert (Hsh : forall r n, n <= 0 -> shr r ge n = (r, ge))
    by (intros r [] ?; try lia; reflexivity).
  unfold shr_fexp. rewrite fexp_val.
  destruct (Z.eq_dec M 0) as [E0|N0].
  - (* the fraction rounds to zero *)
    rewrite E0. cbn [Zdigits2 shr_record_of_loc].
    rewrite Hsh by lia. cbn [shr_m]. split; [reflexivity|]. left. split; [lia|reflexivity].
  - destruct (Z.eq_dec M (2 ^ 53)) as [E53|N53].
    + (* the carry into a 54th bit *)
      rewrite E53. cbn [shr_record_of_loc].
      replace (Zdigits2 (2 ^ 53)) with 54 by reflexivity.
      replace (Z.max (54 + ge - 53) (-1074) - ge) with 1 by lia.
      assert (Hge : ge + 1 <= 971) by lia.
      unfold shr. cbn [SpecFloat.iter_pos].
      change (shr_1 {| shr_m := 2 ^ 53; shr_r := false; shr_s := false |})
        with {| shr_m := Z.pos 4503599627370496; shr_r := false; shr_s := false |}.
      cbn [shr_m].
      replace (ge + 1 <=? emax - prec) with true by (symmetry; apply Z.leb_le; unfold emax, prec; lia).
      split.
      * apply valid_finite; [reflexivity|lia|intros _; discriminate].
      * right. eexists _, _. split; [reflexivity|]. rewrite bias_val.
        replace (ge + 1 + 2200) with (1 + G) by lia.
        rewrite Z.pow_add_r by lia.
        change (2 ^ 53) with (Z.pos 4503599627370496 * 2 ^ 1). ring.
    + (* the result keeps its exponent *)
      destruct M as [|m|m] eqn:EM; try lia.
      cbn [Zdigits2 shr_record_of_loc].
      rewrite digits2_pos_log2.
      assert (Z.log2 (Z.pos m) < 53) by (apply Z.log2_lt_pow2; lia).
      rewrite Hsh by lia. cbn [shr_m].
      assert (Hge : ge <= 971) by lia.
      replace (ge <=? emax - prec) with true by (symmetry; apply Z.leb_le; unfold emax, prec; lia).
      split.
      * apply valid_finite; [lia|lia|intros; apply HN; lia].
      * right. eexists _, _. split; [reflexivity|]. rewrite bias_val.
        replace (ge + 2200) with G by lia. reflexivity.
Qed.

Lemma iter_xO m d : Z.pos (Pos.iter xO m d) = Z.pos m * 2 ^ Z.pos d.
Proof.
  induction d as [|d IH] using Pos.peano_ind.
  - cbn. lia.
  - rewrite Pos.iter_succ, Pos2Z.inj_xO, IH, Pos2Z.inj_succ, Z.pow_succ_r by lia.
    ring.
Qed.

(** [shl_align] changes the representation, not the number. *)
Lemma shl_align_value mx ex ez :
  0 <= ez + B64.bias ->
  let '(m', e') := shl_align mx ex ez in
  Z.pos m' * 2 ^ (e' + B64.bias) = Z.pos mx * 2 ^ (ex + B64.bias) /\
  e' = Z.min ex ez.
Proof.
  intros He. unfold shl_align. destruct (ez - ex) as [|d|d] eqn:E.
  - split; [reflexivity|lia].
  - split; [reflexivity|lia].
  - rewrite iter_xO. split; [|lia].
    rewrite <- Z.mul_assoc, <- Z.pow_add_r by lia. do 2 f_equal. lia.
Qed.

Lemma truncates_exact m c : 0 < c -> B64.truncates (m * c) c m loc_Exact.
Proof.
  intros Hc. split.
  - now rewrite Z.div_mul by lia.
  - now rewrite Z.mod_mul by lia.
Qed.

Lemma binary_round_spec s m e :
  0 <= e + B64.bias ->
  B64.rnd (Z.pos m * 2 ^ (e + B64.bias)) 1 < B64.top ->
  B64.represents s (B64.rnd (Z.pos m * 2 ^ (e + B64.bias)) 1)
    (binary_round prec emax s m e).
Proof.
  intros He Hov. unfold binary_round.
  set (g := fexp prec emax (Z.pos (digits2_pos m) + e)).
  assert (Hg : 0 <= g + B64.bias)
    by (unfold g; rewrite fexp_val, bias_val; lia).
  pose proof (shl_align_value m e g Hg) as Hv.
  assert (Hd : forall d, g - e = Z.neg d -> shl_align m e g = (Pos.iter xO m d, g))
    by (intros d E; unfold shl_align; now rewrite E).
  assert (Hn : 0 <= g - e -> shl_align m e g = (m, e))
    by (intros E; unfold shl_align; destruct (g - e); try lia; reflexivity).
  destruct (shl_align m e g) as [mz ez]. destruct Hv as [Hv Hez].
  rewrite <- Hv in *.
  assert (Pz : 0 < 2 ^ (ez + B64.bias)) by (apply Z.pow_pos_nonneg; lia).
  apply binary_round_aux_spec; try lia.
  - rewrite Z.mul_1_l. apply truncates_exact. lia.
  - destruct (Z.lt_ge_cases (g - e) 0) as [Hlt|Hge].
    + destruct (g - e) as [|d|d] eqn:E; try lia.
      specialize (Hd d eq_refl). injection Hd as -> ->.
      cbn [Zdigits2]. rewrite digits2_pos_log2, iter_xO.
      rewrite Z.log2_mul_pow2 by lia.
      replace (Z.pos d + Z.log2 (Z.pos m) + 1 + g) with (Z.log2 (Z.pos m) + 1 + e) by lia.
      unfold g. rewrite digits2_pos_log2. reflexivity.
    + specialize (Hn Hge). injection Hn as -> ->. exact (proj1 (Z.le_0_sub _ _) Hge).
Qed.

Lemma binary_normalize_spec m e :
  0 <= m -> 0 <= e + B64.bias ->
  B64.rnd (m * 2 ^ (e + B64.bias)) 1 < B64.top ->
  B64.represents false (B64.rnd (m * 2 ^ (e + B64.bias)) 1)
    (binary_normalize prec emax m e false).
Proof.
  intros Hm He Hov. destruct m as [|m|m]; try lia.
  - rewrite Z.mul_0_l, rnd_0 by lia. split; [reflexivity|]. now left.
  - now apply binary_round_spec.
Qed.

(** Canonical numbers are their own rounding. *)
Lemma rnd_value m e b :
  0 < b -> valid_binary (S754_finite false m e) = true ->
  B64.rnd (Z.pos m * 2 ^ (e + B64.bias) * b) b = Z.pos m * 2 ^ (e + B64.bias).
Proof.
  intros Hb Hv. apply valid_finite_inv in Hv as (Hm & He & _).
  apply rnd_exact; [lia|lia|rewrite gmin_val, bias_val; lia].
Qed.

Lemma represents_self m e :
  valid_binary (S754_finite false m e) = true ->
  B64.represents false (Z.pos m * 2 ^ (e + B64.bias)) (S754_finite false m e).
Proof. intros Hv. split; [assumption|]. right. now eexists _, _. Qed.

Lemma nonneg_cases x :
  B64.nonneg x = true ->
  x = S754_zero false \/ exists m e, x = S754_finite false m e.
Proof.
  destruct x as [[]|[]| |[] m e]; try discriminate; intros _; [now left|right].
  now eexists _, _.
Qed.

Lemma pow2_pos n : 0 <= n -> 0 < 2 ^ n.
Proof. intros. now apply Z.pow_pos_nonneg. Qed.

Lemma value_below_top m e :
  valid_binary (S754_finite false m e) = true ->
  Z.pos m * 2 ^ (e + B64.bias) < B64.top.
Proof.
  intros V. apply valid_finite_inv in V as (Hm & He & _).
  assert (H : 2 ^ (e + B64.bias) <= 2 ^ (971 + B64.bias))
    by (apply Z.pow_le_mono_r; rewrite ?bias_val; lia).
  assert (P : 0 < 2 ^ (e + B64.bias)) by (apply pow2_pos; rewrite bias_val; lia).
  assert (T : B64.top = 2 ^ 53 * 2 ^ (971 + B64.bias))
    by (unfold B64.top; rewrite <- Z.pow_add_r by (rewrite ?bias_val; lia); reflexivity).
  rewrite T. clear T.
  set (u := 2 ^ (e + B64.bias)) in *. set (v := 2 ^ (971 + B64.bias)) in *.
  clearbody u v. nia.
Qed.

Lemma SFmul_nonneg x y :
  valid_binary x = true -> valid_binary y = true ->
  B64.nonneg x = true -> B64.nonneg y = true ->
  B64.rnd (B64.value x * B64.value y) (2 ^ B64.bias) < B64.top ->
  B64.represents false (B64.rnd (B64.value x * B64.value y) (2 ^ B64.bias))
    (SF64mul x y).
Proof.
  intros Vx Vy Nx Ny.
  assert (Pb : 0 < 2 ^ B64.bias) by (now apply pow2_pos).
  destruct (nonneg_cases x Nx) as [->|(mx & ex & ->)],
           (nonneg_cases y Ny) as [->|(my & ey & ->)];
    cbn [B64.value]; rewrite ?Z.mul_0_l, ?Z.mul_0_r, ?rnd_0 by lia;
    try (intros _; split; [reflexivity|now left]).
  intros Hov.
  apply valid_finite_inv in Vx as (Hmx & Hex & Hnx).
  apply valid_finite_inv in Vy as (Hmy & Hey & Hny).
  unfold SF64mul, SFmul. cbn [xorb].
  assert (Hp : 2 ^ (ex + B64.bias) * 2 ^ (ey + B64.bias)
               = 2 ^ B64.bias * 2 ^ (ex + ey + B64.bias)).
  { rewrite bias_val, <- !Z.pow_add_r by lia. f_equal. lia. }
  apply binary_round_aux_spec.
  - pose proof (pow2_pos (ex + B64.bias)). pose proof (pow2_pos (ey + B64.bias)).
    rewrite bias_val in *. nia.
  - assumption.
  - rewrite bias_val. lia.
  - replace (Z.pos mx * 2 ^ (ex + B64.bias) * (Z.pos my * 2 ^ (ey + B64.bias)))
      with (Z.pos (mx * my) * (2 ^ B64.bias * 2 ^ (ex + ey + B64.bias)))
      by (rewrite <- Hp, Pos2Z.inj_mul; ring).
    apply truncates_exact. rewrite <- Hp.
    pose proof (pow2_pos (ex + B64.bias)). pose proof (pow2_pos (ey + B64.bias)).
    rewrite bias_val in *. nia.
  - cbn [Zdigits2]. rewrite digits2_pos_log2, fexp_val, Pos2Z.inj_mul.
    destruct (Z.eq_dec ex (-1074)) as [Ex|Nx'], (Z.eq_dec ey (-1074)) as [Ey|Ny'];
      try lia;
      assert (52 <= Z.log2 (Z.pos mx * Z.pos my)) by (apply Z.log2_le_pow2; nia);
      lia.
  - assumption.
Qed.

Lemma SFadd_nonneg x y :
  valid_binary x = true -> valid_binary y = true ->
  B64.nonneg x = true -> B64.nonneg y = true ->
  B64.rnd (B64.value x + B64.value y) 1 < B64.top ->
  B64.represents false (B64.rnd (B64.value x + B64.value y) 1) (SF64add x y).
Proof.
  intros Vx Vy Nx Ny.
  destruct (nonneg_cases x Nx) as [->|(mx & ex & ->)],
           (nonneg_cases y Ny) as [->|(my & ey & ->)];
    cbn [B64.value]; rewrite ?Z.add_0_l, ?Z.add_0_r.
  - rewrite rnd_0 by lia. intros _. split; [reflexivity|now left].
  - intros _. rewrite <- (Z.mul_1_r (_ * _)), rnd_value by (lia || assumption).
    now apply represents_self.
  - intros _. rewrite <- (Z.mul_1_r (_ * _)), rnd_value by (lia || assumption).
    now apply represents_self.
  - intros Hov. unfold SF64add, SFadd. cbn [cond_Zopp].
    pose proof (valid_finite_inv _ _ _ Vx) as (Hmx & Hex & Hnx).
    pose proof (valid_finite_inv _ _ _ Vy) as (Hmy & Hey & Hny).
    set (ez := Z.min ex ey).
    assert (Hez : 0 <= ez + B64.bias) by (rewrite bias_val; lia).
    pose proof (shl_align_value mx ex ez Hez) as Hx.
    pose proof (shl_align_value my ey ez Hez) as Hy.
    destruct (shl_align mx ex ez) as [mx' ex'], (shl_align my ey ez) as [my' ey'].
    destruct Hx as [Hx Ex], Hy as [Hy Ey]. cbn [fst].
    subst ex' ey'.
    replace (Z.min ex ez) with ez in * by lia.
    replace (Z.min ey ez) with ez in * by lia.
    assert (E : Z.pos mx * 2 ^ (ex + B64.bias) + Z.pos my * 2 ^ (ey + B64.bias)
                = (Z.pos mx' + Z.pos my') * 2 ^ (ez + B64.bias))
      by (rewrite <- Hx, <- Hy; ring).
    rewrite E in *. apply binary_normalize_spec; [lia|assumption|assumption].
Qed.

Lemma SFsub_nonneg x y :
  valid_binary x = true -> valid_binary y = true ->
  B64.nonneg x = true -> B64.nonneg y = true ->
  B64.value y <= B64.value x ->
  B64.represents false (B64.rnd (B64.value x - B64.value y) 1) (SF64sub x y).
Proof.
  intros Vx Vy Nx Ny.
  destruct (nonneg_cases x Nx) as [->|(mx & ex & ->)],
           (nonneg_cases y Ny) as [->|(my & ey & ->)];
    cbn [B64.value]; rewrite ?Z.sub_0_l, ?Z.sub_0_r.
  - rewrite rnd_0 by lia. intros _. split; [reflexivity|now left].
  - pose proof (valid_finite_inv _ _ _ Vy) as (Hmy & Hey & Hny).
    pose proof (pow2_pos (ey + B64.bias)). rewrite bias_val in *. nia.
  - intros _. rewrite <- (Z.mul_1_r (_ * _)), rnd_value by (lia || assumption).
    now apply represents_self.
  - intros Hle. unfold SF64sub, SFsub. cbn [cond_Zopp].
    pose proof (valid_finite_inv _ _ _ Vx) as (Hmx & Hex & Hnx).
    pose proof (valid_finite_inv _ _ _ Vy) as (Hmy & Hey & Hny).
    set (ez := Z.min ex ey).
    assert (Hez : 0 <= ez + B64.bias) by (rewrite bias_val; lia).
    pose proof (shl_align_value mx ex ez Hez) as Hx.
    pose proof (shl_align_value my ey ez Hez) as Hy.
    destruct (shl_align mx ex ez) as [mx' ex'], (shl_align my ey ez) as [my' ey'].
    destruct Hx as [Hx Ex], Hy as [Hy Ey]. cbn [fst].
    subst ex' ey'.
    replace (Z.min ex ez) with ez in * by lia.
    replace (Z.min ey ez) with ez in * by lia.
    assert (E : Z.pos mx * 2 ^ (ex + B64.bias) - Z.pos my * 2 ^ (ey + B64.bias)
                = (Z.pos mx' - Z.pos my') * 2 ^ (ez + B64.bias))
      by (rewrite <- Hx, <- Hy; ring).
    rewrite E in *.
    pose proof (pow2_pos (ez + B64.bias) Hez) as Pz.
    assert (Hd : 0 <= Z.pos mx' - Z.pos my') by nia.
    apply binary_normalize_spec; [assumption|assumption|].
    (* the difference is no larger than [x] *)
    eapply Z.le_lt_trans; [apply (rnd_mono _ 1 (Z.pos mx * 2 ^ (ex + B64.bias) * 1) 1); lia|].
    rewrite rnd_value by (lia || assumption).
    now apply value_below_top.
Qed.

(** Comparison of canonical numbers is comparison of their values. *)
Lemma value_lt_exp m1 e1 m2 e2 :
  valid_binary (S754_finite false m1 e1) = true ->
  valid_binary (S754_finite false m2 e2) = true ->
  e1 < e2 -> Z.pos m1 * 2 ^ (e1 + B64.bias) < Z.pos m2 * 2 ^ (e2 + B64.bias).
Proof.
  intros V1 V2 He.
  apply valid_finite_inv in V1 as (Hm1 & He1 & _).
  apply valid_finite_inv in V2 as (_ & He2 & Hn2).
  rewrite bias_val.
  assert (P1 : 0 < 2 ^ (e1 + 2200)) by (apply pow2_pos; lia).
  assert (2 ^ (e1 + 1 + 2200) <= 2 ^ (e2 + 2200)) by (apply Z.pow_le_mono_r; lia).
  replace (e1 + 1 + 2200) with (1 + (e1 + 2200)) in * by lia.
  rewrite Z.pow_add_r in * by lia. change (2 ^ 1) with 2 in *.
  specialize (Hn2 ltac:(lia)). nia.
Qed.

Lemma SFcompare_nonneg x y :
  valid_binary x = true -> valid_binary y = true ->
  B64.nonneg x = true -> B64.nonneg y = true ->
  SFcompare x y = Some (B64.value x ?= B64.value y).
Proof.
  intros Vx Vy Nx Ny.
  destruct (nonneg_cases x Nx) as [->|(mx & ex & ->)],
           (nonneg_cases y Ny) as [->|(my & ey & ->)];
    cbn [B64.value SFcompare].
  - reflexivity.
  - f_equal. symmetry. apply Z.compare_lt_iff.
    pose proof (pow2_pos (ey + B64.bias)).
    pose proof (valid_finite_inv _ _ _ Vy). rewrite bias_val in *. nia.
  - f_equal. symmetry. apply Z.compare_gt_iff.
    pose proof (pow2_pos (ex + B64.bias)).
    pose proof (valid_finite_inv _ _ _ Vx). rewrite bias_val in *. nia.
  - f_equal. destruct (Z.compare_spec ex ey) as [->|Hlt|Hgt].
    + pose proof (valid_finite_inv _ _ _ Vy) as (_ & He & _).
      pose proof (pow2_pos (ey + B64.bias)) as P. rewrite bias_val in *.
      specialize (P ltac:(lia)).
      change (Pos.compare_cont Eq mx my) with (Z.pos mx ?= Z.pos my).
      symmetry. destruct (Z.compare_spec (Z.pos mx) (Z.pos my)) as [E|E|E].
      * rewrite E. apply Z.compare_refl.
      * apply Z.compare_lt_iff. nia.
      * apply Z.compare_gt_iff. nia.
    + symmetry. apply Z.compare_lt_iff. now apply value_lt_exp.
    + symmetry. apply Z.compare_gt_iff. now apply value_lt_exp.
Qed.

Lemma value_inj x y :
  valid_binary x = true -> valid_binary y = true ->
  B64.nonneg x = true -> B64.nonneg y = true ->
  B64.value x = B64.value y -> x = y.
Proof.
  intros Vx Vy Nx Ny E.
  pose proof (SFcompare_nonneg x y Vx Vy Nx Ny) as H.
  rewrite E, Z.compare_refl in H.
  destruct (nonneg_cases x Nx) as [->|(mx & ex & ->)],
           (nonneg_cases y Ny) as [->|(my & ey & ->)];
    cbn [SFcompare] in H; try discriminate; try reflexivity.
  destruct (Z.compare_spec ex ey) as [->|?|?]; try discriminate.
  f_equal. injection H as H.
  change (Pos.compare_cont Eq mx my) with (Pos.compare mx my) in H.
  now apply Pos.compare_eq.
Qed.

Lemma new_location_loc_of m r :
  0 < m -> 0 <= r < m -> new_location m r = B64.loc_of r m.
Proof.
  intros Hm Hr. unfold new_location, new_location_even, new_location_odd, B64.loc_of.
  pose proof (Zmod_even m) as Hev. pose proof (Z.div_mod m 2 ltac:(lia)) as Hdm.
  destruct (Z.even m), (Z.eqb_spec r 0); try reflexivity; f_equal.
  destruct (Z.compare_spec (2 * r + 1) m), (Z.compare_spec (2 * r) m);
    try reflexivity; lia.
Qed.

Lemma loc_of_scale r c k : 0 < k -> B64.loc_of (r * k) (c * k) = B64.loc_of r c.
Proof.
  intros Hk. unfold B64.loc_of.
  destruct (Z.eqb_spec r 0), (Z.eqb_spec (r * k) 0); try reflexivity; try nia.
  f_equal.
  destruct (Z.compare_spec (2 * (r * k)) (c * k)), (Z.compare_spec (2 * r) c);
    try reflexivity; nia.
Qed.

Lemma truncates_scale a c k :
  0 < c -> 0 < k ->
  B64.truncates (a * k) (c * k) (a / c) (B64.loc_of (a mod c) c).
Proof.
  intros Hc Hk. split.
  - now rewrite Z.div_mul_cancel_r by lia.
  - now rewrite Z.mul_mod_distr_r, loc_of_scale by lia.
Qed.

Lemma log2_bounds m : 0 < m -> 2 ^ Z.log2 m <= m < 2 ^ (Z.log2 m + 1).
Proof.
  intros Hm. pose proof (Z.log2_spec m Hm) as H.
  now rewrite <- Z.add_1_r in H.
Qed.

(** The quotient mantissa [SFdiv_core_binary] computes is long enough for
    the rounding step. *)
Lemma SFdiv_core_exponent mx my ex ey :
  0 < mx -> 0 < my ->
  let e' := Z.min (Z.max (Z.log2 mx + 1 + ex - (Z.log2 my + 1 + ey) - 53) (-1074))
                  (ex - ey) in
  e' <= fexp prec emax (Zdigits2 (mx * 2 ^ (ex - ey - e') / my) + e').
Proof.
  intros Hmx Hmy e'. rewrite fexp_val.
  pose proof (log2_bounds mx Hmx) as Lx. pose proof (log2_bounds my Hmy) as Ly.
  pose proof (Z.log2_nonneg mx) as Nlx. pose proof (Z.log2_nonneg my) as Nly.
  set (lx := Z.log2 mx) in *. set (ly := Z.log2 my) in *.
  assert (He : e' <= ex - ey) by (unfold e'; lia).
  assert (Hf : e' <= -1074 \/ e' <= lx + ex - ly - ey - 53) by (unfold e'; lia).
  clearbody e' lx ly.
  set (sh := ex - ey - e').
  assert (Hsh : 0 <= sh) by (unfold sh; lia).
  assert (Hshf : e' <= -1074 \/ ly + 53 - lx <= sh) by (unfold sh; lia).
  assert (Hshe : sh = ex - ey - e') by reflexivity.
  clearbody sh. clear Hf He.
  assert (Ps : 0 < 2 ^ sh) by (now apply pow2_pos).
  assert (Hn : 2 ^ (lx + sh) <= mx * 2 ^ sh).
  { rewrite Z.pow_add_r by lia. apply Z.mul_le_mono_nonneg_r; lia. }
  set (n := mx * 2 ^ sh) in *. clearbody n.
  set (q := n / my).
  assert (Hq : 0 <= q) by (apply Z.div_pos; lia).
  destruct (Z.eq_dec q 0) as [E0|N0].
  - rewrite E0. cbn [Zdigits2].
    assert (Hlt : n < my) by (apply Z.div_small_iff in E0; lia).
    assert (Hp : 2 ^ (lx + sh) < 2 ^ (ly + 1)) by lia.
    apply Z.pow_lt_mono_r_iff in Hp; [|lia|lia].
    clear - Hp Hshf Hshe. lia.
  - rewrite Zdigits2_log2 by lia.
    destruct Hshf as [|Hs]; [lia|].
    assert (H52 : 2 ^ 52 <= q).
    { apply Z.div_le_lower_bound; [lia|].
      assert (Hp : 2 ^ (ly + 1 + 52) <= 2 ^ (lx + sh))
        by (apply Z.pow_le_mono_r; lia).
      rewrite Z.pow_add_r in Hp by lia.
      apply Z.le_trans with (2 ^ (ly + 1) * 2 ^ 52); [|lia].
      apply Z.mul_le_mono_nonneg_r; lia. }
    assert (52 <= Z.log2 q) by (apply Z.log2_le_pow2; lia).
    lia.
Qed.

Lemma SFdiv_nonneg x my ey :
  valid_binary x = true -> B64.nonneg x = true ->
  valid_binary (S754_finite false my ey) = true ->
  B64.rnd (B64.value x * 2 ^ B64.bias) (Z.pos my * 2 ^ (ey + B64.bias)) < B64.top ->
  B64.represents false
    (B64.rnd (B64.value x * 2 ^ B64.bias) (Z.pos my * 2 ^ (ey + B64.bias)))
    (SF64div x (S754_finite false my ey)).
Proof.
  intros Vx Nx Vy.
  pose proof (valid_finite_inv _ _ _ Vy) as (Hmy & Hey & Hny).
  assert (Py : 0 < 2 ^ (ey + B64.bias)) by (apply pow2_pos; rewrite bias_val; lia).
  assert (Pb : 0 < 2 ^ B64.bias) by (now apply pow2_pos).
  assert (Pmy : 0 < Z.pos my * 2 ^ (ey + B64.bias))
    by (apply Z.mul_pos_pos; [apply Pos2Z.is_pos|exact Py]).
  destruct (nonneg_cases x Nx) as [->|(mx & ex & ->)]; cbn [B64.value].
  - rewrite Z.mul_0_l, rnd_0 by assumption. intros _. split; [reflexivity|now left].
  - intros Hov.
    pose proof (valid_finite_inv _ _ _ Vx) as (Hmx & Hex & Hnx).
    assert (Px : 0 < 2 ^ (ex + B64.bias)) by (apply pow2_pos; rewrite bias_val; lia).
    unfold SF64div, SFdiv, SFdiv_core_binary. cbn [xorb Zdigits2].
    rewrite !digits2_pos_log2.
    pose proof (SFdiv_core_exponent (Z.pos mx) (Z.pos my) ex ey
                  (Pos2Z.is_pos _) (Pos2Z.is_pos _)) as Hexp.
    cbv zeta in Hexp. rewrite <- fexp_val in Hexp.
    set (e' := Z.min (fexp prec emax (Z.log2 (Z.pos mx) + 1 + ex
                                      - (Z.log2 (Z.pos my) + 1 + ey))) (ex - ey)) in *.
    assert (He' : -2045 <= e' <= ex - ey) by (unfold e'; rewrite fexp_val; lia).
    clearbody e'.
    set (sh := ex - ey - e') in *.
    assert (Hsh : 0 <= sh) by (unfold sh; lia).
    assert (Hm' : forall s, 0 <= s ->
                  match s with
                  | 0 => Z.pos mx
                  | Z.pos _ => Z.shiftl (Z.pos mx) s
                  | Z.neg _ => 0
                  end = Z.pos mx * 2 ^ s).
    { intros [|s|s] Hs;
        [change (2 ^ 0) with 1; ring|now rewrite Z.shiftl_mul_pow2|lia]. }
    rewrite Hm' by assumption. clear Hm'.
    assert (Ps : 0 < 2 ^ sh) by (now apply pow2_pos).
    set (k := 2 ^ (ey + B64.bias + (e' + B64.bias))).
    assert (Pk : 0 < k) by (apply pow2_pos; rewrite bias_val; lia).
    assert (Ea : Z.pos mx * 2 ^ (ex + B64.bias) * 2 ^ B64.bias
                 = Z.pos mx * 2 ^ sh * k).
    { unfold k. rewrite <- !Z.mul_assoc, <- !Z.pow_add_r by (rewrite ?bias_val; lia).
      do 2 f_equal. unfold sh. lia. }
    assert (Ec : Z.pos my * 2 ^ (ey + B64.bias) * 2 ^ (e' + B64.bias) = Z.pos my * k).
    { unfold k. rewrite <- !Z.mul_assoc, <- !Z.pow_add_r by (rewrite ?bias_val; lia).
      reflexivity. }
    assert (He'b : 0 <= e' + B64.bias) by (rewrite bias_val; lia).
    clearbody k sh.
    set (n := Z.pos mx * 2 ^ sh) in *.
    assert (Hn : 0 < n) by (apply Z.mul_pos_pos; [apply Pos2Z.is_pos|exact Ps]).
    clearbody n.
    pose proof (Z.mod_pos_bound n (Z.pos my) (Pos2Z.is_pos _)) as Hr.
    assert (Hde : Z.div_eucl n (Z.pos my) = (n / Z.pos my, n mod Z.pos my))
      by (unfold Z.div, Z.modulo; now destruct (Z.div_eucl n (Z.pos my))).
    rewrite Hde, new_location_loc_of by (assumption || apply Pos2Z.is_pos).
    apply binary_round_aux_spec.
    + apply Z.lt_le_incl.
      apply Z.mul_pos_pos; [apply Z.mul_pos_pos; [apply Pos2Z.is_pos|exact Px]|exact Pb].
    + exact Pmy.
    + exact He'b.
    + rewrite Ea, Ec. apply truncates_scale; [apply Pos2Z.is_pos|exact Pk].
    + exact Hexp.
    + exact Hov.
Qed.

Lemma represents_value v z :
  B64.represents false v z -> B64.nonneg z = true /\ B64.value z = v.
Proof.
  intros [_ [[-> ->]|(m & e & -> & <-)]]; now split.
Qed.

Lemma has_value_inj x y v : has_value x v -> has_value y v -> x = y.
Proof.
  intros [Nx Vx] [Ny Vy]. apply Prim2SF_inj.
  apply value_inj; try assumption; try apply Prim2SF_valid. congruence.
Qed.

Lemma has_value_nonneg x v : has_value x v -> 0 <= v.
Proof.
  intros [N <-]. destruct (nonneg_cases _ N) as [->|(m & e & ->)]; cbn; [lia|].
  pose proof (Z.pow_nonneg 2 (e + B64.bias)). lia.
Qed.

Lemma mul_value x y vx vy :
  has_value x vx -> has_value y vy ->
  B64.rnd (vx * vy) (2 ^ B64.bias) < B64.top ->
  has_value (x * y) (B64.rnd (vx * vy) (2 ^ B64.bias)).
Proof.
  intros [Nx <-] [Ny <-] Hov. unfold has_value. rewrite FloatAxioms.mul_spec.
  apply represents_value, SFmul_nonneg; try assumption; apply Prim2SF_valid.
Qed.

Lemma add_value x y vx vy :
  has_value x vx -> has_value y vy ->
  B64.rnd (vx + vy) 1 < B64.top ->
  has_value (x + y) (B64.rnd (vx + vy) 1).
Proof.
  intros [Nx <-] [Ny <-] Hov. unfold has_value. rewrite FloatAxioms.add_spec.
  apply represents_value, SFadd_nonneg; try assumption; apply Prim2SF_valid.
Qed.

Lemma sub_value x y vx vy :
  has_value x vx -> has_value y vy -> vy <= vx ->
  has_value (x - y) (B64.rnd (vx - vy) 1).
Proof.
  intros [Nx <-] [Ny <-] Hle. unfold has_value. rewrite FloatAxioms.sub_spec.
  apply represents_value, SFsub_nonneg; try assumption; apply Prim2SF_valid.
Qed.

Lemma div_value x y vx vy :
  has_value x vx -> has_value y vy -> 0 < vy ->
  B64.rnd (vx * 2 ^ B64.bias) vy < B64.top ->
  has_value (x / y) (B64.rnd (vx * 2 ^ B64.bias) vy).
Proof.
  intros [Nx <-] [Ny <-] Hpos Hov. unfold has_value. rewrite FloatAxioms.div_spec.
  pose proof (Prim2SF_valid y) as Vy.
  destruct (nonneg_cases _ Ny) as [E|(m & e & E)]; rewrite E in *;
    cbn [B64.value] in *; [lia|].
  apply represents_value, SFdiv_nonneg; try assumption; apply Prim2SF_valid.
Qed.

Lemma compare_value x y vx vy :
  has_value x vx -> has_value y vy ->
  SFcompare (Prim2SF x) (Prim2SF y) = Some (vx ?= vy).
Proof.
  intros [Nx <-] [Ny <-].
  apply SFcompare_nonneg; try assumption; apply Prim2SF_valid.
Qed.

Lemma ltb_value x y vx vy :
  has_value x vx -> has_value y vy -> (x <? y)%float = (vx <? vy).
Proof.
  intros Hx Hy. rewrite FloatAxioms.ltb_spec. unfold SFltb, Z.ltb.
  now rewrite (compare_value x y vx vy).
Qed.

Lemma leb_value x y vx vy :
  has_value x vx -> has_value y vy -> (x <=? y)%float = (vx <=? vy).
Proof.
  intros Hx Hy. rewrite FloatAxioms.leb_spec. unfold SFleb, Z.leb.
  rewrite (compare_value x y vx vy) by assumption. now destruct (vx ?= vy).
Qed.

Lemma eqb_value x y vx vy :
  has_value x vx -> has_value y vy -> (x =? y)%float = (vx =? vy).
Proof.
  intros Hx Hy. rewrite FloatAxioms.eqb_spec. unfold SFeqb.
  rewrite (compare_value x y vx vy) by assumption.
  destruct (Z.eqb_spec vx vy) as [->|NE].
  - now rewrite Z.compare_refl.
  - destruct (vx ?= vy) eqn:E; try reflexivity.
    apply Z.compare_eq in E. contradiction.
Qed.

Lemma is_nan_value x v : has_value x v -> is_nan x = false.
Proof.
  intros H. unfold is_nan. rewrite (eqb_value x x v v) by assumption.
  now rewrite Z.eqb_refl.
Qed.

Lemma abs_value x v : has_value x v -> abs x = x.
Proof.
  intros [N _]. apply Prim2SF_inj. rewrite FloatAxioms.abs_spec.
  now destruct (nonneg_cases _ N) as [->|(m & e & ->)].
Qed.

Lemma units_below_top n : 0 <= n < 2 ^ 1024 -> units n < B64.top.
Proof.
  intros Hn. unfold units, B64.top. rewrite Z.pow_add_r by (rewrite ?bias_val; lia).
  apply Z.mul_lt_mono_pos_r; [now apply pow2_pos|lia].
Qed.

(** Integers below [2^53] are binary64 numbers. *)
Lemma rnd_units n : 0 <= n < 2 ^ 53 -> B64.rnd (units n) 1 = units n.
Proof.
  intros Hn. unfold units. rewrite <- (Z.mul_1_r (n * _)) at 1.
  apply rnd_exact; [lia|assumption|rewrite gmin_val, bias_val; lia].
Qed.

Lemma num_of_Z_value n : 0 <= n < 2 ^ 53 -> has_value (num_of_Z n) (units n).
Proof.
  intros Hn. unfold num_of_Z, has_value. rewrite FloatAxioms.of_uint63_spec.
  rewrite Uint63.of_Z_spec, Z.mod_small by (change wB with (2 ^ 63); lia).
  apply represents_value. rewrite <- (rnd_units n Hn). unfold units.
  apply binary_normalize_spec; [lia|rewrite bias_val; lia|].
  change (n * 2 ^ (0 + B64.bias)) with (units n). rewrite rnd_units by assumption.
  apply units_below_top. lia.
Qed.

Lemma units_0 : units 0 = 0.
Proof. reflexivity. Qed.

Lemma units_add a b : units a + units b = units (a + b).
Proof. unfold units. ring. Qed.

Lemma units_sub a b : units a - units b = units (a - b).
Proof. unfold units. ring. Qed.

Lemma units_le a b : units a <= units b <-> a <= b.
Proof.
  unfold units. pose proof (pow2_pos B64.bias ltac:(now rewrite bias_val)) as P.
  split; intros H; [|now apply Z.mul_le_mono_nonneg_r; lia].
  apply Z.mul_le_mono_pos_r in H; assumption.
Qed.

Lemma units_lt a b : units a < units b <-> a < b.
Proof.
  pose proof (units_le b a). lia.
Qed.

Lemma units_div n : units n / 2 ^ B64.bias = n.
Proof.
  unfold units. apply Z.div_mul.
  pose proof (pow2_pos B64.bias ltac:(now rewrite bias_val)). lia.
Qed.

Lemma small_below_top n : 0 <= n <= 2 ^ 53 -> units n < B64.top.
Proof.
  intros Hn. apply units_below_top. split; [lia|].
  apply Z.le_lt_trans with (2 ^ 53); [lia|].
  apply Z.pow_lt_mono_r; lia.
Qed.

Lemma has_value_0 : has_value 0 0.
Proof. exact (num_of_Z_value 0 ltac:(lia)). Qed.

Lemma has_value_1 : has_value 1 (units 1).
Proof. exact (num_of_Z_value 1 ltac:(lia)). Qed.

Lemma has_value_255 : has_value 255 (units 255).
Proof. exact (num_of_Z_value 255 ltac:(lia)). Qed.

Lemma has_value_two52 : has_value two52 (units (2 ^ 52)).
Proof. exact (num_of_Z_value (2 ^ 52) ltac:(lia)). Qed.

(** From [2^52] on every binary64 number is an integer. *)
Lemma large_integral x v :
  has_value x v -> units (2 ^ 52) <= v -> v = units (v / 2 ^ B64.bias).
Proof.
  intros [N <-] Hv. pose proof (Prim2SF_valid x) as V.
  destruct (nonneg_cases _ N) as [E|(m & e & E)]; rewrite E in *;
    cbn [B64.value] in *; [reflexivity|].
  apply valid_finite_inv in V as (Hm & He & _).
  unfold units in *. rewrite bias_val in *.
  assert (H0 : 0 <= e).
  { destruct (Z.lt_ge_cases e 0) as [Hneg|]; [exfalso|assumption].
    assert (Hp : 2 ^ (e + 2200) <= 2 ^ 2199) by (apply Z.pow_le_mono_r; lia).
    assert (P : 0 < 2 ^ (e + 2200)) by (apply pow2_pos; lia).
    change (2 ^ 2200) with (2 * 2 ^ 2199) in Hv.
    set (u := 2 ^ (e + 2200)) in *. set (w := 2 ^ 2199) in *.
    assert (0 < w) by (apply pow2_pos; lia).
    clearbody u w. clear - Hm Hv Hp P H. nia. }
  rewrite Z.pow_add_r by lia. rewrite Z.mul_assoc, Z.div_mul; [reflexivity|].
  pose proof (pow2_pos 2200). lia.
Qed.

Lemma rnd_add_two52 v :
  0 <= v < units (2 ^ 52) ->
  B64.rnd (v + units (2 ^ 52)) 1 = units (2 ^ 52 + B64.RNE v (2 ^ B64.bias)).
Proof.
  intros Hv. unfold B64.rnd.
  assert (Hg : B64.gexp (v + units (2 ^ 52)) 1 = B64.bias).
  { unfold B64.gexp. rewrite Z.div_1_r, gmin_val, bias_val.
    rewrite (Z.log2_unique _ (52 + 2200)); [lia|lia|].
    unfold units in *. rewrite bias_val in *.
    rewrite Z.pow_succ_r, !Z.pow_add_r by lia.
    pose proof (pow2_pos 2200 ltac:(lia)).
    set (u := 2 ^ 2200) in *. clearbody u. lia. }
  rewrite Hg, Z.mul_1_l. unfold units at 1.
  rewrite RNE_add_even; [reflexivity| |reflexivity].
  apply pow2_pos. now rewrite bias_val.
Qed.

Lemma RNE_floor v :
  0 <= v ->
  (v < units (B64.RNE v (2 ^ B64.bias)) ->
   B64.RNE v (2 ^ B64.bias) = v / 2 ^ B64.bias + 1) /\
  (units (B64.RNE v (2 ^ B64.bias)) <= v ->
   B64.RNE v (2 ^ B64.bias) = v / 2 ^ B64.bias).
Proof.
  intros Hv. unfold units.
  pose proof (pow2_pos B64.bias ltac:(now rewrite bias_val)) as P.
  pose proof (RNE_bounds v (2 ^ B64.bias) P) as B.
  pose proof (Z.mul_div_le v _ P) as L.
  pose proof (Z.mul_succ_div_gt v _ P) as U.
  set (u := 2 ^ B64.bias) in *. set (R := B64.RNE v u) in *. set (q := v / u) in *.
  clearbody u R q. split; intros H; nia.
Qed.

Lemma Math_floor_value x v :
  has_value x v -> has_value (Math_floor x) (units (v / 2 ^ B64.bias)).
Proof.
  intros Hx. unfold Math_floor. rewrite (abs_value x v Hx).
  pose proof (has_value_nonneg x v Hx) as Hv.
  pose proof (pow2_pos B64.bias ltac:(now rewrite bias_val)) as P.
  rewrite (ltb_value x two52 v _ Hx has_value_two52).
  destruct (Z.ltb_spec v (units (2 ^ 52))) as [Hlt|Hge].
  2:{ now rewrite <- (large_integral x v Hx Hge). }
  rewrite (eqb_value x 0 v 0 Hx has_value_0).
  destruct (Z.eqb_spec v 0) as [->|Hnz].
  { rewrite Z.div_0_l, units_0 by lia. assumption. }
  rewrite (ltb_value 0 x 0 v has_value_0 Hx).
  destruct (Z.ltb_spec 0 v) as [Hpos|]; [|lia].
  pose proof (RNE_bounds v _ P) as HR. destruct (RNE_floor v Hv) as [Hup Hdn].
  assert (Hq : 0 <= v / 2 ^ B64.bias < 2 ^ 52).
  { split; [apply Z.div_pos; lia|]. apply Z.div_lt_upper_bound; [lia|].
    unfold units in Hlt. lia. }
  set (R := B64.RNE v (2 ^ B64.bias)) in *. set (q := v / 2 ^ B64.bias) in *.
  assert (Hadd : B64.rnd (v + units (2 ^ 52)) 1 = units (2 ^ 52 + R))
    by (apply rnd_add_two52; lia).
  clearbody R q.
  assert (H1 : has_value (x + two52) (units (2 ^ 52 + R))).
  { rewrite <- Hadd.
    apply add_value; [assumption|apply has_value_two52|].
    rewrite Hadd. apply small_below_top. lia. }
  assert (H2 : has_value (x + two52 - two52) (units R)).
  { rewrite <- (rnd_units R) by lia.
    replace (units R) with (units (2 ^ 52 + R) - units (2 ^ 52)) by (rewrite units_sub; f_equal; lia).
    apply sub_value; [assumption|apply has_value_two52|]. apply units_le. lia. }
  rewrite (ltb_value x _ v _ Hx H2).
  destruct (Z.ltb_spec v (units R)) as [Hvr|Hvr].
  - specialize (Hup Hvr). rewrite <- (rnd_units q) by lia.
    replace (units q) with (units R - units 1) by (rewrite units_sub; f_equal; lia).
    apply sub_value; [assumption|apply has_value_1|]. apply units_le. lia.
  - specialize (Hdn Hvr). now rewrite <- Hdn.
Qed.

Lemma Math_min_value a b va vb :
  has_value a va -> has_value b vb -> has_value (Math_min a b) (Z.min va vb).
Proof.
  intros Ha Hb. unfold Math_min.
  rewrite (is_nan_value a va Ha), (is_nan_value b vb Hb).
  rewrite (ltb_value b a vb va Hb Ha), (ltb_value a b va vb Ha Hb).
  destruct (Z.ltb_spec vb va); [now rewrite Z.min_r by lia|].
  destruct (Z.ltb_spec va vb); [now rewrite Z.min_l by lia|].
  assert (va = vb) by lia. subst vb. rewrite Z.min_id.
  now destruct (get_sign a).
Qed.

Lemma Math_max_value a b va vb :
  has_value a va -> has_value b vb -> has_value (Math_max a b) (Z.max va vb).
Proof.
  intros Ha Hb. unfold Math_max.
  rewrite (is_nan_value a va Ha), (is_nan_value b vb Hb).
  rewrite (ltb_value b a vb va Hb Ha), (ltb_value a b va vb Ha Hb).
  destruct (Z.ltb_spec va vb); [now rewrite Z.max_r by lia|].
  destruct (Z.ltb_spec vb va); [now rewrite Z.max_l by lia|].
  assert (va = vb) by lia. subst vb. rewrite Z.max_id.
  now destruct (get_sign a).
Qed.

Lemma Prim2SF_255 : Prim2SF 255 = S754_finite false 8972014882652160 (-45).
Proof. reflexivity. Qed.

Lemma Prim2SF_0 : Prim2SF 0 = S754_zero false.
Proof. reflexivity. Qed.

Lemma SFeqb_refl x : x <> S754_nan -> SFeqb x x = true.
Proof.
  destruct x as [[]|[]| |[] m e]; try reflexivity; try congruence; intros _;
    unfold SFeqb; cbn [SFcompare];
    now rewrite Z.compare_refl, Pos.compare_cont_refl.
Qed.

Lemma is_nan_false l : Prim2SF l <> S754_nan -> is_nan l = false.
Proof.
  intros H. unfold is_nan. now rewrite FloatAxioms.eqb_spec, SFeqb_refl.
Qed.

Lemma has_value_eq x v w : has_value x v -> v = w -> has_value x w.
Proof. now intros H <-. Qed.

Lemma units_nonneg n : 0 <= n -> 0 <= units n.
Proof. intros. unfold units. pose proof (Z.pow_nonneg 2 B64.bias). nia. Qed.

Lemma clamp_value_bounds x : 0 <= clamp_value x <= units 255.
Proof.
  pose proof (units_nonneg 255 ltac:(lia)).
  destruct x as [[]|[]| |[] m e]; cbn [clamp_value]; try lia;
    pose proof (Z.pow_nonneg 2 (e + B64.bias)); lia.
Qed.

(** [Math.max(0, Math.min(255, l))] for every Number [l] but NaN. *)
Lemma clamp_has_value l :
  Prim2SF l <> S754_nan ->
  has_value (Math_max 0 (Math_min 255 l)) (clamp_value (Prim2SF l)).
Proof.
  intros Hn. pose proof (is_nan_false l Hn) as Hnan.
  pose proof (units_nonneg 255 ltac:(lia)) as H255.
  destruct (Prim2SF l) as [[]|[]| |[] m e] eqn:E; try congruence; cbn [clamp_value].
  - (* -0 *)
    assert (Hmin : Math_min 255 l = l).
    { unfold Math_min. rewrite Hnan. change (is_nan 255) with false.
      rewrite !FloatAxioms.ltb_spec, E, Prim2SF_255. reflexivity. }
    rewrite Hmin. unfold Math_max. rewrite Hnan. change (is_nan 0) with false.
    rewrite !FloatAxioms.ltb_spec, E, Prim2SF_0. cbn. apply has_value_0.
  - (* +0 *)
    assert (Hl : has_value l 0) by (split; now rewrite E).
    eapply has_value_eq;
      [apply Math_max_value;
        [apply has_value_0|apply Math_min_value; [apply has_value_255|eassumption]]|].
    lia.
  - (* -infinity *)
    assert (Hmin : Math_min 255 l = l).
    { unfold Math_min. rewrite Hnan. change (is_nan 255) with false.
      rewrite !FloatAxioms.ltb_spec, E, Prim2SF_255. reflexivity. }
    rewrite Hmin. unfold Math_max. rewrite Hnan. change (is_nan 0) with false.
    rewrite !FloatAxioms.ltb_spec, E, Prim2SF_0. cbn. apply has_value_0.
  - (* +infinity *)
    assert (Hmin : Math_min 255 l = 255%float).
    { unfold Math_min. rewrite Hnan. change (is_nan 255) with false.
      rewrite !FloatAxioms.ltb_spec, E, Prim2SF_255. reflexivity. }
    rewrite Hmin. change (Math_max 0 255) with 255%float. apply has_value_255.
  - (* negative *)
    assert (Hmin : Math_min 255 l = l).
    { unfold Math_min. rewrite Hnan. change (is_nan 255) with false.
      rewrite !FloatAxioms.ltb_spec, E, Prim2SF_255. reflexivity. }
    rewrite Hmin. unfold Math_max. rewrite Hnan. change (is_nan 0) with false.
    rewrite !FloatAxioms.ltb_spec, E, Prim2SF_0. cbn. apply has_value_0.
  - (* positive *)
    assert (Hl : has_value l (Z.pos m * 2 ^ (e + B64.bias))) by (split; now rewrite E).
    pose proof (has_value_nonneg _ _ Hl).
    eapply has_value_eq;
      [apply Math_max_value;
        [apply has_value_0|apply Math_min_value; [apply has_value_255|eassumption]]|].
    lia.
Qed.

Lemma clamp_value_mono x y :
  valid_binary x = true -> valid_binary y = true ->
  SFleb x y = true -> clamp_value x <= clamp_value y.
Proof.
  intros Vx Vy Hle. pose proof (clamp_value_bounds y) as By.
  unfold SFleb in Hle.
  destruct x as [[]|[]| |[] mx ex]; cbn [clamp_value]; try apply By.
  - (* +infinity *)
    destruct y as [[]|[]| |[] my ey]; try discriminate Hle. reflexivity.
  - (* positive *)
    destruct y as [[]|[]| |[] my ey]; try discriminate Hle.
    + cbn [clamp_value]. apply Z.le_min_l.
    + rewrite (SFcompare_nonneg (S754_finite false mx ex) (S754_finite false my ey))
        in Hle by (assumption || reflexivity).
      cbn [B64.value clamp_value] in *.
      destruct (Z.compare_spec (Z.pos mx * 2 ^ (ex + B64.bias))
                  (Z.pos my * 2 ^ (ey + B64.bias))); try discriminate; lia.
Qed.

Lemma units_pos n : 0 < n -> 0 < units n.
Proof.
  intros. unfold units.
  apply Z.mul_pos_pos; [assumption|apply pow2_pos; now rewrite bias_val].
Qed.

Lemma units_min a b : Z.min (units a) (units b) = units (Z.min a b).
Proof.
  destruct (Z.le_ge_cases a b) as [H|H].
  - rewrite !Z.min_l; [reflexivity|assumption|now apply units_le].
  - rewrite !Z.min_r; [reflexivity|assumption|now apply units_le].
Qed.

(** The quotient [c / 255] and its bound. *)
Lemma quotient_unit : B64.rnd (units 255 * 2 ^ B64.bias) (units 255) = units 1.
Proof.
  replace (units 255 * 2 ^ B64.bias) with (1 * 2 ^ B64.bias * units 255) by ring.
  apply rnd_exact; [apply units_pos; lia|lia|rewrite gmin_val, bias_val; lia].
Qed.

Lemma quotient_le c :
  0 <= c <= units 255 -> 0 <= B64.rnd (c * 2 ^ B64.bias) (units 255) <= units 1.
Proof.
  intros Hc. pose proof (units_pos 255 ltac:(lia)) as P255.
  pose proof (pow2_pos B64.bias ltac:(now rewrite bias_val)) as P.
  split.
  - rewrite <- (rnd_0 (units 255)) at 1 by assumption.
    apply rnd_mono; try assumption.
    rewrite Z.mul_0_l. apply Z.mul_nonneg_nonneg; [|lia].
    apply Z.mul_nonneg_nonneg; lia.
  - rewrite <- quotient_unit. apply rnd_mono; try assumption.
    apply Z.mul_le_mono_nonneg_r; [lia|].
    apply Z.mul_le_mono_nonneg_r; lia.
Qed.

(** The product with the ramp length and its bound. *)
Lemma product_full n :
  0 <= n < 2 ^ 53 -> B64.rnd (units 1 * units n) (2 ^ B64.bias) = units n.
Proof.
  intros Hn. replace (units 1 * units n) with (n * 2 ^ B64.bias * 2 ^ B64.bias)
    by (unfold units; ring).
  apply rnd_exact; [apply pow2_pos; now rewrite bias_val|assumption|].
  rewrite gmin_val, bias_val; lia.
Qed.

Lemma product_le q n :
  0 <= q <= units 1 -> 0 <= n < 2 ^ 53 ->
  0 <= B64.rnd (q * units n) (2 ^ B64.bias) <= units n.
Proof.
  intros Hq Hn. pose proof (pow2_pos B64.bias ltac:(now rewrite bias_val)) as P.
  pose proof (units_nonneg n ltac:(lia)) as Pn.
  split.
  - rewrite <- (rnd_0 (2 ^ B64.bias)) at 1 by assumption.
    apply rnd_mono; try assumption.
    rewrite Z.mul_0_l. apply Z.mul_nonneg_nonneg; [|lia].
    apply Z.mul_nonneg_nonneg; lia.
  - apply Z.le_trans with (B64.rnd (units 1 * units n) (2 ^ B64.bias));
      [|rewrite product_full by assumption; lia].
    apply rnd_mono; try assumption.
    apply Z.mul_le_mono_nonneg_r; [lia|].
    apply Z.mul_le_mono_nonneg_r; lia.
Qed.

Lemma index_of_bounds c n :
  0 <= c <= units 255 -> 1 <= n < 2 ^ 53 -> 0 <= index_of c n <= n - 1.
Proof.
  intros Hc Hn. unfold index_of.
  pose proof (quotient_le c Hc) as Hq.
  pose proof (product_le _ n Hq ltac:(lia)) as [Hp _].
  pose proof (pow2_pos B64.bias ltac:(now rewrite bias_val)) as P.
  pose proof (Z.div_pos _ _ Hp P).
  lia.
Qed.

Lemma index_of_mono c1 c2 n :
  0 <= c1 <= c2 -> c2 <= units 255 -> 1 <= n < 2 ^ 53 ->
  index_of c1 n <= index_of c2 n.
Proof.
  intros Hc H255 Hn. unfold index_of.
  pose proof (pow2_pos B64.bias ltac:(now rewrite bias_val)) as P.
  pose proof (units_pos 255 ltac:(lia)) as P255.
  pose proof (units_nonneg n ltac:(lia)) as Pn.
  apply Z.min_le_compat_r, Z.div_le_mono; [assumption|].
  apply rnd_mono; try assumption.
  apply Z.mul_le_mono_nonneg_r; [lia|].
  apply Z.mul_le_mono_nonneg_r; [assumption|].
  apply rnd_mono; try assumption.
  apply Z.mul_le_mono_nonneg_r; [lia|].
  apply Z.mul_le_mono_nonneg_r; lia.
Qed.

Lemma index_of_0 n : 1 <= n -> index_of 0 n = 0.
Proof.
  intros Hn. unfold index_of. cbv zeta.
  pose proof (pow2_pos B64.bias ltac:(now rewrite bias_val)) as P.
  assert (Q0 : B64.rnd (0 * 2 ^ B64.bias) (units 255) = 0)
    by (rewrite Z.mul_0_l; apply rnd_0, units_pos; lia).
  rewrite Q0.
  assert (P0 : B64.rnd (0 * units n) (2 ^ B64.bias) = 0)
    by (rewrite Z.mul_0_l; apply rnd_0, P).
  rewrite P0, Z.div_0_l by lia. lia.
Qed.

Lemma index_of_255 n : 1 <= n < 2 ^ 53 -> index_of (units 255) n = n - 1.
Proof.
  intros Hn. unfold index_of. cbv zeta.
  rewrite quotient_unit, product_full, units_div by lia. lia.
Qed.

(** The Number [rampIndex] returns. *)
Lemma rampIndex_value l len invert :
  2 <= Z.of_nat len < 2 ^ 53 -> Prim2SF l <> S754_nan ->
  has_value (rampIndex l len invert)
    (units (let i := index_of (clamp_value (Prim2SF l)) (Z.of_nat len) in
          if invert then Z.of_nat len - 1 - i else i)).
Proof.
  intros Hlen Hn. unfold rampIndex.
  pose proof (clamp_has_value l Hn) as Hc.
  pose proof (clamp_value_bounds (Prim2SF l)) as Bc.
  set (c := clamp_value (Prim2SF l)) in *. clearbody c.
  set (clamped := Math_max 0 (Math_min 255 l)) in *. clearbody clamped.
  set (n := Z.of_nat len) in *. clearbody n.
  pose proof (num_of_Z_value n ltac:(lia)) as Hlenv.
  set (lenf := num_of_Z n) in *. clearbody lenf.
  pose proof (quotient_le c Bc) as Bq.
  pose proof (index_of_bounds c n Bc ltac:(lia)) as Bi.
  unfold index_of in *.
  assert (Hq : has_value (clamped / 255) (B64.rnd (c * 2 ^ B64.bias) (units 255))).
  { apply div_value; [assumption|apply has_value_255|apply units_pos; lia|].
    eapply Z.le_lt_trans; [apply Bq|]. apply small_below_top. lia. }
  set (q := B64.rnd (c * 2 ^ B64.bias) (units 255)) in *. clearbody q.
  pose proof (product_le q n Bq ltac:(lia)) as Bp.
  assert (Hp : has_value (clamped / 255 * lenf) (B64.rnd (q * units n) (2 ^ B64.bias))).
  { apply mul_value; [assumption|assumption|].
    eapply Z.le_lt_trans; [apply Bp|]. apply small_below_top. lia. }
  set (p := B64.rnd (q * units n) (2 ^ B64.bias)) in *. clearbody p.
  pose proof (Math_floor_value _ _ Hp) as Hf.
  assert (Hl1 : has_value (lenf - 1) (units (n - 1))).
  { rewrite <- (rnd_units (n - 1)), <- units_sub by lia.
    apply sub_value; [assumption|apply has_value_1|]. apply units_le. lia. }
  pose proof (Math_min_value _ _ _ _ Hf Hl1) as Hm. rewrite units_min in Hm.
  cbv zeta. set (i := Z.min (p / 2 ^ B64.bias) (n - 1)) in *. clearbody i.
  destruct invert; [|assumption].
  rewrite <- (rnd_units (n - 1 - i)), <- units_sub by lia.
  apply sub_value; [assumption|assumption|]. apply units_le. lia.
Qed.

(** An integral Number indexes a string at its integer value. *)
Lemma str_get_int (s : jsstring) x i :
  0 <= i -> has_value x (units i) -> str_get s x = s !! Z.to_nat i.
Proof.
  intros Hi [N V]. pose proof (Prim2SF_valid x) as Vx.
  pose proof (pow2_pos B64.bias ltac:(now rewrite bias_val)) as P.
  unfold str_get, is_integral, num_to_Z.
  destruct (nonneg_cases _ N) as [E|(m & e & E)]; rewrite E in *; cbn [B64.value] in V.
  - assert (i = 0) by (unfold units in V; nia). subst i. reflexivity.
  - apply valid_finite_inv in Vx as (_ & He & _). unfold units in V.
    destruct (Z.leb_spec 0 e) as [Hpos|Hneg]; cbn [orb].
    + rewrite Z.shiftl_mul_pow2 by assumption.
      assert (Hv : Z.pos m * 2 ^ e = i).
      { rewrite Z.pow_add_r, Z.mul_assoc in V by (rewrite ?bias_val; lia).
        apply Z.mul_cancel_r in V; lia. }
      rewrite Hv. now rewrite (proj2 (Z.leb_le 0 i) Hi).
    + assert (Hv : Z.pos m = i * 2 ^ (- e)).
      { assert (Hb : 2 ^ B64.bias = 2 ^ (- e) * 2 ^ (e + B64.bias)).
        { rewrite <- Z.pow_add_r by (rewrite ?bias_val; lia). f_equal. lia. }
        rewrite Hb, Z.mul_assoc in V.
        assert (0 < 2 ^ (e + B64.bias)) by (apply pow2_pos; rewrite bias_val; lia).
        apply Z.mul_cancel_r in V; lia. }
      assert (Pe : 0 < 2 ^ (- e)) by (apply pow2_pos; lia).
      rewrite Z.land_ones, Z.shiftl_div_pow2 by lia.
      rewrite Hv, Z.mod_mul, Z.div_mul by lia. cbn [Z.eqb andb].
      now rewrite (proj2 (Z.leb_le 0 i) Hi).
Qed.

(** A ramp of at least two characters is indexed at [rampIndex]. *)
Lemma charForLuminance_index (characters : jsstring) (l : float) (invert : bool) :
  2 <= Z.of_nat (length characters) < 2 ^ 53 -> Prim2SF l <> S754_nan ->
  let n := Z.of_nat (length characters) in
  let i := index_of (clamp_value (Prim2SF l)) n in
  let j := if invert then n - 1 - i else i in
  0 <= i <= n - 1 /\
  rampIndex l (length characters) invert = num_of_Z j /\
  charForLuminance l characters invert
    = option_map (fun c : Z => [c]) (characters !! Z.to_nat j).
Proof.
  intros Hlen Hn n i j.
  pose proof (index_of_bounds _ n (clamp_value_bounds (Prim2SF l)) ltac:(lia)) as Bi.
  fold i in Bi.
  pose proof (rampIndex_value l (length characters) invert Hlen Hn) as Hv.
  cbv zeta in Hv. fold n i j in Hv.
  assert (Hj : 0 <= j < 2 ^ 53) by (unfold j; destruct invert; lia).
  split; [exact Bi|]. split.
  - apply (has_value_inj _ _ _ Hv). apply num_of_Z_value. exact Hj.
  - unfold charForLuminance.
    destruct (length characters) as [|[|k]] eqn:E; [lia|lia|].
    cbn [Nat.eqb]. now rewrite (str_get_int characters _ j (proj1 Hj) Hv).
Qed.

Lemma leb_not_nan l1 l2 :
  (l1 <=? l2)%float = true ->
  Prim2SF l1 <> S754_nan /\ Prim2SF l2 <> S754_nan /\
  SFleb (Prim2SF l1) (Prim2SF l2) = true.
Proof.
  rewrite FloatAxioms.leb_spec. unfold SFleb. intros H.
  repeat split; try assumption; intros E; rewrite E in H;
    [|destruct (Prim2SF l1)]; discriminate.
Qed.

(** A white pixel under the ten-character ramp. *)
Lemma white_cell (d : list Z) (x y : nat) (row : jsstring) :
  (forall c, (c < 3)%nat -> d !! (pixel_index 4 x y + c)%nat = Some 255) ->
  str_append row
    (charForLuminance
       (calculateLuminance (arr_get d (pixel_index 4 x y))
          (arr_get d (pixel_index 4 x y + 1)) (arr_get d (pixel_index 4 x y + 2)))
       (str " .:-=+*#%@") false)
  = row ++ [64].
Proof.
  intros H. unfold arr_get.
  rewrite <- (Nat.add_0_r (pixel_index 4 x y)) at 1.
  rewrite !H by lia. reflexivity.
Qed.

Lemma mapLuminance_white (σ : heap) (img : ImageData) :
  width img = 4%nat -> height img = 4%nat ->
  (forall x y c, (x < 4)%nat -> (y < 4)%nat -> (c < 3)%nat ->
     buffer σ img !! (pixel_index 4 x y + c)%nat = Some 255) ->
  mapLuminance σ img (str " .:-=+*#%@") false
  = [str "@@@@"; str "@@@@"; str "@@@@"; str "@@@@"].
Proof.
  intros W H Hd. unfold mapLuminance. rewrite W, H.
  cbn [seq fold_left].
  rewrite !white_cell by (intros; apply Hd; lia).
  reflexivity.
Qed.

(** ** Character ramps are monotone *)

(** C4.  For a ramp of [n >= 2] characters (a string's length is below
    [2^53]) and any two Numbers [l1 <= l2] (so neither is NaN),
    [charForLuminance] indexes the ramp at integers [i1 <= i2] within
    [0 .. n-1], and at [n-1-i1 >= n-1-i2] when [invert] is set; the
    indices are the Numbers [rampIndex] computes, ordered the same way.
    Luminance 0 gives the first character and 255 the last, the other way
    round under [invert].  Hence a 4x4 image whose pixels all have the
    colour bytes (255, 255, 255) is mapped by [mapLuminance], with the ramp
    [" .:-=+*#%@"] and [invert = false], to four rows of four ['@']. *)
Theorem charForLuminance_monotone (characters : jsstring) (l1 l2 : float) :
  let len := length characters in
  let n := Z.of_nat len in
  let char_at (i : Z) := option_map (fun c : Z => [c]) (characters !! Z.to_nat i) in
  2 <= n < 2 ^ 53 ->
  (l1 <=? l2)%float = true ->
  (exists i1 i2 : Z,
     0 <= i1 /\ i1 <= i2 /\ i2 <= n - 1 /\
     rampIndex l1 len false = num_of_Z i1 /\
     rampIndex l2 len false = num_of_Z i2 /\
     rampIndex l1 len true = num_of_Z (n - 1 - i1) /\
     rampIndex l2 len true = num_of_Z (n - 1 - i2) /\
     charForLuminance l1 characters false = char_at i1 /\
     charForLuminance l2 characters false = char_at i2 /\
     charForLuminance l1 characters true = char_at (n - 1 - i1) /\
     charForLuminance l2 characters true = char_at (n - 1 - i2)) /\
  (rampIndex l1 len false <=? rampIndex l2 len false)%float = true /\
  (rampIndex l2 len true <=? rampIndex l1 len true)%float = true /\
  charForLuminance 0 characters false = char_at 0 /\
  charForLuminance 255 characters false = char_at (n - 1) /\
  charForLuminance 0 characters true = char_at (n - 1) /\
  charForLuminance 255 characters true = char_at 0 /\
  (forall (σ : heap) (img : ImageData),
     width img = 4%nat -> height img = 4%nat ->
     (forall x y c, (x < 4)%nat -> (y < 4)%nat -> (c < 3)%nat ->
        buffer σ img !! (pixel_index 4 x y + c)%nat = Some 255) ->
     mapLuminance σ img (str " .:-=+*#%@") false
     = [str "@@@@"; str "@@@@"; str "@@@@"; str "@@@@"]).
Proof.
  cbv zeta. intros Hn Hle.
  destruct (leb_not_nan l1 l2 Hle) as (N1 & N2 & Hsf).
  pose proof (clamp_value_mono _ _ (Prim2SF_valid l1) (Prim2SF_valid l2) Hsf) as Hc.
  pose proof (clamp_value_bounds (Prim2SF l1)) as B1.
  pose proof (clamp_value_bounds (Prim2SF l2)) as B2.
  pose proof (index_of_mono _ _ _ (conj (proj1 B1) Hc) (proj2 B2)
                (conj (Z.le_trans 1 2 _ ltac:(lia) (proj1 Hn)) (proj2 Hn))) as Hi.
  destruct (charForLuminance_index characters l1 false Hn N1) as (Bi1 & R1 & C1).
  destruct (charForLuminance_index characters l2 false Hn N2) as (Bi2 & R2 & C2).
  destruct (charForLuminance_index characters l1 true Hn N1) as (_ & R1' & C1').
  destruct (charForLuminance_index characters l2 true Hn N2) as (_ & R2' & C2').
  pose proof (rampIndex_value l1 _ false Hn N1) as V1.
  pose proof (rampIndex_value l2 _ false Hn N2) as V2.
  pose proof (rampIndex_value l1 _ true Hn N1) as V1'.
  pose proof (rampIndex_value l2 _ true Hn N2) as V2'.
  destruct (charForLuminance_index characters 0 false Hn) as (_ & _ & F0);
    [rewrite Prim2SF_0; discriminate|].
  destruct (charForLuminance_index characters 255 false Hn) as (_ & _ & F255);
    [rewrite Prim2SF_255; discriminate|].
  destruct (charForLuminance_index characters 0 true Hn) as (_ & _ & T0);
    [rewrite Prim2SF_0; discriminate|].
  destruct (charForLuminance_index characters 255 true Hn) as (_ & _ & T255);
    [rewrite Prim2SF_255; discriminate|].
  cbv zeta in *.
  set (n := Z.of_nat (length characters)) in *.
  set (i1 := index_of (clamp_value (Prim2SF l1)) n) in *.
  set (i2 := index_of (clamp_value (Prim2SF l2)) n) in *.
  clearbody i1 i2.
  assert (I0 : index_of (clamp_value (Prim2SF 0)) n = 0).
  { rewrite Prim2SF_0. cbn [clamp_value]. apply index_of_0. lia. }
  assert (I255 : index_of (clamp_value (Prim2SF 255)) n = n - 1).
  { destruct has_value_255 as [_ V]. rewrite Prim2SF_255 in *.
    cbn [clamp_value B64.value] in *. rewrite V, Z.min_id.
    apply index_of_255. lia. }
  rewrite I0 in *. rewrite I255 in *.
  rewrite Z.sub_0_r, Z.sub_diag in *.
  split.
  { exists i1, i2. split; [exact (proj1 Bi1)|]. split; [exact Hi|].
    split; [exact (proj2 Bi2)|]. repeat split; assumption. }
  split; [rewrite (leb_value _ _ _ _ V1 V2); apply Z.leb_le, units_le; exact Hi|].
  split; [rewrite (leb_value _ _ _ _ V2' V1');
          apply Z.leb_le, units_le, Z.sub_le_mono_l; exact Hi|].
  repeat split; try assumption.
  exact mapLuminance_white.
Qed.

Lemma charForLuminance_monotone_witness :
  (rampIndex 100 10 false <=? rampIndex 200 10 false)%float = true /\
  charForLuminance 255 (str " .:-=+*#%@") false = Some (str "@") /\
  charForLuminance 255 (str " .:-=+*#%@") true = Some (str " ") /\
  mapLuminance sampleHeap sampleImage (str " .:-=+*#%@") false
  = [str "@@@@"; str "@@@@"; str "@@@@"; str "@@@@"].
Proof.
  destruct (charForLuminance_monotone (str " .:-=+*#%@") 100 200)
    as (_ & Hm & _ & _ & Hlast & _ & Hfirst & Hwhite);
    [simpl; lia|reflexivity|].
  split; [exact Hm|]. split; [exact Hlast|]. split; [exact Hfirst|].
  apply Hwhite; [reflexivity|reflexivity|].
  intros x y c Hx Hy Hc.
  destruct x as [|[|[|[|x]]]]; [| | | |lia];
    (destruct y as [|[|[|[|y]]]]; [| | | |lia]);
    (destruct c as [|[|[|c]]]; [| | |lia]); reflexivity.
Defined.

(** ** The animation loop *)

(** *** Binary64 facts for the loop *)

(** A Number is its own rounding. *)
Lemma has_value_rnd x v : has_value x v -> B64.rnd v 1 = v.
Proof.
  intros [N <-]. pose proof (Prim2SF_valid x) as V.
  destruct (nonneg_cases _ N) as [E|(m & e & E)]; rewrite E in *; cbn [B64.value].
  - apply rnd_0. lia.
  - rewrite <- (Z.mul_1_r (_ * _)) at 1. apply rnd_value; [lia|assumption].
Qed.

Lemma has_value_top x v : has_value x v -> v < B64.top.
Proof.
  intros [N <-]. pose proof (Prim2SF_valid x) as V.
  destruct (nonneg_cases _ N) as [E|(m & e & E)]; rewrite E in *; cbn [B64.value].
  - apply pow2_pos. rewrite bias_val. lia.
  - now apply value_below_top.
Qed.

(** [x % y] is the exact remainder. *)
Lemma rem_value x y vx vy :
  has_value x vx -> has_value y vy -> 0 < vy ->
  has_value (Number_remainder x y) (vx mod vy).
Proof.
  intros [Nx <-] [Ny <-] Hpos. unfold Number_remainder.
  pose proof (Prim2SF_valid x) as Vx. pose proof (Prim2SF_valid y) as Vy.
  destruct (nonneg_cases _ Ny) as [Ey|(my & ey & Ey)]; rewrite Ey in *;
    cbn [B64.value] in Hpos |- *; [lia|].
  destruct (nonneg_cases _ Nx) as [Ex|(mx & ex & Ex)]; rewrite Ex in *.
  - cbn [SFrem B64.value]. rewrite Z.mod_0_l by lia. unfold has_value.
    rewrite Prim2SF_SF2Prim by reflexivity. split; reflexivity.
  - cbn [SFrem B64.value].
    pose proof (valid_finite_inv _ _ _ Vx) as (Hmx & Hex & _).
    pose proof (valid_finite_inv _ _ _ Vy) as (Hmy & Hey & _).
    set (e := Z.min ex ey).
    assert (He : 0 <= e + B64.bias) by (rewrite bias_val; lia).
    assert (Pe : 0 < 2 ^ (e + B64.bias)) by now apply pow2_pos.
    assert (Pa : 0 < 2 ^ (ex - e)) by (apply pow2_pos; lia).
    assert (Pb : 0 < 2 ^ (ey - e)) by (apply pow2_pos; lia).
    assert (Ea : Z.pos mx * 2 ^ (ex + B64.bias)
                 = Z.pos mx * 2 ^ (ex - e) * 2 ^ (e + B64.bias)).
    { rewrite <- Z.mul_assoc, <- Z.pow_add_r by lia. do 2 f_equal. lia. }
    assert (Eb : Z.pos my * 2 ^ (ey + B64.bias)
                 = Z.pos my * 2 ^ (ey - e) * 2 ^ (e + B64.bias)).
    { rewrite <- Z.mul_assoc, <- Z.pow_add_r by lia. do 2 f_equal. lia. }
    assert (H53 : Z.pos mx * 2 ^ (ex - e) < 2 ^ 53 \/ Z.pos my * 2 ^ (ey - e) < 2 ^ 53).
    { destruct (Z.le_ge_cases ex ey) as [C|C]; [left|right].
      - replace (ex - e) with 0 by lia. lia.
      - replace (ey - e) with 0 by lia. lia. }
    pose proof (value_below_top _ _ Vx) as Tx. rewrite Ea in Tx.
    rewrite Ea, Eb.
    set (a := Z.pos mx * 2 ^ (ex - e)) in *.
    set (b := Z.pos my * 2 ^ (ey - e)) in *.
    assert (Ha : 0 < a) by (apply Z.mul_pos_pos; [apply Pos2Z.is_pos|exact Pa]).
    assert (Hb : 0 < b) by (apply Z.mul_pos_pos; [apply Pos2Z.is_pos|exact Pb]).
    clearbody a b. clear Ea Eb.
    rewrite Z.rem_mod_nonneg by lia.
    rewrite Z.mul_mod_distr_r by lia.
    pose proof (Z.mod_pos_bound a b Hb) as Hr.
    pose proof (Z.mod_le a b ltac:(lia) Hb) as Hra.
    set (r := a mod b) in *. clearbody r.
    assert (Hr53 : 0 <= r < 2 ^ 53) by lia.
    assert (Ernd : B64.rnd (r * 2 ^ (e + B64.bias)) 1 = r * 2 ^ (e + B64.bias)).
    { rewrite <- (Z.mul_1_r (_ * _)) at 1.
      apply rnd_exact; [lia|exact Hr53|rewrite gmin_val, bias_val; lia]. }
    assert (Hrep : B64.represents false (r * 2 ^ (e + B64.bias))
                     (binary_normalize prec emax r e false)).
    { rewrite <- Ernd at 1. apply binary_normalize_spec; [lia|exact He|].
      rewrite Ernd. eapply Z.le_lt_trans; [|exact Tx].
      apply Z.mul_le_mono_nonneg_r; lia. }
    unfold has_value. rewrite Prim2SF_SF2Prim by apply Hrep.
    now apply represents_value.
Qed.

(** One rounding of a value below [2^K] moves it by at most [2^(K-53)]. *)
Lemma rnd_near (K a : Z) :
  0 <= K -> 0 <= a < 2 ^ (K + B64.bias) ->
  a - 2 ^ (K + B64.bias - 53) <= B64.rnd a 1 <= a + 2 ^ (K + B64.bias - 53).
Proof.
  intros HK Ha. unfold B64.rnd. rewrite Z.mul_1_l.
  assert (Hg : B64.gmin <= B64.gexp a 1 <= K + B64.bias - 53).
  { split; [apply gexp_ge|]. unfold B64.gexp. rewrite Z.div_1_r, gmin_val, bias_val.
    destruct (Z.eq_dec a 0) as [->|Hn]; [cbn; lia|].
    assert (Z.log2 a < K + B64.bias) by (apply Z.log2_lt_pow2; lia).
    rewrite bias_val in *. lia. }
  set (g := B64.gexp a 1) in *. clearbody g.
  assert (Pg : 0 < 2 ^ g) by (apply pow2_pos; rewrite gmin_val in Hg; lia).
  assert (Hle : 2 ^ g <= 2 ^ (K + B64.bias - 53)) by (apply Z.pow_le_mono_r; lia).
  pose proof (RNE_bounds a (2 ^ g) Pg) as HR.
  pose proof (Z.div_mod a (2 ^ g) ltac:(lia)) as Hdm.
  pose proof (Z.mod_pos_bound a (2 ^ g) Pg) as Hm.
  set (P := 2 ^ g) in *. set (H := 2 ^ (K + B64.bias - 53)) in *.
  set (R := B64.RNE a P) in *. set (q := a / P) in *. set (m := a mod P) in *.
  clearbody P H R q m. clear Ha Hg. nia.
Qed.

(** The difference of a smaller and a larger Number is negative, hence
    below every positive interval. *)
Lemma leb_sub_neg (I x y : float) (vI vx vy : Z) :
  has_value I vI -> 0 < vI -> has_value x vx -> has_value y vy -> vx < vy ->
  (I <=? x - y)%float = false.
Proof.
  intros [NI <-] HI [Nx <-] [Ny <-] Hlt.
  rewrite FloatAxioms.leb_spec, FloatAxioms.sub_spec.
  pose proof (Prim2SF_valid x) as Vx. pose proof (Prim2SF_valid y) as Vy.
  destruct (nonneg_cases _ NI) as [EI|(mI & eI & EI)]; rewrite EI in *;
    cbn [B64.value] in HI; [lia|].
  destruct (nonneg_cases _ Ny) as [Ey|(my & ey & Ey)]; rewrite Ey in *.
  { destruct (nonneg_cases _ Nx) as [Ex|(mx & ex & Ex)]; rewrite Ex in *;
      cbn [B64.value] in Hlt; [lia|].
    pose proof (valid_finite_inv _ _ _ Vx) as (Hmx & Hex & _).
    pose proof (pow2_pos (ex + B64.bias)). rewrite bias_val in *. nia. }
  destruct (nonneg_cases _ Nx) as [Ex|(mx & ex & Ex)]; rewrite Ex in *.
  { reflexivity. }
  cbn [B64.value] in Hlt. unfold SF64sub, SFsub. cbn [cond_Zopp].
  pose proof (valid_finite_inv _ _ _ Vx) as (Hmx & Hex & Hnx).
  pose proof (valid_finite_inv _ _ _ Vy) as (Hmy & Hey & Hny).
  set (ez := Z.min ex ey).
  assert (Hez : 0 <= ez + B64.bias) by (rewrite bias_val; lia).
  pose proof (shl_align_value mx ex ez Hez) as Hx.
  pose proof (shl_align_value my ey ez Hez) as Hy.
  destruct (shl_align mx ex ez) as [mx' ex'], (shl_align my ey ez) as [my' ey'].
  destruct Hx as [Hx Ex'], Hy as [Hy Ey']. cbn [fst].
  subst ex' ey'.
  replace (Z.min ex ez) with ez in * by lia.
  replace (Z.min ey ez) with ez in * by lia.
  pose proof (pow2_pos (ez + B64.bias) Hez) as Pz.
  assert (Hd : Z.pos mx' - Z.pos my' < 0).
  { rewrite <- Hx, <- Hy in Hlt. clear -Hlt Pz.
    set (P := 2 ^ (ez + B64.bias)) in *. clearbody P. nia. }
  destruct (Z.pos mx' - Z.pos my') as [|p|p] eqn:Ed; try lia.
  cbn [binary_normalize].
  assert (Hp : Z.pos p * 2 ^ (ez + B64.bias) <= Z.pos my * 2 ^ (ey + B64.bias)).
  { rewrite <- Hy. apply Z.mul_le_mono_nonneg_r; lia. }
  assert (Hov : B64.rnd (Z.pos p * 2 ^ (ez + B64.bias)) 1 < B64.top).
  { eapply Z.le_lt_trans;
      [apply (rnd_mono _ 1 (Z.pos my * 2 ^ (ey + B64.bias) * 1) 1); lia|].
    rewrite rnd_value by (lia || assumption). now apply value_below_top. }
  destruct (binary_round_spec true p ez Hez Hov) as [_ [[_ ->]|(m & e & -> & _)]];
    reflexivity.
Qed.

(** *** Exact values as rationals *)

Lemma of_units_le (v w : Z) : v <= w -> (of_units v <= of_units w)%Q.
Proof.
  intros H. unfold of_units, Qdiv.
  apply Qmult_le_compat_r; [now rewrite <- Zle_Qle|].
  apply Qinv_le_0_compat. change 0%Q with (inject_Z 0). rewrite <- Zle_Qle.
  apply Z.lt_le_incl, pow2_pos. rewrite bias_val. lia.
Qed.

Lemma of_units_lt (v w : Z) : v < w -> (of_units v < of_units w)%Q.
Proof.
  intros H. unfold of_units, Qdiv.
  apply Qmult_lt_compat_r; [|now rewrite <- Zlt_Qlt].
  apply Qinv_lt_0_compat. change 0%Q with (inject_Z 0). rewrite <- Zlt_Qlt.
  apply pow2_pos. rewrite bias_val. lia.
Qed.

Lemma of_units_add (v w : Z) : (of_units (v + w) == of_units v + of_units w)%Q.
Proof.
  unfold of_units, Qdiv. rewrite inject_Z_plus. apply Qmult_plus_distr_l.
Qed.

Lemma of_units_mul (v k : Z) : (of_units (v * k) == of_units v * inject_Z k)%Q.
Proof.
  unfold of_units, Qdiv. rewrite inject_Z_mult.
  set (c := (/ inject_Z (2 ^ B64.bias))%Q). clearbody c. ring.
Qed.

Lemma Qdiv_inject (A B C D : Z) :
  0 < B -> 0 < D -> A * D = C * B ->
  (inject_Z A / inject_Z B == inject_Z C / inject_Z D)%Q.
Proof.
  intros HB HD H. unfold Qeq, Qdiv, Qinv, Qmult, inject_Z.
  destruct B as [|b|b], D as [|d|d]; try lia. cbn.
  rewrite !Z.mul_1_r, !Pos.mul_1_l. lia.
Qed.

Lemma of_units_slack (K : Z) :
  0 <= K -> (of_units (2 * 2 ^ (K + B64.bias - 53)) == slack K)%Q.
Proof.
  intros HK. unfold of_units, slack.
  apply Qdiv_inject; [apply pow2_pos; rewrite bias_val; lia|apply pow2_pos; lia|].
  replace (2 * 2 ^ (K + B64.bias - 53)) with (2 ^ (K + B64.bias - 52)).
  - rewrite <- !Z.pow_add_r by (rewrite ?bias_val; lia). f_equal. lia.
  - replace (K + B64.bias - 52) with (1 + (K + B64.bias - 53)) by lia.
    rewrite Z.pow_add_r by (rewrite ?bias_val; lia). reflexivity.
Qed.

Lemma of_units_units (n : Z) : (of_units (units n) == inject_Z n)%Q.
Proof.
  unfold of_units, units. rewrite inject_Z_mult.
  assert (H : ~ (inject_Z (2 ^ B64.bias) == 0)%Q).
  { change 0%Q with (inject_Z 0). rewrite inject_Z_injective.
    pose proof (pow2_pos B64.bias ltac:(rewrite bias_val; lia)). lia. }
  set (c := inject_Z (2 ^ B64.bias)) in *. clearbody c. now field.
Qed.

Lemma ms_value (x : float) (v : Z) : has_value x v -> ms x = of_units v.
Proof. intros [_ <-]. reflexivity. Qed.

Lemma slack_pos (K : Z) : 0 <= K -> (0 < slack K)%Q.
Proof.
  intros HK. unfold slack. apply Qlt_shift_div_l; [reflexivity|].
  rewrite Qmult_0_l. change 0%Q with (inject_Z 0). rewrite <- Zlt_Qlt.
  now apply pow2_pos.
Qed.

(** *** One refresh callback *)

(** A callback processes a frame when the exact elapsed time is at least
    the interval. *)
Lemma elapsed_test_true (I L timestamp : float) (vI vL vt : Z) :
  has_value I vI -> has_value L vL -> has_value timestamp vt ->
  vL + vI <= vt -> (I <=? timestamp - L)%float = true.
Proof.
  intros HI HL Ht H.
  pose proof (has_value_nonneg _ _ HI) as PI.
  rewrite (leb_value _ _ vI (B64.rnd (vt - vL) 1) HI)
    by (apply sub_value; [exact Ht|exact HL|lia]).
  apply Z.leb_le. rewrite <- (has_value_rnd _ _ HI).
  apply rnd_mono; lia.
Qed.

(** What a processed frame leaves behind. *)
Lemma elapsed_test_frame (K : Z) (I L timestamp : float) (vI vL vt : Z) :
  0 <= K -> has_value I vI -> 0 < vI -> has_value L vL ->
  has_value timestamp vt -> vt < 2 ^ (K + B64.bias) ->
  (I <=? timestamp - L)%float = true ->
  vL <= vt /\ vL + vI <= vt + 2 ^ (K + B64.bias - 53) /\
  exists vL',
    has_value (timestamp - Number_remainder (timestamp - L) I)%float vL' /\
    vL' <= vt /\ vt < vL' + vI + 2 ^ (K + B64.bias - 53) /\
    vL + vI <= vL' + 2 * 2 ^ (K + B64.bias - 53).
Proof.
  intros HK HI HI0 HL Ht Bt E.
  assert (Hle : vL <= vt).
  { destruct (Z.le_gt_cases vL vt) as [C|C]; [exact C|].
    rewrite (leb_sub_neg _ _ _ vI vt vL HI HI0 Ht HL C) in E. discriminate. }
  pose proof (has_value_nonneg _ _ HL) as PL.
  pose proof (sub_value _ _ _ _ Ht HL Hle) as He.
  rewrite (leb_value _ _ _ _ HI He) in E. apply Z.leb_le in E.
  pose proof (rnd_near K (vt - vL) HK ltac:(lia)) as N1.
  assert (Hev : B64.rnd (vt - vL) 1 <= vt).
  { rewrite <- (has_value_rnd _ _ Ht) at 2. apply rnd_mono; lia. }
  set (ve := B64.rnd (vt - vL) 1) in *. clearbody ve.
  pose proof (rem_value _ _ _ _ He HI HI0) as Hr.
  pose proof (Z.mod_pos_bound ve vI HI0) as Br.
  assert (Br' : ve mod vI <= ve - vI).
  { rewrite Z.mod_eq by lia.
    assert (1 <= ve / vI) by (apply Z.div_le_lower_bound; lia).
    clear -H HI0. set (q := ve / vI) in *. clearbody q. nia. }
  set (r := ve mod vI) in *. clearbody r.
  assert (Hrt : r <= vt) by lia.
  pose proof (sub_value _ _ _ _ Ht Hr Hrt) as HL'.
  pose proof (rnd_near K (vt - r) HK ltac:(lia)) as N2.
  assert (HLt : B64.rnd (vt - r) 1 <= vt).
  { rewrite <- (has_value_rnd _ _ Ht) at 2. apply rnd_mono; lia. }
  split; [exact Hle|]. split; [lia|].
  exists (B64.rnd (vt - r) 1). split; [exact HL'|].
  set (h := 2 ^ (K + B64.bias - 53)) in *. clearbody h.
  set (vL' := B64.rnd (vt - r) 1) in *. clearbody vL'.
  clear -E N1 N2 HLt Br Br' Hle. lia.
Qed.

(** Before the interval less one rounding error has elapsed, no frame. *)
Lemma elapsed_test_false (K : Z) (I L timestamp : float) (vI vL vt : Z) :
  0 <= K -> has_value I vI -> 0 < vI -> has_value L vL ->
  has_value timestamp vt -> vt < 2 ^ (K + B64.bias) ->
  vt + 2 ^ (K + B64.bias - 53) < vL + vI ->
  (I <=? timestamp - L)%float = false.
Proof.
  intros HK HI HI0 HL Ht Bt H.
  destruct (I <=? timestamp - L)%float eqn:E; [|reflexivity].
  destruct (elapsed_test_frame K I L timestamp vI vL vt HK HI HI0 HL Ht Bt E)
    as (_ & C & _). lia.
Qed.

Lemma of_units_le_inv (v w : Z) : (of_units v <= of_units w)%Q -> v <= w.
Proof.
  intros H. destruct (Z.le_gt_cases v w) as [C|C]; [exact C|].
  apply of_units_lt in C. lra.
Qed.

Lemma of_units_lt_inv (v w : Z) : (of_units v < of_units w)%Q -> v < w.
Proof.
  intros H. destruct (Z.lt_ge_cases v w) as [C|C]; [exact C|].
  apply of_units_le in C. lra.
Qed.

(** The stored interval for a whole target rate: [1000 / F] rounded once
    loses less than one unit in the last place. *)
Lemma interval_units (F : float) (f : Z) :
  has_value F (units f) -> 1 <= f <= 1000 ->
  exists vI, has_value (1000 / F)%float vI /\
    units 1 <= vI /\
    units 1000 <= vI * f + 2 ^ (B64.bias - 43) * f.
Proof.
  intros HF Hf.
  pose proof (pow2_pos B64.bias ltac:(now rewrite bias_val)) as PB.
  assert (Pb : 0 < units f) by (apply units_pos; lia).
  pose proof (num_of_Z_value 1000 ltac:(lia)) as H1000.
  change (num_of_Z 1000) with 1000%float in H1000.
  set (a := units 1000 * 2 ^ B64.bias).
  assert (Hup : B64.rnd a (units f) <= units 1000).
  { rewrite <- (rnd_units 1000) by lia. apply rnd_mono; [exact Pb|lia|].
    unfold a, units. rewrite Z.mul_1_r.
    apply Z.le_trans with (1000 * 2 ^ B64.bias * (1 * 2 ^ B64.bias)); [lia|].
    apply Z.mul_le_mono_nonneg_l; [lia|].
    apply Z.mul_le_mono_nonneg_r; lia. }
  assert (Hdn : units 1 <= B64.rnd a (units f)).
  { rewrite <- (rnd_units 1) by lia. apply rnd_mono; [lia|exact Pb|].
    unfold a, units. rewrite Z.mul_1_r.
    clear -PB Hf. set (P := 2 ^ B64.bias) in *. clearbody P. nia. }
  assert (Hv : has_value (1000 / F)%float (B64.rnd a (units f))).
  { apply div_value; [exact H1000|exact HF|exact Pb|].
    eapply Z.le_lt_trans; [exact Hup|]. apply small_below_top. lia. }
  exists (B64.rnd a (units f)). split; [exact Hv|]. split; [exact Hdn|].
  assert (Hg : B64.gmin <= B64.gexp a (units f) <= B64.bias - 43).
  { split; [apply gexp_ge|]. unfold B64.gexp. rewrite gmin_val, bias_val.
    assert (Hq : a / units f < 2 ^ (10 + B64.bias)).
    { apply Z.div_lt_upper_bound; [exact Pb|]. unfold a, units.
      rewrite Z.pow_add_r by (rewrite ?bias_val; lia).
      clear -PB Hf. set (P := 2 ^ B64.bias) in *. clearbody P.
      change (2 ^ 10) with 1024. nia. }
    assert (Hq0 : 0 <= a / units f).
    { apply Z.div_pos; [|exact Pb]. unfold a, units. nia. }
    destruct (Z.eq_dec (a / units f) 0) as [->|Hn]; [cbn; lia|].
    assert (Z.log2 (a / units f) < 10 + B64.bias)
      by (apply Z.log2_lt_pow2; lia).
    rewrite bias_val in *. lia. }
  unfold B64.rnd. set (g := B64.gexp a (units f)) in *. clearbody g.
  assert (Pg : 0 < 2 ^ g) by (apply pow2_pos; rewrite gmin_val in Hg; lia).
  assert (Hle : 2 ^ g <= 2 ^ (B64.bias - 43)) by (apply Z.pow_le_mono_r; lia).
  assert (Pc : 0 < units f * 2 ^ g) by (apply Z.mul_pos_pos; assumption).
  pose proof (RNE_bounds a (units f * 2 ^ g) Pc) as [HR _].
  pose proof (Z.div_mod a (units f * 2 ^ g) ltac:(lia)) as Hdm.
  pose proof (Z.mod_pos_bound a (units f * 2 ^ g) Pc) as Hm.
  unfold a, units in *.
  set (P := 2 ^ B64.bias) in *. set (G := 2 ^ g) in *.
  set (H := 2 ^ (B64.bias - 43)) in *.
  set (R := B64.RNE (1000 * P * P) (f * P * G)) in *.
  set (q := 1000 * P * P / (f * P * G)) in *.
  set (m := (1000 * P * P) mod (f * P * G)) in *.
  clearbody P G H R q m. clear Hg Hv Hup Hdn H1000 HF Pc.
  assert (E1 : 1000 * P * P < (R * G * f + f * G) * P) by nia.
  assert (E2 : 1000 * P < R * G * f + f * G) by nia.
  nia.
Qed.

(** *** The pacing invariant *)

Section Pacing.

Import Loop.
Local Open Scope Q_scope.

Lemma count_0 : count 0 = 0.
Proof. reflexivity. Qed.

Lemma count_S (n : nat) : count (S n) == count n + 1.
Proof.
  unfold count. rewrite Nat2Z.inj_succ, <- Z.add_1_r, inject_Z_plus. reflexivity.
Qed.

Lemma count_le (n m : nat) : (n <= m)%nat -> count n <= count m.
Proof. intros H. unfold count. rewrite <- Zle_Qle. lia. Qed.

Lemma filter_and_length {A : Type} (p q : A -> bool) (l : list A) :
  (length (List.filter (fun x => p x && q x) l)
   <= length (List.filter p l))%nat.
Proof.
  induction l as [|x l IH]; cbn; [lia|].
  destruct (p x), (q x); cbn; lia.
Qed.

Lemma filter_length_le {A : Type} (p : A -> bool) (l : list A) :
  (length (List.filter p l) <= length l)%nat.
Proof. induction l as [|x l IH]; cbn; [lia|]. destruct (p x); cbn; lia. Qed.

(** A processed frame in rationals: the new [lastFrameTime] [L'] against
    the old one [L], the timestamp [t] and the interval [I]. *)
Lemma frame_bounds (K : Z) (vI vL vt vL' : Z) :
  (0 <= K)%Z ->
  (vL' <= vt)%Z -> (vt < vL' + vI + 2 ^ (K + B64.bias - 53))%Z ->
  (vL + vI <= vL' + 2 * 2 ^ (K + B64.bias - 53))%Z ->
  of_units vL' <= of_units vt /\
  of_units vt < of_units vL' + (of_units vI + slack K) /\
  of_units vL + (of_units vI - slack K) <= of_units vL'.
Proof.
  intros HK H1 H2 H3.
  pose proof (pow2_pos (K + B64.bias - 53) ltac:(rewrite bias_val; lia)) as Ph.
  pose proof (of_units_slack K HK) as ES.
  set (h := (2 ^ (K + B64.bias - 53))%Z) in *. clearbody h.
  assert (H2' : (vt < vL' + vI + 2 * h)%Z) by lia.
  apply of_units_le in H1, H3. apply of_units_lt in H2'.
  rewrite !of_units_add in H2', H3. rewrite ES in H2', H3.
  repeat split; lra.
Qed.

(** One refresh callback keeps the pacing and processes at most one frame. *)
Lemma animate_paced (K : Z) (L0 : Q) (vI : Z) (timestamp : float) (e : t) :
  (0 <= K)%Z -> isPlaying e = true ->
  has_value (frameInterval e) vI -> (0 < vI)%Z ->
  below K (lastFrameTime e) -> below K timestamp ->
  paced L0 (ms (frameInterval e) - slack K) (ms (frameInterval e) + slack K)
    (ms (lastFrameTime e)) (frames e) ->
  isPlaying (_animate timestamp e) = true /\
  frameInterval (_animate timestamp e) = frameInterval e /\
  below K (lastFrameTime (_animate timestamp e)) /\
  paced L0 (ms (frameInterval e) - slack K) (ms (frameInterval e) + slack K)
    (ms (lastFrameTime (_animate timestamp e))) (frames (_animate timestamp e)).
Proof.
  intros HK Hp HI HI0 (vL & HL & BL) (vt & Ht & Bt) Hpaced.
  unfold _animate. rewrite Hp. cbn [negb].
  destruct (frameInterval e <=? timestamp - lastFrameTime e)%float eqn:E.
  - destruct (elapsed_test_frame K _ _ _ vI vL vt HK HI HI0 HL Ht Bt E)
      as (_ & _ & vL' & HL' & H1 & H2 & H3).
    destruct (frame_bounds K vI vL vt vL' HK H1 H2 H3) as (Q1 & Q2 & Q3).
    cbn. rewrite (ms_value _ _ HL'), (ms_value _ _ Ht).
    rewrite (ms_value _ _ HL), (ms_value _ _ HI) in *.
    repeat split; auto.
    + exists vL'. split; [exact HL'|lia].
    + exists (of_units vL). split; [lra | exact Hpaced].
  - cbn. repeat split; auto. exists vL. split; assumption.
Qed.

Lemma run_paced (K : Z) (L0 : Q) (vI : Z) (ts : list float) (e : t) :
  (0 <= K)%Z -> isPlaying e = true ->
  has_value (frameInterval e) vI -> (0 < vI)%Z ->
  below K (lastFrameTime e) -> Forall (below K) ts ->
  paced L0 (ms (frameInterval e) - slack K) (ms (frameInterval e) + slack K)
    (ms (lastFrameTime e)) (frames e) ->
  paced L0 (ms (frameInterval e) - slack K) (ms (frameInterval e) + slack K)
    (ms (lastFrameTime (run ts e))) (frames (run ts e)).
Proof.
  intros HK. revert e. unfold run.
  induction ts as [|ts0 ts IH]; intros e Hp HI HI0 HL Hts Hpaced.
  - exact Hpaced.
  - apply Forall_cons in Hts as [Ht0 Hts]. cbn [fold_left].
    destruct (animate_paced K L0 vI ts0 e HK Hp HI HI0 HL Ht0 Hpaced)
      as (P1 & P2 & P3 & P4).
    rewrite <- P2 in P4, HI |- *. exact (IH _ P1 HI HI0 P3 Hts P4).
Qed.

Lemma paced_length (L0 I J L : Q) (log : list float) :
  0 < I -> paced L0 I J L log -> L0 + count (length log) * I <= L.
Proof.
  intros HI. revert L. induction log as [|ts log IH]; intros L Hp.
  - cbn [paced length] in *. rewrite count_0. lra.
  - destruct Hp as (_ & _ & L' & HL & Hp). specialize (IH _ Hp).
    cbn [length]. rewrite count_S. lra.
Qed.

Lemma paced_since (L0 I J L a : Q) (log : list float) :
  0 < I -> paced L0 I J L log ->
  (1 <= length (List.filter (fun ts => Qle_bool a (ms ts)) log))%nat ->
  a + (count (length (List.filter (fun ts => Qle_bool a (ms ts)) log)) - 1) * I - J < L.
Proof.
  intros HI. revert L. induction log as [|ts log IH]; intros L Hp Hn.
  - cbn in Hn. lia.
  - destruct Hp as (H1 & H2 & L' & HL & Hp). specialize (IH _ Hp).
    cbn [List.filter] in *. destruct (Qle_bool a (ms ts)) eqn:E.
    + apply Qle_bool_iff in E. cbn [length] in *. rewrite count_S.
      destruct (length (List.filter (fun ts => Qle_bool a (ms ts)) log)) as [|n] eqn:En.
      * rewrite count_0. lra.
      * specialize (IH ltac:(lia)). lra.
    + specialize (IH Hn). lra.
Qed.

Lemma paced_window (L0 I J L a W : Q) (log : list float) :
  0 < I -> paced L0 I J L log ->
  (1 <= length (List.filter
                  (fun ts => Qle_bool a (ms ts) && negb (Qle_bool (a + W) (ms ts)))
                  log))%nat ->
  (count (length (List.filter
                    (fun ts => Qle_bool a (ms ts) && negb (Qle_bool (a + W) (ms ts)))
                    log))
   - 1) * I - J < W.
Proof.
  intros HI. revert L. induction log as [|ts log IH]; intros L Hp Hn.
  - cbn in Hn. lia.
  - pose proof Hp as (H1 & H2 & L' & HL & Hp').
    cbn [List.filter] in *.
    destruct (Qle_bool a (ms ts) && negb (Qle_bool (a + W) (ms ts))) eqn:E.
    + apply andb_true_iff in E as [Ea Eb].
      assert (Hlt : ms ts < a + W).
      { apply Qnot_le_lt. intros C. apply Qle_bool_iff in C.
        rewrite C in Eb. discriminate. }
      assert (Hm : (1 <= length (List.filter (fun ts => Qle_bool a (ms ts))
                                   (ts :: log)))%nat)
        by (cbn [List.filter]; rewrite Ea; cbn; lia).
      pose proof (paced_since L0 I J L a (ts :: log) HI Hp Hm) as HA.
      pose proof (filter_and_length (fun ts => Qle_bool a (ms ts))
                    (fun ts => negb (Qle_bool (a + W) (ms ts))) (ts :: log)) as Hle.
      cbn [List.filter] in Hle, HA. rewrite Ea in Hle, HA. rewrite Eb in Hle.
      cbn [andb] in Hle. apply count_le in Hle.
      set (n := count (length (ts :: List.filter _ log))) in *.
      set (m := count (length (ts :: List.filter _ log))) in *.
      nra.
    + apply (IH _ Hp' Hn).
Qed.

Lemma paced_upto (L0 I J L T : Q) (log : list float) :
  0 < I -> paced L0 I J L log ->
  (1 <= length (List.filter (fun ts => Qle_bool (ms ts) T) log))%nat ->
  L0 + count (length (List.filter (fun ts => Qle_bool (ms ts) T) log)) * I <= T.
Proof.
  intros HI. revert L. induction log as [|ts log IH]; intros L Hp Hn.
  - cbn in Hn. lia.
  - pose proof Hp as (H1 & H2 & L' & HL & Hp').
    cbn [List.filter] in *. destruct (Qle_bool (ms ts) T) eqn:E.
    + apply Qle_bool_iff in E.
      pose proof (paced_length L0 I J L (ts :: log) HI Hp) as HD.
      pose proof (filter_length_le (fun ts => Qle_bool (ms ts) T) log) as Hle.
      assert (Hc : count (length (ts :: List.filter (fun ts => Qle_bool (ms ts) T) log))
                   <= count (length (ts :: log)))
        by (apply count_le; cbn; lia).
      set (n := count (length (ts :: List.filter _ log))) in *.
      set (m := count (length (ts :: log))) in *.
      nra.
    + apply (IH _ Hp' Hn).
Qed.

Lemma interval_value (F : float) (f : Z) :
  has_value F (units f) -> (1 <= f <= 1000)%Z ->
  (exists vI, has_value (1000 / F)%float vI) /\
  1 <= ms (1000 / F)%float /\
  1000 <= ms (1000 / F)%float * inject_Z f + (1 # 8796093022208) * inject_Z f.
Proof.
  intros HF Hf.
  destruct (interval_units F f HF Hf) as (vI & Hv & Hdn & Hlow).
  pose proof (pow2_pos B64.bias ltac:(now rewrite bias_val)) as PB.
  split; [now exists vI|]. rewrite (ms_value _ _ Hv).
  apply of_units_le in Hlow, Hdn.
  rewrite of_units_add, !of_units_mul, of_units_units in Hlow.
  rewrite of_units_units in Hdn.
  assert (E43 : of_units (2 ^ (B64.bias - 43)) == 1 # 8796093022208).
  { unfold of_units. rewrite (Qmake_Qdiv 1 8796093022208).
    apply Qdiv_inject; [exact PB|reflexivity|].
    change (Z.pos 8796093022208) with (2 ^ 43)%Z.
    rewrite <- Z.pow_add_r by (rewrite ?bias_val; lia).
    rewrite Z.mul_1_l. f_equal; rewrite bias_val; lia. }
  rewrite E43 in Hlow. change (inject_Z 1000) with 1000 in Hlow.
  change (inject_Z 1) with 1 in Hdn.
  set (x := of_units _) in *. clearbody x. split; lra.
Qed.

End Pacing.

Lemma slack_40 (K : Z) : 0 <= K <= 40 -> (slack K <= 1 # 4096)%Q.
Proof.
  intros HK. assert (E : (1 # 4096 == slack 40)%Q) by reflexivity.
  rewrite E. unfold slack, Qdiv. apply Qmult_le_compat_r; [|discriminate].
  rewrite <- Zle_Qle. apply Z.pow_le_mono_r; lia.
Qed.

(** *** The throttle *)

Section Throttle.

Import Loop.
Local Open Scope Q_scope.

(** The arithmetic behind the bound for a whole target rate. *)
Lemma window_count (I f n eps : Q) :
  1 <= f -> f <= 1000 -> 0 < eps -> eps <= 1 # 4096 -> eps < I ->
  1000 <= I * f + (1 # 8796093022208) * f ->
  (n - 2) * (I - eps) < 1000 + 2 * eps ->
  n < f + 3.
Proof.
  intros F1 F2 E0 E1 EI HI HW.
  destruct (Qlt_le_dec n (f + 3)) as [C|C]; [exact C|exfalso].
  assert (A : (f + 1) * (I - eps) < 1000 + 2 * eps).
  { apply Qle_lt_trans with ((n - 2) * (I - eps)); [|exact HW].
    apply Qmult_le_compat_r; lra. }
  assert (B : f * ((f + 1) * (I - eps)) < f * (1000 + 2 * eps))
    by (apply Qmult_lt_l; lra).
  assert (D : (f + 1) * 1000 <= (f + 1) * (I * f + (1 # 8796093022208) * f))
    by (apply Qmult_le_l; lra).
  assert (Z1 : 0 <= f * eps) by (apply Qmult_le_0_compat; lra).
  assert (P1 : f * f <= 1000 * f) by (apply Qmult_le_compat_r; lra).
  assert (P2 : f * eps <= 1000 * (1 # 4096)).
  { apply Qle_trans with (1000 * eps).
    - apply Qmult_le_compat_r; lra.
    - apply Qmult_le_l; lra. }
  assert (P3 : f * (f * eps) <= 1000 * (f * eps))
    by (apply Qmult_le_compat_r; lra).
  assert (E1' : f * ((f + 1) * (I - eps))
                == I * f * f + I * f - f * (f * eps) - f * eps) by ring.
  assert (E2' : (f + 1) * (I * f + (1 # 8796093022208) * f)
                == I * f * f + I * f + (1 # 8796093022208) * (f * f) + (1 # 8796093022208) * f)
    by ring.
  assert (E3' : f * (1000 + 2 * eps) == 1000 * f + 2 * (f * eps)) by ring.
  rewrite E1', E3' in B. rewrite E2' in D.
  set (x := I * f * f) in *. set (y := I * f) in *. set (z := f * eps) in *.
  set (w := f * z) in *. set (v := f * f) in *.
  clearbody x y z w v. lra.
Qed.

Lemma cons_not_self {A : Type} (x : A) (l : list A) : x :: l <> l.
Proof. intros H. apply (f_equal (@length A)) in H. cbn in H. lia. Qed.

(** C7, as the code has it.  Timestamps are Numbers below [2^K]
    milliseconds, the frame interval is the Number [I] the engine stores
    ([1000 / targetFps] rounded), and [slack K] is [2^(K-52)] ms.  However
    often the refresh callback fires, [n] frames processed by time [T] means
    [n] intervals less the slack have elapsed since [lastFrameTime], and a
    window of one second holds [n] processed frames with
    [(n - 2) (I - slack) < 1000 + 2 slack]: at most [F + 2] for a whole
    target rate [F] up to 1000 and timestamps below [2^40].  A callback
    processes at most one frame (skipped frames are not queued); it does
    when a full interval has elapsed, and only when an interval less the
    slack has; [lastFrameTime] then moves forward by at least that much and
    ends less than an interval and the slack before the timestamp, so that
    no more than that is carried over. *)
Theorem animate_throttle (K : Z) (e : t) (ts : list float) :
  (0 <= K)%Z -> isPlaying e = true -> frames e = [] ->
  below K (lastFrameTime e) -> Forall (below K) ts ->
  (exists vI, has_value (frameInterval e) vI) ->
  slack K < ms (frameInterval e) ->
  (forall a,
     (count (framesWithin a (run ts e)) - 2) * (ms (frameInterval e) - slack K)
     < 1000 + 2 * slack K) /\
  (forall T, (1 <= framesUpTo T (run ts e))%nat ->
     ms (lastFrameTime e)
     + count (framesUpTo T (run ts e)) * (ms (frameInterval e) - slack K) <= T) /\
  (forall options f a,
     (K <= 40)%Z -> frameInterval e = frameInterval (construct options) ->
     has_value (targetFps (construct options)) (units f) -> (1 <= f <= 1000)%Z ->
     (framesWithin a (run ts e) <= Z.to_nat f + 2)%nat) /\
  (forall timestamp e1,
     frames (_animate timestamp e1) = frames e1 \/
     frames (_animate timestamp e1) = timestamp :: frames e1) /\
  (forall timestamp e1,
     isPlaying e1 = true -> below K timestamp ->
     (exists vL, has_value (lastFrameTime e1) vL) ->
     (exists vI, has_value (frameInterval e1) vI /\ (0 < vI)%Z) ->
     (ms (lastFrameTime e1) + ms (frameInterval e1) <= ms timestamp ->
      frames (_animate timestamp e1) = timestamp :: frames e1) /\
     (frames (_animate timestamp e1) = timestamp :: frames e1 ->
      ms (lastFrameTime e1) + (ms (frameInterval e1) - slack K) <= ms timestamp /\
      ms (lastFrameTime e1) + (ms (frameInterval e1) - slack K)
        <= ms (lastFrameTime (_animate timestamp e1)) /\
      ms (lastFrameTime (_animate timestamp e1)) <= ms timestamp /\
      ms timestamp
        < ms (lastFrameTime (_animate timestamp e1))
          + (ms (frameInterval e1) + slack K))).
Proof.
  intros HK Hp Hfr HL Hts (vI & HI) Hslack.
  pose proof (slack_pos K HK) as S0.
  assert (HI0 : (0 < vI)%Z).
  { apply of_units_lt_inv. rewrite <- (ms_value _ _ HI).
    change (of_units 0) with (0 / inject_Z (2 ^ B64.bias)).
    unfold Qdiv. rewrite Qmult_0_l. lra. }
  assert (Hstart : paced (ms (lastFrameTime e)) (ms (frameInterval e) - slack K)
                     (ms (frameInterval e) + slack K) (ms (lastFrameTime e))
                     (frames e)) by (rewrite Hfr; cbn; lra).
  pose proof (run_paced K _ vI ts e HK Hp HI HI0 HL Hts Hstart) as Hpaced.
  assert (Hadv : 0 < ms (frameInterval e) - slack K) by lra.
  assert (HW : forall a,
     (count (framesWithin a (run ts e)) - 2) * (ms (frameInterval e) - slack K)
     < 1000 + 2 * slack K).
  { intros a. unfold framesWithin.
    destruct (length (List.filter _ (frames (run ts e)))) as [|n] eqn:En.
    - rewrite count_0. set (I := ms (frameInterval e)) in *. nra.
    - pose proof (paced_window _ _ _ _ a 1000 _ Hadv Hpaced) as H.
      rewrite En in H. specialize (H ltac:(lia)).
      set (c := count (S n)) in *. set (I := ms (frameInterval e)) in *. nra. }
  split; [exact HW|]. split; [|split; [|split]].
  - intros T Hn. unfold framesUpTo in *.
    exact (paced_upto _ _ _ _ T _ Hadv Hpaced Hn).
  - intros options f a HK40 EI HF Hf.
    destruct (interval_value _ f HF Hf) as (_ & I1 & I2).
    change (1000 / targetFps (construct options))%float
      with (frameInterval (construct options)) in I1, I2.
    specialize (HW a). rewrite EI in HW, Hslack.
    pose proof (slack_40 K ltac:(lia)) as S40.
    assert (F1 : 1 <= inject_Z f) by (change 1 with (inject_Z 1); rewrite <- Zle_Qle; lia).
    assert (F2 : inject_Z f <= 1000)
      by (change 1000 with (inject_Z 1000); rewrite <- Zle_Qle; lia).
    pose proof (window_count _ _ _ _ F1 F2 S0 S40 Hslack I2 HW) as Hn.
    unfold count in Hn. change 3 with (inject_Z 3) in Hn.
    rewrite <- inject_Z_plus, <- Zlt_Qlt in Hn. lia.
  - intros timestamp e1. unfold _animate.
    destruct (isPlaying e1); cbn [negb]; [|now left].
    destruct (_ <=? _)%float; cbn; auto.
  - intros timestamp e1 Hp1 (vt & Ht & Bt) (vL & HL1) (vI1 & HI1 & HI10).
    rewrite (ms_value _ _ Ht), (ms_value _ _ HL1), (ms_value _ _ HI1).
    unfold _animate. rewrite Hp1. cbn [negb]. split.
    + intros H. rewrite <- of_units_add in H. apply of_units_le_inv in H.
      rewrite (elapsed_test_true _ _ _ vI1 vL vt HI1 HL1 Ht H). reflexivity.
    + destruct (frameInterval e1 <=? timestamp - lastFrameTime e1)%float eqn:E.
      * intros _.
        destruct (elapsed_test_frame K _ _ _ vI1 vL vt HK HI1 HI10 HL1 Ht Bt E)
          as (_ & _ & vL' & HL' & H1 & H2 & H3).
        destruct (frame_bounds K vI1 vL vt vL' HK H1 H2 H3) as (Q1 & Q2 & Q3).
        cbn. rewrite (ms_value _ _ HL'). repeat split; lra.
      * cbn. intros C. symmetry in C. now apply cons_not_self in C.
Qed.

Lemma animate_throttle_witness :
  (framesWithin 499 (run sampleTimestamps sampleLoop) <= 6)%nat /\
  ms 0 + count (framesUpTo 1000 (run sampleTimestamps sampleLoop))
           * (ms 250 - slack 40) <= 1000.
Proof.
  destruct (animate_throttle 40 sampleLoop sampleTimestamps) as (_ & H2 & H3 & _).
  - lia.
  - reflexivity.
  - reflexivity.
  - eexists. split; [split; reflexivity|vm_compute; reflexivity].
  - repeat (apply Forall_cons; split;
            [eexists; split; [split; reflexivity|vm_compute; reflexivity]|]).
    apply Forall_nil. trivial.
  - eexists. split; reflexivity.
  - vm_compute. reflexivity.
  - split.
    + apply (H3 (Some 4%float) 4%Z 499); [lia|reflexivity|split; reflexivity|lia].
    + apply (H2 1000). vm_compute. lia.
Defined.

(** At 4 frames per second, refresh callbacks at 499, 500, 750, 1000 and
    1250 ms after [play()] each process a frame: five frames within the
    751 ms from 499 to 1250, hence within one second. *)
Lemma animate_window_counterexample :
  targetFps sampleLoop = 4%float /\
  frameInterval sampleLoop = 250%float /\
  frames (run sampleTimestamps sampleLoop)
    = [1250; 1000; 750; 500; 499]%float /\
  ~ (framesWithin 499 (run sampleTimestamps sampleLoop) <= 4)%nat.
Proof.
  split; [reflexivity|]. split; [reflexivity|]. split; [reflexivity|].
  vm_compute. lia.
Qed.

(** Rounding at work.  At 3 frames per second the stored interval lies
    below [1000 / 3], and a callback at that Number processes a frame.  At
    4 frames per second with [play()] at 0.1 ms, a callback at 250.1 ms
    comes less than a full interval later and processes a frame all the
    same: the difference rounds to 250. *)
Lemma animate_rounding_samples :
  frameInterval (construct (Some 3%float)) = 333.33333333333331%float /\
  ms 333.33333333333331 < 1000 / 3 /\
  frames (run [333.33333333333331%float] (resume 0 0 (construct (Some 3%float))))
    = [333.33333333333331%float] /\
  ms 250.1 < ms 0.1 + ms 250 /\
  (250.1 - 0.1 = 250)%float /\
  frames (run [250.1%float] lateLoop) = [250.1%float].
Proof. repeat split; vm_compute; reflexivity. Qed.

(** The bound [F + 2] is reached.  At 4 frames per second with [play()] at
    0.1 ms, the callbacks of [lateTimestamps] each process a frame: six
    frames, the last of them less than 1000 ms after the first. *)
Lemma animate_window_reached :
  frames (run lateTimestamps lateLoop) = rev lateTimestamps /\
  framesWithin (ms 500.09999999999997) (run lateTimestamps lateLoop) = 6%nat /\
  ms 1500.1 < ms 500.09999999999997 + 1000.
Proof. split; [reflexivity|]. split; vm_compute; reflexivity. Qed.

End Throttle.

(** ** NaN and [undefined] *)

Lemma Prim2SF_nan l : Prim2SF l = S754_nan -> l = nan.
Proof. intros H. apply Prim2SF_inj. now rewrite H. Qed.

Lemma is_nan_spec l : is_nan l = true <-> Prim2SF l = S754_nan.
Proof.
  split.
  - intros H. destruct (Prim2SF l) eqn:E; try reflexivity;
      rewrite is_nan_false in H by (rewrite E; discriminate); discriminate.
  - intros H. now rewrite (Prim2SF_nan l H).
Qed.

Lemma mul_nan_l x : (nan * x)%float = nan.
Proof.
  apply Prim2SF_inj. rewrite FloatAxioms.mul_spec.
  change (Prim2SF nan) with S754_nan. now destruct (Prim2SF x).
Qed.

Lemma sub_nan_r x : (x - nan)%float = nan.
Proof.
  apply Prim2SF_inj. rewrite FloatAxioms.sub_spec.
  change (Prim2SF nan) with S754_nan. now destruct (Prim2SF x) as [[]|[]| |[]].
Qed.

Lemma rampIndex_nan len invert : rampIndex nan len invert = nan.
Proof.
  unfold rampIndex.
  change (Math_max 0 (Math_min 255 nan)) with nan.
  change (nan / 255)%float with nan. rewrite mul_nan_l.
  change (Math_floor nan) with nan.
  assert (H : forall y, Math_min nan y = nan) by reflexivity.
  rewrite H. destruct invert; [apply sub_nan_r|reflexivity].
Qed.

Lemma num_of_Z_not_nan n : 0 <= n < 2 ^ 53 -> Prim2SF (num_of_Z n) <> S754_nan.
Proof.
  intros Hn E. destruct (num_of_Z_value n Hn) as [N _].
  rewrite E in N. discriminate.
Qed.

(** Whatever the ramp, a luminance that is a Number yields one character. *)
Lemma charForLuminance_single (characters : jsstring) (l : float) (invert : bool) :
  Z.of_nat (length characters) < 2 ^ 53 -> Prim2SF l <> S754_nan ->
  exists c, charForLuminance l characters invert = Some [c] /\
            (characters = [] -> c = 32) /\
            (characters <> [] -> c ∈ characters).
Proof.
  intros Hlen Hn.
  destruct characters as [|c0 [|c1 rest]] eqn:E.
  - exists 32. split; [reflexivity|]. split; [reflexivity|congruence].
  - exists c0. split; [reflexivity|]. split; [congruence|]. intros _. apply list_elem_of_here.
  - rewrite <- E in *.
    assert (H2 : 2 <= Z.of_nat (length characters) < 2 ^ 53)
      by (split; [rewrite E; cbn [length]; lia|exact Hlen]).
    destruct (charForLuminance_index characters l invert H2 Hn) as (Bi & _ & C).
    cbv zeta in *.
    set (j := if invert then _ else _) in *.
    assert (Hj : (Z.to_nat j < length characters)%nat)
      by (unfold j; destruct invert; lia).
    destruct (lookup_lt_is_Some_2 characters _ Hj) as [c Hc].
    exists c. rewrite C, Hc. split; [reflexivity|].
    split; [rewrite E; discriminate|]. intros _. eapply list_elem_of_lookup_2, Hc.
Qed.

(** X1.  For a ramp of at least two characters, [charForLuminance]
    returns [undefined] exactly when the luminance is NaN; for every other
    Number, the infinities included, it returns one character of the
    ramp. *)
Theorem charForLuminance_undefined (characters : jsstring) (l : float)
    (invert : bool) :
  2 <= Z.of_nat (length characters) < 2 ^ 53 ->
  (charForLuminance l characters invert = None <-> is_nan l = true) /\
  (is_nan l = false ->
   exists c, c ∈ characters /\ charForLuminance l characters invert = Some [c]).
Proof.
  intros Hlen.
  assert (Hne : characters <> []) by (intros ->; cbn in Hlen; lia).
  assert (Hsome : Prim2SF l <> S754_nan ->
                  exists c, c ∈ characters /\
                            charForLuminance l characters invert = Some [c]).
  { intros Hn. destruct (charForLuminance_single characters l invert (proj2 Hlen) Hn)
      as (c & Hc & _ & Hin). exists c. split; [now apply Hin|exact Hc]. }
  split; [split|].
  - intros Hnone. apply is_nan_spec.
    destruct (Prim2SF l) eqn:E; try reflexivity;
      destruct Hsome as (c & _ & Hc); try discriminate; congruence.
  - intros Hnan. apply is_nan_spec, Prim2SF_nan in Hnan. subst l.
    unfold charForLuminance.
    destruct (length characters) as [|[|k]] eqn:E; [cbn in Hlen; lia|cbn in Hlen; lia|].
    cbn [Nat.eqb]. rewrite rampIndex_nan. reflexivity.
  - intros Hnan. apply Hsome. intros E. apply is_nan_spec in E. congruence.
Qed.

Lemma charForLuminance_undefined_witness :
  charForLuminance nan (str " .:-=+*#%@") false = None /\
  charForLuminance 128 (str " .:-=+*#%@") false = Some (str "+").
Proof.
  destruct (charForLuminance_undefined (str " .:-=+*#%@") nan false) as [H _];
    [simpl; lia|].
  split; [apply H; reflexivity|reflexivity].
Defined.

(** ** The shape of the character grids *)

Lemma fold_left_app_concat {A B : Type} (g : A -> list B) (l : list A)
    (acc : list B) :
  fold_left (fun row x => row ++ g x) l acc = acc ++ concat (g <$> l).
Proof.
  revert acc. induction l as [|a l IH]; intros acc; cbn.
  - now rewrite app_nil_r.
  - now rewrite IH, app_assoc.
Qed.

Lemma concat_singletons {A B : Type} (f : A -> B) (l : list A) :
  concat ((fun x => [f x]) <$> l) = f <$> l.
Proof. induction l as [|a l IH]; cbn; [reflexivity|now rewrite IH]. Qed.

Lemma luminance_byte (r g b : Z) :
  0 <= r <= 255 -> 0 <= g <= 255 -> 0 <= b <= 255 ->
  0 <= luminance r g b <= 255.
Proof.
  intros Hr Hg Hb. pose proof (luminance_near r g b Hr Hg Hb) as H.
  unfold weighted in H. lia.
Qed.

(** The colour bytes of a pixel of a well-formed image. *)
Lemma wf_pixel (σ : heap) (img : ImageData) (x y : nat) :
  wf_image σ img -> (x < width img)%nat -> (y < height img)%nat ->
  exists r g b,
    buffer σ img !! pixel_index (width img) x y = Some r /\
    buffer σ img !! (pixel_index (width img) x y + 1)%nat = Some g /\
    buffer σ img !! (pixel_index (width img) x y + 2)%nat = Some b /\
    0 <= r <= 255 /\ 0 <= g <= 255 /\ 0 <= b <= 255.
Proof.
  intros (d & Hd & Hlen & Hw & Hh & Hb) Hx Hy.
  unfold buffer. rewrite Hd. cbn [default].
  pose proof (pixel_index_bound _ _ _ _ Hx Hy) as Hi.
  rewrite <- Hlen in Hi.
  destruct (lookup_lt_is_Some_2 d (pixel_index (width img) x y) ltac:(lia)) as [r Er].
  destruct (lookup_lt_is_Some_2 d (pixel_index (width img) x y + 1) ltac:(lia)) as [g Eg].
  destruct (lookup_lt_is_Some_2 d (pixel_index (width img) x y + 2) ltac:(lia)) as [b Eb].
  exists r, g, b. rewrite Forall_lookup in Hb.
  repeat split; try assumption; eapply (Hb _ _); eassumption.
Qed.

(** The luminance [mapLuminance] computes at a pixel of a well-formed
    image is a byte. *)
Lemma wf_pixel_luminance (σ : heap) (img : ImageData) (x y : nat) :
  wf_image σ img -> (x < width img)%nat -> (y < height img)%nat ->
  let d := buffer σ img in
  let i := pixel_index (width img) x y in
  exists l, 0 <= l <= 255 /\
    calculateLuminance (arr_get d i) (arr_get d (i + 1)) (arr_get d (i + 2))
    = num_of_Z l.
Proof.
  intros Hwf Hx Hy d i.
  destruct (wf_pixel σ img x y Hwf Hx Hy) as (r & g & b & Er & Eg & Eb & Hr & Hg & Hb).
  exists (luminance r g b). split; [now apply luminance_byte|].
  unfold arr_get, d, i. rewrite Er, Eg, Eb.
  now apply luminance_cases.
Qed.

(** [mapLuminance] as a grid, cell by cell. *)
Lemma mapLuminance_grid (σ : heap) (img : ImageData) (characters : jsstring)
    (invert : bool) :
  mapLuminance σ img characters invert =
    (fun y => concat ((fun x =>
       let d := buffer σ img in
       let i := pixel_index (width img) x y in
       default (str "undefined")
         (charForLuminance
            (calculateLuminance (arr_get d i) (arr_get d (i + 1)) (arr_get d (i + 2)))
            characters invert)) <$> seq 0 (width img)))
    <$> seq 0 (height img).
Proof.
  unfold mapLuminance. unfold str_append.
  rewrite (fold_left_snoc (fun y => fold_left _ (seq 0 (width img)) [])).
  cbn [app]. apply list_fmap_ext. intros _ y _.
  now rewrite (fold_left_app_concat (fun x => default (str "undefined") _)).
Qed.

(** What one pixel of a well-formed image contributes to its row. *)
Lemma luminance_cell (σ : heap) (img : ImageData) (characters : jsstring)
    (invert : bool) (x y : nat) :
  wf_image σ img -> Z.of_nat (length characters) < 2 ^ 53 ->
  (x < width img)%nat -> (y < height img)%nat ->
  exists c l,
    default (str "undefined")
      (charForLuminance
         (calculateLuminance
            (arr_get (buffer σ img) (pixel_index (width img) x y))
            (arr_get (buffer σ img) (pixel_index (width img) x y + 1))
            (arr_get (buffer σ img) (pixel_index (width img) x y + 2)))
         characters invert) = [c] /\
    (characters = [] -> c = 32) /\ (characters <> [] -> c ∈ characters) /\
    0 <= l <= 255 /\
    calculateLuminance
      (arr_get (buffer σ img) (pixel_index (width img) x y))
      (arr_get (buffer σ img) (pixel_index (width img) x y + 1))
      (arr_get (buffer σ img) (pixel_index (width img) x y + 2))
    = num_of_Z l /\
    charForLuminance (num_of_Z l) characters invert = Some [c].
Proof.
  intros Hwf Hlen Hx Hy.
  destruct (wf_pixel_luminance σ img x y Hwf Hx Hy) as (l & Hl & El).
  destruct (charForLuminance_single characters (num_of_Z l) invert Hlen)
    as (c & Hc & He & Hin); [apply num_of_Z_not_nan; lia|].
  exists c, l. cbv zeta in *. rewrite El, Hc. cbn [default].
  repeat split; try assumption; try reflexivity; lia.
Qed.

(** A row of [mapLuminance] on a well-formed image: one character per
    pixel. *)
Lemma luminance_row (σ : heap) (img : ImageData) (characters : jsstring)
    (invert : bool) (y : nat) :
  wf_image σ img -> Z.of_nat (length characters) < 2 ^ 53 ->
  (y < height img)%nat ->
  exists f : nat -> Z,
    concat ((fun x =>
       default (str "undefined")
         (charForLuminance
            (calculateLuminance
               (arr_get (buffer σ img) (pixel_index (width img) x y))
               (arr_get (buffer σ img) (pixel_index (width img) x y + 1))
               (arr_get (buffer σ img) (pixel_index (width img) x y + 2)))
            characters invert)) <$> seq 0 (width img))
    = f <$> seq 0 (width img) /\
    forall x, (x < width img)%nat ->
      default (str "undefined")
        (charForLuminance
           (calculateLuminance
              (arr_get (buffer σ img) (pixel_index (width img) x y))
              (arr_get (buffer σ img) (pixel_index (width img) x y + 1))
              (arr_get (buffer σ img) (pixel_index (width img) x y + 2)))
           characters invert) = [f x].
Proof.
  intros Hwf Hlen Hy.
  exists (fun x =>
    default 0 (head (default (str "undefined")
      (charForLuminance
         (calculateLuminance
            (arr_get (buffer σ img) (pixel_index (width img) x y))
            (arr_get (buffer σ img) (pixel_index (width img) x y + 1))
            (arr_get (buffer σ img) (pixel_index (width img) x y + 2)))
         characters invert)))).
  split.
  - etransitivity; [|apply concat_singletons]. f_equal. apply list_fmap_ext.
    intros i x Hix. apply lookup_seq in Hix as [-> Hi].
    change (0 + i)%nat with i.
    destruct (luminance_cell σ img characters invert i y Hwf Hlen Hi Hy)
      as (c & l & Hc & _).
    now rewrite Hc.
  - intros x Hx.
    destruct (luminance_cell σ img characters invert x y Hwf Hlen Hx Hy)
      as (c & l & Hc & _).
    now rewrite Hc.
Qed.

Lemma mapLuminance_dims (σ : heap) (img : ImageData) (characters : jsstring)
    (invert : bool) :
  wf_image σ img -> Z.of_nat (length characters) < 2 ^ 53 ->
  length (mapLuminance σ img characters invert) = height img /\
  Forall (fun row => length row = width img)
    (mapLuminance σ img characters invert).
Proof.
  intros Hwf Hlen. rewrite mapLuminance_grid.
  split; [now rewrite length_fmap, length_seq|].
  apply Forall_fmap, Forall_forall. intros y Hy.
  apply elem_of_seq in Hy. unfold compose.
  destruct (luminance_row σ img characters invert y Hwf Hlen ltac:(lia))
    as (f & E & _).
  cbv beta zeta. etransitivity; [exact (f_equal length E)|].
  now rewrite length_fmap, length_seq.
Qed.

(** The character at a cell of [mapLuminance] on a well-formed image. *)
Lemma mapLuminance_cell (σ : heap) (img : ImageData) (characters : jsstring)
    (invert : bool) (x y : nat) :
  wf_image σ img -> Z.of_nat (length characters) < 2 ^ 53 ->
  (x < width img)%nat -> (y < height img)%nat ->
  exists c l,
    cell (mapLuminance σ img characters invert) x y = Some c /\
    (characters = [] -> c = 32) /\ (characters <> [] -> c ∈ characters) /\
    0 <= l <= 255 /\
    calculateLuminance
      (arr_get (buffer σ img) (pixel_index (width img) x y))
      (arr_get (buffer σ img) (pixel_index (width img) x y + 1))
      (arr_get (buffer σ img) (pixel_index (width img) x y + 2))
    = num_of_Z l /\
    charForLuminance (num_of_Z l) characters invert = Some [c].
Proof.
  intros Hwf Hlen Hx Hy.
  destruct (luminance_cell σ img characters invert x y Hwf Hlen Hx Hy)
    as (c & l & Hc & Hrest).
  exists c, l. split; [|exact Hrest].
  unfold cell. rewrite mapLuminance_grid.
  rewrite list_lookup_fmap, lookup_seq_lt by assumption.
  cbn [fmap option_fmap option_map].
  destruct (luminance_row σ img characters invert y Hwf Hlen Hy) as (f & E & Hf).
  change (0 + y)%nat with y. cbv beta zeta in E |- *. rewrite E.
  rewrite list_lookup_fmap, lookup_seq_lt by assumption. cbn.
  specialize (Hf x Hx). congruence.
Qed.

(** X2.  On a well-formed image [mapLuminance] returns one line per pixel
    row and one character per pixel.  The character of pixel [(x, y)] is
    the one [charForLuminance] gives for the luminance of the pixel, an
    integer from 0 to 255; it belongs to the ramp, and is a space when the
    ramp is empty. *)
Theorem mapLuminance_shape (σ : heap) (img : ImageData) (characters : jsstring)
    (invert : bool) :
  wf_image σ img -> Z.of_nat (length characters) < 2 ^ 53 ->
  let rows := mapLuminance σ img characters invert in
  length rows = height img /\
  Forall (fun row => length row = width img) rows /\
  forall x y, (x < width img)%nat -> (y < height img)%nat ->
    exists c l,
      cell rows x y = Some c /\
      (characters = [] -> c = 32) /\ (characters <> [] -> c ∈ characters) /\
      0 <= l <= 255 /\
      calculateLuminance
        (arr_get (buffer σ img) (pixel_index (width img) x y))
        (arr_get (buffer σ img) (pixel_index (width img) x y + 1))
        (arr_get (buffer σ img) (pixel_index (width img) x y + 2))
      = num_of_Z l /\
      charForLuminance (num_of_Z l) characters invert = Some [c].
Proof.
  intros Hwf Hlen rows.
  destruct (mapLuminance_dims σ img characters invert Hwf Hlen) as [Hh Hw].
  split; [exact Hh|]. split; [exact Hw|].
  intros x y Hx Hy. now apply mapLuminance_cell.
Qed.

Lemma mapLuminance_shape_witness :
  length (mapLuminance sampleHeap sampleImage (str " .:-=+*#%@") true) = 4%nat /\
  cell (mapLuminance sampleHeap sampleImage (str " .:-=+*#%@") true) 3 2 = Some 32.
Proof.
  destruct (mapLuminance_shape sampleHeap sampleImage (str " .:-=+*#%@") true
              sampleImage_wf ltac:(simpl; lia)) as (Hl & _ & _).
  split; [exact Hl|reflexivity].
Defined.

Lemma bit_bounds (b : bool) : 0 <= bit b <= 1.
Proof. destruct b; cbn; lia. Qed.

Lemma brailleGlyph_range (dot : nat -> nat -> bool) :
  0x2800 <= brailleGlyph dot <= 0x28FF.
Proof.
  unfold brailleGlyph.
  pose proof (bit_bounds (dot 0 0)%nat). pose proof (bit_bounds (dot 1 0)%nat).
  pose proof (bit_bounds (dot 0 1)%nat). pose proof (bit_bounds (dot 1 1)%nat).
  pose proof (bit_bounds (dot 0 2)%nat). pose proof (bit_bounds (dot 1 2)%nat).
  pose proof (bit_bounds (dot 0 3)%nat). pose proof (bit_bounds (dot 1 3)%nat).
  lia.
Qed.

(** X3.  For every image and threshold [encodeBraille] returns
    [ceil(height / 4)] lines of [ceil(width / 2)] characters, each a braille
    pattern from U+2800 to U+28FF. *)
Theorem encodeBraille_shape (σ : heap) (img : ImageData) (threshold : float) :
  let rows := encodeBraille σ img threshold in
  length rows = ceil_div (height img) 4 /\
  Forall (fun row =>
    length row = ceil_div (width img) 2 /\
    Forall (fun c => 0x2800 <= c <= 0x28FF) row) rows.
Proof.
  cbv zeta. rewrite encodeBraille_grid.
  split; [now rewrite length_fmap, length_seq|].
  apply Forall_fmap, Forall_forall. intros cy _. unfold compose.
  split; [now rewrite length_fmap, length_seq|].
  apply Forall_fmap, Forall_forall. intros cx _. unfold compose.
  pose proof (braillePattern_bits (buffer σ img) (width img) (height img)
                threshold cx cy) as H.
  cbv zeta in H. rewrite H. apply brailleGlyph_range.
Qed.

(** X4.  For every image and threshold [encodeBlocks] returns
    [ceil(height / 2)] lines of [ceil(width / 2)] characters, each one of
    the sixteen quadrant glyphs. *)
Theorem encodeBlocks_shape (σ : heap) (img : ImageData) (threshold : float) :
  let rows := encodeBlocks σ img threshold in
  length rows = ceil_div (height img) 2 /\
  Forall (fun row =>
    length row = ceil_div (width img) 2 /\
    Forall (fun c => c ∈ QUADRANT_CHARS) row) rows.
Proof.
  cbv zeta. rewrite encodeBlocks_grid.
  split; [now rewrite length_fmap, length_seq|].
  apply Forall_fmap, Forall_forall. intros cy _. unfold compose.
  split; [now rewrite length_fmap, length_seq|].
  apply Forall_fmap, Forall_forall. intros cx _. unfold compose.
  destruct (blockPattern_bits (buffer σ img) (width img) (height img)
              threshold cx cy) as [_ [c Hc]].
  rewrite Hc. cbn [default]. eapply list_elem_of_lookup_2, Hc.
Qed.

(** ** The unified mapping *)

Lemma ceil_div_1 n : ceil_div n 1 = n.
Proof. unfold ceil_div. rewrite Nat.add_sub. apply Nat.div_1_r. Qed.

Lemma mapToCharacters_dims (σ : heap) (img : ImageData) (name : string)
    (options : Options) :
  wf_image σ img ->
  exists rows,
    mapToCharacters σ img name options = Some rows /\
    length rows = ceil_div (height img) (cellHeight name) /\
    Forall (fun row => length row = ceil_div (width img) (cellWidth name)) rows /\
    (own name CHAR_SETS = None ->
     rows = mapLuminance σ img (str " .:-=+*#%@")
              (default false (opt_invert options))).
Proof.
  intros Hwf.
  assert (Hlum : forall characters invert,
    Z.of_nat (length characters) < 2 ^ 53 ->
    length (mapLuminance σ img characters invert) = ceil_div (height img) 1 /\
    Forall (fun row => length row = ceil_div (width img) 1)
      (mapLuminance σ img characters invert)).
  { intros characters invert Hlen. rewrite !ceil_div_1.
    now apply mapLuminance_dims. }
  unfold mapToCharacters, CHAR_SETS_get, cellWidth, cellHeight.
  cbn [own CHAR_SETS].
  destruct (String.eqb_spec name "simple") as [->|N1].
  { cbn -[encodeBlocks encodeBraille mapLuminance ceil_div]. eexists. split; [reflexivity|].
    split; [|split; [|discriminate]]; apply Hlum; cbn; lia. }
  destruct (String.eqb_spec name "standard") as [->|N2].
  { cbn -[encodeBlocks encodeBraille mapLuminance ceil_div]. eexists. split; [reflexivity|].
    split; [|split; [|discriminate]]; apply Hlum; cbn; lia. }
  destruct (String.eqb_spec name "blocks") as [->|N3].
  { cbn -[encodeBlocks encodeBraille mapLuminance ceil_div]. eexists. split; [reflexivity|].
    split; [|split; [|discriminate]]; apply Hlum; cbn; lia. }
  destruct (String.eqb_spec name "quadrants") as [->|N4].
  { cbn -[encodeBlocks encodeBraille mapLuminance ceil_div]. eexists. split; [reflexivity|]. rewrite encodeBlocks_grid.
    split; [now rewrite length_fmap, length_seq|]. split; [|discriminate].
    apply Forall_fmap, Forall_forall. intros cy _. unfold compose.
    now rewrite length_fmap, length_seq. }
  destruct (String.eqb_spec name "braille") as [->|N5].
  { cbn -[encodeBlocks encodeBraille mapLuminance ceil_div]. eexists. split; [reflexivity|]. rewrite encodeBraille_grid.
    split; [now rewrite length_fmap, length_seq|]. split; [|discriminate].
    apply Forall_fmap, Forall_forall. intros cy _. unfold compose.
    now rewrite length_fmap, length_seq. }
  destruct (String.eqb_spec name "dense") as [->|N6].
  { cbn -[encodeBlocks encodeBraille mapLuminance ceil_div]. eexists. split; [reflexivity|].
    split; [|split; [|discriminate]]; apply Hlum; cbn; lia. }
  cbn [orb].
  destruct (existsb (String.eqb name) Object_prototype);
    cbn -[encodeBlocks encodeBraille mapLuminance ceil_div];
    (eexists; split; [reflexivity|]);
    (split; [|split; [|reflexivity]]); apply Hlum; cbn; lia.
Qed.

(** X5.  [mapToCharacters] on a well-formed image never throws, whatever
    the character-set name and the options: it returns a grid of
    [ceil(height / ch)] lines of [ceil(width / cw)] characters, the cell
    being 2 by 4 pixels for 'braille', 2 by 2 for 'quadrants' and 1 by 1
    otherwise.  A name that is none of the six sets, the inherited property
    names such as 'toString' included, gives the output of 'simple'. *)
Theorem mapToCharacters_total (σ : heap) (img : ImageData) (name : string)
    (options : Options) :
  wf_image σ img ->
  exists rows,
    mapToCharacters σ img name options = Some rows /\
    length rows = ceil_div (height img) (cellHeight name) /\
    Forall (fun row => length row = ceil_div (width img) (cellWidth name)) rows /\
    (~ In name ["simple"; "standard"; "blocks"; "quadrants"; "braille"; "dense"]%string ->
     mapToCharacters σ img name options
     = mapToCharacters σ img "simple" options).
Proof.
  intros Hwf.
  destruct (mapToCharacters_dims σ img name options Hwf) as (rows & E & Hh & Hw & Hs).
  exists rows. split; [exact E|]. split; [exact Hh|]. split; [exact Hw|].
  intros Hnot. rewrite E, Hs; [reflexivity|].
  cbn [own CHAR_SETS].
  repeat match goal with
  | |- context [String.eqb name ?k] =>
      destruct (String.eqb_spec name k) as [->|?];
      [exfalso; apply Hnot; cbn; tauto|]
  end.
  reflexivity.
Qed.

Lemma mapToCharacters_total_witness :
  mapToCharacters sampleHeap sampleImage "toString" (mkOptions None None)
  = Some [str "@@@@"; str "@@@@"; str "@@@@"; str "@@@@"] /\
  mapToCharacters sampleHeap sampleImage "braille" (mkOptions None None)
  = Some [[0x28FF; 0x28FF]].
Proof.
  destruct (mapToCharacters_total sampleHeap sampleImage "toString"
              (mkOptions None None) sampleImage_wf) as (rows & E & _ & _ & H).
  split; [|reflexivity].
  rewrite H; [reflexivity|].
  intros [H0|[H0|[H0|[H0|[H0|[H0|[]]]]]]]; discriminate H0.
Defined.

(** ** Colour sampling of the renderers *)

(** X6.  The colour sample of the renderers stays inside the image: for
    every character of the lines [mapToCharacters] returns for a
    well-formed image, the index both renderers compute addresses the
    three colour bytes of a pixel of the array, so that no channel reads
    [undefined]. *)
Theorem sampling_in_bounds (σ : heap) (img : ImageData) (name : string)
    (options : Options) (rows : list jsstring) :
  wf_image σ img ->
  mapToCharacters σ img name options = Some rows ->
  forall x y line, rows !! y = Some line -> (x < length line)%nat ->
    let idx := sampleIndex name (width img) (height img) x y in
    exists r g b,
      data_at (buffer σ img) idx = Some r /\
      data_at (buffer σ img) (idx + 1) = Some g /\
      data_at (buffer σ img) (idx + 2) = Some b /\
      0 <= r <= 255 /\ 0 <= g <= 255 /\ 0 <= b <= 255.
Proof.
  intros Hwf E x y line Hy Hx.
  destruct (mapToCharacters_dims σ img name options Hwf) as (rows' & E' & Hh & Hw & _).
  assert (rows' = rows) by congruence. subst rows'.
  assert (Hyl : (y < ceil_div (height img) (cellHeight name))%nat)
    by (rewrite <- Hh; eapply lookup_lt_Some, Hy).
  assert (Hxl : (x < ceil_div (width img) (cellWidth name))%nat).
  { rewrite Forall_lookup in Hw. now rewrite <- (Hw _ _ Hy). }
  (* the sampled pixel lies in the image *)
  assert (Hp : exists px py, (px < width img)%nat /\ (py < height img)%nat /\
             sampleIndex name (width img) (height img) x y
             = Z.of_nat (pixel_index (width img) px py)).
  { destruct Hwf as (d & _ & _ & Hw0 & Hh0 & _).
    assert (Hidx : forall px py, 0 <= px < Z.of_nat (width img) ->
              0 <= py < Z.of_nat (height img) ->
              exists px' py', (px' < width img)%nat /\ (py' < height img)%nat /\
                (py * Z.of_nat (width img) + px) * 4
                = Z.of_nat (pixel_index (width img) px' py')).
    { intros px py Hpx Hpy. exists (Z.to_nat px), (Z.to_nat py).
      split; [lia|]. split; [lia|]. unfold pixel_index.
      rewrite Nat2Z.inj_mul, Nat2Z.inj_add, Nat2Z.inj_mul, !Z2Nat.id by lia.
      reflexivity. }
    unfold sampleIndex, cellWidth, cellHeight, ceil_div in *.
    destruct (String.eqb name "braille").
    - cbn [orb] in *. apply Hidx; lia.
    - cbn [orb] in *. destruct (String.eqb name "quadrants").
      + apply Hidx; lia.
      + rewrite !Nat.add_sub, !Nat.div_1_r in *. apply Hidx; lia. }
  destruct Hp as (px & py & Hpx & Hpy & ->).
  destruct (wf_pixel σ img px py Hwf Hpx Hpy) as (r & g & b & Er & Eg & Eb & Hr).
  exists r, g, b. unfold data_at.
  repeat match goal with
  | |- context [?a <? 0] => destruct (Z.ltb_spec a 0); [lia|]
  end.
  replace (Z.to_nat (Z.of_nat (pixel_index (width img) px py)))
    with (pixel_index (width img) px py) by lia.
  replace (Z.to_nat (Z.of_nat (pixel_index (width img) px py) + 1))
    with (pixel_index (width img) px py + 1)%nat by lia.
  replace (Z.to_nat (Z.of_nat (pixel_index (width img) px py) + 2))
    with (pixel_index (width img) px py + 2)%nat by lia.
  auto.
Qed.

Lemma sampling_in_bounds_witness :
  exists r g b,
    data_at (buffer sampleHeap sampleImage)
      (sampleIndex "braille" 4 4 1 0) = Some r /\
    data_at (buffer sampleHeap sampleImage)
      (sampleIndex "braille" 4 4 1 0 + 1) = Some g /\
    data_at (buffer sampleHeap sampleImage)
      (sampleIndex "braille" 4 4 1 0 + 2) = Some b /\
    0 <= r <= 255 /\ 0 <= g <= 255 /\ 0 <= b <= 255.
Proof.
  exact (sampling_in_bounds sampleHeap sampleImage "braille"
           (mkOptions None None) [[0x28FF; 0x28FF]] sampleImage_wf eq_refl
           1%nat 0%nat [0x28FF; 0x28FF] eq_refl ltac:(simpl; lia)).
Defined.

(** ** Markup written by [_renderToDom] *)

Lemma fmap_seq_lookup {A B : Type} (g : A -> B) (d : A) (l : list A) :
  (fun y => g (default d (l !! y))) <$> seq 0 (length l) = g <$> l.
Proof.
  apply list_eq. intros i. rewrite !list_lookup_fmap.
  destruct (l !! i) as [a|] eqn:E.
  - rewrite lookup_seq_lt by (eapply lookup_lt_Some, E). cbn. now rewrite E.
  - rewrite lookup_seq_ge by (apply lookup_ge_None, E). reflexivity.
Qed.

(** The uncoloured markup: every character escaped, a newline after every
    line. *)
Lemma renderToDom_plain (characterSet : string) (lines : list jsstring)
    (data : list Z) (w h : nat) :
  _renderToDom true false characterSet lines data w h
  = Some (concat ((fun line => concat (escapeHtml <$> line) ++ [10]) <$> lines)).
Proof.
  unfold _renderToDom. cbn [negb]. f_equal.
  rewrite (fold_left_ext _
    (fun html y => html ++ (concat (escapeHtml <$> default [] (lines !! y)) ++ [10]))).
  - rewrite fold_left_app_concat. cbn [app].
    now rewrite (fmap_seq_lookup (fun line => concat (escapeHtml <$> line) ++ [10])).
  - intros html y _. cbv zeta.
    rewrite (fold_left_app_concat
               (fun x => escapeHtml (default 0 (default [] (lines !! y) !! x)))).
    rewrite (fmap_seq_lookup escapeHtml 0). now rewrite app_assoc.
Qed.

Lemma escapeHtml_safe (c : Z) : Forall (fun u => u <> 60 /\ u <> 62) (escapeHtml c).
Proof.
  unfold escapeHtml.
  destruct (Z.eqb_spec c 60); [repeat constructor; discriminate|].
  destruct (Z.eqb_spec c 62); [repeat constructor; discriminate|].
  destruct (Z.eqb_spec c 38); [repeat constructor; discriminate|].
  repeat constructor; assumption.
Qed.

Lemma textContent_plain (c : Z) (rest : jsstring) :
  c <> 38 -> textContent (c :: rest) = c :: textContent rest.
Proof.
  intros Hc. destruct c as [|p|p]; try reflexivity.
  do 6 (destruct p as [p|p|]; try reflexivity).
  contradiction.
Qed.

Lemma textContent_escape (c : Z) (rest : jsstring) :
  textContent (escapeHtml c ++ rest) = c :: textContent rest.
Proof.
  unfold escapeHtml.
  destruct (Z.eqb_spec c 60) as [->|]; [reflexivity|].
  destruct (Z.eqb_spec c 62) as [->|]; [reflexivity|].
  destruct (Z.eqb_spec c 38) as [->|]; [reflexivity|].
  now apply textContent_plain.
Qed.

Lemma textContent_line (line rest : jsstring) :
  textContent (concat (escapeHtml <$> line) ++ rest) = line ++ textContent rest.
Proof.
  induction line as [|c line IH]; [reflexivity|].
  cbn [fmap list_fmap concat]. rewrite <- app_assoc, textContent_escape.
  cbn [app]. f_equal. exact IH.
Qed.

(** X7.  Without a [pre] element [_renderToDom] writes nothing.  With one,
    and colouring off, the markup it assigns holds no '<' and no '>', and
    replacing the three entities it writes by the characters they stand
    for gives back the lines, each followed by a newline. *)
Theorem renderToDom_escapes (characterSet : string) (lines : list jsstring)
    (data : list Z) (w h : nat) (colored : bool) :
  _renderToDom false colored characterSet lines data w h = None /\
  exists html,
    _renderToDom true false characterSet lines data w h = Some html /\
    Forall (fun u => u <> 60 /\ u <> 62) html /\
    textContent html = concat ((fun line => line ++ [10]) <$> lines).
Proof.
  split; [reflexivity|].
  eexists. split; [apply renderToDom_plain|]. split.
  - apply Forall_concat, Forall_fmap, Forall_forall. intros line _.
    unfold compose. apply Forall_app. split.
    + apply Forall_concat, Forall_fmap, Forall_forall. intros c _.
      apply escapeHtml_safe.
    + repeat constructor; discriminate.
  - induction lines as [|line lines IH]; [reflexivity|].
    cbn [fmap list_fmap concat]. rewrite <- !app_assoc, textContent_line.
    f_equal. cbn [app]. rewrite textContent_plain by discriminate.
    f_equal. exact IH.
Qed.

(** ** Dithering a black-and-white image *)

Lemma fold_left_fixed {A B : Type} (f : A -> B -> A) (l : list B) (a : A) :
  (forall b, In b l -> f a b = a) -> fold_left f l a = a.
Proof.
  induction l as [|b l IH]; intros H; [reflexivity|].
  cbn [fold_left]. rewrite (H b) by (now left). apply IH.
  intros b' Hb'. apply H. now right.
Qed.

Lemma scan_fixed (w h : nat) (body : nat -> nat -> list Z -> list Z) (d : list Z) :
  (forall x y, (x < w)%nat -> (y < h)%nat -> body x y d = d) ->
  scan w h body d = d.
Proof.
  intros H. unfold scan. apply fold_left_fixed. intros y Hy.
  apply fold_left_fixed. intros x Hx.
  apply in_seq in Hx, Hy. apply H; lia.
Qed.

(** A neighbour inside the image is a pixel of the image. *)
Lemma neighbour_pixel (w h x y : nat) (dx dy : Z) (n : nat) :
  neighbour w h x y dx dy = Some n ->
  exists nx ny, (nx < w)%nat /\ (ny < h)%nat /\ n = pixel_index w nx ny.
Proof.
  unfold neighbour, pixel_index. intros Hn.
  destruct (_ && _) eqn:E in Hn; [|discriminate]. injection Hn as <-.
  apply andb_true_iff in E as [E E4]. apply andb_true_iff in E as [E E3].
  apply andb_true_iff in E as [E1 E2].
  exists (Z.to_nat (Z.of_nat x + dx)), (Z.to_nat (Z.of_nat y + dy)).
  split; [lia|]. split; [lia|]. 
  set (nx := Z.of_nat x + dx) in *. set (ny := Z.of_nat y + dy) in *.
  assert (Hnx : 0 <= nx) by lia. assert (Hny : 0 <= ny) by lia.
  rewrite <- (Z2Nat.id nx Hnx), <- (Z2Nat.id ny Hny) at 1.
  rewrite <- (Nat2Z.id ((Z.to_nat ny * w + Z.to_nat nx) * 4)).
  f_equal. lia.
Qed.

(** Storing the value a black or white byte already has. *)
Lemma arr_set_same (d : list Z) (i : nat) (v : Z) (x : float) :
  d !! i = Some v -> ToUint8Clamp x = v -> arr_set d i x = d.
Proof. intros Hd <-. unfold arr_set. now apply list_insert_id. Qed.

Lemma bilevel_get (w h : nat) (d : list Z) (x y c : nat) :
  bilevel w h d -> (x < w)%nat -> (y < h)%nat -> (c < 3)%nat ->
  exists v, (v = 0 \/ v = 255) /\ d !! (pixel_index w x y + c)%nat = Some v /\
            arr_get d (pixel_index w x y + c) = num_of_Z v.
Proof.
  intros Hb Hx Hy Hc. destruct (Hb x y Hx Hy) as (v & Hv & Hd).
  exists v. split; [exact Hv|]. split; [now apply Hd|].
  unfold arr_get. now rewrite (Hd c Hc).
Qed.

(** With no error to spread, a neighbour keeps its bytes. *)
Lemma fs_distribute_fixed (w h x y : nat) (dx dy : Z) (factor : float)
    (d : list Z) :
  bilevel w h d -> In factor [7 / 16; 3 / 16; 5 / 16; 1 / 16]%float ->
  fs_distribute w h x y 0 0 0 dx dy factor d = d.
Proof.
  intros Hb Hf. unfold fs_distribute.
  destruct (neighbour w h x y dx dy) as [n|] eqn:E; [|reflexivity].
  destruct (neighbour_pixel _ _ _ _ _ _ _ E) as (nx & ny & Hx & Hy & ->).
  destruct (bilevel_get w h d nx ny 0 Hb Hx Hy ltac:(lia)) as (v0 & Hv0 & D0 & G0).
  destruct (bilevel_get w h d nx ny 1 Hb Hx Hy ltac:(lia)) as (v1 & Hv1 & D1 & G1).
  destruct (bilevel_get w h d nx ny 2 Hb Hx Hy ltac:(lia)) as (v2 & Hv2 & D2 & G2).
  rewrite Nat.add_0_r in D0, G0. cbv zeta.
  assert (S : forall v, v = 0 \/ v = 255 ->
            ToUint8Clamp (clamp255 (num_of_Z v + 0 * factor)) = v).
  { intros v [->| ->];
      destruct Hf as [<-|[<-|[<-|[<-|[]]]]]; vm_compute; reflexivity. }
  rewrite G0, (arr_set_same d _ v0) by auto.
  rewrite G1, (arr_set_same d _ v1) by auto.
  rewrite G2, (arr_set_same d _ v2) by auto.
  reflexivity.
Qed.

Lemma atkinson_distribute_fixed (w h x y : nat) (dx dy : Z) (d : list Z) :
  bilevel w h d -> atkinson_distribute w h x y 0 dx dy d = d.
Proof.
  intros Hb. unfold atkinson_distribute.
  destruct (neighbour w h x y dx dy) as [n|] eqn:E; [|reflexivity].
  destruct (neighbour_pixel _ _ _ _ _ _ _ E) as (nx & ny & Hx & Hy & ->).
  destruct (bilevel_get w h d nx ny 0 Hb Hx Hy ltac:(lia)) as (v0 & Hv0 & D0 & G0).
  destruct (bilevel_get w h d nx ny 1 Hb Hx Hy ltac:(lia)) as (v1 & Hv1 & D1 & G1).
  destruct (bilevel_get w h d nx ny 2 Hb Hx Hy ltac:(lia)) as (v2 & Hv2 & D2 & G2).
  rewrite Nat.add_0_r in D0, G0. cbv zeta.
  assert (S : forall v, v = 0 \/ v = 255 ->
            ToUint8Clamp (clamp255 (num_of_Z v + 0)) = v).
  { intros v [->| ->]; vm_compute; reflexivity. }
  rewrite G0, (arr_set_same d _ v0) by auto.
  rewrite G1, (arr_set_same d _ v1) by auto.
  rewrite G2, (arr_set_same d _ v2) by auto.
  reflexivity.
Qed.

(** The three channels of a pixel of a black-and-white image. *)
Lemma bilevel_pixel (w h : nat) (d : list Z) (x y : nat) :
  bilevel w h d -> (x < w)%nat -> (y < h)%nat ->
  let idx := pixel_index w x y in
  exists v, (v = 0 \/ v = 255) /\
    d !! idx = Some v /\ d !! (idx + 1)%nat = Some v /\ d !! (idx + 2)%nat = Some v /\
    arr_get d idx = num_of_Z v /\ arr_get d (idx + 1) = num_of_Z v /\
    arr_get d (idx + 2) = num_of_Z v.
Proof.
  intros Hb Hx Hy idx. destruct (Hb x y Hx Hy) as (v & Hv & Hd).
  pose proof (Hd 0%nat ltac:(lia)) as D0. pose proof (Hd 1%nat ltac:(lia)) as D1.
  pose proof (Hd 2%nat ltac:(lia)) as D2. rewrite Nat.add_0_r in D0.
  fold idx in D0, D1, D2.
  exists v. unfold arr_get. rewrite D0, D1, D2. repeat split; auto.
Qed.

Lemma fs_pixel_fixed (w h x y : nat) (d : list Z) :
  bilevel w h d -> (x < w)%nat -> (y < h)%nat -> fs_pixel w h x y d = d.
Proof.
  intros Hb Hx Hy.
  destruct (bilevel_pixel w h d x y Hb Hx Hy) as (v & Hv & D0 & D1 & D2 & G0 & G1 & G2).
  cbv zeta in *. unfold fs_pixel. cbv zeta. rewrite G0, G1, G2.
  set (idx := pixel_index w x y) in *.
  assert (Q : ToUint8Clamp (quantize (calculateLuminance (num_of_Z v) (num_of_Z v)
                                        (num_of_Z v))) = v
              /\ (num_of_Z v - quantize (calculateLuminance (num_of_Z v)
                                           (num_of_Z v) (num_of_Z v)))%float = 0%float).
  { destruct Hv as [->| ->]; vm_compute; split; reflexivity. }
  destruct Q as [Q1 Q2]. rewrite Q2.
  rewrite (arr_set_same d idx v) by auto.
  rewrite (arr_set_same d (idx + 1) v) by auto.
  rewrite (arr_set_same d (idx + 2) v) by auto.
  rewrite (fs_distribute_fixed w h x y 1 0 _ d) by (cbn; auto).
  rewrite (fs_distribute_fixed w h x y (-1) 1 _ d) by (cbn; auto).
  rewrite (fs_distribute_fixed w h x y 0 1 _ d) by (cbn; auto).
  apply fs_distribute_fixed; cbn; auto.
Qed.

Lemma atkinson_pixel_fixed (w h x y : nat) (d : list Z) :
  bilevel w h d -> (x < w)%nat -> (y < h)%nat -> atkinson_pixel w h x y d = d.
Proof.
  intros Hb Hx Hy.
  destruct (bilevel_pixel w h d x y Hb Hx Hy) as (v & Hv & D0 & D1 & D2 & G0 & G1 & G2).
  cbv zeta in *. unfold atkinson_pixel. cbv zeta. rewrite G0, G1, G2.
  set (idx := pixel_index w x y) in *.
  assert (Q : ToUint8Clamp (quantize (calculateLuminance (num_of_Z v) (num_of_Z v)
                                        (num_of_Z v))) = v
              /\ (((num_of_Z v + num_of_Z v + num_of_Z v) / 3
                   - quantize (calculateLuminance (num_of_Z v)
                                 (num_of_Z v) (num_of_Z v))) / 8)%float = 0%float).
  { destruct Hv as [->| ->]; vm_compute; split; reflexivity. }
  destruct Q as [Q1 Q2]. rewrite Q2.
  rewrite (arr_set_same d idx v) by auto.
  rewrite (arr_set_same d (idx + 1) v) by auto.
  rewrite (arr_set_same d (idx + 2) v) by auto.
  rewrite (atkinson_distribute_fixed w h x y 1 0 d Hb).
  rewrite (atkinson_distribute_fixed w h x y 2 0 d Hb).
  rewrite (atkinson_distribute_fixed w h x y (-1) 1 d Hb).
  rewrite (atkinson_distribute_fixed w h x y 0 1 d Hb).
  rewrite (atkinson_distribute_fixed w h x y 1 1 d Hb).
  now apply atkinson_distribute_fixed.
Qed.

Lemma bayer_pixel_fixed (w h x y : nat) (d : list Z) :
  bilevel w h d -> (x < w)%nat -> (y < h)%nat -> bayer_pixel w x y d = d.
Proof.
  intros Hb Hx Hy.
  destruct (bilevel_pixel w h d x y Hb Hx Hy) as (v & Hv & D0 & D1 & D2 & G0 & G1 & G2).
  cbv zeta in *. unfold bayer_pixel. cbv zeta. rewrite G0, G1, G2.
  set (idx := pixel_index w x y) in *.
  assert (Hxm : (x mod 4 < 4)%nat) by (apply Nat.mod_upper_bound; lia).
  assert (Hym : (y mod 4 < 4)%nat) by (apply Nat.mod_upper_bound; lia).
  set (newVal := if (_ <? _)%float then _ else _).
  assert (Q : ToUint8Clamp newVal = v).
  { unfold newVal.
    destruct (x mod 4)%nat as [|[|[|[|?]]]]; [| | | |lia];
      destruct (y mod 4)%nat as [|[|[|[|?]]]]; try lia;
      destruct Hv as [->| ->]; vm_compute; reflexivity. }
  rewrite (arr_set_same d idx v) by auto.
  rewrite (arr_set_same d (idx + 1) v) by auto.
  rewrite (arr_set_same d (idx + 2) v) by auto.
  reflexivity.
Qed.

(** ** The output of a dithering pass is black and white *)

Lemma fs_pixel_levelling (w h : nat) : levelling w h (fs_pixel w h).
Proof.
  intros x y d Hx Hy Hlen.
  destruct (fs_pixel_writes w h x y d Hx Hy Hlen) as [L V]. split; [exact L|].
  eexists. split; [|exact V]. apply ToUint8Clamp_quantize.
Qed.

Lemma atkinson_pixel_levelling (w h : nat) : levelling w h (atkinson_pixel w h).
Proof.
  intros x y d Hx Hy Hlen.
  pose proof (pixel_index_mod w x y) as Hmod.
  pose proof (pixel_index_bound w h x y Hx Hy) as Hb.
  unfold atkinson_pixel. cbv zeta.
  set (idx := pixel_index w x y) in *.
  set (newVal := quantize _).
  set (e := (_ / 8)%float).
  destruct (store_pixel idx newVal d Hmod ltac:(lia)) as [L0 S0].
  set (d0 := arr_set (arr_set (arr_set d idx newVal) (idx + 1) newVal)
               (idx + 2) newVal) in *.
  set (d1 := atkinson_distribute w h x y e 1 0 d0).
  set (d2 := atkinson_distribute w h x y e 2 0 d1).
  set (d3 := atkinson_distribute w h x y e (-1) 1 d2).
  set (d4 := atkinson_distribute w h x y e 0 1 d3).
  set (d5 := atkinson_distribute w h x y e 1 1 d4).
  set (d6 := atkinson_distribute w h x y e 0 2 d5).
  assert (L1 : later (idx + 4) d0 d1) by (apply atkinson_distribute_later; lia).
  assert (L2 : later (idx + 4) d1 d2) by (apply atkinson_distribute_later; lia).
  assert (L3 : later (idx + 4) d2 d3) by (apply atkinson_distribute_later; lia).
  assert (L4 : later (idx + 4) d3 d4) by (apply atkinson_distribute_later; lia).
  assert (L5 : later (idx + 4) d4 d5) by (apply atkinson_distribute_later; lia).
  assert (L6 : later (idx + 4) d5 d6) by (apply atkinson_distribute_later; lia).
  assert (L : later (idx + 4) d0 d6).
  { eapply later_trans; [reflexivity| |exact L6].
    eapply later_trans; [reflexivity| |exact L5].
    eapply later_trans; [reflexivity| |exact L4].
    eapply later_trans; [reflexivity| |exact L3].
    eapply later_trans; [reflexivity|exact L1|exact L2]. }
  split.
  - eapply later_trans; [| exact L0 | exact L]. lia.
  - exists (ToUint8Clamp newVal). split; [apply ToUint8Clamp_quantize|].
    intros c Hc. rewrite (later_keeps _ _ _ _ L) by lia. now apply S0.
Qed.

Lemma bayer_pixel_levelling (w h : nat) :
  levelling w h (fun x y => bayer_pixel w x y).
Proof.
  intros x y d Hx Hy Hlen.
  pose proof (pixel_index_mod w x y) as Hmod.
  pose proof (pixel_index_bound w h x y Hx Hy) as Hb.
  unfold bayer_pixel. cbv zeta.
  set (idx := pixel_index w x y) in *.
  set (newVal := if (_ <? _)%float then _ else _).
  destruct (store_pixel idx newVal d Hmod ltac:(lia)) as [L0 S0].
  split; [exact L0|].
  exists (ToUint8Clamp newVal). split; [|exact S0].
  unfold newVal. destruct (_ <? _)%float; [now right | now left].
Qed.

(** After the first [n] pixels of a pass the pixels done are black or
    white. *)
Lemma pass_bilevel (w h : nat) (body : nat -> nat -> list Z -> list Z)
    (d : list Z) (n : nat) :
  levelling w h body -> (0 < w)%nat -> length d = (4 * w * h)%nat ->
  (n <= h * w)%nat ->
  let d' := fold_left (fun d (p : nat) => body (p mod w)%nat (p / w)%nat d) (seq 0 n) d in
  length d' = length d /\
  (forall p, (p < n)%nat -> exists v, (v = 0 \/ v = 255) /\
     forall c, (c < 3)%nat -> d' !! (4 * p + c)%nat = Some v).
Proof.
  intros Hq Hw Hlen. induction n as [|n IH]; intros Hn; cbn zeta.
  - cbn. split; auto. intros; lia.
  - rewrite seq_S, fold_left_app. cbn [fold_left Nat.add].
    destruct (IH ltac:(lia)) as (L & M). cbn zeta in L, M.
    set (dn := fold_left _ (seq 0 n) d) in *.
    assert (Hx : (n mod w < w)%nat) by (apply Nat.mod_upper_bound; lia).
    assert (Hy : (n / w < h)%nat) by (apply Nat.Div0.div_lt_upper_bound; lia).
    destruct (Hq (n mod w)%nat (n / w)%nat dn Hx Hy ltac:(lia))
      as [[L' K] (v & Hv & Q)].
    rewrite pixel_index_flat in K, Q by assumption.
    split; [congruence|].
    intros p Hp. destruct (Nat.eq_dec p n) as [->|Hne].
    + exists v. split; [exact Hv|exact Q].
    + destruct (M p ltac:(lia)) as (u & Hu & Mu). exists u. split; [exact Hu|].
      intros c Hc. rewrite K by (left; lia). now apply Mu.
Qed.

Lemma scan_bilevel (w h : nat) (body : nat -> nat -> list Z -> list Z)
    (d : list Z) :
  levelling w h body -> (0 < w)%nat -> length d = (4 * w * h)%nat ->
  length (scan w h body d) = length d /\ bilevel w h (scan w h body d).
Proof.
  intros Hq Hw Hlen. rewrite scan_flat by assumption.
  destruct (pass_bilevel w h body d (h * w) Hq Hw Hlen ltac:(lia)) as (L & M).
  split; [exact L|].
  intros x y Hx Hy.
  destruct (M (y * w + x)%nat) as (v & Hv & Q).
  { assert (y + 1 <= h)%nat by lia. nia. }
  exists v. split; [exact Hv|]. intros c Hc. unfold pixel_index.
  replace ((y * w + x) * 4 + c)%nat with (4 * (y * w + x) + c)%nat by lia.
  now apply Q.
Qed.

(** The loop bodies of the three dithering functions. *)
Lemma dither_bodies (dither : heap -> ImageData -> option (ImageData * heap)) :
  In dither [floydSteinbergDither; atkinsonDither; bayerDither] ->
  exists body : nat -> nat -> nat -> nat -> list Z -> list Z,
    (forall σ img, dither σ img
       = new_ImageData σ (scan (width img) (height img)
                            (body (width img) (height img)) (buffer σ img))
           (width img) (height img)) /\
    (forall w h, levelling w h (body w h)) /\
    (forall w h x y d, bilevel w h d -> (x < w)%nat -> (y < h)%nat ->
       body w h x y d = d).
Proof.
  intros [<-|[<-|[<-|[]]]].
  - exists fs_pixel. split; [reflexivity|]. split.
    + apply fs_pixel_levelling.
    + intros. now apply fs_pixel_fixed.
  - exists atkinson_pixel. split; [reflexivity|]. split.
    + apply atkinson_pixel_levelling.
    + intros. now apply atkinson_pixel_fixed.
  - exists (fun w h x y => bayer_pixel w x y). split; [reflexivity|]. split.
    + apply bayer_pixel_levelling.
    + intros. now apply (bayer_pixel_fixed w h).
Qed.

Lemma wf_image_buffer (σ : heap) (img : ImageData) :
  wf_image σ img ->
  σ !! data img = Some (buffer σ img) /\
  length (buffer σ img) = (4 * width img * height img)%nat /\
  (0 < width img)%nat /\ (0 < height img)%nat /\
  Forall (fun v => 0 <= v <= 255) (buffer σ img).
Proof.
  intros (d & Hd & H). unfold buffer. rewrite Hd. cbn. split; [reflexivity|exact H].
Qed.

(** X8.  Dithering leaves a black-and-white image as it is: when every
    pixel of a well-formed image has three equal colour bytes, 0 or 255,
    each of the three dithering functions returns a new array holding
    exactly the bytes of the input. *)
Theorem dithering_fixed_point (σ : heap) (img : ImageData)
    (dither : heap -> ImageData -> option (ImageData * heap)) :
  wf_image σ img ->
  In dither [floydSteinbergDither; atkinsonDither; bayerDither] ->
  bilevel (width img) (height img) (buffer σ img) ->
  exists img' σ',
    dither σ img = Some (img', σ') /\
    width img' = width img /\ height img' = height img /\
    data img' <> data img /\
    buffer σ' img' = buffer σ img /\ buffer σ' img = buffer σ img.
Proof.
  intros Hwf Hd Hb.
  destruct (wf_image_buffer σ img Hwf) as (Hσ & Hlen & Hw & Hh & _).
  destruct (dither_bodies dither Hd) as (body & E & _ & F).
  rewrite E, scan_fixed by (intros; now apply F).
  destruct (new_ImageData_spec σ (buffer σ img) (width img) (height img)
              Hw Hh Hlen) as (img' & σ' & N & W & H & Fr & S & K).
  exists img', σ'. split; [exact N|]. repeat split; auto.
  - intros Heq. rewrite Heq in Fr. congruence.
  - unfold buffer at 1. now rewrite S.
  - unfold buffer at 1. now rewrite (K _ _ Hσ).
Qed.

(** X9.  Dithering is idempotent, also across algorithms: the result of
    any of the three dithering functions on a well-formed image is black
    and white with three equal colour bytes in every pixel, and dithering
    that result again, with the same or another of the three functions,
    returns a copy with the same bytes. *)
Theorem dithering_idempotent (σ : heap) (img : ImageData)
    (first second : heap -> ImageData -> option (ImageData * heap)) :
  wf_image σ img ->
  In first [floydSteinbergDither; atkinsonDither; bayerDither] ->
  In second [floydSteinbergDither; atkinsonDither; bayerDither] ->
  exists img1 σ1 img2 σ2,
    first σ img = Some (img1, σ1) /\
    bilevel (width img) (height img) (buffer σ1 img1) /\
    second σ1 img1 = Some (img2, σ2) /\
    width img2 = width img /\ height img2 = height img /\
    buffer σ2 img2 = buffer σ1 img1.
Proof.
  intros Hwf H1 H2.
  destruct (wf_image_buffer σ img Hwf) as (Hσ & Hlen & Hw & Hh & _).
  destruct (dither_bodies first H1) as (body1 & E1 & Q1 & _).
  destruct (dither_bodies second H2) as (body2 & E2 & _ & F2).
  destruct (scan_bilevel _ _ _ (buffer σ img) (Q1 (width img) (height img)) Hw Hlen)
    as (L1 & B1).
  set (d1 := scan (width img) (height img) (body1 (width img) (height img))
               (buffer σ img)) in *.
  destruct (new_ImageData_spec σ d1 (width img) (height img) Hw Hh
              ltac:(congruence)) as (img1 & σ1 & N1 & W1 & Hh1 & _ & S1 & _).
  assert (Hbuf1 : buffer σ1 img1 = d1) by (unfold buffer; now rewrite S1).
  destruct (new_ImageData_spec σ1 d1 (width img) (height img) Hw Hh
              ltac:(congruence)) as (img2 & σ2 & N2 & W2 & Hh2 & _ & S2 & _).
  exists img1, σ1, img2, σ2.
  split; [rewrite E1; exact N1|]. split; [now rewrite Hbuf1|].
  split.
  - rewrite E2, W1, Hh1, Hbuf1, scan_fixed; [exact N2|].
    intros. now apply F2.
  - repeat split; auto. rewrite Hbuf1. unfold buffer. now rewrite S2.
Qed.

Lemma greyImage_wf : wf_image greyHeap greyImage.
Proof.
  exists [100; 100; 100; 255; 100; 100; 100; 255].
  split; [reflexivity|]. split; [reflexivity|].
  split; [cbn; lia|]. split; [cbn; lia|].
  repeat (apply Forall_cons; split; [lia|]). apply Forall_nil. trivial.
Qed.

Lemma white_bilevel : bilevel 4 4 white4x4.
Proof.
  intros x y Hx Hy. exists 255. split; [now right|]. intros c Hc.
  destruct x as [|[|[|[|x]]]]; [| | | |lia];
    (destruct y as [|[|[|[|y]]]]; [| | | |lia]);
    (destruct c as [|[|[|c]]]; [| | |lia]); reflexivity.
Qed.

Lemma dithering_fixed_point_witness :
  exists img' σ',
    bayerDither sampleHeap sampleImage = Some (img', σ') /\
    data img' <> data sampleImage /\
    buffer σ' img' = white4x4.
Proof.
  destruct (dithering_fixed_point sampleHeap sampleImage bayerDither
              sampleImage_wf ltac:(simpl; auto) white_bilevel)
    as (img' & σ' & E & _ & _ & N & B & _).
  exists img', σ'. repeat split; assumption.
Defined.

Lemma dithering_idempotent_witness :
  exists img1 σ1 img2 σ2,
    floydSteinbergDither greyHeap greyImage = Some (img1, σ1) /\
    atkinsonDither σ1 img1 = Some (img2, σ2) /\
    buffer σ2 img2 = buffer σ1 img1.
Proof.
  destruct (dithering_idempotent greyHeap greyImage floydSteinbergDither
              atkinsonDither greyImage_wf ltac:(simpl; auto) ltac:(simpl; auto))
    as (img1 & σ1 & img2 & σ2 & E1 & _ & E2 & _ & _ & B).
  exists img1, σ1, img2, σ2. repeat split; assumption.
Defined.

(** ** Stores into a clamped byte array *)

(** The integer an integral Number stands for. *)
Lemma num_to_Z_int x i : 0 <= i -> has_value x (units i) -> num_to_Z x = i.
Proof.
  intros Hi [N V]. pose proof (Prim2SF_valid x) as Vx.
  pose proof (pow2_pos B64.bias ltac:(now rewrite bias_val)) as P.
  unfold num_to_Z.
  destruct (nonneg_cases _ N) as [E|(m & e & E)]; rewrite E in *; cbn [B64.value] in V.
  - unfold units in V. nia.
  - apply valid_finite_inv in Vx as (_ & He & _). unfold units in V.
    destruct (Z.leb_spec 0 e) as [Hpos|Hneg].
    + rewrite Z.shiftl_mul_pow2 by assumption.
      rewrite Z.pow_add_r, Z.mul_assoc in V by (rewrite ?bias_val; lia).
      apply Z.mul_cancel_r in V; lia.
    + assert (Hv : Z.pos m = i * 2 ^ (- e)).
      { assert (Hb : 2 ^ B64.bias = 2 ^ (- e) * 2 ^ (e + B64.bias)).
        { rewrite <- Z.pow_add_r by (rewrite ?bias_val; lia). f_equal. lia. }
        rewrite Hb, Z.mul_assoc in V.
        assert (0 < 2 ^ (e + B64.bias)) by (apply pow2_pos; rewrite bias_val; lia).
        apply Z.mul_cancel_r in V; lia. }
      assert (Pe : 0 < 2 ^ (- e)) by (apply pow2_pos; lia).
      rewrite Z.shiftl_div_pow2 by lia.
      rewrite Hv, Z.div_mul by lia. reflexivity.
Qed.

(** A Number that is neither NaN, nor at most 0, nor at least 255. *)
Lemma between_0_255 x :
  is_nan x = false -> (x <=? 0)%float = false -> (255 <=? x)%float = false ->
  exists v, has_value x v /\ 0 < v < units 255.
Proof.
  intros Hn H0 H255.
  pose proof (Prim2SF_valid x) as Vx.
  assert (Hx : exists m e, Prim2SF x = S754_finite false m e).
  { rewrite FloatAxioms.leb_spec, Prim2SF_0 in H0.
    rewrite FloatAxioms.leb_spec, Prim2SF_255 in H255.
    destruct (Prim2SF x) as [[]|[]| |[] m e] eqn:E;
      try discriminate H0; try discriminate H255.
    - assert (is_nan x = true) by (now apply is_nan_spec). congruence.
    - now exists m, e. }
  destruct Hx as (m & e & E).
  assert (Hv : has_value x (Z.pos m * 2 ^ (e + B64.bias))).
  { split; rewrite E; reflexivity. }
  exists (Z.pos m * 2 ^ (e + B64.bias)). split; [exact Hv|].
  rewrite E in Vx. apply valid_finite_inv in Vx as (_ & He & _).
  split.
  - apply Z.mul_pos_pos; [lia|]. apply pow2_pos. rewrite bias_val. lia.
  - rewrite (leb_value _ _ _ _ has_value_255 Hv) in H255.
    now apply Z.leb_gt in H255.
Qed.

(** Whatever Number is stored, the array holds a byte. *)
Lemma ToUint8Clamp_byte (x : float) : 0 <= ToUint8Clamp x <= 255.
Proof.
  unfold ToUint8Clamp, ToUint8Clamp_num.
  destruct (is_nan x) eqn:Hn; [vm_compute; split; discriminate|].
  destruct (x <=? 0)%float eqn:H0; [vm_compute; split; discriminate|].
  destruct (255 <=? x)%float eqn:H255; [vm_compute; split; discriminate|].
  destruct (between_0_255 x Hn H0 H255) as (v & Hv & Hlo & Hhi).
  pose proof (Math_floor_value x v Hv) as Hf.
  set (k := v / 2 ^ B64.bias) in *.
  assert (Hk : 0 <= k <= 254).
  { pose proof (pow2_pos B64.bias ltac:(now rewrite bias_val)) as P.
    unfold units in Hhi. unfold k. split.
    - apply Z.div_pos; lia.
    - assert (v / 2 ^ B64.bias < 255); [|lia].
      apply Z.div_lt_upper_bound; lia. }
  clearbody k.
  assert (Hf1 : has_value (Math_floor x + 1) (units (k + 1))).
  { rewrite <- (rnd_units (k + 1)), <- units_add by lia.
    apply add_value; [exact Hf|exact has_value_1|].
    rewrite units_add, rnd_units by lia. apply small_below_top. lia. }
  pose proof (num_to_Z_int _ k ltac:(lia) Hf) as Ek.
  pose proof (num_to_Z_int _ (k + 1) ltac:(lia) Hf1) as Ek1.
  repeat match goal with |- context [if ?c then _ else _] => destruct c end;
    rewrite ?Ek, ?Ek1; lia.
Qed.

Lemma arr_set_bytes (d : list Z) (i : nat) (v : float) :
  bytes d -> bytes (arr_set d i v).
Proof. intros Hb. apply bytes_insert; [exact Hb|apply ToUint8Clamp_byte]. Qed.

Lemma fs_distribute_bytes (w h x y : nat) (eR eG eB : float) (dx dy : Z)
    (factor : float) (d : list Z) :
  bytes d -> bytes (fs_distribute w h x y eR eG eB dx dy factor d).
Proof.
  intros Hb. unfold fs_distribute.
  destruct (neighbour w h x y dx dy); [|exact Hb].
  cbv zeta. now repeat apply arr_set_bytes.
Qed.

Lemma atkinson_distribute_bytes (w h x y : nat) (e : float) (dx dy : Z)
    (d : list Z) :
  bytes d -> bytes (atkinson_distribute w h x y e dx dy d).
Proof.
  intros Hb. unfold atkinson_distribute.
  destruct (neighbour w h x y dx dy); [|exact Hb].
  cbv zeta. now repeat apply arr_set_bytes.
Qed.

Lemma scan_bytes (w h : nat) (body : nat -> nat -> list Z -> list Z) (d : list Z) :
  (forall x y d, bytes d -> bytes (body x y d)) -> bytes d ->
  bytes (scan w h body d).
Proof.
  intros Hbody. unfold scan.
  assert (Hrow : forall y l d, bytes d ->
            bytes (fold_left (fun data x => body x y data) l d)).
  { intros y l. induction l as [|x l IH]; intros d0 Hd; cbn; auto. }
  generalize (seq 0 h). intros l. revert d.
  induction l as [|y l IH]; intros d Hd; cbn; auto.
Qed.

Lemma dither_bytes (dither : heap -> ImageData -> option (ImageData * heap))
    (σ : heap) (img : ImageData) (img' : ImageData) (σ' : heap) :
  In dither [floydSteinbergDither; atkinsonDither; bayerDither] ->
  bytes (buffer σ img) -> dither σ img = Some (img', σ') ->
  bytes (buffer σ' img').
Proof.
  intros Hd Hb E.
  assert (Hs : exists body, (forall x y d, bytes d -> bytes (body x y d)) /\
             new_ImageData σ (scan (width img) (height img) body (buffer σ img))
               (width img) (height img) = Some (img', σ')).
  { destruct Hd as [<-|[<-|[<-|[]]]]; eexists; (split; [|exact E]).
    - intros x y d Hd. unfold fs_pixel. cbv zeta.
      now repeat first [apply fs_distribute_bytes | apply arr_set_bytes].
    - intros x y d Hd. unfold atkinson_pixel. cbv zeta.
      now repeat first [apply atkinson_distribute_bytes | apply arr_set_bytes].
    - intros x y d Hd. unfold bayer_pixel. cbv zeta.
      now repeat apply arr_set_bytes. }
  destruct Hs as (body & Hbody & N).
  unfold new_ImageData in N. destruct (_ && _) in N; [|discriminate].
  injection N as <- <-. unfold buffer. cbn [data].
  rewrite lookup_insert_eq. cbn [default].
  now apply scan_bytes.
Qed.

(** ** The dithering dispatch *)

Lemma dither_wf (dither : heap -> ImageData -> option (ImageData * heap))
    (σ : heap) (img : ImageData) :
  In dither [floydSteinbergDither; atkinsonDither; bayerDither] ->
  wf_image σ img ->
  exists img' σ',
    dither σ img = Some (img', σ') /\
    wf_image σ' img' /\
    width img' = width img /\ height img' = height img /\
    σ !! data img' = None /\
    buffer σ' img = buffer σ img /\
    bilevel (width img) (height img) (buffer σ' img').
Proof.
  intros Hd Hwf.
  destruct (wf_image_buffer σ img Hwf) as (Hσ & Hlen & Hw & Hh & Hb).
  destruct (dither_bodies dither Hd) as (body & E & Q & _).
  destruct (scan_bilevel _ _ _ (buffer σ img) (Q (width img) (height img)) Hw Hlen)
    as (L & B).
  destruct (new_ImageData_spec σ _ (width img) (height img) Hw Hh
              (eq_trans L Hlen)) as (img' & σ' & N & W & H & Fr & S & K).
  rewrite <- E in N.
  assert (Hbuf : buffer σ' img'
                 = scan (width img) (height img) (body (width img) (height img))
                     (buffer σ img)) by (unfold buffer at 1; now rewrite S).
  exists img', σ'. split; [exact N|]. split; [|repeat split; auto].
  - exists (buffer σ' img'). split; [now rewrite Hbuf|].
    rewrite W, H. split; [rewrite Hbuf; congruence|]. split; [exact Hw|].
    split; [exact Hh|]. exact (dither_bytes dither σ img img' σ' Hd Hb N).
  - unfold buffer at 1. now rewrite (K _ _ Hσ).
  - now rewrite Hbuf.
Qed.

(** X10.  [applyDithering] on a well-formed image never fails and returns
    a well-formed image of the same size, whatever the algorithm name.
    For the three known names the result is a new array, black and white
    in every pixel, and the input keeps its bytes; for any other name the
    result is the input object itself, with no copy made. *)
Theorem applyDithering_wf (σ : heap) (img : ImageData) (algorithm : string) :
  wf_image σ img ->
  exists img' σ',
    applyDithering σ img algorithm = Some (img', σ') /\
    wf_image σ' img' /\
    width img' = width img /\ height img' = height img /\
    buffer σ' img = buffer σ img /\
    (In algorithm ["floyd-steinberg"; "atkinson"; "bayer"]%string ->
     σ !! data img' = None /\
     bilevel (width img) (height img) (buffer σ' img')) /\
    (~ In algorithm ["floyd-steinberg"; "atkinson"; "bayer"]%string ->
     img' = img /\ σ' = σ).
Proof.
  intros Hwf. unfold applyDithering.
  assert (Hknown : forall dither,
    In dither [floydSteinbergDither; atkinsonDither; bayerDither] ->
    In algorithm ["floyd-steinberg"; "atkinson"; "bayer"]%string ->
    exists img' σ',
      dither σ img = Some (img', σ') /\
      wf_image σ' img' /\
      width img' = width img /\ height img' = height img /\
      buffer σ' img = buffer σ img /\
      (In algorithm ["floyd-steinberg"; "atkinson"; "bayer"]%string ->
       σ !! data img' = None /\
       bilevel (width img) (height img) (buffer σ' img')) /\
      (~ In algorithm ["floyd-steinberg"; "atkinson"; "bayer"]%string ->
       img' = img /\ σ' = σ)).
  { intros dither Hd Hin.
    destruct (dither_wf dither σ img Hd Hwf)
      as (img' & σ' & E & W' & W & H & Fr & K & B).
    exists img', σ'. repeat split; auto; contradiction. }
  destruct (String.eqb_spec algorithm "floyd-steinberg") as [->|N1].
  { apply Hknown; cbn; auto. }
  destruct (String.eqb_spec algorithm "atkinson") as [->|N2].
  { apply Hknown; cbn; auto. }
  destruct (String.eqb_spec algorithm "bayer") as [->|N3].
  { apply Hknown; cbn; auto. }
  exists img, σ. repeat split; auto;
    destruct H as [H|[H|[H|[]]]]; congruence.
Qed.

Lemma applyDithering_wf_witness :
  applyDithering sampleHeap sampleImage "none" = Some (sampleImage, sampleHeap) /\
  exists img' σ',
    applyDithering greyHeap greyImage "bayer" = Some (img', σ') /\
    wf_image σ' img' /\ bilevel 2 1 (buffer σ' img').
Proof.
  split.
  - destruct (applyDithering_wf sampleHeap sampleImage "none" sampleImage_wf)
      as (img' & σ' & E & _ & _ & _ & _ & _ & H).
    destruct H as [-> ->]; [|exact E].
    intros [H|[H|[H|[]]]]; discriminate H.
  - destruct (applyDithering_wf greyHeap greyImage "bayer" greyImage_wf)
      as (img' & σ' & E & W & _ & _ & _ & H & _).
    exists img', σ'. split; [exact E|]. split; [exact W|].
    apply H. simpl. auto.
Defined.

(** ** Dithered frames under a luminance ramp *)

(** Black and white map to the two ends of a ramp. *)
Lemma charForLuminance_ends (characters : jsstring) (invert : bool) :
  2 <= Z.of_nat (length characters) < 2 ^ 53 ->
  let n := length characters in
  charForLuminance 0 characters invert
    = option_map (fun c : Z => [c]) (characters !! (if invert then n - 1 else 0)%nat) /\
  charForLuminance 255 characters invert
    = option_map (fun c : Z => [c]) (characters !! (if invert then 0 else n - 1)%nat).
Proof.
  intros Hn.
  assert (H2 : (2 <= length characters)%nat) by (destruct Hn as [Hn _]; lia).
  destruct (charForLuminance_index characters 0 invert Hn) as (_ & _ & F0);
    [rewrite Prim2SF_0; discriminate|].
  destruct (charForLuminance_index characters 255 invert Hn) as (_ & _ & F255);
    [rewrite Prim2SF_255; discriminate|].
  cbv zeta in *.
  set (n := Z.of_nat (length characters)) in *.
  assert (I0 : index_of (clamp_value (Prim2SF 0)) n = 0).
  { rewrite Prim2SF_0. cbn [clamp_value]. apply index_of_0. lia. }
  assert (I255 : index_of (clamp_value (Prim2SF 255)) n = n - 1).
  { destruct has_value_255 as [_ V]. rewrite Prim2SF_255 in *.
    cbn [clamp_value B64.value] in *. rewrite V, Z.min_id.
    apply index_of_255. lia. }
  rewrite I0 in F0. rewrite I255 in F255.
  rewrite F0, F255.
  clear -H2. unfold n.
  assert (E : Z.to_nat (Z.of_nat (length characters) - 1)
              = (length characters - 1)%nat) by lia.
  destruct invert; rewrite ?Z.sub_0_r, ?Z.sub_diag, E; split; reflexivity.
Qed.

(** Outside the two cell encoders, the mapping is [mapLuminance] over the
    ramp of the set, which has at least two characters. *)
Lemma mapToCharacters_luminance (σ : heap) (img : ImageData) (name : string)
    (options : Options) :
  name <> "quadrants"%string -> name <> "braille"%string ->
  mapToCharacters σ img name options
  = Some (mapLuminance σ img (rampOf name) (default false (opt_invert options))) /\
  2 <= Z.of_nat (length (rampOf name)) < 2 ^ 53.
Proof.
  intros Nq Nb.
  unfold mapToCharacters, rampOf, CHAR_SETS_get. cbn [own CHAR_SETS].
  destruct (String.eqb_spec name "simple") as [->|N1].
  { cbn -[mapLuminance]. split; [reflexivity|lia]. }
  destruct (String.eqb_spec name "standard") as [->|N2].
  { cbn -[mapLuminance]. split; [reflexivity|lia]. }
  destruct (String.eqb_spec name "blocks") as [->|N3].
  { cbn -[mapLuminance]. split; [reflexivity|lia]. }
  destruct (String.eqb_spec name "quadrants") as [->|N4]; [congruence|].
  destruct (String.eqb_spec name "braille") as [->|N5]; [congruence|].
  destruct (String.eqb_spec name "dense") as [->|N6].
  { cbn -[mapLuminance]. split; [reflexivity|lia]. }
  destruct (existsb (String.eqb name) Object_prototype);
    cbn -[mapLuminance]; (split; [reflexivity|lia]).
Qed.

(** X11.  A dithered frame under a luminance ramp shows two glyphs only:
    when a frame is dithered with one of the three algorithms and mapped
    with a character set other than 'quadrants' and 'braille', there is one
    line per pixel row and one character per pixel, and each character is
    the first character of the ramp where the dithered pixel is black and
    the last where it is white (the other way round under [invert]). *)
Theorem dithered_frame_glyphs (σ : heap) (img : ImageData) (algorithm : string)
    (name : string) (invert : bool) (threshold : float) :
  wf_image σ img ->
  In algorithm ["floyd-steinberg"; "atkinson"; "bayer"]%string ->
  name <> "quadrants"%string -> name <> "braille"%string ->
  exists lines img' σ' dark light,
    frameLines σ img (Some algorithm) name invert threshold
      = Some (lines, img', σ') /\
    head (rampOf name) = Some dark /\ last (rampOf name) = Some light /\
    length lines = height img /\
    Forall (fun line => length line = width img) lines /\
    forall x y, (x < width img)%nat -> (y < height img)%nat ->
      exists v, buffer σ' img' !! pixel_index (width img) x y = Some v /\
        (v = 0 \/ v = 255) /\
        cell lines x y = Some (if xorb (v =? 255) invert then light else dark).
Proof.
  intros Hwf Hin Nq Nb.
  destruct (mapToCharacters_luminance σ img name
              (mkOptions (Some invert) (Some threshold)) Nq Nb) as [_ Hlen].
  assert (Hd : exists img' σ',
            (if negb (String.eqb algorithm EmptyString) && negb (String.eqb algorithm "none")
             then applyDithering σ img algorithm else Some (img, σ))
            = Some (img', σ') /\
            wf_image σ' img' /\ width img' = width img /\
            height img' = height img /\
            bilevel (width img) (height img) (buffer σ' img')).
  { assert (Hk : forall dither,
              In dither [floydSteinbergDither; atkinsonDither; bayerDither] ->
              exists img' σ', dither σ img = Some (img', σ') /\
                wf_image σ' img' /\ width img' = width img /\
                height img' = height img /\
                bilevel (width img) (height img) (buffer σ' img')).
    { intros dither Hdi.
      destruct (dither_wf dither σ img Hdi Hwf)
        as (img' & σ' & E & W' & W & H & _ & _ & B).
      now exists img', σ'. }
    destruct Hin as [<-|[<-|[<-|[]]]]; cbn [String.eqb Ascii.eqb Bool.eqb negb andb];
      unfold applyDithering; cbn [String.eqb Ascii.eqb Bool.eqb];
      apply Hk; cbn; auto. }
  destruct Hd as (img' & σ' & E & Hwf' & W & H & B).
  destruct (mapToCharacters_luminance σ' img' name
              (mkOptions (Some invert) (Some threshold)) Nq Nb) as [M _].
  cbn [opt_invert] in M. change (default false (Some invert)) with invert in M.
  set (ramp := rampOf name) in *.
  destruct (charForLuminance_ends ramp invert Hlen) as [E0 E255]. cbv zeta in *.
  assert (Hfirst : exists first, ramp !! 0%nat = Some first).
  { apply lookup_lt_is_Some_2. lia. }
  assert (Hlast : exists lastc, ramp !! (length ramp - 1)%nat = Some lastc).
  { apply lookup_lt_is_Some_2. lia. }
  destruct Hfirst as [first Hfirst]. destruct Hlast as [lastc Hlast].
  exists (mapLuminance σ' img' ramp invert), img', σ', first, lastc.
  split; [unfold frameLines; rewrite E, M; reflexivity|].
  split; [now rewrite head_lookup|].
  split; [rewrite last_lookup, <- Nat.sub_1_r; exact Hlast|].
  destruct (mapLuminance_dims σ' img' ramp invert Hwf' (proj2 Hlen)) as [Dh Dw].
  rewrite W, H in *.
  split; [exact Dh|]. split; [exact Dw|].
  intros x y Hx Hy.
  destruct (bilevel_pixel _ _ _ x y B Hx Hy)
    as (v & Hv & D0 & _ & _ & G0 & G1 & G2). cbv zeta in *.
  exists v. split; [exact D0|]. split; [exact Hv|].
  destruct (mapLuminance_cell σ' img' ramp invert x y Hwf' (proj2 Hlen))
    as (c & l & Hc & _ & _ & _ & El & Ec); [lia|lia|].
  rewrite W in *. rewrite G0, G1, G2 in El. rewrite Hc. f_equal.
  rewrite <- El in Ec.
  destruct Hv as [->| ->].
  - change (calculateLuminance (num_of_Z 0) (num_of_Z 0) (num_of_Z 0))
      with 0%float in Ec.
    rewrite E0 in Ec. change (0 =? 255) with false.
    destruct invert; [rewrite Hlast in Ec|rewrite Hfirst in Ec];
      cbn in Ec |- *; congruence.
  - replace (calculateLuminance (num_of_Z 255) (num_of_Z 255) (num_of_Z 255))
      with 255%float in Ec by (vm_compute; reflexivity).
    rewrite E255 in Ec. change (255 =? 255) with true.
    destruct invert; [rewrite Hfirst in Ec|rewrite Hlast in Ec];
      cbn in Ec |- *; congruence.
Qed.

Lemma dithered_frame_glyphs_witness :
  exists lines img' σ' dark light,
    frameLines greyHeap greyImage (Some "floyd-steinberg"%string) "simple" false 128
      = Some (lines, img', σ') /\
    head (rampOf "simple") = Some dark /\ last (rampOf "simple") = Some light /\
    length lines = 1%nat /\
    Forall (fun line => length line = 2%nat) lines /\
    forall x y, (x < 2)%nat -> (y < 1)%nat ->
      exists v, buffer σ' img' !! pixel_index 2 x y = Some v /\
        (v = 0 \/ v = 255) /\
        cell lines x y = Some (if xorb (v =? 255) false then light else dark).
Proof.
  apply (dithered_frame_glyphs greyHeap greyImage "floyd-steinberg" "simple"
           false 128 greyImage_wf); [simpl; auto|discriminate|discriminate].
Defined.

(** ** Dithered frames under the cell encoders *)

(** A sample of a black-and-white image is 0 or 255. *)
Lemma getPixelLuminance_bilevel (d : list Z) (w h : nat) (x y : Z) :
  bilevel w h d ->
  getPixelLuminance d w h x y = 0%float \/ getPixelLuminance d w h x y = 255%float.
Proof.
  intros Hb. unfold getPixelLuminance.
  destruct (_ || _)%bool eqn:E; [now left|].
  apply orb_false_iff in E as [E E4]. apply orb_false_iff in E as [E E3].
  apply orb_false_iff in E as [E1 E2].
  assert (Hx : 0 <= x < Z.of_nat w) by lia.
  assert (Hy : 0 <= y < Z.of_nat h) by lia.
  assert (Hi : Z.to_nat ((y * Z.of_nat w + x) * 4)
               = pixel_index w (Z.to_nat x) (Z.to_nat y)).
  { unfold pixel_index. 
    rewrite <- (Z2Nat.id x) at 1 by lia. rewrite <- (Z2Nat.id y) at 1 by lia.
    rewrite <- Nat2Z.inj_mul, <- Nat2Z.inj_add.
    change 4 with (Z.of_nat 4). rewrite <- Nat2Z.inj_mul. apply Nat2Z.id. }
  cbv zeta. rewrite Hi.
  destruct (bilevel_pixel w h d (Z.to_nat x) (Z.to_nat y) Hb ltac:(lia) ltac:(lia))
    as (v & Hv & _ & _ & _ & G0 & G1 & G2).
  cbv zeta in *. rewrite G0, G1, G2.
  destruct Hv as [->| ->]; [left|right]; vm_compute; reflexivity.
Qed.

(** Thresholds from 0 up to, but not including, 255 separate black from
    white alike. *)
Lemma threshold_bilevel (t1 t2 lum : float) :
  (0 <=? t1)%float = true -> (t1 <? 255)%float = true ->
  (0 <=? t2)%float = true -> (t2 <? 255)%float = true ->
  lum = 0%float \/ lum = 255%float ->
  (t1 <? lum)%float = (t2 <? lum)%float.
Proof.
  intros A1 B1 A2 B2 [->| ->]; [|congruence].
  assert (H : forall t, (0 <=? t)%float = true -> (t <? 0)%float = false).
  { intros t Ht. rewrite FloatAxioms.leb_spec in Ht.
    rewrite FloatAxioms.ltb_spec.
    change (Prim2SF 0) with (S754_zero false) in *.
    destruct (Prim2SF t) as [[]|[]| |[] m e]; try discriminate Ht; reflexivity. }
  now rewrite !H.
Qed.

Lemma braillePattern_threshold (d : list Z) (w h : nat) (t1 t2 : float)
    (cx cy : nat) :
  bilevel w h d ->
  (0 <=? t1)%float = true -> (t1 <? 255)%float = true ->
  (0 <=? t2)%float = true -> (t2 <? 255)%float = true ->
  braillePattern d w h t1 cx cy = braillePattern d w h t2 cx cy.
Proof.
  intros Hb A1 B1 A2 B2. unfold braillePattern.
  apply fold_left_ext. intros p dy _.
  apply fold_left_ext. intros p' dx _. cbv zeta.
  now rewrite (threshold_bilevel t1 t2 _ A1 B1 A2 B2
                 (getPixelLuminance_bilevel d w h _ _ Hb)).
Qed.

Lemma blockPattern_threshold (d : list Z) (w h : nat) (t1 t2 : float)
    (cx cy : nat) :
  bilevel w h d ->
  (0 <=? t1)%float = true -> (t1 <? 255)%float = true ->
  (0 <=? t2)%float = true -> (t2 <? 255)%float = true ->
  blockPattern d w h t1 cx cy = blockPattern d w h t2 cx cy.
Proof.
  intros Hb A1 B1 A2 B2. unfold blockPattern.
  apply fold_left_ext. intros p [[dx dy] b] _. cbv zeta.
  now rewrite (threshold_bilevel t1 t2 _ A1 B1 A2 B2
                 (getPixelLuminance_bilevel d w h _ _ Hb)).
Qed.

(** X12.  On a dithered frame the cell encoders do not depend on their
    options: for 'braille' and 'quadrants', after dithering with one of the
    three algorithms, every threshold from 0 up to, but not including, 255
    gives the same lines, and so does either value of [invert], which
    these encoders never read. *)
Theorem dithered_frame_threshold (σ : heap) (img : ImageData)
    (algorithm name : string) (invert1 invert2 : bool) (t1 t2 : float) :
  wf_image σ img ->
  In algorithm ["floyd-steinberg"; "atkinson"; "bayer"]%string ->
  In name ["braille"; "quadrants"]%string ->
  (0 <=? t1)%float = true -> (t1 <? 255)%float = true ->
  (0 <=? t2)%float = true -> (t2 <? 255)%float = true ->
  frameLines σ img (Some algorithm) name invert1 t1
  = frameLines σ img (Some algorithm) name invert2 t2 /\
  exists lines img' σ',
    frameLines σ img (Some algorithm) name invert1 t1 = Some (lines, img', σ') /\
    length lines = ceil_div (height img) (cellHeight name).
Proof.
  intros Hwf Hin Hname A1 B1 A2 B2.
  assert (Hd : exists img' σ',
            (if negb (String.eqb algorithm EmptyString) && negb (String.eqb algorithm "none")
             then applyDithering σ img algorithm else Some (img, σ))
            = Some (img', σ') /\
            width img' = width img /\ height img' = height img /\
            bilevel (width img') (height img') (buffer σ' img')).
  { assert (Hk : forall dither,
              In dither [floydSteinbergDither; atkinsonDither; bayerDither] ->
              exists img' σ', dither σ img = Some (img', σ') /\
                width img' = width img /\ height img' = height img /\
                bilevel (width img') (height img') (buffer σ' img')).
    { intros dither Hdi.
      destruct (dither_wf dither σ img Hdi Hwf)
        as (img' & σ' & E & _ & W & H & _ & _ & B).
      exists img', σ'. rewrite W, H. auto. }
    destruct Hin as [<-|[<-|[<-|[]]]]; cbn [String.eqb Ascii.eqb Bool.eqb negb andb];
      unfold applyDithering; cbn [String.eqb Ascii.eqb Bool.eqb];
      apply Hk; cbn; auto. }
  destruct Hd as (img' & σ' & E & W & H & B).
  unfold frameLines. rewrite E.
  destruct Hname as [<-|[<-|[]]].
  - change (mapToCharacters σ' img' "braille" (mkOptions (Some invert1) (Some t1)))
      with (Some (encodeBraille σ' img' t1)).
    change (mapToCharacters σ' img' "braille" (mkOptions (Some invert2) (Some t2)))
      with (Some (encodeBraille σ' img' t2)).
    assert (Eq : encodeBraille σ' img' t1 = encodeBraille σ' img' t2).
    { rewrite !encodeBraille_grid. apply list_fmap_ext. intros _ cy _.
      apply list_fmap_ext. intros _ cx _. f_equal.
      now apply braillePattern_threshold. }
    rewrite Eq. split; [reflexivity|].
    eexists _, _, _. split; [reflexivity|].
    rewrite encodeBraille_grid, length_fmap, length_seq, H. reflexivity.
  - change (mapToCharacters σ' img' "quadrants" (mkOptions (Some invert1) (Some t1)))
      with (Some (encodeBlocks σ' img' t1)).
    change (mapToCharacters σ' img' "quadrants" (mkOptions (Some invert2) (Some t2)))
      with (Some (encodeBlocks σ' img' t2)).
    assert (Eq : encodeBlocks σ' img' t1 = encodeBlocks σ' img' t2).
    { rewrite !encodeBlocks_grid. apply list_fmap_ext. intros _ cy _.
      apply list_fmap_ext. intros _ cx _. do 3 f_equal.
      now apply blockPattern_threshold. }
    rewrite Eq. split; [reflexivity|].
    eexists _, _, _. split; [reflexivity|].
    rewrite encodeBlocks_grid, length_fmap, length_seq, H. reflexivity.
Qed.

Lemma dithered_frame_threshold_witness :
  frameLines greyHeap greyImage (Some "floyd-steinberg"%string) "braille" true 0
  = frameLines greyHeap greyImage (Some "floyd-steinberg"%string) "braille" false 128.
Proof.
  apply (dithered_frame_threshold greyHeap greyImage "floyd-steinberg" "braille"
           true false 0 128 greyImage_wf); try reflexivity; simpl; auto.
Defined.

(** ** Ordered dithering is local *)

(** The threshold [(m / 16) * 255] against an integer luminance. *)
Lemma bayer_threshold (m L : Z) :
  0 <= m <= 15 -> 0 <= L <= 255 ->
  ((num_of_Z m / 16) * 255 <? num_of_Z L)%float = (255 * m <? 16 * L).
Proof.
  intros Hm HL.
  assert (H255m : 0 <= 255 * m < 2 ^ 53) by lia.
  assert (Hm53 : 0 <= m < 2 ^ 53) by lia.
  assert (Hg : B64.gmin <= B64.bias - 4) by (rewrite gmin_val, bias_val; lia).
  assert (Hb4 : 0 <= B64.bias - 4) by (rewrite bias_val; lia).
  pose proof (num_of_Z_value m Hm53) as Vm.
  pose proof (num_of_Z_value 16 ltac:(lia)) as V16.
  pose proof (num_of_Z_value L ltac:(lia)) as VL.
  change (num_of_Z 16) with 16%float in V16.
  pose proof (pow2_pos B64.bias ltac:(now rewrite bias_val)) as PB.
  pose proof (pow2_pos (B64.bias - 4) Hb4) as Pp.
  assert (Eb : 2 ^ B64.bias = 16 * 2 ^ (B64.bias - 4)).
  { change 16 with (2 ^ 4). rewrite <- Z.pow_add_r; [f_equal; ring|discriminate|exact Hb4]. }
  assert (P16 : 0 < units 16) by (apply units_pos; reflexivity).
  assert (E1 : B64.rnd (units m * 2 ^ B64.bias) (units 16) = m * 2 ^ (B64.bias - 4)).
  { replace (units m * 2 ^ B64.bias) with (m * 2 ^ (B64.bias - 4) * units 16).
    2:{ unfold units.
        transitivity (m * (16 * 2 ^ (B64.bias - 4)) * 2 ^ B64.bias); [ring|].
        now rewrite <- Eb. }
    apply rnd_exact; [exact P16|exact Hm53|exact Hg]. }
  assert (Hq : m * 2 ^ (B64.bias - 4) <= units 1).
  { unfold units. rewrite Eb. set (P := 2 ^ (B64.bias - 4)) in *. clearbody P.
    clear -Hm Pp. nia. }
  assert (V1 : has_value (num_of_Z m / 16) (m * 2 ^ (B64.bias - 4))).
  { rewrite <- E1. apply div_value; [exact Vm|exact V16|exact P16|].
    rewrite E1. eapply Z.le_lt_trans; [exact Hq|]. apply small_below_top. lia. }
  assert (E2 : B64.rnd (m * 2 ^ (B64.bias - 4) * units 255) (2 ^ B64.bias)
               = 255 * m * 2 ^ (B64.bias - 4)).
  { replace (m * 2 ^ (B64.bias - 4) * units 255)
      with (255 * m * 2 ^ (B64.bias - 4) * 2 ^ B64.bias) by (unfold units; ring).
    apply rnd_exact; [exact PB|exact H255m|exact Hg]. }
  assert (V2 : has_value (num_of_Z m / 16 * 255) (255 * m * 2 ^ (B64.bias - 4))).
  { rewrite <- E2. apply mul_value; [exact V1|exact has_value_255|].
    rewrite E2. apply Z.le_lt_trans with (units 255); [|apply small_below_top; lia].
    unfold units. rewrite Eb. set (P := 2 ^ (B64.bias - 4)) in *. clearbody P.
    clear -Hm Pp. nia. }
  rewrite (ltb_value _ _ _ _ V2 VL). unfold units. rewrite Eb.
  set (P := 2 ^ (B64.bias - 4)) in *. clearbody P. clear -Pp.
  destruct (Z.ltb_spec (255 * m) (16 * L)); [apply Z.ltb_lt|apply Z.ltb_ge]; nia.
Qed.

Lemma bayer4_entry (x y : nat) :
  0 <= nth (x mod 4) (nth (y mod 4) bayer4 []) 0 <= 15.
Proof.
  assert (Hx : (x mod 4 < 4)%nat) by (apply Nat.mod_upper_bound; lia).
  assert (Hy : (y mod 4 < 4)%nat) by (apply Nat.mod_upper_bound; lia).
  destruct (x mod 4)%nat as [|[|[|[|?]]]]; [| | | |lia];
    (destruct (y mod 4)%nat as [|[|[|[|?]]]]; [| | | |lia]); cbn; lia.
Qed.

(** What [bayer_pixel] does to the array: the pixel's colour bytes get the
    level of the pixel, everything else stays. *)
Lemma bayer_pixel_local (w x y : nat) (d : list Z) (r g b : Z) :
  let idx := pixel_index w x y in
  (idx + 3 < length d)%nat ->
  d !! idx = Some r -> d !! (idx + 1)%nat = Some g -> d !! (idx + 2)%nat = Some b ->
  0 <= r <= 255 -> 0 <= g <= 255 -> 0 <= b <= 255 ->
  length (bayer_pixel w x y d) = length d /\
  (forall c, (c < 3)%nat ->
     bayer_pixel w x y d !! (idx + c)%nat = Some (bayerLevel x y r g b)) /\
  (forall i, (i < idx)%nat \/ (idx + 3 <= i)%nat ->
     bayer_pixel w x y d !! i = d !! i).
Proof.
  intros idx Hlen Dr Dg Db Hr Hg Hb.
  unfold bayer_pixel. cbv zeta. fold idx.
  unfold arr_get. rewrite Dr, Dg, Db.
  destruct (luminance_cases r g b Hr Hg Hb) as [-> _].
  rewrite bayer_threshold by (apply bayer4_entry || (apply luminance_byte; assumption)).
  set (newVal := if _ <? _ then 255%float else 0%float).
  assert (Ev : ToUint8Clamp newVal = bayerLevel x y r g b).
  { unfold newVal, bayerLevel. destruct (_ <? _); reflexivity. }
  unfold arr_set. rewrite Ev. split; [now rewrite !length_insert|]. split.
  - intros c Hc. destruct c as [|[|[|c]]]; [| | |lia].
    + rewrite Nat.add_0_r, !list_lookup_insert_ne, list_lookup_insert_eq by lia.
      reflexivity.
    + rewrite list_lookup_insert_ne, list_lookup_insert_eq
        by (rewrite ?length_insert; lia).
      reflexivity.
    + rewrite list_lookup_insert_eq by (rewrite ?length_insert; lia).
      reflexivity.
  - intros i Hi. rewrite !list_lookup_insert_ne by lia. reflexivity.
Qed.

(** After the first [n] pixels of the pass, those pixels hold their levels,
    computed from the input, and the rest of the array is the input's. *)
Lemma bayer_pass (w h : nat) (d : list Z) (n : nat) :
  (0 < w)%nat -> length d = (4 * w * h)%nat -> bytes d -> (n <= h * w)%nat ->
  let d' := fold_left (fun d (p : nat) => bayer_pixel w (p mod w)%nat (p / w)%nat d)
              (seq 0 n) d in
  length d' = length d /\
  (forall i, (4 * n <= i)%nat -> d' !! i = d !! i) /\
  (forall p c, (p < n)%nat -> (c < 3)%nat ->
     d' !! (4 * p + c)%nat
     = Some (bayerLevel (p mod w) (p / w) (byte_at d (4 * p))
               (byte_at d (4 * p + 1)) (byte_at d (4 * p + 2)))).
Proof.
  intros Hw Hlen Hb. induction n as [|n IH]; intros Hn; cbn zeta.
  - cbn. repeat split; auto. intros; lia.
  - rewrite seq_S, fold_left_app. cbn [fold_left Nat.add].
    destruct (IH ltac:(lia)) as (L & K & M). cbn zeta in L, K, M.
    set (dn := fold_left _ (seq 0 n) d) in *.
    assert (Hin : (4 * n + 3 < length d)%nat) by nia.
    destruct (bytes_lookup d (4 * n) Hb ltac:(lia)) as (r & Hr & Dr & _ & Er).
    destruct (bytes_lookup d (4 * n + 1) Hb ltac:(lia)) as (g & Hg & Dg & _ & Eg).
    destruct (bytes_lookup d (4 * n + 2) Hb ltac:(lia)) as (b & Hbb & Db & _ & Ebb).
    pose proof (pixel_index_flat w n Hw) as Ei.
    destruct (bayer_pixel_local w (n mod w) (n / w) dn r g b) as (L' & Q & K');
      rewrite ?Ei; try assumption; try lia.
    + rewrite K by lia. exact Hr.
    + rewrite K by lia. exact Hg.
    + rewrite K by lia. exact Hbb.
    + rewrite Ei in Q, K'. repeat split.
      * congruence.
      * intros i Hi. rewrite K' by lia. apply K. lia.
      * intros p c Hp Hc. destruct (Nat.eq_dec p n) as [->|Hne].
        -- rewrite Q by assumption. now rewrite Er, Eg, Ebb.
        -- rewrite K' by lia. apply M; lia.
Qed.

(** X19.  Ordered dithering is local: in the result of [bayerDither] on a
    well-formed image the colour bytes of the pixel at [(x, y)] depend on
    the colour bytes [r], [g], [b] of that pixel of the input and on the
    position modulo 4 only.  They are 255 when
    [16 * luminance(r, g, b) > 255 * m], [m] being the entry of the 4x4
    matrix at row [y mod 4] and column [x mod 4], and 0 otherwise. *)
Theorem bayerDither_local (σ : heap) (img : ImageData) :
  wf_image σ img ->
  exists img' σ',
    bayerDither σ img = Some (img', σ') /\
    forall x y, (x < width img)%nat -> (y < height img)%nat ->
      let i := pixel_index (width img) x y in
      exists r g b,
        buffer σ img !! i = Some r /\
        buffer σ img !! (i + 1)%nat = Some g /\
        buffer σ img !! (i + 2)%nat = Some b /\
        forall c, (c < 3)%nat ->
          buffer σ' img' !! (i + c)%nat = Some (bayerLevel x y r g b).
Proof.
  intros Hwf.
  destruct (wf_image_buffer σ img Hwf) as (Hσ & Hlen & Hw & Hh & Hb).
  set (w := width img) in *. set (h := height img) in *.
  set (d := buffer σ img) in *.
  destruct (bayer_pass w h d (h * w) Hw Hlen Hb ltac:(lia)) as (L & _ & M).
  cbv zeta in L, M. rewrite <- (scan_flat w h (fun x y => bayer_pixel w x y)) in L, M
    by assumption.
  destruct (new_ImageData_spec σ (scan w h (fun x y => bayer_pixel w x y) d) w h
              Hw Hh ltac:(congruence)) as (img' & σ' & N & _ & _ & _ & S & _).
  assert (Hbuf : buffer σ' img' = scan w h (fun x y => bayer_pixel w x y) d)
    by (unfold buffer; now rewrite S).
  exists img', σ'. split; [exact N|].
  intros x y Hx Hy i.
  assert (Hp : (y * w + x < h * w)%nat) by (assert (y + 1 <= h)%nat by lia; nia).
  assert (Ei : i = (4 * (y * w + x))%nat) by (unfold i, pixel_index; lia).
  assert (Hin : (i + 3 < length d)%nat) by lia.
  destruct (bytes_lookup d i Hb ltac:(lia)) as (r & Dr & _ & _ & Er).
  destruct (bytes_lookup d (i + 1) Hb ltac:(lia)) as (g & Dg & _ & _ & Eg).
  destruct (bytes_lookup d (i + 2) Hb ltac:(lia)) as (b & Db & _ & _ & Ebb).
  exists r, g, b. split; [exact Dr|]. split; [exact Dg|]. split; [exact Db|].
  intros c Hc. rewrite Hbuf.
  rewrite Ei, (M (y * w + x)%nat c Hp Hc).
  rewrite <- Ei, Er, Eg, Ebb.
  rewrite Nat.add_comm, Nat.Div0.mod_add, Nat.div_add by lia.
  rewrite Nat.mod_small, Nat.div_small by lia. reflexivity.
Qed.

Lemma bayerDither_local_witness :
  exists img' σ',
    bayerDither greyHeap greyImage = Some (img', σ') /\
    buffer σ' img' !! 0%nat = Some 255 /\ buffer σ' img' !! 4%nat = Some 0.
Proof.
  destruct (bayerDither_local greyHeap greyImage greyImage_wf)
    as (img' & σ' & E & H).
  exists img', σ'. split; [exact E|]. split.
  - destruct (H 0%nat 0%nat ltac:(simpl; lia) ltac:(simpl; lia))
      as (r & g & b & Dr & Dg & Db & V).
    injection Dr as <-. injection Dg as <-. injection Db as <-.
    exact (V 0%nat ltac:(lia)).
  - destruct (H 1%nat 0%nat ltac:(simpl; lia) ltac:(simpl; lia))
      as (r & g & b & Dr & Dg & Db & V).
    injection Dr as <-. injection Dg as <-. injection Db as <-.
    exact (V 0%nat ltac:(lia)).
Defined.

(** ** Pausing *)

Section Playback.

Import Engine.
Local Open Scope Q_scope.

(** While the engine is not playing, refresh callbacks change nothing. *)
Lemma run_stopped (ts : list Q) (e : t) : isPlaying e = false -> run ts e = e.
Proof.
  intros H. unfold run. induction ts as [|timestamp ts IH]; [reflexivity|].
  cbn [fold_left]. unfold _animate at 2. rewrite H. exact IH.
Qed.

(** X13.  [pause()] on an engine that holds its media element stops the
    frame loop: it returns with the playing flag cleared, the media element
    paused and the pending callback handle dropped, and whatever refresh
    callbacks still arrive afterwards process no frame and change nothing.
    The same holds after [destroy()]: a callback that was already queued
    never reaches [_processFrame] on the released engine. *)
Theorem pause_stops_frames (e : t) (v : Video) (ts : list Q) :
  video e = Some v ->
  (exists e',
     pause e = Returned e' /\
     isPlaying e' = false /\ rafId e' = None /\
     video e' = Some (mkVideo (src v) true) /\
     frames e' = frames e /\ stats e' = stats e /\
     lastFrameTime e' = lastFrameTime e /\
     run ts e' = e') /\
  (exists e',
     destroy e = Returned e' /\
     isPlaying e' = false /\ frames e' = frames e /\
     run ts e' = e').
Proof.
  intros Hv. split.
  - unfold pause. rewrite Hv. cbn.
    eexists. split; [reflexivity|].
    destruct (rafId e) as [n|] eqn:Er; cbn; repeat split;
      apply run_stopped; reflexivity.
  - unfold destroy, pause. rewrite Hv. cbn.
    eexists. split; [reflexivity|].
    destruct (rafId e) as [n|] eqn:Er; cbn; repeat split;
      apply run_stopped; reflexivity.
Qed.

Lemma pause_stops_frames_witness :
  (exists e',
     pause sampleEngine = Returned e' /\
     isPlaying e' = false /\
     run sampleRun e' = e') /\
  (exists e',
     destroy sampleEngine = Returned e' /\
     run sampleRun e' = e').
Proof.
  destruct (pause_stops_frames sampleEngine (mkVideo "clip.mp4" false)
              sampleRun eq_refl)
    as ((e1 & P & I & _ & _ & _ & _ & _ & R) & (e2 & D & _ & _ & R2)).
  split; [exists e1|exists e2]; repeat split; assumption.
Defined.

End Playback.

(** ** Resuming playback *)

Section Resume.

Import Loop.
Local Open Scope Q_scope.

(** A callback that comes more than the slack before one interval has
    passed since [lastFrameTime] processes no frame. *)
Lemma animate_early (K : Z) (timestamp : float) (e : t) :
  (0 <= K)%Z -> isPlaying e = true ->
  (exists vI, has_value (frameInterval e) vI /\ (0 < vI)%Z) ->
  (exists vL, has_value (lastFrameTime e) vL) ->
  below K timestamp ->
  ms timestamp + slack K < ms (lastFrameTime e) + ms (frameInterval e) ->
  _animate timestamp e = requestAnimationFrame e.
Proof.
  intros HK Hp (vI & HI & HI0) (vL & HL) (vt & Ht & Bt) H.
  unfold _animate. rewrite Hp. cbn [negb].
  rewrite (ms_value _ _ Ht), (ms_value _ _ HL), (ms_value _ _ HI) in H.
  rewrite <- (of_units_slack K HK), <- !of_units_add in H.
  apply of_units_lt_inv in H.
  pose proof (pow2_pos (K + B64.bias - 53) ltac:(rewrite bias_val; lia)) as Ph.
  rewrite (elapsed_test_false K _ _ _ vI vL vt HK HI HI0 HL Ht Bt); [reflexivity|].
  set (h := (2 ^ (K + B64.bias - 53))%Z) in *. clearbody h. lia.
Qed.

Lemma run_early (K : Z) (ts : list float) (e : t) :
  (0 <= K)%Z -> isPlaying e = true ->
  (exists vI, has_value (frameInterval e) vI /\ (0 < vI)%Z) ->
  (exists vL, has_value (lastFrameTime e) vL) ->
  Forall (fun timestamp =>
            below K timestamp /\
            ms timestamp + slack K < ms (lastFrameTime e) + ms (frameInterval e))
         ts ->
  isPlaying (run ts e) = true /\
  frames (run ts e) = frames e /\
  lastFrameTime (run ts e) = lastFrameTime e /\
  frameInterval (run ts e) = frameInterval e.
Proof.
  intros HK. revert e. induction ts as [|timestamp ts IH]; intros e Hp HI HL Hts.
  - repeat split; auto.
  - apply Forall_cons in Hts as [[Bt Ht] Hts]. unfold run. cbn [fold_left].
    fold (run ts (_animate timestamp e)).
    rewrite (animate_early K timestamp e HK Hp HI HL Bt Ht).
    destruct (IH (requestAnimationFrame e) Hp HI HL Hts) as (A & B & C & D).
    repeat split; assumption.
Qed.

(** X14.  Once the promise of [video.play()] has resolved, [play()]
    restarts the pacing: it sets the playing flag and takes the current
    time as [lastFrameTime], whatever the flag and the old value were, and
    processes no frame itself when its readings of the clock are less than
    an interval apart.  No refresh callback processes a frame while more
    than the rounding slack is missing to one full interval since that
    reading, however long the engine had been stopped, and the first
    callback a full interval after it processes one.  Timestamps are
    Numbers below [2^K] ms and the slack is [2^(K-52)] ms. *)
Theorem play_restarts_pacing (K : Z) (e : t) (now1 now3 : float) :
  (0 <= K)%Z ->
  (exists vI, has_value (frameInterval e) vI /\ (0 < vI)%Z) ->
  below K now1 -> below K now3 ->
  ms now3 + slack K < ms now1 + ms (frameInterval e) ->
  isPlaying (resume now1 now3 e) = true /\
  lastFrameTime (resume now1 now3 e) = now1 /\
  frameInterval (resume now1 now3 e) = frameInterval e /\
  frames (resume now1 now3 e) = frames e /\
  (forall ts,
     Forall (fun timestamp =>
               below K timestamp /\
               ms timestamp + slack K < ms now1 + ms (frameInterval e)) ts ->
     frames (run ts (resume now1 now3 e)) = frames e /\
     lastFrameTime (run ts (resume now1 now3 e)) = now1) /\
  (forall ts timestamp,
     Forall (fun timestamp =>
               below K timestamp /\
               ms timestamp + slack K < ms now1 + ms (frameInterval e)) ts ->
     (exists vt, has_value timestamp vt) ->
     ms now1 + ms (frameInterval e) <= ms timestamp ->
     frames (run (ts ++ [timestamp]) (resume now1 now3 e))
       = timestamp :: frames e).
Proof.
  intros HK HI (v1 & H1 & B1) B3 Hnow.
  set (e0 := mk (targetFps e) true (rafId e) now1 (frameInterval e) (frames e)).
  assert (E : resume now1 now3 e = requestAnimationFrame e0).
  { unfold resume. fold e0.
    apply (animate_early K now3 e0 HK eq_refl HI); [now exists v1|exact B3|exact Hnow]. }
  rewrite E. cbn [requestAnimationFrame isPlaying lastFrameTime frameInterval frames e0].
  do 4 (split; [reflexivity|]). split.
  - intros ts Hts.
    destruct (run_early K ts (requestAnimationFrame e0) HK eq_refl HI
                ltac:(now exists v1) Hts) as (_ & F & L & _).
    split; [exact F|exact L].
  - intros ts timestamp Hts (vt & Ht) Hle. unfold run. rewrite fold_left_app.
    cbn [fold_left]. fold (run ts (requestAnimationFrame e0)).
    destruct (run_early K ts (requestAnimationFrame e0) HK eq_refl HI
                ltac:(now exists v1) Hts) as (P & F & L & I).
    cbn [requestAnimationFrame isPlaying lastFrameTime frameInterval frames e0]
      in F, L, I.
    destruct HI as (vI & HI & HI0).
    unfold _animate. rewrite P. cbn [negb]. rewrite L, I.
    rewrite (ms_value _ _ Ht), (ms_value _ _ H1), (ms_value _ _ HI) in Hle.
    rewrite <- of_units_add in Hle. apply of_units_le_inv in Hle.
    rewrite (elapsed_test_true _ _ _ vI v1 vt HI H1 Ht Hle).
    cbn. now rewrite F.
Qed.

Lemma play_restarts_pacing_witness :
  frames (run [5100; 5249]%float
            (resume 5000 5000 (construct (Some 4%float)))) = [] /\
  frames (run [5100; 5249; 5250]%float
            (resume 5000 5000 (construct (Some 4%float)))) = [5250%float].
Proof.
  destruct (play_restarts_pacing 40 (construct (Some 4%float)) 5000 5000)
    as (_ & _ & _ & _ & H1 & H2).
  - lia.
  - eexists. split; [split; reflexivity|vm_compute; reflexivity].
  - eexists. split; [split; reflexivity|vm_compute; reflexivity].
  - eexists. split; [split; reflexivity|vm_compute; reflexivity].
  - vm_compute. reflexivity.
  - split.
    + apply H1.
      repeat (apply Forall_cons; split;
              [split; [eexists; split; [split; reflexivity|vm_compute; reflexivity]
                      |vm_compute; reflexivity]|]).
      apply Forall_nil. trivial.
    + apply (H2 [5100; 5249]%float 5250%float).
      * repeat (apply Forall_cons; split;
                [split; [eexists; split; [split; reflexivity|vm_compute; reflexivity]
                        |vm_compute; reflexivity]|]).
        apply Forall_nil. trivial.
      * eexists. split; reflexivity.
      * vm_compute. discriminate.
Defined.

End Resume.

(** ** Stop and restart *)

Section Replay.

Import Metamorphosis.
Local Open Scope Q_scope.

(** No function of the animator reads the log of phases. *)
Lemma relog_render (pre : list Phase) (m : t) :
  render (relog pre m) = relog pre (render m).
Proof. destruct m as [[c|] ? ? ? ? ? ? ?]; reflexivity. Qed.

Lemma relog_set_state (pre : list Phase) (s : AnimationState) (m : t) :
  set_state s (relog pre m) = relog pre (set_state s m).
Proof. reflexivity. Qed.

Lemma relog_set_phase (pre : list Phase) (p : Phase) (m : t) :
  set_phase p (relog pre m) = relog pre (set_phase p m).
Proof. unfold set_phase, relog. cbn. now rewrite app_assoc. Qed.

Lemma relog_startFlowLoop (pre : list Phase) (m : t) :
  startFlowLoop (relog pre m) = relog pre (startFlowLoop m).
Proof. destruct m as [? ? [|] ? ? ? ? ?]; reflexivity. Qed.

Lemma relog_call (pre : list Phase) (cb : Callback) (m : t) :
  call cb (relog pre m) = relog pre (call cb m).
Proof.
  destruct cb as [|p|]; [reflexivity| |apply relog_startFlowLoop].
  destruct p; cbn [call]; rewrite relog_set_phase; reflexivity.
Qed.

Lemma relog_complete (pre : list Phase) (tw : Tween) (m : t) :
  complete tw (relog pre m) = relog pre (complete tw m).
Proof.
  unfold complete. cbv zeta.
  change (state (relog pre m)) with (state m). rewrite relog_set_state.
  destruct (onUpdate tw); rewrite ?relog_render; apply relog_call.
Qed.

Lemma relog_complete_all (pre : list Phase) (l : list Tween) (m : t) :
  fold_left (fun m tw => complete tw m) l (relog pre m)
  = relog pre (fold_left (fun m tw => complete tw m) l m).
Proof.
  revert m. induction l as [|tw l IH]; intros m; [reflexivity|].
  cbn [fold_left]. now rewrite relog_complete, IH.
Qed.

Lemma relog_tick (pre : list Phase) (dt : Q) (m : t) :
  tick dt (relog pre m) = relog pre (tick dt m).
Proof.
  unfold tick. cbv zeta.
  change (flowLoop (relog pre m)) with (flowLoop m).
  assert (E : forall m1 m2 : t, m1 = relog pre m2 ->
            match mainTimeline m1 with
            | Some tl =>
                if tl_paused tl then m1
                else fold_left (fun m tw => complete tw m)
                       (due (clock tl) (clock tl + dt) tl)
                       (mk (canvas m1) (currentPhase m1) (isRunning m1) (state m1)
                          (Some (advance dt tl)) (flowLoop m1) (cleared m1)
                          (phases m1))
            | None => m1
            end
            = relog pre
                match mainTimeline m2 with
                | Some tl =>
                    if tl_paused tl then m2
                    else fold_left (fun m tw => complete tw m)
                           (due (clock tl) (clock tl + dt) tl)
                           (mk (canvas m2) (currentPhase m2) (isRunning m2) (state m2)
                              (Some (advance dt tl)) (flowLoop m2) (cleared m2)
                              (phases m2))
                | None => m2
                end).
  { intros m1 m2 ->. change (mainTimeline (relog pre m2)) with (mainTimeline m2).
    destruct (mainTimeline m2) as [tl|]; [|reflexivity].
    destruct (tl_paused tl); [reflexivity|].
    rewrite <- relog_complete_all. reflexivity. }
  apply E.
  destruct (flowLoop m) as [a|]; [|reflexivity].
  destruct (a_paused a); [reflexivity|].
  now rewrite <- relog_render.
Qed.

Lemma relog_steps (pre : list Phase) (dts : list Q) (m : t) :
  steps dts (relog pre m) = relog pre (steps dts m).
Proof.
  unfold steps. revert m. induction dts as [|dt dts IH]; intros m; [reflexivity|].
  cbn [fold_left]. now rewrite relog_tick, IH.
Qed.

(** A replay is a first start with the earlier phases kept in the log. *)
Lemma replay_fresh (w sc se : Q) (idle : list Q) (m : t) :
  canvas m = Some w -> isRunning m = true ->
  replayMetamorphosis sc se idle m
  = relog (phases m) (startMetamorphosis sc se (loaded w)).
Proof.
  intros Hc Hr. unfold replayMetamorphosis.
  rewrite stopped_steps;
    [| unfold stopMetamorphosis; rewrite Hr; reflexivity
     | unfold stopMetamorphosis; rewrite Hr; reflexivity].
  unfold stopMetamorphosis, startMetamorphosis, loaded, runAnimation, relog.
  rewrite Hr. cbn. rewrite Hc. cbn. reflexivity.
Qed.

(** X15.  A replay runs the whole sequence again.  With a canvas in the
    page, replaying a running animator puts it back to phase start with
    the initial state and no flow loop; stepped on from there it enters
    the phases in the fixed order once more, after those it had entered
    before, and once the new timeline is covered all eight have been
    entered again, the current phase is flow and the flow loop is
    turning. *)
Theorem replay_runs_again (w sc se : Q) (m : t) (idle dts : list Q) :
  canvas m = Some w -> isRunning m = true ->
  0 <= sc -> 0 <= se -> Forall (Qle 0) dts ->
  let m1 := replayMetamorphosis sc se idle m in
  let m2 := steps dts m1 in
  currentPhase m1 = start /\ state m1 = initialState /\ isRunning m1 = true /\
  flowLoop m1 = None /\ phases m1 = phases m ++ [start] /\
  (exists k, (1 <= k)%nat /\ phases m2 = phases m ++ firstn k all_phases) /\
  (12507 + sc + se <= total dts ->
     phases m2 = phases m ++ all_phases /\ currentPhase m2 = flow /\
     isRunning m2 = true /\ looping m2).
Proof.
  intros Hc Hr Hsc Hse Hdts m1 m2.
  pose proof (replay_fresh w sc se idle m Hc Hr) as E1. fold m1 in E1.
  assert (E2 : m2 = relog (phases m) (steps dts (startMetamorphosis sc se (loaded w)))).
  { unfold m2. now rewrite E1, relog_steps. }
  destruct (runAnimation_timeline w sc se Hsc Hse)
    as (ch & D & HT & HD & Hasc & Hall & Hph & Hloop & Hinv).
  set (m0 := startMetamorphosis sc se (loaded w)) in *.
  destruct (steps_animating ch D 0 300 dts m0 Hasc Hdts Hinv)
    as (c & Hc' & (T & R & Cv & P & K & S1 & S0)).
  set (m' := steps dts m0) in *.
  split; [rewrite E1; reflexivity|]. split; [rewrite E1; reflexivity|].
  split; [rewrite E1; reflexivity|]. split; [rewrite E1; reflexivity|].
  split; [rewrite E1; reflexivity|]. split.
  - destruct (fired_prefix c 300 ch Hasc) as [k Hk].
    destruct (phases_of_prefix k (map snd ch)) as [j Hj].
    exists (S j). split; [lia|]. rewrite E2. cbn [relog phases]. f_equal.
    rewrite P, Hk, <- firstn_map, Hj, Hph. reflexivity.
  - intros Hlong.
    assert (Hf : fired c ch = ch).
    { apply fired_all. eapply Forall_impl; [exact Hall|]. cbn. intros x Hx. lra. }
    rewrite Hf in P, S1. rewrite Hph in P.
    rewrite E2. cbn [relog phases currentPhase isRunning].
    split; [now rewrite P|]. split; [rewrite K, P; reflexivity|].
    split; [exact R|]. exact (S1 Hloop).
Qed.

Lemma replay_runs_again_witness :
  phases (steps [20000; 500]
            (replayMetamorphosis 32 30 [100]
               (steps [2000] (startMetamorphosis 32 30 (loaded 800)))))
  = [start; chaos; order] ++ all_phases.
Proof.
  destruct (replay_runs_again 800 32 30
              (steps [2000] (startMetamorphosis 32 30 (loaded 800)))
              [100] [20000; 500] eq_refl eq_refl)
    as (_ & _ & _ & _ & _ & _ & H).
  - lra.
  - lra.
  - repeat (apply Forall_cons; split; [lra|]). apply Forall_nil. trivial.
  - destruct H as (P & _).
    + vm_compute. discriminate.
    + exact P.
Defined.

End Replay.

(** ** The reduced-motion preference *)

Section ReducedMotion.

Import Metamorphosis.
Local Open Scope Q_scope.

(** X20.  The reduced-motion preference does not keep the animation from
    running.  On a page with the canvas, [initMetamorphosis] under
    [prefers-reduced-motion] logs that the animation is disabled and skips
    the set-up, but it has stored the canvas already; a later
    [startMetamorphosis] therefore finds it, sets the running flag and
    builds the timeline, and stepping over the whole timeline enters all
    eight phases and starts the flow loop, exactly as without the
    preference. *)
Theorem reduced_motion_still_runs (w sc se : Q) (dts : list Q) :
  0 <= sc -> 0 <= se -> Forall (Qle 0) dts -> 12507 + sc + se <= total dts ->
  let r := initMetamorphosis (Some w) true unloaded in
  let m1 := startMetamorphosis sc se (fst (fst r)) in
  snd r = "[Metamorphosis] Disabled due to reduced motion preference"%string /\
  snd (fst r) = false /\
  m1 = startMetamorphosis sc se (fst (fst (initMetamorphosis (Some w) false unloaded))) /\
  isRunning m1 = true /\ currentPhase m1 = start /\
  phases (steps dts m1) = all_phases /\
  currentPhase (steps dts m1) = flow /\
  looping (steps dts m1).
Proof.
  intros Hsc Hse Hdts Hlong r m1.
  split; [reflexivity|]. split; [reflexivity|]. split; [reflexivity|].
  change m1 with (startMetamorphosis sc se (loaded w)).
  destruct (runAnimation_timeline w sc se Hsc Hse)
    as (ch & D & HT & HD & Hasc & Hall & Hph & Hloop & Hinv).
  set (m0 := startMetamorphosis sc se (loaded w)) in *.
  destruct (steps_animating ch D 0 300 dts m0 Hasc Hdts Hinv)
    as (c & Hc & (T & R & Cv & P & K & S1 & S0)).
  assert (Hf : fired c ch = ch).
  { apply fired_all. eapply Forall_impl; [exact Hall|]. cbn. intros x Hx. lra. }
  rewrite Hf in P, S1. rewrite Hph in P.
  split; [reflexivity|]. split; [reflexivity|].
  split; [exact P|]. split; [rewrite K, P; reflexivity|]. exact (S1 Hloop).
Qed.

Lemma reduced_motion_still_runs_witness :
  phases (steps [20000; 500]
            (startMetamorphosis 32 30
               (fst (fst (initMetamorphosis (Some 800) true unloaded)))))
  = all_phases.
Proof.
  destruct (reduced_motion_still_runs 800 32 30 [20000; 500])
    as (_ & _ & _ & _ & _ & P & _).
  - lra.
  - lra.
  - repeat (apply Forall_cons; split; [lra|]). apply Forall_nil. trivial.
  - vm_compute. discriminate.
  - exact P.
Defined.

End ReducedMotion.

(** ** The seeded generator *)

Lemma uint32_range (z : Z) : 0 <= uint32 z < 2 ^ 32.
Proof. unfold uint32. apply Z.mod_pos_bound. lia. Qed.

(** The value of [u / 4294967296] for a 32-bit [u]. *)
Lemma fraction32_value (u : Z) :
  0 <= u < 2 ^ 32 ->
  has_value (num_of_Z u / 4294967296)%float (u * 2 ^ (B64.bias - 32)).
Proof.
  intros Hu.
  pose proof (num_of_Z_value u ltac:(lia)) as Vu.
  pose proof (num_of_Z_value (2 ^ 32) ltac:(lia)) as Vd.
  change (num_of_Z (2 ^ 32)) with 4294967296%float in Vd.
  assert (Pb : 2 ^ B64.bias = 2 ^ 32 * 2 ^ (B64.bias - 32)).
  { rewrite <- Z.pow_add_r by (rewrite ?bias_val; lia). f_equal; lia. }
  assert (Pp : 0 < 2 ^ (B64.bias - 32)) by (apply pow2_pos; rewrite bias_val; lia).
  assert (Pd : 0 < units (2 ^ 32)) by (apply units_pos; lia).
  assert (E : B64.rnd (units u * 2 ^ B64.bias) (units (2 ^ 32))
              = u * 2 ^ (B64.bias - 32)).
  { replace (units u * 2 ^ B64.bias)
      with (u * 2 ^ (B64.bias - 32) * units (2 ^ 32)).
    - apply rnd_exact; [exact Pd|lia|rewrite gmin_val, bias_val; lia].
    - unfold units. rewrite Pb at 2. ring. }
  rewrite <- E. apply div_value; [exact Vu|exact Vd|exact Pd|].
  rewrite E. apply Z.lt_trans with (units (2 ^ 32)); [|apply small_below_top; lia].
  unfold units. rewrite Pb.
  set (P := 2 ^ (B64.bias - 32)) in *. clearbody P. nia.
Qed.

Lemma fraction32_props (u : Z) :
  0 <= u < 2 ^ 32 ->
  let r := (num_of_Z u / 4294967296)%float in
  (0 <=? r)%float = true /\ (r <? 1)%float = true /\
  (r * 4294967296)%float = num_of_Z u.
Proof.
  intros Hu r.
  pose proof (fraction32_value u Hu) as V. fold r in V.
  assert (Pb : 2 ^ B64.bias = 2 ^ 32 * 2 ^ (B64.bias - 32)).
  { rewrite <- Z.pow_add_r by (rewrite ?bias_val; lia). f_equal; lia. }
  assert (Pp : 0 < 2 ^ (B64.bias - 32)) by (apply pow2_pos; rewrite bias_val; lia).
  split; [|split].
  - rewrite (leb_value _ _ _ _ has_value_0 V). apply Z.leb_le.
    apply Z.mul_nonneg_nonneg; lia.
  - rewrite (ltb_value _ _ _ _ V has_value_1). apply Z.ltb_lt.
    unfold units. rewrite Pb.
    set (P := 2 ^ (B64.bias - 32)) in *. clearbody P. nia.
  - pose proof (num_of_Z_value (2 ^ 32) ltac:(lia)) as Vd.
    change (num_of_Z (2 ^ 32)) with 4294967296%float in Vd.
    apply (has_value_inj _ _ (units u)); [|apply num_of_Z_value; lia].
    assert (E : B64.rnd (u * 2 ^ (B64.bias - 32) * units (2 ^ 32)) (2 ^ B64.bias)
                = units u).
    { replace (u * 2 ^ (B64.bias - 32) * units (2 ^ 32))
        with (u * 2 ^ B64.bias * 2 ^ B64.bias)
        by (unfold units; rewrite Pb at 2; ring).
      apply rnd_exact; [apply pow2_pos; rewrite bias_val; lia|lia|].
      rewrite gmin_val, bias_val; lia. }
    rewrite <- E. apply mul_value; [exact V|exact Vd|].
    rewrite E. apply small_below_top. lia.
Qed.

(** X16.  Whatever the seed, a call of the generator returns a Number in
    [0, 1): a 32-bit unsigned integer divided by [2^32]. *)
Theorem mulberry32_unit_interval (seed : float) :
  let r := fst (mulberry32 seed) in
  (0 <=? r)%float = true /\ (r <? 1)%float = true /\
  exists u, 0 <= u < 2 ^ 32 /\ r = (num_of_Z u / 4294967296)%float /\
            (r * 4294967296)%float = num_of_Z u.
Proof.
  cbv zeta. unfold mulberry32. cbv zeta. cbn [fst].
  match goal with
  | |- context [num_of_Z (uint32 ?z)] =>
      destruct (fraction32_props (uint32 z) (uint32_range z)) as (A & B & C);
      split; [exact A|split; [exact B|]];
      exists (uint32 z); split; [apply uint32_range|split; [reflexivity|exact C]]
  end.
Qed.

(** ** The particles *)

Lemma mulberry32_fraction (seed : float) :
  exists u seed', mulberry32 seed = ((num_of_Z u / 4294967296)%float, seed') /\
                  0 <= u < 2 ^ 32.
Proof.
  unfold mulberry32. cbv zeta. eexists _, _. split; [reflexivity|].
  apply uint32_range.
Qed.

(** A draw scaled by a positive integer [W] stays below [W]: the product
    rounds to a binary64 number, and the largest one below [W] is not
    smaller than [(1 - 2^-32) W]. *)
Lemma scaled_below (u W : Z) :
  0 <= u < 2 ^ 32 -> 1 <= W < 2 ^ 53 ->
  let x := (num_of_Z u / 4294967296 * num_of_Z W)%float in
  (0 <=? x)%float = true /\ (x <? num_of_Z W)%float = true.
Proof.
  intros Hu HW x.
  pose proof (fraction32_value u Hu) as V.
  pose proof (num_of_Z_value W ltac:(lia)) as VW.
  set (k := 52 - Z.log2 W).
  assert (Hk : 0 <= k <= 52).
  { pose proof (Z.log2_nonneg W). 
    assert (Z.log2 W < 53) by (apply Z.log2_lt_pow2; lia). unfold k. lia. }
  assert (HT : 2 ^ 52 <= W * 2 ^ k < 2 ^ 53).
  { destruct (log2_bounds W ltac:(lia)) as [L1 L2].
    assert (P : 0 < 2 ^ k) by (apply pow2_pos; lia).
    assert (E52 : 2 ^ 52 = 2 ^ Z.log2 W * 2 ^ k).
    { rewrite <- Z.pow_add_r by (pose proof (Z.log2_nonneg W); lia).
      f_equal. unfold k. lia. }
    assert (E53 : 2 ^ 53 = 2 ^ (Z.log2 W + 1) * 2 ^ k).
    { rewrite <- Z.pow_add_r by (pose proof (Z.log2_nonneg W); lia).
      f_equal. unfold k. lia. }
    rewrite E52, E53. clear E52 E53. split.
    - apply Z.mul_le_mono_nonneg_r; lia.
    - apply Z.mul_lt_mono_pos_r; lia. }
  set (T := W * 2 ^ k) in *.
  set (Qk := 2 ^ (B64.bias - k - 32)).
  assert (PQ : 0 < Qk) by (apply pow2_pos; rewrite bias_val; lia).
  assert (EP : 2 ^ (B64.bias - 32) = 2 ^ k * Qk).
  { unfold Qk. rewrite <- Z.pow_add_r by (rewrite ?bias_val; lia). f_equal; lia. }
  assert (Eg : 2 ^ (B64.bias - k) = 2 ^ 32 * Qk).
  { unfold Qk. rewrite <- Z.pow_add_r by (rewrite ?bias_val; lia). f_equal; lia. }
  assert (EB : 2 ^ B64.bias = 2 ^ k * (2 ^ 32 * Qk)).
  { rewrite <- Eg, <- Z.pow_add_r by (rewrite ?bias_val; lia). f_equal; lia. }
  assert (PB : 0 < 2 ^ B64.bias) by (apply pow2_pos; rewrite bias_val; lia).
  assert (EW : units W = T * (2 ^ 32 * Qk)).
  { unfold units, T. rewrite EB. ring. }
  (* the binary64 number just below W *)
  assert (Ez : B64.rnd ((T - 1) * 2 ^ (B64.bias - k) * 2 ^ B64.bias) (2 ^ B64.bias)
               = (T - 1) * 2 ^ (B64.bias - k)).
  { apply rnd_exact; [exact PB|lia|rewrite gmin_val, bias_val; lia]. }
  assert (Hle : B64.rnd (u * 2 ^ (B64.bias - 32) * units W) (2 ^ B64.bias)
                <= (T - 1) * 2 ^ (B64.bias - k)).
  { rewrite <- Ez. apply rnd_mono; [exact PB|exact PB|].
    apply Z.mul_le_mono_nonneg_r; [lia|].
    rewrite EW, EP, Eg. 
    assert (Hprod : u * (2 ^ k * Qk) * (T * (2 ^ 32 * Qk))
                    = (u * T * Qk) * (2 ^ k * (2 ^ 32 * Qk))) by ring.
    rewrite Hprod, EB.
    apply Z.mul_le_mono_nonneg_r.
    - apply Z.mul_nonneg_nonneg; [apply Z.lt_le_incl, pow2_pos; lia|lia].
    - clearbody T Qk. clear -Hu HT PQ. nia. }
  assert (Hlt : (T - 1) * 2 ^ (B64.bias - k) < units W).
  { rewrite EW, Eg. clearbody T Qk. clear -HT PQ. nia. }
  assert (H0 : 0 <= B64.rnd (u * 2 ^ (B64.bias - 32) * units W) (2 ^ B64.bias)).
  { rewrite <- (rnd_0 (2 ^ B64.bias)) at 1 by exact PB.
    apply rnd_mono; [exact PB|exact PB|].
    rewrite Z.mul_0_l. apply Z.mul_nonneg_nonneg; [|lia].
    apply Z.mul_nonneg_nonneg; [|apply units_nonneg; lia].
    apply Z.mul_nonneg_nonneg; [lia|].
    apply Z.lt_le_incl, pow2_pos. rewrite bias_val. lia. }
  assert (Vx : has_value x (B64.rnd (u * 2 ^ (B64.bias - 32) * units W)
                              (2 ^ B64.bias))).
  { apply mul_value; [exact V|exact VW|].
    apply Z.le_lt_trans with ((T - 1) * 2 ^ (B64.bias - k)); [exact Hle|].
    apply Z.lt_trans with (units W); [exact Hlt|].
    apply small_below_top. lia. }
  split.
  - rewrite (leb_value _ _ _ _ has_value_0 Vx). now apply Z.leb_le.
  - rewrite (ltb_value _ _ _ _ Vx VW). apply Z.ltb_lt.
    eapply Z.le_lt_trans; [exact Hle|exact Hlt].
Qed.

Lemma fold_nested_flat {A : Type} (f : A -> nat -> nat -> A) (n m : nat) (a : A) :
  (0 < m)%nat ->
  fold_left (fun a r => fold_left (fun a c => f a r c) (seq 0 m) a) (seq 0 n) a
  = fold_left (fun a p => f a (p / m)%nat (p mod m)%nat) (seq 0 (n * m)) a.
Proof.
  intros Hm. induction n as [|n IH].
  - reflexivity.
  - rewrite seq_S, fold_left_app, IH. cbn [fold_left].
    replace (S n * m)%nat with (n * m + m)%nat by lia.
    rewrite seq_app, fold_left_app. cbn [Nat.add].
    rewrite (fold_left_seq_shift _ (n * m) m). symmetry.
    apply fold_left_ext. intros b x Hin. apply in_seq in Hin.
    rewrite Nat.add_comm, Nat.Div0.mod_add, Nat.div_add by lia.
    rewrite Nat.mod_small, Nat.div_small by lia. reflexivity.
Qed.

(** After the first [n] iterations of a loop that appends one element per
    iteration, element [i] is the one iteration [i] made. *)
Lemma fold_push {S B : Type} (step : S -> nat -> S * B) (good : nat -> B -> Prop)
    (n : nat) (s0 : S) :
  (forall s i, good i (snd (step s i))) ->
  let st := fold_left (fun '(s, l) i => let '(s', b) := step s i in (s', l ++ [b]))
              (seq 0 n) (s0, []) in
  length (snd st) = n /\
  forall i, (i < n)%nat -> exists b, snd st !! i = Some b /\ good i b.
Proof.
  intros Hgood. induction n as [|n IH]; cbv zeta.
  - cbn. split; [reflexivity|]. intros; lia.
  - rewrite seq_S, fold_left_app. cbn [fold_left Nat.add].
    cbv zeta in IH. destruct IH as [L G].
    destruct (fold_left _ (seq 0 n) (s0, [])) as [s l]. cbn [snd] in *.
    pose proof (Hgood s n) as Hn.
    destruct (step s n) as [s' b]. cbn [snd] in *.
    split; [rewrite length_app; cbn; lia|].
    intros i Hi. destruct (Nat.eq_dec i n) as [->|Hne].
    + exists b. split; [|exact Hn].
      rewrite lookup_app_r by lia. now rewrite L, Nat.sub_diag.
    + destruct (G i ltac:(lia)) as (b' & Hb' & Gb'). exists b'.
      split; [|exact Gb']. rewrite lookup_app_l by lia. exact Hb'.
Qed.

(** X17.  On a canvas of positive integer width and height,
    [initParticles] creates 450 particles, row by row: the particle at
    index [30 r + c] has grid row [r] and grid column [c], starts at the
    centre of the canvas, and its chaos position lies inside the canvas,
    [0 <= chaosX < width] and [0 <= chaosY < height]. *)
Theorem initParticles_layout (W H : Z) :
  1 <= W < 2 ^ 53 -> 1 <= H < 2 ^ 53 ->
  let w := num_of_Z W in
  let h := num_of_Z H in
  let centerX := fst (fst (initParticles w h)) in
  let centerY := snd (fst (initParticles w h)) in
  let particles := snd (initParticles w h) in
  centerX = (w / 2)%float /\ centerY = (h / 2)%float /\
  length particles = 450%nat /\
  forall r c, (r < 15)%nat -> (c < 30)%nat ->
    exists p, particles !! (r * 30 + c)%nat = Some p /\
      gridRow p = r /\ gridCol p = c /\
      p_x p = centerX /\ p_y p = centerY /\
      (0 <=? chaosX p)%float = true /\ (chaosX p <? w)%float = true /\
      (0 <=? chaosY p)%float = true /\ (chaosY p <? h)%float = true.
Proof.
  intros HW HH w h. unfold initParticles. cbv zeta.
  set (offX := ((w - _) / 2)%float). set (offY := ((h - _) / 2)%float).
  rewrite (fold_nested_flat
             (fun st r c => pushParticle w h (w / 2) (h / 2) offX offY r c st)
             CONFIG_rows CONFIG_cols) by (unfold CONFIG_cols; lia).
  set (step := fun (seed : float) (p : nat) =>
         let '(u, seed0) := mulberry32 seed in
         let '(v, seed1) := mulberry32 seed0 in
         (seed1,
          mkParticle (w / 2) (h / 2) (u * w) (v * h)
            (offX + num_of_Z (Z.of_nat (p mod CONFIG_cols)) * CONFIG_gridSpacing)
            (offY + num_of_Z (Z.of_nat (p / CONFIG_cols)) * CONFIG_gridSpacing)
            (p / CONFIG_cols) (p mod CONFIG_cols))).
  set (good := fun (i : nat) (p : Particle) =>
         gridRow p = (i / CONFIG_cols)%nat /\ gridCol p = (i mod CONFIG_cols)%nat /\
         p_x p = (w / 2)%float /\ p_y p = (h / 2)%float /\
         (0 <=? chaosX p)%float = true /\ (chaosX p <? w)%float = true /\
         (0 <=? chaosY p)%float = true /\ (chaosY p <? h)%float = true).
  assert (Hgood : forall s i, good i (snd (step s i))).
  { intros s i. unfold step.
    destruct (mulberry32_fraction s) as (u & s0 & -> & Hu).
    destruct (mulberry32_fraction s0) as (v & s1 & -> & Hv).
    cbn [snd]. unfold good. cbn [gridRow gridCol p_x p_y chaosX chaosY].
    destruct (scaled_below u W Hu HW) as [A1 A2].
    destruct (scaled_below v H Hv HH) as [B1 B2].
    repeat split; assumption. }
  pose proof (fold_push step good (CONFIG_rows * CONFIG_cols) 12345%float Hgood) as F.
  cbv zeta in F.
  assert (E : forall l (st : float * list Particle),
    fold_left (fun a p =>
                 pushParticle w h (w / 2) (h / 2) offX offY (p / CONFIG_cols) (p mod CONFIG_cols) a)
      l st
    = fold_left (fun '(s, l) i => let '(s', b) := step s i in (s', l ++ [b])) l st).
  { intros l. induction l as [|p l IH]; intros st; [reflexivity|].
    cbn [fold_left]. rewrite <- IH. f_equal.
    destruct st as [s pl]. unfold step, pushParticle.
    destruct (mulberry32 s) as [u s0]. destruct (mulberry32 s0) as [v s1].
    reflexivity. }
  rewrite E.
  destruct (fold_left _ (seq 0 (CONFIG_rows * CONFIG_cols)) (12345%float, [])) as [sN pl].
  cbn [fst snd] in *. destruct F as [L G].
  split; [reflexivity|]. split; [reflexivity|]. split; [exact L|].
  intros r c Hr Hc.
  destruct (G (r * 30 + c)%nat) as (p & Hp & Gp).
  { unfold CONFIG_rows, CONFIG_cols. lia. }
  exists p. split; [exact Hp|].
  unfold good, CONFIG_cols in Gp.
  rewrite Nat.div_add_l, Nat.div_small, Nat.add_0_r in Gp by lia.
  rewrite Nat.add_comm, Nat.Div0.mod_add, Nat.mod_small in Gp by lia.
  exact Gp.
Qed.

Lemma initParticles_layout_witness :
  length (snd (initParticles (num_of_Z 800) (num_of_Z 600))) = 450%nat /\
  exists p,
    snd (initParticles (num_of_Z 800) (num_of_Z 600)) !! 449%nat = Some p /\
    gridRow p = 14%nat /\ gridCol p = 29%nat /\
    (chaosX p <? num_of_Z 800)%float = true.
Proof.
  destruct (initParticles_layout 800 600 ltac:(lia) ltac:(lia))
    as (_ & _ & L & G).
  split; [exact L|].
  destruct (G 14%nat 29%nat ltac:(lia) ltac:(lia))
    as (p & Hp & R & C & _ & _ & _ & X & _).
  exists p. repeat split; assumption.
Defined.

(** ** The size of the character grid *)

Lemma rnd_pow2 (n b : Z) : 0 < b -> B64.gmin <= n -> B64.rnd (2 ^ n * b) b = 2 ^ n.
Proof.
  intros Hb Hn. rewrite <- (Z.mul_1_l (2 ^ n)).
  apply rnd_exact; [exact Hb|lia|exact Hn].
Qed.

Lemma pow2_below_top (n : Z) : 0 <= n < 1024 + B64.bias -> 2 ^ n < B64.top.
Proof. intros Hn. unfold B64.top. apply Z.pow_lt_mono_r; lia. Qed.

(** Bounds by powers of two pass through a product and a quotient. *)
Lemma mul_bounded x y vx vy n m :
  has_value x vx -> has_value y vy -> vx <= 2 ^ n -> vy <= 2 ^ m ->
  0 <= n -> 0 <= m -> B64.gmin <= n + m - B64.bias < 1024 + B64.bias ->
  exists v, has_value (x * y) v /\ v <= 2 ^ (n + m - B64.bias).
Proof.
  intros Hx Hy Bx By Hn Hm Hg.
  pose proof (has_value_nonneg _ _ Hx) as Px.
  pose proof (has_value_nonneg _ _ Hy) as Py.
  pose proof (pow2_pos B64.bias ltac:(now rewrite bias_val)) as PB.
  assert (Hle : B64.rnd (vx * vy) (2 ^ B64.bias) <= 2 ^ (n + m - B64.bias)).
  { rewrite <- (rnd_pow2 (n + m - B64.bias) (2 ^ B64.bias)) by (exact PB || lia).
    apply rnd_mono; [exact PB|exact PB|].
    apply Z.mul_le_mono_nonneg_r; [lia|].
    rewrite <- Z.pow_add_r by (rewrite ?gmin_val, ?bias_val in *; lia).
    replace (n + m - B64.bias + B64.bias) with (n + m) by lia.
    rewrite Z.pow_add_r by lia.
    apply Z.mul_le_mono_nonneg; assumption. }
  eexists. split; [|exact Hle].
  apply mul_value; [exact Hx|exact Hy|].
  eapply Z.le_lt_trans; [exact Hle|].
  apply pow2_below_top. rewrite gmin_val in Hg. lia.
Qed.

Lemma div_bounded x y vx vy n m :
  has_value x vx -> has_value y vy -> vx <= 2 ^ n -> 2 ^ m <= vy ->
  0 <= n -> 0 <= m -> B64.gmin <= n - m + B64.bias < 1024 + B64.bias ->
  exists v, has_value (x / y) v /\ v <= 2 ^ (n - m + B64.bias).
Proof.
  intros Hx Hy Bx By Hn Hm Hg.
  pose proof (has_value_nonneg _ _ Hx) as Px.
  pose proof (pow2_pos B64.bias ltac:(now rewrite bias_val)) as PB.
  pose proof (pow2_pos m Hm) as Pm.
  assert (Py : 0 < vy) by lia.
  assert (Hle : B64.rnd (vx * 2 ^ B64.bias) vy <= 2 ^ (n - m + B64.bias)).
  { rewrite <- (rnd_pow2 (n - m + B64.bias) 1) by lia.
    apply rnd_mono; [exact Py|lia|].
    rewrite !Z.mul_1_r.
    apply Z.le_trans with (2 ^ n * 2 ^ B64.bias).
    - apply Z.mul_le_mono_nonneg_r; lia.
    - apply Z.le_trans with (2 ^ (n - m + B64.bias) * 2 ^ m).
      + rewrite <- !Z.pow_add_r by (rewrite ?gmin_val, ?bias_val in *; lia).
        apply Z.pow_le_mono_r; lia.
      + apply Z.mul_le_mono_nonneg_l; [|exact By].
        apply Z.lt_le_incl, pow2_pos. rewrite gmin_val in Hg. lia. }
  eexists. split; [|exact Hle].
  apply div_value; [exact Hx|exact Hy|exact Py|].
  eapply Z.le_lt_trans; [exact Hle|].
  apply pow2_below_top. rewrite gmin_val in Hg. lia.
Qed.

Lemma div_above x y vx vy n :
  has_value x vx -> has_value y vy -> 0 < vy ->
  2 ^ n * vy <= vx * 2 ^ B64.bias -> B64.gmin <= n ->
  B64.rnd (vx * 2 ^ B64.bias) vy < B64.top ->
  exists v, has_value (x / y) v /\ 2 ^ n <= v.
Proof.
  intros Hx Hy Py Hle Hn Htop.
  eexists. split; [apply div_value; eassumption|].
  rewrite <- (rnd_pow2 n 1) by lia.
  apply rnd_mono; [lia|exact Py|]. lia.
Qed.

(** Multiplying by a small power of two is exact. *)
Lemma scale_value x v k n :
  has_value x v -> 0 <= k < 53 -> 0 <= n -> v <= 2 ^ n ->
  n + k < 1024 + B64.bias ->
  has_value (x * num_of_Z (2 ^ k)) (v * 2 ^ k).
Proof.
  intros Hx Hk Hn Bv Hnk.
  pose proof (pow2_pos B64.bias ltac:(now rewrite bias_val)) as PB.
  pose proof (pow2_pos k ltac:(lia)) as Pk.
  assert (Hk53 : 2 ^ k < 2 ^ 53) by (apply Z.pow_lt_mono_r; lia).
  pose proof (num_of_Z_value (2 ^ k) ltac:(lia)) as Vk.
  assert (E : B64.rnd (v * units (2 ^ k)) (2 ^ B64.bias) = v * 2 ^ k).
  { destruct Hx as [N V]. pose proof (Prim2SF_valid x) as Vx.
    destruct (nonneg_cases _ N) as [E|(m & e & E)]; rewrite E in *;
      cbn [B64.value] in V; subst v.
    - rewrite !Z.mul_0_l. now apply rnd_0.
    - apply valid_finite_inv in Vx as (Hm & He & _).
      replace (Z.pos m * 2 ^ (e + B64.bias) * units (2 ^ k))
        with (Z.pos m * 2 ^ (e + B64.bias + k) * 2 ^ B64.bias).
      + rewrite rnd_exact; [|exact PB|lia|rewrite gmin_val, bias_val; lia].
        rewrite Z.pow_add_r by (rewrite ?bias_val; lia). ring.
      + unfold units. rewrite Z.pow_add_r by (rewrite ?bias_val; lia). ring. }
  rewrite <- E. apply mul_value; [exact Hx|exact Vk|].
  rewrite E. apply Z.le_lt_trans with (2 ^ n * 2 ^ k).
  - apply Z.mul_le_mono_nonneg_r; lia.
  - rewrite <- Z.pow_add_r by lia. apply pow2_below_top. lia.
Qed.

Lemma has_value_half : has_value 0.5 (2 ^ (B64.bias - 1)).
Proof.
  split; [reflexivity|].
  change (Prim2SF 0.5) with (S754_finite false 4503599627370496 (-53)).
  cbn [B64.value].
  change (Z.pos 4503599627370496) with (2 ^ 52).
  rewrite <- Z.pow_add_r by (rewrite ?bias_val; lia). f_equal.
Qed.

(** [Math.round] of a non-negative Number is a non-negative integer. *)
Lemma Math_round_value x v :
  has_value x v ->
  exists k, 0 <= k /\ has_value (Math_round x) (units k).
Proof.
  intros Hx. pose proof (has_value_nonneg _ _ Hx) as Pv.
  pose proof (pow2_pos B64.bias ltac:(now rewrite bias_val)) as PB.
  pose proof (Math_floor_value x v Hx) as Hf.
  set (k := v / 2 ^ B64.bias) in *.
  assert (Hk : 0 <= k) by (apply Z.div_pos; lia).
  assert (Hkv : units k <= v) by (unfold units, k; rewrite Z.mul_comm; apply Z.mul_div_le; lia).
  unfold Math_round. cbv zeta.
  rewrite (ltb_value x 0 v 0 Hx has_value_0).
  replace (v <? 0) with false by (symmetry; apply Z.ltb_ge; lia).
  rewrite andb_false_r.
  pose proof (sub_value _ _ _ _ Hx Hf Hkv) as Hs.
  rewrite (ltb_value _ _ _ _ Hs has_value_half).
  destruct (Z.ltb_spec (B64.rnd (v - units k) 1) (2 ^ (B64.bias - 1))) as [Hlt|Hge].
  - exists k. split; assumption.
  - assert (Hsmall : k < 2 ^ 52).
    { destruct (Z.lt_ge_cases k (2 ^ 52)) as [|Hbig]; [assumption|exfalso].
      assert (Hv : units (2 ^ 52) <= v)
        by (apply Z.le_trans with (units k); [apply units_le; lia|exact Hkv]).
      pose proof (large_integral x v Hx Hv) as Ev. fold k in Ev.
      rewrite <- Ev, Z.sub_diag, rnd_0 in Hge by lia.
      pose proof (pow2_pos (B64.bias - 1) ltac:(rewrite bias_val; lia)) as Ph.
      exact (Z.lt_irrefl _ (Z.lt_le_trans _ _ _ Ph Hge)). }
    exists (k + 1). split; [lia|].
    rewrite <- (rnd_units (k + 1)), <- units_add by lia.
    apply add_value; [exact Hf|exact has_value_1|].
    rewrite units_add, rnd_units by lia. apply small_below_top. lia.
Qed.

(** The dimensions of the media element, with the fallback. *)
Lemma or_default_value (V D : Z) :
  0 <= V < 2 ^ 32 -> 1 <= D < 2 ^ 32 ->
  exists V', 1 <= V' < 2 ^ 32 /\
    has_value (or_default (num_of_Z V) (num_of_Z D)) (units V').
Proof.
  intros HV HD. pose proof (num_of_Z_value V ltac:(lia)) as Vv.
  unfold or_default.
  rewrite (eqb_value _ _ _ _ Vv has_value_0), (is_nan_value _ _ Vv), orb_false_r.
  destruct (Z.eqb_spec (units V) 0) as [E|N].
  - exists D. split; [lia|]. apply num_of_Z_value. lia.
  - exists V. split; [|exact Vv].
    assert (V <> 0) by (intros ->; apply N, units_0). lia.
Qed.

Lemma units_pow2 (n : Z) : 0 <= n -> units (2 ^ n) = 2 ^ (B64.bias + n).
Proof.
  intros Hn. unfold units.
  rewrite <- Z.pow_add_r by (rewrite ?bias_val; lia). f_equal. lia.
Qed.

(** The aspect ratio is at least [2^-32]. *)
Lemma aspect_value (VW VH : Z) :
  1 <= VW < 2 ^ 32 -> 1 <= VH < 2 ^ 32 ->
  forall x y, has_value x (units VW) -> has_value y (units VH) ->
  exists a, has_value (x / y) a /\ 2 ^ (B64.bias - 32) <= a.
Proof.
  intros HW HH x y Hx Hy.
  pose proof (pow2_pos B64.bias ltac:(now rewrite bias_val)) as PB.
  assert (Py : 0 < units VH) by (apply units_pos; lia).
  assert (E : 2 ^ B64.bias = 2 ^ (B64.bias - 32) * 2 ^ 32).
  { rewrite <- Z.pow_add_r by (rewrite ?bias_val; lia). f_equal; lia. }
  assert (Pp : 0 < 2 ^ (B64.bias - 32)) by (apply pow2_pos; rewrite bias_val; lia).
  assert (Hup : B64.rnd (units VW * 2 ^ B64.bias) (units VH) <= 2 ^ (B64.bias + 32)).
  { rewrite <- (rnd_pow2 (B64.bias + 32) 1) by (rewrite ?gmin_val, ?bias_val; lia).
    apply rnd_mono; [exact Py|lia|].
    rewrite !Z.mul_1_r, Z.pow_add_r by (rewrite ?bias_val; lia).
    unfold units. set (B := 2 ^ B64.bias) in *. clearbody B.
    clear -HW HH PB. nia. }
  assert (Hlo : 2 ^ (B64.bias - 32) <= B64.rnd (units VW * 2 ^ B64.bias) (units VH)).
  { rewrite <- (rnd_pow2 (B64.bias - 32) 1) at 1 by (rewrite ?gmin_val, ?bias_val; lia).
    apply rnd_mono; [lia|exact Py|].
    rewrite !Z.mul_1_r. unfold units. rewrite E at 2.
    set (P := 2 ^ (B64.bias - 32)) in *. set (B := 2 ^ B64.bias) in *.
    clearbody P B. clear -HW HH Pp PB. nia. }
  eexists. split; [|exact Hlo].
  apply div_value; [exact Hx|exact Hy|exact Py|].
  eapply Z.le_lt_trans; [exact Hup|].
  apply pow2_below_top. rewrite bias_val. lia.
Qed.

(** [Math.floor(width / 2) * 2]: the width rounded down to an even number. *)
Lemma even_width (W : Z) :
  0 <= W < 2 ^ 53 ->
  (Math_floor (num_of_Z W / 2) * 2)%float = num_of_Z (2 * (W / 2)).
Proof.
  intros HW.
  assert (Hh : 0 <= W / 2 < 2 ^ 52).
  { split; [apply Z.div_pos; lia|]. apply Z.div_lt_upper_bound; lia. }
  assert (Hh2 : 0 <= 2 * (W / 2) < 2 ^ 53) by lia.
  assert (H1 : 0 <= 1 < 53) by lia.
  assert (Hn : 0 <= B64.bias + 52) by (rewrite bias_val; lia).
  assert (Hn1 : B64.bias + 52 + 1 < 1024 + B64.bias) by lia.
  assert (Hg : B64.gmin <= B64.bias - 1) by (rewrite gmin_val, bias_val; lia).
  assert (Hb1 : 0 <= B64.bias - 1) by (rewrite bias_val; lia).
  assert (Hu52 : units (W / 2) <= units (2 ^ 52)) by (apply units_le; lia).
  pose proof (num_of_Z_value W HW) as VW.
  pose proof (num_of_Z_value 2 ltac:(lia)) as V2.
  pose proof (num_of_Z_value (2 * (W / 2)) Hh2) as VE.
  pose proof (small_below_top W ltac:(lia)) as HWtop.
  assert (HW53 : 0 <= W < 2 ^ 53) by exact HW.
  destruct HW as [HW0 _].
  change (num_of_Z 2) with 2%float in V2.
  pose proof (pow2_pos B64.bias ltac:(now rewrite bias_val)) as PB.
  pose proof (pow2_pos (B64.bias - 1) Hb1) as Pp.
  assert (Eb : 2 ^ B64.bias = 2 ^ (B64.bias - 1) * 2).
  { rewrite <- (Z.pow_1_r 2) at 3.
    rewrite <- Z.pow_add_r; [f_equal; ring|exact Hb1|discriminate]. }
  assert (P2 : 0 < units 2) by (apply units_pos; reflexivity).
  assert (E : B64.rnd (units W * 2 ^ B64.bias) (units 2) = W * 2 ^ (B64.bias - 1)).
  { replace (units W * 2 ^ B64.bias) with (W * 2 ^ (B64.bias - 1) * units 2).
    2:{ unfold units.
        transitivity (W * (2 ^ (B64.bias - 1) * 2) * 2 ^ B64.bias); [ring|].
        now rewrite <- Eb. }
    apply rnd_exact; [exact P2|exact HW53|exact Hg]. }
  assert (Vh : has_value (num_of_Z W / 2) (W * 2 ^ (B64.bias - 1))).
  { rewrite <- E. apply div_value; [exact VW|exact V2|exact P2|].
    rewrite E. apply Z.le_lt_trans with (units W); [|exact HWtop].
    unfold units. rewrite Eb, Z.mul_assoc.
    rewrite <- (Z.mul_1_r (W * 2 ^ (B64.bias - 1))) at 1.
    apply Z.mul_le_mono_nonneg_l; [|discriminate].
    apply Z.mul_nonneg_nonneg; [exact HW0|apply Z.lt_le_incl, Pp]. }
  pose proof (Math_floor_value _ _ Vh) as Vf.
  assert (Eq : W * 2 ^ (B64.bias - 1) / 2 ^ B64.bias = W / 2).
  { rewrite Eb, (Z.mul_comm (2 ^ (B64.bias - 1)) 2).
    rewrite Z.div_mul_cancel_r; [reflexivity|discriminate|].
    apply Z.neq_sym, Z.lt_neq, Pp. }
  rewrite Eq in Vf.
  assert (Vs : has_value (Math_floor (num_of_Z W / 2) * num_of_Z (2 ^ 1))
                 (units (W / 2) * 2 ^ 1)).
  { apply (scale_value _ _ 1 (B64.bias + 52) Vf H1 Hn); [|exact Hn1].
    rewrite <- units_pow2 by discriminate. exact Hu52. }
  change (num_of_Z (2 ^ 1)) with 2%float in Vs.
  apply (has_value_inj _ _ (units (2 * (W / 2)))); [|exact VE].
  eapply has_value_eq; [exact Vs|]. unfold units. ring.
Qed.

(** The height of a grid of cells [2^k] pixels high: a whole number of
    cells. *)
Lemma cell_height (AW : Z) (va : float) (a : Z) (k : Z) :
  0 <= AW < 2 ^ 53 -> has_value va a -> 2 ^ (B64.bias - 32) <= a ->
  1 <= k <= 2 ->
  exists rows, 0 <= rows /\
    has_value (Math_floor (num_of_Z AW / va * 0.5 / num_of_Z (2 ^ k))
               * num_of_Z (2 ^ k)) (units (2 ^ k * rows)).
Proof.
  intros HA Va Ba Hk.
  pose proof (pow2_pos B64.bias ltac:(now rewrite bias_val)) as PB.
  pose proof (num_of_Z_value AW HA) as VA.
  destruct (div_bounded _ _ _ _ (B64.bias + 53) (B64.bias - 32) VA Va)
    as (v1 & V1 & B1); try (rewrite ?gmin_val, ?bias_val; lia); try exact Ba.
  { rewrite <- units_pow2 by lia. apply units_le. lia. }
  destruct (mul_bounded _ _ _ _ _ (B64.bias - 1) V1 has_value_half B1)
    as (v2 & V2 & B2); try (rewrite ?gmin_val, ?bias_val; lia).
  assert (Hk53 : 2 ^ k < 2 ^ 53) by (apply Z.pow_lt_mono_r; lia).
  pose proof (pow2_pos k ltac:(lia)) as Pk.
  pose proof (num_of_Z_value (2 ^ k) ltac:(lia)) as Vk.
  destruct (div_bounded _ _ _ _ _ (B64.bias + k) V2 Vk B2)
    as (v3 & V3 & B3); try (rewrite ?gmin_val, ?bias_val; lia).
  { rewrite <- units_pow2 by lia. lia. }
  pose proof (Math_floor_value _ _ V3) as Vf.
  pose proof (has_value_nonneg _ _ V3) as P3.
  set (rows := v3 / 2 ^ B64.bias) in *.
  assert (Hr : 0 <= rows) by (apply Z.div_pos; lia).
  assert (Hrv : units rows <= v3)
    by (unfold units, rows; rewrite Z.mul_comm; apply Z.mul_div_le; lia).
  exists rows. split; [exact Hr|].
  eapply has_value_eq.
  - eapply (scale_value _ _ k _ Vf); [lia| |eapply Z.le_trans; [exact Hrv|exact B3]|].
    + rewrite bias_val. lia.
    + rewrite bias_val. lia.
  - unfold units. ring.
Qed.

(** X18.  The frame [_calculateDimensions] asks for is made of whole
    cells.  For a non-negative integer width and the integer dimensions
    the media element reports (1920 by 1080 standing in for a zero), the
    width is the configured width rounded down to a multiple of the cell
    width, and the height is a non-negative multiple of the cell height:
    2 by 4 for 'braille', 2 by 2 for 'quadrants', 1 by 1 otherwise. *)
Theorem calculateDimensions_whole_cells (W VW VH : Z) (name : string) :
  0 <= W < 2 ^ 53 -> 0 <= VW < 2 ^ 32 -> 0 <= VH < 2 ^ 32 ->
  let dims := _calculateDimensions (num_of_Z W) name (num_of_Z VW) (num_of_Z VH) in
  let cw := Z.of_nat (cellWidth name) in
  let ch := Z.of_nat (cellHeight name) in
  fst dims = num_of_Z (cw * (W / cw)) /\
  exists rows, 0 <= rows /\ has_value (snd dims) (units (ch * rows)).
Proof.
  intros HW HVW HVH. cbv zeta.
  destruct (or_default_value VW 1920 HVW ltac:(lia)) as (VW' & HVW' & Vw).
  destruct (or_default_value VH 1080 HVH ltac:(lia)) as (VH' & HVH' & Vh).
  change (num_of_Z 1920) with 1920%float in Vw.
  change (num_of_Z 1080) with 1080%float in Vh.
  destruct (aspect_value VW' VH' HVW' HVH' _ _ Vw Vh) as (a & Va & Ba).
  unfold _calculateDimensions, cellWidth, cellHeight. cbv zeta.
  set (va := (or_default (num_of_Z VW) 1920 / or_default (num_of_Z VH) 1080)%float) in *.
  assert (HA : 0 <= 2 * (W / 2) < 2 ^ 53).
  { pose proof (Z.mul_div_le W 2 ltac:(lia)).
    assert (0 <= W / 2) by (apply Z.div_pos; lia). lia. }
  destruct (String.eqb name "braille") eqn:Eb; cbn [orb fst snd].
  - split; [now apply even_width|].
    rewrite even_width by assumption.
    exact (cell_height (2 * (W / 2)) va a 2 HA Va Ba ltac:(lia)).
  - destruct (String.eqb name "quadrants") eqn:Eq; cbn [fst snd].
    + split; [now apply even_width|].
      rewrite even_width by assumption.
      exact (cell_height (2 * (W / 2)) va a 1 HA Va Ba ltac:(lia)).
    + split; [now rewrite Z.mul_1_l, Z.div_1_r|].
      pose proof (num_of_Z_value W HW) as Vx.
      destruct (div_bounded _ _ _ _ (B64.bias + 53) (B64.bias - 32) Vx Va)
        as (v1 & V1 & B1); try (rewrite ?gmin_val, ?bias_val; lia); try exact Ba.
      { rewrite <- units_pow2 by lia. apply units_le. lia. }
      destruct (mul_bounded _ _ _ _ _ (B64.bias - 1) V1 has_value_half B1)
        as (v2 & V2 & B2); try (rewrite ?gmin_val, ?bias_val; lia).
      destruct (Math_round_value _ _ V2) as (k & Hk & Vr).
      exists k. split; [exact Hk|]. now rewrite Z.mul_1_l.
Qed.

Lemma calculateDimensions_whole_cells_witness :
  fst (_calculateDimensions 120 "braille" 0 0) = 120%float /\
  exists rows, 0 <= rows /\
    has_value (snd (_calculateDimensions 120 "braille" 0 0)) (units (4 * rows)).
Proof.
  exact (calculateDimensions_whole_cells 120 0 0 "braille"
           ltac:(lia) ltac:(lia) ltac:(lia)).
Defined.
